(** * tcli: the web-content discovery core of [src/main.cpp]

    A shallow embedding of the URL resolver ([combineUrl]), the link
    extractor ([extractLinks]), the heuristic classifier, the recursive
    enumerator ([enumerateDirectories]) and the flat lister
    ([listGlobalRecursive]), with the properties the specification states
    about them.

    Conventions.
    - A [std::string] is a list of 8-bit characters ([list ascii]); string
      literals are read through the coercion [list_ascii_of_string].
    - A [std::regex] is a syntax tree ([regex]) run by a backtracking
      matcher ([exec]) with ECMAScript priorities: greedy and lazy
      quantifiers, leftmost match first.
    - The network, [rand()] and [std::cout] are an environment ([Env]) that
      answers from the history of events, and a trace of events in the
      [World]; the function-local statics [staticVisited] and
      [notFoundCache] are fields of the [World].
    - [std::async] tasks are run one after the other in the order in which
      the source launches them, which is one of the orders the program can
      take. What is stated of a level or of a walk does not depend on this
      order, and the lock block of the visited set is also given with its
      threads and [visMutex], for every schedule ([Pool]).
    - An [int] is an integer with the wrap-around of the machine written
      out where the source can leave the range ([int_wrap]).
    - An exception is an outcome of its own ([Throws], [Thrown]): of
      [std::stoi] on a depth setting, of the constructor of the indent, of
      [fs::exists] and [fs::is_directory]. Nothing in the source catches
      one. *)

From Stdlib Require Import ZArith Ascii String List Lia Bool.
From Stdlib Require Import DecimalString.
From stdpp Require Import gmap strings list fin_maps sorting.

Local Open Scope Z_scope.
Local Open Scope list_scope.

(** ** Strings *)

Abbreviation str := (list ascii).

Coercion list_ascii_of_string : string >-> list.

(** The double quote, as a character and as a one-character string. *)
Definition dquote : ascii := "034"%char.
Definition DQ : str := [dquote].

Definition ascii_eqb (a b : ascii) : bool := Ascii.eqb a b.

Arguments ascii_eqb : simpl never.

(** [str == prefix...]: [startsWith] of the source, [std::equal] over the
    prefix after the size test. *)
Fixpoint startsWith (s prefix : str) {struct prefix} : bool :=
  match prefix, s with
  | [], _ => true
  | _ :: _, [] => false
  | p :: prefix', c :: s' => ascii_eqb p c && startsWith s' prefix'
  end.

(** [s.find(pat) != std::string::npos]. *)
Fixpoint contains (s pat : str) : bool :=
  startsWith s pat ||
  match s with
  | [] => false
  | _ :: s' => contains s' pat
  end.

(** [s.substr(0, n)]. *)
Definition substr0 (s : str) (n : nat) : str := take n s.

(** [s == t] on [std::string]. *)
Fixpoint str_eqb (s t : str) : bool :=
  match s, t with
  | [], [] => true
  | c :: s', d :: t' => ascii_eqb c d && str_eqb s' t'
  | _, _ => false
  end.

(** [if (!b.empty() && b.back() == '/') b.pop_back();] *)
Definition pop_slash (b : str) : str :=
  match last b with
  | Some c => if ascii_eqb c "/" then removelast b else b
  | None => b
  end.

(** [!link.empty() && link.back() == '/'] *)
Definition ends_with_slash (s : str) : bool :=
  match last s with
  | Some c => ascii_eqb c "/"
  | None => false
  end.

(** ** Regular expressions

    The three patterns of the source use literals, [.], [\s], negated
    one-character classes, [^], an optional group, greedy and lazy
    repetition of one-character atoms, and one capture group. *)

Inductive atom : Type :=
| Chr (c : ascii)     (* an ordinary character *)
| AnyChar             (* .     *)
| Space               (* \s    *)
| NotChr (c : ascii). (* [^c]  *)

Inductive regex : Type :=
| Eps
| Atom (a : atom)
| Bol                                (* ^ *)
| Seq (r1 r2 : regex)
| Opt (r : regex)                    (* (?:r)?  and  c? *)
| Star (greedy : bool) (a : atom)    (* a*  and  a*? *)
| Group (i : nat) (r : regex).       (* ( r ), the i-th capture *)

(** [a+] *)
Definition Plus (a : atom) : regex := Seq (Atom a) (Star true a).

(** A literal run of ordinary characters. *)
Fixpoint Lit (l : str) : regex :=
  match l with
  | [] => Eps
  | c :: l' => Seq (Atom (Chr c)) (Lit l')
  end.

(** [std::tolower] in the "C" locale: what [std::regex::icase] compares. *)
Definition tolower (c : ascii) : ascii :=
  let n := nat_of_ascii c in
  if ((65 <=? n) && (n <=? 90))%nat then ascii_of_nat (n + 32) else c.

Definition translate (icase : bool) (c : ascii) : ascii :=
  if icase then tolower c else c.

(** [isspace] in the "C" locale: space, \t, \n, \v, \f, \r. *)
Definition is_space (c : ascii) : bool :=
  let n := nat_of_ascii c in
  ((n =? 32) || ((9 <=? n) && (n <=? 13)))%nat.

(** [.] of ECMAScript: anything but a line terminator. *)
Definition is_line_terminator (c : ascii) : bool :=
  let n := nat_of_ascii c in ((n =? 10) || (n =? 13))%nat.

Definition atom_ok (icase : bool) (a : atom) (c : ascii) : bool :=
  match a with
  | Chr x => ascii_eqb (translate icase x) (translate icase c)
  | AnyChar => negb (is_line_terminator c)
  | Space => is_space c
  | NotChr x => negb (ascii_eqb (translate icase x) (translate icase c))
  end.

(** The matcher's state: what is left of the subject, and the captures
    made so far (latest first). *)
Record mstate : Type := MState {
  m_rest : str;
  m_caps : list (nat * str)
}.

Definition or_else {A} (x : option A) (y : option A) : option A :=
  match x with Some _ => x | None => y end.

(** Repetition of a one-character atom. Greedy: one more character first,
    then the continuation; lazy: the continuation first. *)
Fixpoint star (icase greedy : bool) (a : atom) (s : str) (caps : list (nat * str))
    (k : mstate -> option mstate) : option mstate :=
  match s with
  | c :: s' =>
      if atom_ok icase a c then
        if greedy then or_else (star icase greedy a s' caps k) (k (MState s caps))
        else or_else (k (MState s caps)) (star icase greedy a s' caps k)
      else k (MState s caps)
  | [] => k (MState [] caps)
  end.

(** [exec icase n0 r st k]: match [r] at [st], then run [k] on what is
    left; backtrack into [r] when [k] fails. [n0] is the length of the
    whole subject: [^] holds where all of it is still to be read. *)
Fixpoint exec (icase : bool) (n0 : nat) (r : regex) (st : mstate)
    (k : mstate -> option mstate) : option mstate :=
  match r with
  | Eps => k st
  | Atom a =>
      match m_rest st with
      | c :: s' => if atom_ok icase a c then k (MState s' (m_caps st)) else None
      | [] => None
      end
  | Bol => if (length (m_rest st) =? n0)%nat then k st else None
  | Seq r1 r2 => exec icase n0 r1 st (fun st' => exec icase n0 r2 st' k)
  | Opt r1 => or_else (exec icase n0 r1 st k) (k st)
  | Star g a => star icase g a (m_rest st) (m_caps st) k
  | Group i r1 =>
      exec icase n0 r1 st (fun st' =>
        k (MState (m_rest st')
             ((i, take (length (m_rest st) - length (m_rest st')) (m_rest st))
                :: m_caps st')))
  end.

(** A match: where it starts in the searched range, the matched text
    ([str(0)]), the captures and the text after it. *)
Record rmatch : Type := RMatch {
  rm_prefix : str;
  rm_str0 : str;
  rm_caps : list (nat * str);
  rm_suffix : str
}.

(** [m[i].str()]: the empty string for a group that did not take part. *)
Fixpoint cap_lookup (i : nat) (caps : list (nat * str)) : str :=
  match caps with
  | [] => []
  | (j, v) :: caps' => if (i =? j)%nat then v else cap_lookup i caps'
  end.

Definition rm_group (i : nat) (m : rmatch) : str := cap_lookup i (rm_caps m).

(** [std::regex_search]: the first start position, from the left, at which
    the pattern matches. [pre] is the text already skipped (reversed). *)
Fixpoint search_from (icase : bool) (n0 : nat) (r : regex) (pre : str) (s : str)
    : option rmatch :=
  match exec icase n0 r (MState s []) Some with
  | Some st =>
      Some (RMatch (rev pre) (take (length s - length (m_rest st)) s)
                   (m_caps st) (m_rest st))
  | None =>
      match s with
      | [] => None
      | c :: s' => search_from icase n0 r (c :: pre) s'
      end
  end.

Definition regex_search (icase : bool) (r : regex) (s : str) : option rmatch :=
  search_from icase (length s) r [] s.

(** [std::sregex_iterator]: each search starts where the match before it
    ended, with [match_prev_avail]: [^] no longer holds there, which the
    length [S n0], that of no suffix of the subject, sees to. After an
    empty match the iterator first asks for a non-empty match at the same
    place and then moves one character on. *)
Definition exec_nonempty (icase : bool) (n0 : nat) (r : regex) (s : str) : option rmatch :=
  match exec icase n0 r (MState s [])
          (fun st => if (length (m_rest st) =? length s)%nat then None else Some st) with
  | Some st =>
      Some (RMatch [] (take (length s - length (m_rest st)) s) (m_caps st) (m_rest st))
  | None => None
  end.

Fixpoint iterate (fuel : nat) (icase : bool) (n0 : nat) (r : regex) (s : str)
    : list rmatch :=
  match fuel with
  | O => []
  | S fuel' =>
      match search_from icase n0 r [] s with
      | None => []
      | Some m =>
          m ::
          match rm_str0 m, rm_suffix m with
          | _ :: _, rest => iterate fuel' icase (S n0) r rest
          | [], [] => []
          | [], c :: rest' =>
              match exec_nonempty icase (S n0) r (c :: rest') with
              | Some m' => m' :: iterate fuel' icase (S n0) r (rm_suffix m')
              | None => iterate fuel' icase (S n0) r rest'
              end
          end
      end
  end.

Definition regex_iterator (icase : bool) (r : regex) (s : str) : list rmatch :=
  iterate (S (length s)) icase (length s) r s.

(** ** The three patterns of the source *)

(** [^https?://[^/]+] *)
Definition domain_regex : regex :=
  Seq Bol (Seq (Lit "http") (Seq (Opt (Atom (Chr "s")))
    (Seq (Lit "://") (Plus (NotChr "/"))))).

(** [<a\s+(?:[^>]*?\s+)?href=Q( [^Q]* )Q] where Q stands for the double
    quote and the blanks inside the capture group are not part of the
    pattern; [std::regex::icase] *)
Definition href_regex : regex :=
  Seq (Lit "<a") (Seq (Plus Space)
    (Seq (Opt (Seq (Star false (NotChr ">")) (Plus Space)))
      (Seq (Lit ("href=" ++ DQ))
        (Seq (Group 1 (Star true (NotChr dquote))) (Atom (Chr dquote)))))).

(** [<title>( .*? )</title>] (blanks not part of the pattern),
    [std::regex::icase] *)
Definition title_regex : regex :=
  Seq (Lit "<title>") (Seq (Group 1 (Star false AnyChar)) (Lit "</title>")).

(** ** URL resolver *)

Definition combineUrl (base relative : str) : str :=
  match relative with
  | [] => base
  | r0 :: _ =>
      if startsWith relative "http://" || startsWith relative "https://"
      then relative
      else
        let b := pop_slash base in
        if ascii_eqb r0 "/" then
          match regex_search false domain_regex b with
          | Some m => rm_str0 m ++ relative
          | None => b ++ relative
          end
        else b ++ "/" ++ relative
  end.

(** ** Link extractor *)

Definition extractLinks (html : str) : list str :=
  map (rm_group 1) (regex_iterator true href_regex html).

(** ** Static data of the core *)

Definition commonDirs : list str :=
  [ "admin/" : str; "private/" : str; "secret/" : str; "hidden/" : str;
    "config/" : str; "backup/" : str; "data/" : str; "uploads/" : str;
    "files/" : str; "tmp/" : str; "test/" : str; "dev/" : str; "logs/" : str;
    "bin/" : str; "cgi-bin/" : str; ".git/" : str; ".svn/" : str;
    ".env/" : str; ".htaccess" : str; ".htpasswd" : str; "db/" : str;
    "db_backup/" : str; "old/" : str; "new/" : str; "staging/" : str;
    "beta/" : str; "alpha/" : str; "api/" : str; "assets/" : str;
    "images/" : str; "css/" : str; "js/" : str ].

Definition dirPatterns : list str :=
  [ "Index of" : str; "Parent Directory" : str; "<title>Index of" : str;
    "Directory listing for" : str; "To Parent Directory" : str ].

(** [color.hpp] *)
Definition ESC : str := ["027"%char].
Definition NL : str := ["010"%char].
Definition COLOR_GRAY : str := ESC ++ "[90m".
Definition COLOR_YELLOW : str := ESC ++ "[93m".
Definition COLOR_PURPLE : str := ESC ++ "[95m".
Definition COLOR_CYAN : str := ESC ++ "[96m".
Definition COLOR_GREEN : str := ESC ++ "[38;5;42m".
Definition COLOR_RESET : str := ESC ++ "[0m".
Definition COLOR_RED : str := ESC ++ "[91m".
Definition COLOR_BLUE : str := ESC ++ "[94m".
Definition COLOR_PINK : str := ESC ++ "[38;5;213m".

(** ** Heuristic classifier: the five signals and the score *)

Record Signals : Type := MkSignals {
  not404 : bool;
  statusOk : bool;
  looksLikeDir : bool;
  titleOk : bool;
  notRedirect : bool
}.

Definition sig_not404 (probe notFoundSig : str) : bool :=
  negb (str_eqb (substr0 probe 512) notFoundSig).

(** [code] is what [fgets] read from the status request, [None] when
    [popen] failed. *)
Definition sig_statusOk (code : option str) : bool :=
  match code with
  | Some c => contains c "200" || contains c "301" || contains c "302"
  | None => false
  end.

Definition sig_looksLikeDir (probe : str) : bool :=
  existsb (fun pat => contains probe pat) dirPatterns.

Definition probe_title (probe : str) : str :=
  match regex_search true title_regex probe with
  | Some m => rm_group 1 m
  | None => []
  end.

Definition is_empty {A : Type} (s : list A) : bool :=
  match s with [] => true | _ => false end.

Definition sig_titleOk (probe : str) : bool :=
  let title := probe_title probe in
  negb (is_empty title) && negb (contains title "404")
  && negb (contains title "Not Found").

Definition refresh_marker : str := "http-equiv=" ++ DQ ++ "refresh" ++ DQ.

Definition sig_notRedirect (probe baseUrl : str) : bool :=
  if contains probe refresh_marker && contains probe baseUrl then false else true.

Definition signals_of (baseUrl probe notFoundSig : str) (code : option str) : Signals :=
  {| not404 := sig_not404 probe notFoundSig;
     statusOk := sig_statusOk code;
     looksLikeDir := sig_looksLikeDir probe;
     titleOk := sig_titleOk probe;
     notRedirect := sig_notRedirect probe baseUrl |}.

(** [int score = 0; if (not404) score++; ...] *)
Definition score_of (sg : Signals) : Z :=
  let score := 0 in
  let score := if not404 sg then score + 1 else score in
  let score := if statusOk sg then score + 1 else score in
  let score := if looksLikeDir sg then score + 1 else score in
  let score := if titleOk sg then score + 1 else score in
  let score := if notRedirect sg then score + 1 else score in
  score.

Definition accepted (sg : Signals) : bool := score_of sg >=? 2.

(** The outcome of one probe, given what the two requests returned: [None]
    when the body is empty and nothing is classified. *)
Definition classify (baseUrl probe notFoundSig : str) (code : option str)
    : option (bool * Z * Signals) :=
  match probe with
  | [] => None
  | _ :: _ =>
      let sg := signals_of baseUrl probe notFoundSig code in
      Some (accepted sg, score_of sg, sg)
  end.

(** ** The environment and the shared state *)

Inductive Event : Type :=
| EvGet (url body : str)                  (* httpGet *)
| EvStatus (url : str) (code : option str) (* the status-code request *)
| EvRand (r : Z)                          (* rand() *)
| EvOut (text : str).                     (* one statement on std::cout *)

(** What the outside world answers, given everything that happened before. *)
Record Env : Type := MkEnv {
  env_get : list Event -> str -> str;
  env_status : list Event -> str -> option str;
  env_rand : list Event -> Z
}.

(** The white space that the sentry of [operator>>] and [std::ws] skip. *)
Fixpoint skip_ws (s : str) : str :=
  match s with
  | c :: s' => if is_space c then skip_ws s' else s
  | [] => []
  end.

(** [std::stoi]: leading white space, a sign, then decimal digits up to
    the first other character. [None] stands for the exception thrown
    when there is no digit or the value is no [int]. *)
Definition is_digit (c : ascii) : bool :=
  let n := nat_of_ascii c in ((48 <=? n) && (n <=? 57))%nat.

Fixpoint digits_value (s : str) (acc : Z) : Z :=
  match s with
  | c :: s' =>
      if is_digit c then digits_value s' (10 * acc + (Z.of_nat (nat_of_ascii c) - 48))
      else acc
  | [] => acc
  end.

Definition stoi (s : str) : option Z :=
  let s1 := skip_ws s in
  let '(negative, s2) :=
    match s1 with
    | c :: s' =>
        if ascii_eqb c "-" then (true, s')
        else if ascii_eqb c "+" then (false, s') else (false, s1)
    | [] => (false, s1)
    end in
  match s2 with
  | c :: _ =>
      if is_digit c then
        let v := digits_value s2 0 in
        let v := if negative then - v else v in
        if (-2147483648 <=? v) && (v <=? 2147483647) then Some v else None
      else None
  | [] => None
  end.

(** [config[max_enum_depth]] and [config[max_list_depth]]: the two
    depth settings as the configuration holds them, texts that the walks
    give to [std::stoi]. No walk changes them. *)
Record Config : Type := MkConfig {
  max_enum_depth : str;
  max_list_depth : str
}.

Record World : Type := MkWorld {
  trace : list Event;
  staticVisited : gset str;
  notFoundCache : gmap str str
}.

Definition log (e : Event) (w : World) : World :=
  MkWorld (trace w ++ [e]) (staticVisited w) (notFoundCache w).

Definition emit (text : str) (w : World) : World := log (EvOut text) w.

(** How a call ends: it returns, or an exception leaves it; either way in
    a state of the process. *)
Inductive Ending : Type :=
| Returns (w : World)
| Throws (w : World).

Definition after (e : Ending) : World :=
  match e with Returns w | Throws w => w end.

(** [f.wait()] on the future of a [std::async] task: the state the task
    left. An exception that ended the task stays in its future, which is
    never asked for it. *)
Definition joined (r : option Ending) : option World := option_map after r.

(** [std::set<std::string>]: kept sorted, iterated in order. *)
Fixpoint str_ltb (s t : str) : bool :=
  match s, t with
  | _, [] => false
  | [], _ :: _ => true
  | c :: s', d :: t' =>
      if (nat_of_ascii c <? nat_of_ascii d)%nat then true
      else if ascii_eqb c d then str_ltb s' t' else false
  end.

Fixpoint set_insert (x : str) (l : list str) : list str :=
  match l with
  | [] => [x]
  | y :: l' =>
      if str_ltb x y then x :: l
      else if str_ltb y x then y :: set_insert x l'
      else l
  end.

Definition set_count (x : str) (l : list str) : bool :=
  existsb (fun y => str_eqb x y) l.

(** [std::to_string] of an [int]. *)
Definition to_string (z : Z) : str := NilZero.string_of_int (Z.to_int z).

(** An [int] after an operation that left its range: the value wrapped
    around, as the machine computes it (the standard leaves it open). *)
Definition int_wrap (z : Z) : Z := (z + 2 ^ 31) mod 2 ^ 32 - 2 ^ 31.

(** [std::string indent(depth * 2, ' ')]. The count is a [size_t]: a
    negative product is a count above [max_size()], for which the
    constructor throws [std::length_error], here [None]. The product is
    negative for a negative depth, and for a depth from [2 ^ 30] on, where
    it leaves the range of [int]. *)
Definition indent_of (depth : Z) : option str :=
  let count := int_wrap (depth * 2) in
  if count <? 0 then None else Some (replicate (Z.to_nat count) " "%char).

Definition is_dir_link (link : str) : bool :=
  negb (str_eqb link "../") && negb (str_eqb link "./")
  && negb (is_empty link) && ends_with_slash link.

Definition knownDirs (links : list str) : list str :=
  fold_left (fun found link => if is_dir_link link then set_insert link found else found)
            links [].

Definition signal_tags (sg : Signals) : str :=
  (if not404 sg then "not404 " : str else "")
  ++ (if statusOk sg then "statusOK " : str else "")
  ++ (if looksLikeDir sg then "dirPattern " : str else "")
  ++ (if titleOk sg then "titleOK " : str else "")
  ++ (if notRedirect sg then "notRedirect" : str else "").

(** The lines written on [std::cout]. *)
Definition enumerating_line (indent baseUrl : str) : str :=
  indent ++ COLOR_GREEN ++ "Enumerating: " ++ baseUrl ++ COLOR_RESET ++ NL.

Definition no_response_line (indent : str) : str :=
  indent ++ COLOR_YELLOW ++ "(No response or empty)" ++ COLOR_RESET ++ NL.

Definition found_line (indent dir : str) (sg : Signals) : str :=
  indent ++ COLOR_GREEN ++ "[ OK ]" ++ COLOR_RESET ++ " " ++ dir ++ "  "
  ++ COLOR_GRAY ++ "(" ++ signal_tags sg ++ ")" ++ COLOR_RESET ++ NL.

Definition dir_line (indent dir : str) : str :=
  indent ++ COLOR_PURPLE ++ "[" ++ dir ++ "]" ++ COLOR_RESET ++ NL.

Definition listing_line (indent url : str) : str :=
  indent ++ COLOR_GREEN ++ "Listing: " ++ url ++ COLOR_RESET ++ NL.

Definition notice_line (indent text : str) : str :=
  indent ++ COLOR_YELLOW ++ text ++ COLOR_RESET ++ NL.

(** [file.substr(file.find_last_of('.') + 1)]: the text after the last
    dot, the whole name when there is none. *)
Fixpoint ext_of (file : str) : str :=
  match file with
  | [] => []
  | c :: rest =>
      if contains rest "." then ext_of rest
      else if ascii_eqb c "." then rest else file
  end.

Definition one_of (s : str) (l : list str) : bool := existsb (str_eqb s) l.

Definition file_color (file : str) : str :=
  let ext := ext_of file in
  if one_of ext ["cpp" : str; "h" : str; "hpp" : str; "c" : str] then COLOR_BLUE
  else if one_of ext ["sh" : str; "py" : str; "pl" : str; "rb" : str] then COLOR_GREEN
  else if one_of ext ["txt" : str; "md" : str] then COLOR_YELLOW
  else if one_of ext ["zip" : str; "tar" : str; "gz" : str; "rar" : str] then COLOR_RED
  else if one_of ext ["json" : str; "xml" : str] then COLOR_CYAN
  else if one_of ext ["jpg" : str; "png" : str; "gif" : str] then COLOR_PINK
  else COLOR_GRAY.

Definition file_line (indent file : str) : str :=
  indent ++ "  " ++ file_color file ++ file ++ COLOR_RESET ++ NL.

(** The partition loop of the lister: [directories] and [files], each in
    document order. *)
Definition skip_link (link : str) : bool :=
  str_eqb link "../" || str_eqb link "./" || is_empty link.

Definition partition_links (links : list str) : list str * list str :=
  fold_left (fun df link =>
               if skip_link link then df
               else if ends_with_slash link then (fst df ++ [link], snd df)
               else (fst df, snd df ++ [link]))
            links ([], []).

(** [if (maxDepth == -1) maxDepth = std::stoi(config[...]);] The bound
    in force, [None] when [std::stoi] throws. *)
Definition depth_limit (configured : str) (maxDepth : Z) : option Z :=
  if maxDepth =? -1 then stoi configured else Some maxDepth.

(** The nonce path probed for the baseline. *)
Definition fake404_url (baseUrl : str) (r : Z) : str :=
  combineUrl baseUrl ("__tcli_fake404__" ++ to_string r ++ "/").

(** The loop that launches one recursive call per directory and joins
    them: the calls one after the other, each on the state the one before
    left; [None] as soon as one of them ran out of fuel. The order in
    which the tasks really run is not fixed by the source: what is proved
    of a walk below does not depend on it. *)
Definition branches (f : World -> str -> option World) (dirs : list str)
    (w : World) : option World :=
  fold_left (fun ow d => match ow with None => None | Some w => f w d end)
            dirs (Some w).

(** The check and the insert under [visMutex], without the depth test:
    [visited->count(baseUrl)] and [visited->insert(baseUrl)]. *)
Definition visitAndCheck (url : str) (w : World) : bool * World :=
  if bool_decide (url ∈ staticVisited w) then (false, w)
  else (true, MkWorld (trace w) ({[url]} ∪ staticVisited w) (notFoundCache w)).

Section Engine.

Variable E : Env.
Variable cfg : Config.

Definition httpGet (url : str) (w : World) : str * World :=
  let body := env_get E (trace w) url in
  (body, log (EvGet url body) w).

Definition httpStatus (url : str) (w : World) : option str * World :=
  let code := env_status E (trace w) url in
  (code, log (EvStatus url code) w).

Definition c_rand (w : World) : Z * World :=
  let r := env_rand E (trace w) in
  (r, log (EvRand r) w).

(** The block under [visMutex] that reads or fills [notFoundCache]. *)
Definition baselineSignature (baseUrl : str) (w : World) : str * World :=
  match notFoundCache w !! baseUrl with
  | Some sig => (sig, w)
  | None =>
      let '(r, w1) := c_rand w in
      let '(fake404, w2) := httpGet (fake404_url baseUrl r) w1 in
      let notFoundSig := substr0 fake404 512 in
      (notFoundSig,
       MkWorld (trace w2) (staticVisited w2) (<[baseUrl := notFoundSig]> (notFoundCache w2)))
  end.

(** One classification task of the probing loop. *)
Definition probeTask (baseUrl indent notFoundSig dir : str)
    (fw : list str * World) : list str * World :=
  let '(foundDirs, w) := fw in
  let tryUrl := combineUrl baseUrl dir in
  let '(probe, w1) := httpGet tryUrl w in
  match probe with
  | [] => (foundDirs, w1)
  | _ :: _ =>
      let '(code, w2) := httpStatus tryUrl w1 in
      let sg := signals_of baseUrl probe notFoundSig code in
      if score_of sg >=? 2 then
        (set_insert dir foundDirs, emit (found_line indent dir sg) w2)
      else (foundDirs, w2)
  end.

(** [for (const auto& dir : commonDirs) { if (foundDirs.count(dir)) continue; ... }]
    and the barrier after it. The tasks are run in the order of [dirs],
    one of the orders the program can take; a task does not change
    whether another name is in [foundDirs], so the same names are probed
    in every order. *)
Definition probeAll (baseUrl indent notFoundSig : str) (dirs : list str)
    (fw : list str * World) : list str * World :=
  fold_left (fun fw dir =>
               if set_count dir (fst fw) then fw
               else probeTask baseUrl indent notFoundSig dir fw)
            dirs fw.

(** What one call does between the fetch of [baseUrl] and the recursion:
    the baseline, the links, the known directories and the probing loop. *)
Definition enumLevel (baseUrl indent html : str) (w : World) : list str * World :=
  let '(notFoundSig, w) := baselineSignature baseUrl w in
  let links := extractLinks html in
  let foundDirs := knownDirs links in
  probeAll baseUrl indent notFoundSig commonDirs (foundDirs, w).

(** [enumerateDirectories(baseUrl, depth, maxDepth)] on the static visited
    set, which is what every call of the program uses. The call throws
    where [std::stoi] or the constructor of [indent] does, the latter
    after the insert into the visited set. [depth + 1] is computed only
    once the indent was built, so for a depth below [2 ^ 30]: it stays in
    the range of [int]. [fuel] bounds the nesting of the recursive calls;
    [None] only when it runs out. *)
Fixpoint enumerateDirectories (fuel : nat) (baseUrl : str) (depth maxDepth : Z)
    (w : World) {struct fuel} : option Ending :=
  match depth_limit (max_enum_depth cfg) maxDepth with
  | None => Some (Throws w)
  | Some maxDepth =>
      if depth >? maxDepth then Some (Returns w)
      else
        let '(fresh, w) := visitAndCheck baseUrl w in
        if negb fresh then Some (Returns w)
        else
          match indent_of depth with
          | None => Some (Throws w)
          | Some indent =>
              let w := emit (enumerating_line indent baseUrl) w in
              let '(html, w) := httpGet baseUrl w in
              match html with
              | [] => Some (Returns (emit (no_response_line indent) w))
              | _ :: _ =>
                  let '(foundDirs, w) := enumLevel baseUrl indent html w in
                  match fuel with
                  | O => None
                  | S fuel' =>
                      option_map Returns
                        (branches (fun w dir =>
                                     let fullUrl := combineUrl baseUrl dir in
                                     let w := emit (dir_line indent dir) w in
                                     joined (enumerateDirectories fuel' fullUrl
                                               (depth + 1) maxDepth w))
                                  foundDirs w)
                  end
              end
          end
  end.

(** [listGlobalRecursive(url, depth, maxDepth)], with the same two places
    where an exception leaves it. *)
Fixpoint listGlobalRecursive (fuel : nat) (url : str) (depth maxDepth : Z)
    (w : World) {struct fuel} : option Ending :=
  match depth_limit (max_list_depth cfg) maxDepth with
  | None => Some (Throws w)
  | Some maxDepth =>
      if depth >? maxDepth then Some (Returns w)
      else
        match indent_of depth with
        | None => Some (Throws w)
        | Some indent =>
            let w := emit (listing_line indent url) w in
            let '(html, w) := httpGet url w in
            match html with
            | [] =>
                Some (Returns (emit (notice_line indent "(Failed to fetch or empty content)") w))
            | _ :: _ =>
                let links := extractLinks html in
                match links with
                | [] => Some (Returns (emit (notice_line indent "(No links found)") w))
                | _ :: _ =>
                    let '(directories, files) := partition_links links in
                    if is_empty files && is_empty directories then
                      Some (Returns (emit (notice_line indent
                                             "(No files or directories found)") w))
                    else
                      let w := fold_left (fun w file => emit (file_line indent file) w)
                                         files w in
                      match fuel with
                      | O => None
                      | S fuel' =>
                          option_map Returns
                            (branches (fun w dir =>
                                         let fullUrl := combineUrl url dir in
                                         let w := emit (dir_line indent dir) w in
                                         joined (listGlobalRecursive fuel' fullUrl
                                                   (depth + 1) maxDepth w))
                                      directories w)
                      end
                end
            end
        end
  end.

End Engine.

(** * Definitions that follow the specification's wording

    They are compared with the functions above in the theorems below.
    Lengths and positions are natural numbers from here on. *)

Local Close Scope Z_scope.

(** ** Section 4.1: the resolver *)

(** The longest run of characters other than [/] at the start of a text,
    and what follows it. *)
Fixpoint host_of (s : str) : str :=
  match s with
  | c :: s' => if ascii_eqb "/" c then [] else c :: host_of s'
  | [] => []
  end.

Fixpoint after_host (s : str) : str :=
  match s with
  | c :: s' => if ascii_eqb "/" c then s else after_host s'
  | [] => []
  end.

(** Section 4.1: the [scheme://host] prefix of [base], for a scheme among
    [http] and [https] and a host that is not empty. *)
Definition scheme_host (base : str) : option str :=
  let with_scheme (scheme : str) :=
    if startsWith base scheme then
      match host_of (drop (length scheme) base) with
      | [] => None
      | host => Some (scheme ++ host)
      end
    else None in
  or_else (with_scheme "http://") (with_scheme "https://").

(** Section 4.1: one trailing [/] of [base] is dropped, if there is one. *)
Definition strip_trailing_slash (base : str) : str :=
  if ends_with_slash base then take (length base - 1) base else base.

(** Section 4.1, case by case. *)
Definition resolve (base relative : str) : str :=
  if is_empty relative then base
  else if startsWith relative "http://" || startsWith relative "https://" then relative
  else
    let base := strip_trailing_slash base in
    if startsWith relative "/" then
      match scheme_host base with
      | Some prefix => prefix ++ relative
      | None => base ++ relative
      end
    else base ++ "/" ++ relative.

(** The prefix [p] of [b] that the pattern [^https?://[^/]+] matches: a
    scheme, [://] and a non-empty host that ends where [b] ends or where
    its first [/] stands. *)
Definition SchemeHost (b p : str) : Prop :=
  exists scheme host rest,
    b = p ++ rest /\ p = scheme ++ "://" ++ host
    /\ (scheme = "http" \/ scheme = "https")
    /\ host <> [] /\ ~ In "/"%char host
    /\ (rest = [] \/ exists rest', rest = "/"%char :: rest').

(** ** Section 4.2: the link pattern *)

(** Equal up to the case of ASCII letters. *)
Definition eq_nocase (a b : str) : Prop := map tolower a = map tolower b.

(** A title element on one line: [probe] is [before], an opening title
    tag, [title], a closing title tag and the rest; the tags in any letter
    case, no line break in [title]. *)
Definition TitleAt (probe before title : str) : Prop :=
  exists opening closing after,
    probe = before ++ opening ++ title ++ closing ++ after
    /\ eq_nocase opening "<title>" /\ eq_nocase closing "</title>"
    /\ Forall (fun ch => is_line_terminator ch = false) title.

(** A non-empty run of white space. *)
Definition blank (ws : str) : Prop :=
  ws <> [] /\ Forall (fun c => is_space c = true) ws.

(** Section 4.2, the form of a match with its captured value: [<a], white
    space, optionally some text without [>] followed by white space, then
    [href=], a double quote, the value up to the next double quote, and
    that double quote. *)
Definition AnchorMatch (m v : str) : Prop :=
  exists opening ws attrs href,
    m = opening ++ ws ++ attrs ++ href ++ v ++ DQ
    /\ eq_nocase opening "<a"
    /\ blank ws
    /\ (attrs = [] \/ exists text ws', attrs = text ++ ws' /\ ~ In ">"%char text /\ blank ws')
    /\ eq_nocase href ("href=" ++ DQ)
    /\ ~ In dquote v.

(** The text contains a match of the link pattern. *)
Definition has_anchor (html : str) : Prop :=
  exists pre m v post, html = pre ++ m ++ post /\ AnchorMatch m v.

(** The values of a scan from left to right: at each step the leftmost
    place where a match starts, one match there, and on after its end. *)
Inductive Links : str -> list str -> Prop :=
| Links_none html : ~ has_anchor html -> Links html []
| Links_cons pre m v post vs :
    AnchorMatch m v ->
    (forall pre' m' v' post',
        pre ++ m ++ post = pre' ++ m' ++ post' -> AnchorMatch m' v' ->
        length pre <= length pre') ->
    Links post vs ->
    Links (pre ++ m ++ post) (v :: vs).

(** Section 4.2 read as a form of tags: [<a], attributes set off by white
    space, [href=] with a quoted value, whatever follows, and the closing
    [>]. *)
Definition spec_anchor_tag (tag v : str) : Prop :=
  exists attrs rest,
    tag = "<a" ++ attrs ++ "href=" ++ DQ ++ v ++ DQ ++ rest ++ ">"
    /\ (exists c, last attrs = Some c /\ is_space c = true)
    /\ ~ In dquote v.

Definition spec_has_anchor_tag (html : str) : Prop :=
  exists pre tag v post, html = pre ++ tag ++ post /\ spec_anchor_tag tag v.

(** ** Section 4.6: the classifier *)

(** The text of every tag of a document: what stands between a [<] and
    the next [>]. *)
Fixpoint tags_from (s : str) (cur : option str) : list str :=
  match s with
  | [] => []
  | c :: s' =>
      match cur with
      | None =>
          if ascii_eqb c "<" then tags_from s' (Some []) else tags_from s' None
      | Some t =>
          if ascii_eqb c ">" then rev t :: tags_from s' None
          else tags_from s' (Some (c :: t))
      end
  end.

Definition tags (s : str) : list str := tags_from s None.

(** Section 4.6, signal 6: the body has a refresh tag whose target
    contains [baseUrl]. The target is part of the tag, so a tag that does
    not contain [baseUrl] has no such target. *)
Definition spec_refresh_to_self (probe baseUrl : str) : bool :=
  existsb (fun t => contains t refresh_marker && contains t baseUrl) (tags probe).

Definition spec_notRedirect (probe baseUrl : str) : bool :=
  negb (spec_refresh_to_self probe baseUrl).

(** One point per signal. *)
Definition b2z (b : bool) : Z := if b then 1%Z else 0%Z.

Definition count_true (sg : Signals) : Z :=
  (b2z (not404 sg) + b2z (statusOk sg) + b2z (looksLikeDir sg)
   + b2z (titleOk sg) + b2z (notRedirect sg))%Z.

(** * Notions used in the statements *)

(** ** The shared state over time *)

(** [extends w w']: [w'] is a later state of the process than [w]. *)
Definition extends (w w' : World) : Prop :=
  trace w `prefix_of` trace w'
  /\ staticVisited w ⊆ staticVisited w'
  /\ notFoundCache w ⊆ notFoundCache w'.

(** A run of calls of the check-and-insert step, in the order in which
    [visMutex] is granted. *)
Fixpoint visit_calls (urls : list str) (w : World) : list bool * World :=
  match urls with
  | [] => ([], w)
  | u :: urls' =>
      let '(b, w1) := visitAndCheck u w in
      let '(bs, w2) := visit_calls urls' w1 in
      (b :: bs, w2)
  end.

(** ** The lock block under several threads *)

(** Where a thread is in the block
    [{ std::unique_lock lock(visMutex); if (depth > maxDepth ||
    visited->count(baseUrl)) return; visited->insert(baseUrl); }]. *)
Inductive Pc : Type :=
| AtLock                  (* before the constructor of [lock] *)
| AtTest                  (* [visMutex] held, before the test *)
| AtInsert                (* [visMutex] held, the test was false *)
| AtUnlock (go : bool)    (* [visMutex] held, before the destructor of [lock] *)
| Past (go : bool).       (* [visMutex] released: the call goes on, or has returned *)

(** A call of [enumerateDirectories] on its way through the block:
    [th_deep] is its [depth > maxDepth]. *)
Record Thread : Type := MkThread { th_url : str; th_deep : bool; th_pc : Pc }.

(** The static visited set, the owner of [visMutex] and the threads. *)
Record Pool : Type := MkPool {
  pool_visited : gset str;
  pool_holder : option nat;
  pool_threads : list Thread
}.

(** One step of thread [i]; [None] when it cannot move: it waits for the
    mutex, or it has left the block. *)
Definition thread_step (i : nat) (p : Pool) : option Pool :=
  match pool_threads p !! i with
  | None => None
  | Some t =>
      let move pc := <[i := MkThread (th_url t) (th_deep t) pc]> (pool_threads p) in
      match th_pc t with
      | AtLock =>
          match pool_holder p with
          | None => Some (MkPool (pool_visited p) (Some i) (move AtTest))
          | Some _ => None
          end
      | AtTest =>
          if th_deep t || bool_decide (th_url t ∈ pool_visited p)
          then Some (MkPool (pool_visited p) (pool_holder p) (move (AtUnlock false)))
          else Some (MkPool (pool_visited p) (pool_holder p) (move AtInsert))
      | AtInsert =>
          Some (MkPool ({[th_url t]} ∪ pool_visited p) (pool_holder p)
                       (move (AtUnlock true)))
      | AtUnlock go => Some (MkPool (pool_visited p) None (move (Past go)))
      | Past _ => None
      end
  end.

(** The threads run as a schedule picks them; a thread that cannot move
    when picked is passed over. *)
Definition run (schedule : list nat) (p : Pool) : Pool :=
  fold_left (fun p i => default p (thread_step i p)) schedule p.

(** Calls [(url, depth > maxDepth)] about to enter the block. *)
Definition start (v : gset str) (calls : list (str * bool)) : Pool :=
  MkPool v None (map (fun c => MkThread (fst c) (snd c) AtLock) calls).

Definition inside (t : Thread) : bool :=
  match th_pc t with
  | AtTest | AtInsert | AtUnlock _ => true
  | AtLock | Past _ => false
  end.

(** The call goes on to process its URL. *)
Definition won (t : Thread) : bool :=
  match th_pc t with
  | AtUnlock true | Past true => true
  | _ => false
  end.

(** The call returns from the block. *)
Definition lost (t : Thread) : bool :=
  match th_pc t with
  | AtUnlock false | Past false => true
  | _ => false
  end.

Definition is_past (t : Thread) : bool :=
  match th_pc t with
  | Past _ => true
  | _ => false
  end.

Definition all_past (p : Pool) : bool := forallb is_past (pool_threads p).

(** The steps a thread still has to make, and those of all threads. *)
Definition steps_left (t : Thread) : nat :=
  match th_pc t with
  | AtLock => 4
  | AtTest => 3
  | AtInsert => 2
  | AtUnlock _ => 1
  | Past _ => 0
  end.

Definition work (p : Pool) : nat := list_sum (map steps_left (pool_threads p)).

(** What holds of the threads at every moment. *)
Definition pool_inv (v : gset str) (calls : list (str * bool)) (p : Pool) : Prop :=
  map (fun t => (th_url t, th_deep t)) (pool_threads p) = calls
  /\ (forall k, pool_holder p = Some k ->
        exists t, pool_threads p !! k = Some t /\ inside t = true)
  /\ (forall i t, pool_threads p !! i = Some t -> inside t = true -> pool_holder p = Some i)
  /\ (forall x, x ∈ pool_visited p <->
        x ∈ v \/ exists i t, pool_threads p !! i = Some t /\ won t = true /\ th_url t = x)
  /\ (forall i t, pool_threads p !! i = Some t -> th_pc t = AtInsert ->
        th_deep t = false /\ th_url t ∉ pool_visited p)
  /\ (forall i t, pool_threads p !! i = Some t -> won t = true ->
        th_deep t = false /\ th_url t ∉ v)
  /\ (forall i j ti tj,
        pool_threads p !! i = Some ti -> pool_threads p !! j = Some tj ->
        won ti = true -> won tj = true -> th_url ti = th_url tj -> i = j)
  /\ (forall i t, pool_threads p !! i = Some t -> lost t = true ->
        th_deep t = true \/ th_url t ∈ pool_visited p).



(** The rounds that a call needs: one per level between its depth and
    the bound; none when no bound can be read. *)
Definition rounds (bound : option Z) (depth : Z) : nat :=
  match bound with
  | Some limit => Z.to_nat (limit + 1 - depth)
  | None => 0
  end.



(** The URLs fetched in a trace, in order. *)
Fixpoint fetched_urls (evs : list Event) : list str :=
  match evs with
  | [] => []
  | EvGet url _ :: evs' => url :: fetched_urls evs'
  | _ :: evs' => fetched_urls evs'
  end.


(** No name occurs twice in a list. *)
Fixpoint distinct (l : list str) : bool :=
  match l with
  | [] => true
  | x :: l' => negb (set_count x l') && distinct l'
  end.

(** ** What a pattern matches *)

(** [Matches icase n0 r s s' caps]: [r] can consume the text between [s]
    and its suffix [s'], making the captures [caps] (latest first). This
    is the set of all ways to match, without the priorities of the
    backtracking matcher. *)
Inductive Matches (icase : bool) (n0 : nat) : regex -> str -> str -> list (nat * str) -> Prop :=
| M_Eps s : Matches icase n0 Eps s s []
| M_Atom a c s : atom_ok icase a c = true -> Matches icase n0 (Atom a) (c :: s) s []
| M_Bol s : length s = n0 -> Matches icase n0 Bol s s []
| M_Seq r1 r2 s s1 s2 c1 c2 :
    Matches icase n0 r1 s s1 c1 -> Matches icase n0 r2 s1 s2 c2 ->
    Matches icase n0 (Seq r1 r2) s s2 (c2 ++ c1)
| M_OptSkip r s : Matches icase n0 (Opt r) s s []
| M_OptTake r s s' c : Matches icase n0 r s s' c -> Matches icase n0 (Opt r) s s' c
| M_StarNil g a s : Matches icase n0 (Star g a) s s []
| M_StarCons g a c s s' :
    atom_ok icase a c = true -> Matches icase n0 (Star g a) s s' [] ->
    Matches icase n0 (Star g a) (c :: s) s' []
| M_Group i r s s' c :
    Matches icase n0 r s s' c ->
    Matches icase n0 (Group i r) s s' ((i, take (length s - length s') s) :: c).

(** The least number of characters a match of the pattern consumes. *)
Fixpoint min_len (r : regex) : nat :=
  match r with
  | Atom _ => 1
  | Seq r1 r2 => min_len r1 + min_len r2
  | Group _ r1 => min_len r1
  | Eps | Bol | Opt _ | Star _ _ => 0
  end.

(** The pattern has no [^]. *)
Fixpoint no_bol (r : regex) : bool :=
  match r with
  | Bol => false
  | Seq r1 r2 => no_bol r1 && no_bol r2
  | Opt r1 | Group _ r1 => no_bol r1
  | Eps | Atom _ | Star _ _ => true
  end.

(** [m] is a match of [r] in [s], and no match starts further left. *)
Definition leftmost_match (icase : bool) (n0 : nat) (r : regex) (pre s : str)
    (m : rmatch) : Prop :=
  exists skipped,
    rm_prefix m = rev pre ++ skipped
    /\ s = skipped ++ rm_str0 m ++ rm_suffix m
    /\ Matches icase n0 r (rm_str0 m ++ rm_suffix m) (rm_suffix m) (rm_caps m)
    /\ forall sk1 sk2 s' c,
         skipped = sk1 ++ sk2 -> sk2 <> [] ->
         ~ Matches icase n0 r (sk2 ++ rm_str0 m ++ rm_suffix m) s' c.

(** [m] is the literal [l], up to letter case when [icase] is set. *)
Definition lit_ok (icase : bool) (l m : str) : Prop :=
  map (translate icase) l = map (translate icase) m.

(** The pattern after its [^]. *)
Definition domain_tail : regex :=
  Seq (Lit "http") (Seq (Opt (Atom (Chr "s"))) (Seq (Lit "://") (Plus (NotChr "/")))).

(** [scheme_host] on a text that starts with [scheme], for the part after
    the scheme. *)
Definition host_after (scheme x : str) : option str :=
  match host_of x with
  | [] => None
  | host => Some (scheme ++ host)
  end.

(** ** Sample sites and texts *)

(** The process at its start. *)
Definition fresh_world : World := MkWorld [] ∅ ∅.

(** A site that answers nothing. *)
Definition silent_env : Env := MkEnv (fun _ _ => []) (fun _ _ => None) (fun _ => 0%Z).



(** A page that refreshes to a login page and links to [http://h/x]. *)
Definition refresh_elsewhere_probe : str :=
  "<meta " ++ refresh_marker ++ " content=" ++ DQ ++ "0;url=/login" ++ DQ
  ++ "><a href=" ++ DQ ++ "http://h/x" ++ DQ ++ ">x</a>".

(** An anchor whose [title] holds a [>] before the [href]. *)
Definition quoted_gt_anchor : str :=
  "<a" ++ (" title=" ++ DQ ++ "a>b" ++ DQ ++ " ") ++ "href=" ++ DQ ++ "x" ++ DQ
  ++ "" ++ ">".

(** An anchor cut off before its closing [>]. *)
Definition unclosed_anchor : str := "<a href=" ++ DQ ++ "x" ++ DQ.

(** The two-anchor example of Section 8. *)
Definition two_anchors : str :=
  "<a href=" ++ DQ ++ "x/" ++ DQ ++ ">X</a><a class=" ++ DQ ++ "y" ++ DQ
  ++ " href=" ++ DQ ++ "z.txt" ++ DQ ++ ">Z</a>".

(** One tag with two [href] attributes. *)
Definition two_hrefs : str :=
  "<a href=" ++ DQ ++ "x" ++ DQ ++ " href=" ++ DQ ++ "y" ++ DQ ++ ">".

Local Open Scope Z_scope.

(** * The command shell around the core

    The rest of [src/main.cpp]: the configuration map and its file, the
    tokenizer and the completion table, the commands that set, use and
    clear the two targets, the dispatch of [cliLoop] and the line editor.

    Conventions.
    - [config] is a [std::map] from strings to strings: a finite map,
      iterated in the order of its keys.
    - Files, the file system and [std::cin] answer through a second
      environment ([Sys]), and every call is kept in the list [io] of the
      [Shell]; [std::cerr] is part of that list, [std::cout] goes to the
      trace of the [World].
    - A [std::istringstream] is the text still to be read. *)

(** ** More of the string utilities *)

(** [endsWith]: the size test, then [std::equal] from the two ends. *)
Definition endsWith (s suffix : str) : bool := startsWith (rev s) (rev suffix).

(** [std::transform(s.begin(), s.end(), s.begin(), ::tolower)] *)
Definition lower (s : str) : str := map tolower s.

(** [s.find(c)]: the first position of a character. *)
Fixpoint find_char (c : ascii) (s : str) : option nat :=
  match s with
  | [] => None
  | d :: s' => if ascii_eqb d c then Some O else option_map S (find_char c s')
  end.

(** [s.find_last_of(c)]: the last position of a character. *)
Fixpoint find_last_of (c : ascii) (s : str) : option nat :=
  match s with
  | [] => None
  | d :: s' =>
      match find_last_of c s' with
      | Some p => Some (S p)
      | None => if ascii_eqb d c then Some O else None
      end
  end.

(** [std::replace(out.begin(), out.end(), a, b)] *)
Definition replace_char (a b : ascii) (s : str) : str :=
  map (fun c => if ascii_eqb c a then b else c) s.

(** ** Formatted input *)

(** The characters up to the next white space, and the text from there. *)
Fixpoint read_word (s : str) : str * str :=
  match s with
  | c :: s' =>
      if is_space c then ([], s)
      else let '(w, r) := read_word s' in (c :: w, r)
  | [] => ([], [])
  end.

(** [iss >> token]: the next word and the text after it; [None], and the
    stream failed, when only white space is left. *)
Definition extract (s : str) : option (str * str) :=
  match skip_ws s with
  | [] => None
  | c :: s1 => Some (read_word (c :: s1))
  end.

(** [iss >> token] on a [token] that was empty before: it stays empty
    when the extraction fails, and so does every later one. *)
Definition extract_word (s : str) : str * str :=
  match extract s with
  | Some wr => wr
  | None => ([], [])
  end.

(** The text before the first [d] and the text after it; all of the text
    and nothing when there is no [d]. *)
Fixpoint read_until (d : ascii) (s : str) : str * str :=
  match s with
  | [] => ([], [])
  | c :: s' =>
      if ascii_eqb c d then ([], s')
      else let '(l, r) := read_until d s' in (c :: l, r)
  end.

(** [std::getline(in, line, d)]: [None] at the end of the input. *)
Definition getline (d : ascii) (s : str) : option (str * str) :=
  match s with
  | [] => None
  | _ :: _ => Some (read_until d s)
  end.

(** [while (iss >> token) tokens.push_back(token);] Every round but the
    last consumes a character: [S (length input)] rounds are enough. *)
Fixpoint tokens_loop (rounds : nat) (s : str) : list str :=
  match rounds with
  | O => []
  | S n =>
      match extract s with
      | Some (token, rest) => token :: tokens_loop n rest
      | None => []
      end
  end.

Definition splitInput (input : str) : list str :=
  tokens_loop (S (length input)) input.

(** ** The configuration map *)

Definition default_config : gmap str str :=
  list_to_map
    [ ("user" : str, "local" : str);
      ("lc_path" : str, "n/a" : str);
      ("gl_path" : str, "n/a" : str);
      ("prompt_color" : str, "green" : str);
      ("banner_color" : str, "green" : str);
      ("history_file" : str, ".tcli_history" : str);
      ("max_enum_depth" : str, "3" : str);
      ("max_list_depth" : str, "5" : str);
      ("scan_timeout" : str, "1" : str);
      ("user_agent" : str, "Mozilla/5.0" : str);
      ("curl_max_time" : str, "2" : str);
      ("payload_dir" : str, "./payloads" : str);
      ("default_session_type" : str, "local" : str);
      ("default_session_info" : str, [] : str);
      ("banner_show" : str, "true" : str);
      ("prompt_show" : str, "true" : str) ].

(** [config[key]] as a value: the entry, and the map, to which an absent
    key is added with an empty value. *)
Definition config_at (key : str) (c : gmap str str) : str * gmap str str :=
  match c !! key with
  | Some v => (v, c)
  | None => ([], <[key := []]> c)
  end.

(** The entries in the order of [std::map]: by key. *)
Definition key_le (a b : str * str) : Prop := str_ltb (fst b) (fst a) = false.

#[local] Instance key_le_dec : RelDecision key_le.
Proof. intros a b. unfold key_le. apply _. Defined.

Definition entries (c : gmap str str) : list (str * str) :=
  merge_sort key_le (map_to_list c).

(** The body of the loop of [loadConfig] for one line. *)
Definition config_line (line : str) (c : gmap str str) : gmap str str :=
  match find_char "=" line with
  | None => c
  | Some pos => <[take pos line := drop (pos + 1) line]> c
  end.

(** [while (std::getline(file, line)) ...] Every round but the last
    consumes a character. *)
Fixpoint load_loop (rounds : nat) (text : str) (c : gmap str str) : gmap str str :=
  match rounds with
  | O => c
  | S n =>
      match getline "010" text with
      | Some (line, rest) => load_loop n rest (config_line line c)
      | None => c
      end
  end.

Definition load_text (text : str) (c : gmap str str) : gmap str str :=
  load_loop (S (length text)) text c.

(** What [saveConfig] writes: [key=value] and a newline per entry. *)
Definition config_text (c : gmap str str) : str :=
  concat (map (fun kv => fst kv ++ "=" ++ snd kv ++ NL) (entries c)).

(** ** Patterns with alternatives

    The pattern of [cmdConnect] needs alternatives and a negated class
    on top of the language of the core's three patterns. *)

Inductive pattern : Type :=
| PRegex (r : regex)                 (* a pattern of the core's language *)
| PClass (ok : ascii -> bool)        (* one character of a class *)
| PStar (ok : ascii -> bool)         (* greedy repetition of a class *)
| PSeq (p q : pattern)
| PAlt (p q : pattern)               (* p|q, p first *)
| PGroup (i : nat) (p : pattern).

Fixpoint class_star (ok : ascii -> bool) (s : str) (caps : list (nat * str))
    (k : mstate -> option mstate) : option mstate :=
  match s with
  | c :: s' =>
      if ok c then or_else (class_star ok s' caps k) (k (MState s caps))
      else k (MState s caps)
  | [] => k (MState [] caps)
  end.

Fixpoint pexec (n0 : nat) (p : pattern) (st : mstate)
    (k : mstate -> option mstate) : option mstate :=
  match p with
  | PRegex r => exec false n0 r st k
  | PClass ok =>
      match m_rest st with
      | c :: s' => if ok c then k (MState s' (m_caps st)) else None
      | [] => None
      end
  | PStar ok => class_star ok (m_rest st) (m_caps st) k
  | PSeq p1 p2 => pexec n0 p1 st (fun st' => pexec n0 p2 st' k)
  | PAlt p1 p2 => or_else (pexec n0 p1 st k) (pexec n0 p2 st k)
  | PGroup i p1 =>
      pexec n0 p1 st (fun st' =>
        k (MState (m_rest st')
             ((i, take (length (m_rest st) - length (m_rest st')) (m_rest st))
                :: m_caps st')))
  end.

(** [std::regex_match]: a match from the first character that ends where
    the text ends. *)
Definition regex_match (p : pattern) (s : str) : option (list (nat * str)) :=
  match pexec (length s) p (MState s [])
          (fun st => if is_empty (m_rest st) then Some st else None) with
  | Some st => Some (m_caps st)
  | None => None
  end.

Definition not_space (c : ascii) : bool := negb (is_space c).

(** [^\s*(https?|HTTPS?)\s+([^\s]+)] *)
Definition proto_domain : pattern :=
  PSeq (PRegex (Seq Bol (Star true Space)))
    (PSeq (PGroup 1 (PAlt (PRegex (Seq (Lit "http") (Opt (Atom (Chr "s")))))
                          (PRegex (Seq (Lit "HTTP") (Opt (Atom (Chr "S")))))))
      (PSeq (PRegex (Plus Space))
        (PGroup 2 (PSeq (PClass not_space) (PStar not_space))))).

(** ** The shell: state and environment *)

(** More of [color.hpp]. *)
Definition COLOR_BOLD : str := ESC ++ "[1m".
Definition COLOR_BG_YEL : str := ESC ++ "[43m".
Definition COLOR_BG_CYAN : str := ESC ++ "[46m".
Definition COLOR_BG_RED : str := ESC ++ "[41m".
Definition COLOR_BG_GRN : str := ESC ++ "[48;5;42m".
Definition COLOR_BG_MAG : str := ESC ++ "[45m".
Definition COLOR_BG_BLU : str := ESC ++ "[44m".

Inductive IoEvent : Type :=
| IoErr (text : str)                             (* one statement on std::cerr *)
| IoOpenRead (path : str) (content : option str)  (* std::ifstream and what it holds *)
| IoOpenWrite (path : str) (written : option str) (* std::ofstream and what was written *)
| IoExists (path : str) (answer : option bool)      (* fs::exists *)
| IoIsDirectory (path : str) (answer : option bool) (* fs::is_directory *)
| IoRemove (path : str) (ok : bool)               (* fs::remove, true without error code *)
| IoStdin (line : str).                           (* std::getline(std::cin, ...) *)

(** What the machine answers, given the calls made before. [fs::exists]
    and [fs::is_directory] are called in the form that throws
    [fs::filesystem_error] when the status of the path cannot be read (a
    name that is too long, a directory that may not be searched): their
    answer [None] is this exception. [fs::remove] is called with an error
    code and does not throw. *)
Record Sys : Type := MkSys {
  sys_read : list IoEvent -> str -> option str;
  sys_writable : list IoEvent -> str -> bool;
  sys_exists : list IoEvent -> str -> option bool;
  sys_is_directory : list IoEvent -> str -> option bool;
  sys_remove : list IoEvent -> str -> bool;
  sys_stdin : list IoEvent -> str
}.

Record Shell : Type := MkShell {
  config : gmap str str;
  world : World;
  io : list IoEvent
}.

(** How a command ends: it returns, an exception leaves it (nothing
    catches one: the process ends), or the rounds given to the
    recursion were too few. *)
Inductive Outcome : Type :=
| Finished (sh : Shell)
| Thrown (sh : Shell)
| Unfinished.

Definition set_config (c : gmap str str) (sh : Shell) : Shell :=
  MkShell c (world sh) (io sh).

Definition cout (text : str) (sh : Shell) : Shell :=
  MkShell (config sh) (emit text (world sh)) (io sh).

Definition io_log (e : IoEvent) (sh : Shell) : Shell :=
  MkShell (config sh) (world sh) (io sh ++ [e]).

Definition cerr (text : str) (sh : Shell) : Shell := io_log (IoErr text) sh.

(** [config[key] = value] *)
Definition assign (key value : str) (sh : Shell) : Shell :=
  set_config (<[key := value]> (config sh)) sh.

(** [config[key]] read in an expression. *)
Definition read_config (key : str) (sh : Shell) : str * Shell :=
  let '(v, c) := config_at key (config sh) in (v, set_config c sh).

Definition ok_tag : str := COLOR_GREEN ++ "[ OK ]" ++ COLOR_RESET.
Definition fail_tag : str := COLOR_RED ++ "[ FAIL ]" ++ COLOR_RESET.

(** [std::string sanitize(s)] of [removeHistoryFor]: eight passes of
    [std::replace]. *)
Definition sanitize (s : str) : str :=
  let out := s in
  let out := replace_char "/" "_" out in
  let out := replace_char "\" "_" out in
  let out := replace_char ":" "_" out in
  let out := replace_char "?" "_" out in
  let out := replace_char "*" "_" out in
  let out := replace_char "<" "_" out in
  let out := replace_char ">" "_" out in
  let out := replace_char "|" "_" out in
  out.

Definition history_file (type path : str) : str :=
  ".tcli_history_" ++ type ++ "_" ++ sanitize path.

Section Commands.

Variable E : Env.
Variable Sy : Sys.

Definition fs_exists (path : str) (sh : Shell) : option bool * Shell :=
  let b := sys_exists Sy (io sh) path in (b, io_log (IoExists path b) sh).

Definition fs_is_directory (path : str) (sh : Shell) : option bool * Shell :=
  let b := sys_is_directory Sy (io sh) path in (b, io_log (IoIsDirectory path b) sh).

(** [fs::exists(path) && fs::is_directory(path)]; [None] when one of the
    two calls throws. *)
Definition is_existing_directory (path : str) (sh : Shell) : option bool * Shell :=
  let '(e, sh) := fs_exists path sh in
  match e with
  | Some true => fs_is_directory path sh
  | Some false => (Some false, sh)
  | None => (None, sh)
  end.

(** [std::getline(std::cin, answer)] and the [std::transform] to lower
    case after it. *)
Definition ask (sh : Shell) : str * Shell :=
  let line := sys_stdin Sy (io sh) in
  (lower line, io_log (IoStdin line) sh).

Definition said_yes (answer : str) : bool :=
  str_eqb answer "y" || str_eqb answer "yes".

Definition loadConfig (filename : str) (sh : Shell) : Shell :=
  let content := sys_read Sy (io sh) filename in
  let sh := io_log (IoOpenRead filename content) sh in
  match content with
  | None =>
      let sh := cerr (COLOR_GRAY ++ "Config file '" ++ filename
                      ++ "' not found. Using defaults." ++ NL ++ COLOR_RESET) sh in
      cout (COLOR_YELLOW ++ "[ INFO ]" ++ COLOR_GRAY ++ " CONFIG - " ++ COLOR_RESET
            ++ "To create a config, run: `tcli setup`" ++ NL ++ COLOR_RESET) sh
  | Some text => set_config (load_text text (config sh)) sh
  end.

Definition saveConfig (filename : str) (sh : Shell) : Shell :=
  if sys_writable Sy (io sh) filename then
    io_log (IoOpenWrite filename (Some (config_text (config sh)))) sh
  else
    let sh := io_log (IoOpenWrite filename None) sh in
    cerr (fail_tag ++ " Could not write config file." ++ NL) sh.

Definition cmdSetup (sh : Shell) : Shell :=
  let sh := cout (COLOR_YELLOW ++ "Do you want to create a new TCLI config file? (y/n): "
                  ++ COLOR_RESET) sh in
  let '(answer, sh) := ask sh in
  if said_yes answer then
    let sh := saveConfig "TCLI" sh in
    cout (ok_tag ++ " Config file 'TCLI' created." ++ NL) sh
  else cout (COLOR_GRAY ++ "Config file not created." ++ NL ++ COLOR_RESET) sh.

Definition connect_usage : str :=
  COLOR_GRAY ++ "Usage:" ++ NL
  ++ "  connect local <valid-local-path>" ++ NL
  ++ "  connect global <http(s) example.com>" ++ NL
  ++ "  connect global <http(s)://url>" ++ NL
  ++ COLOR_RESET.

Definition cmdConnect (args : str) (sh : Shell) : Outcome :=
  if startsWith args "local " then
    let path := drop 6 args in
    let '(isdir, sh) := is_existing_directory path sh in
    match isdir with
    | Some true =>
        let sh := assign "lc_path" path sh in
        Finished (cout (ok_tag ++ " Connected to local path: " ++ path ++ NL) sh)
    | Some false =>
        Finished (cerr (fail_tag ++ " Local path does not exist or is not a directory: "
                        ++ path ++ NL) sh)
    | None => Thrown sh
    end
  else if startsWith args "global " then
    let url := drop 7 args in
    match regex_match proto_domain url with
    | Some m =>
        let proto := cap_lookup 1 m in
        let domain := cap_lookup 2 m in
        let fullUrl := proto ++ "://" ++ domain in
        let sh := assign "gl_path" fullUrl sh in
        Finished (cout (ok_tag ++ " Connected to global URL: " ++ fullUrl ++ NL) sh)
    | None =>
        if startsWith url "http://" || startsWith url "https://" then
          let sh := assign "gl_path" url sh in
          Finished (cout (ok_tag ++ " Connected to global URL: " ++ url ++ NL) sh)
        else
          Finished (cerr (fail_tag ++ " Usage: connect global <http(s) example.com> or "
                          ++ "connect global <http(s)://url>" ++ NL) sh)
    end
  else Finished (cerr connect_usage sh).

Definition not_connected : str :=
  fail_tag ++ " No global URL connected. Use 'connect global <url>' first." ++ NL.

(** The two depth settings of a configuration; a missing key reads as
    the empty text. *)
Definition settings (c : gmap str str) : Config :=
  MkConfig (fst (config_at "max_enum_depth" c)) (fst (config_at "max_list_depth" c)).

(** A walk seen from the command that called it: an exception that
    leaves the walk leaves the command too. *)
Definition ended (sh : Shell) (r : option Ending) : Outcome :=
  match r with
  | Some (Returns w) => Finished (MkShell (config sh) w (io sh))
  | Some (Throws w) => Thrown (MkShell (config sh) w (io sh))
  | None => Unfinished
  end.

(** [cmdEnum]. The first call of the enumerator reads
    [config[max_enum_depth]] before anything else, which adds the entry
    when it is missing. *)
Definition cmdEnum (fuel : nat) (sh : Shell) : Outcome :=
  let '(gl, sh) := read_config "gl_path" sh in
  if str_eqb gl "n/a" then Finished (cerr not_connected sh)
  else
    let '(baseUrl, sh) := read_config "gl_path" sh in
    let '(_, sh) := read_config "max_enum_depth" sh in
    ended sh (enumerateDirectories E (settings (config sh)) fuel baseUrl 0 (-1) (world sh)).

Definition cmdListGlobal (fuel : nat) (sh : Shell) : Outcome :=
  let '(gl, sh) := read_config "gl_path" sh in
  if str_eqb gl "n/a" then Finished (cerr not_connected sh)
  else
    let '(url, sh) := read_config "gl_path" sh in
    let '(_, sh) := read_config "max_list_depth" sh in
    ended sh (listGlobalRecursive E (settings (config sh)) fuel url 0 (-1) (world sh)).

Definition removeHistoryFor (type path : str) (sh : Shell) : Outcome :=
  let histFile := history_file type path in
  let '(e, sh) := fs_exists histFile sh in
  match e with
  | Some true =>
      let ok := sys_remove Sy (io sh) histFile in
      let sh := io_log (IoRemove histFile ok) sh in
      if ok then Finished (cout (ok_tag ++ " Removed history file: " ++ histFile ++ NL) sh)
      else Finished (cerr (fail_tag ++ " Could not remove history file: " ++ histFile
                           ++ NL) sh)
  | Some false => Finished sh
  | None => Thrown sh
  end.

Definition cmdBreak (args : str) (sh : Shell) : Outcome :=
  let arg := lower args in
  if str_eqb arg "local" then
    let '(lc, sh) := read_config "lc_path" sh in
    if str_eqb lc "n/a" then
      Finished (cerr (fail_tag ++ " No local directory is currently connected." ++ NL) sh)
    else
      let '(path, sh) := read_config "lc_path" sh in
      match removeHistoryFor "local" path sh with
      | Finished sh =>
          let sh := assign "lc_path" "n/a" sh in
          Finished (cout (ok_tag ++ " Local directory link broken and history removed."
                          ++ NL) sh)
      | ending => ending
      end
  else if str_eqb arg "global" then
    let '(gl, sh) := read_config "gl_path" sh in
    if str_eqb gl "n/a" then
      Finished (cerr (fail_tag ++ " No global URL is currently connected." ++ NL) sh)
    else
      let '(path, sh) := read_config "gl_path" sh in
      match removeHistoryFor "global" path sh with
      | Finished sh =>
          let sh := assign "gl_path" "n/a" sh in
          Finished (cout (ok_tag ++ " Global URL link broken and history removed."
                          ++ NL) sh)
      | ending => ending
      end
  else Finished (cerr (COLOR_GRAY ++ "Usage: break local|global" ++ COLOR_RESET ++ NL) sh).

(** [config.count(key) == 0] *)
Definition unknown_key (key : str) (sh : Shell) : bool :=
  match config sh !! key with Some _ => false | None => true end.

Definition cmdConfig (args : str) (sh : Shell) : Shell :=
  let '(subcmd, iss) := extract_word args in
  if str_eqb subcmd "show" then
    let sh := cout (COLOR_BOLD ++ COLOR_CYAN ++ "Current Configuration:" ++ NL
                    ++ COLOR_RESET) sh in
    fold_left (fun sh kv =>
                 cout ("  " ++ fst kv ++ ":   " ++ COLOR_YELLOW ++ snd kv
                       ++ COLOR_RESET ++ NL) sh)
              (entries (config sh)) sh
  else if str_eqb subcmd "set" then
    let '(key, iss) := extract_word iss in
    let '(value, iss) := extract_word iss in
    if is_empty key || is_empty value then
      cerr (COLOR_GRAY ++ "Usage: config set <key> <value>" ++ COLOR_RESET ++ NL) sh
    else
      let key := lower key in
      if unknown_key key sh then
        cerr (COLOR_GRAY ++ "Unknown config key: " ++ key ++ COLOR_RESET ++ NL) sh
      else
        let sh := cout (COLOR_YELLOW ++ "Are you sure you want to change '" ++ key
                        ++ "' to '" ++ value ++ "'? (y/n): " ++ COLOR_RESET) sh in
        let '(answer, sh) := ask sh in
        if negb (said_yes answer) then
          cout (COLOR_GRAY ++ "Config not changed." ++ NL ++ COLOR_RESET) sh
        else
          let sh := assign key value sh in
          let sh := saveConfig "TCLI" sh in
          cout (ok_tag ++ " Config updated." ++ NL) sh
  else
    cerr (COLOR_GRAY ++ "Usage:" ++ NL ++ "  config show" ++ NL
          ++ "  config set <key> <value>" ++ NL ++ COLOR_RESET) sh.

(** The arguments of [cmdSet]: a key, a value that may stand in single
    or double quotes, and the persistence flag. *)
Definition set_arguments (args : str) : str * str * str :=
  let '(key, iss) := extract_word args in
  let iss := skip_ws iss in
  match iss with
  | quote :: iss' =>
      if ascii_eqb quote dquote || ascii_eqb quote "'" then
        let '(value, iss) := read_until quote iss' in
        let '(persist, _) := extract_word iss in
        (key, value, persist)
      else
        let '(value, iss) := extract_word iss in
        let '(persist, _) := extract_word iss in
        (key, value, persist)
  | [] => (key, [], [])
  end.

Definition persists (persist : str) : bool :=
  str_eqb persist "true" || str_eqb persist "1" || str_eqb persist "yes".

Definition cmdSet (args : str) (sh : Shell) : Shell :=
  let '(key, value, persist) := set_arguments args in
  if is_empty key || is_empty value || is_empty persist then
    cerr (COLOR_GRAY ++ "Usage: set <key> <value> <true|false>" ++ NL
          ++ "Example: set user " ++ DQ ++ "init" ++ DQ ++ " true" ++ NL
          ++ COLOR_RESET) sh
  else
    let key := lower key in
    let persist := lower persist in
    if unknown_key key sh then
      cerr (COLOR_GRAY ++ "Unknown config key: " ++ key ++ COLOR_RESET ++ NL) sh
    else
      let sh := assign key value sh in
      if persists persist then
        let sh := saveConfig "TCLI" sh in
        cout (ok_tag ++ " '" ++ key ++ "' set to '" ++ value ++ "' (persisted)." ++ NL) sh
      else
        cout (ok_tag ++ " '" ++ key ++ "' set to '" ++ value ++ "' (temporary)." ++ NL) sh.

End Commands.

(** ** The dispatch of [cliLoop] *)

(** The command a line is given to, with its arguments where the command
    reads them. *)
Inductive Route : Type :=
| ToNothing                       (* an empty line *)
| ToQuit | ToClear | ToReload | ToSetup
| ToConnect (args : str)
| ToListLocal | ToListGlobal | ToListUsage
| ToHelp | ToEnum
| ToBreak (args : str)
| ToScan (args : str)
| ToInject (args : str)
| ToAuthBypass (args : str)
| ToSpoof (args : str)
| ToSession (args : str)
| ToHistory (args : str)
| ToPayloadGen (args : str)
| ToConfig (args : str)
| ToSet (args : str)
| ToUnknown (cmd : str).

(** [cmd] and [args]: the line cut at its first space. *)
Definition split_command (line : str) : str * str :=
  match find_char " " line with
  | None => (line, [])
  | Some space => (take space line, drop (space + 1) line)
  end.

(** The chain of comparisons of [cliLoop]. *)
Definition dispatch (cmd args : str) : Route :=
  if str_eqb cmd "quit" || str_eqb cmd "exit" then ToQuit
  else if str_eqb cmd "clr" || str_eqb cmd "clear" then ToClear
  else if str_eqb cmd "rl" || str_eqb cmd "reload" then ToReload
  else if str_eqb cmd "tcli" && str_eqb args "setup" then ToSetup
  else if str_eqb cmd "connect" then ToConnect args
  else if str_eqb cmd "ld" then
    if str_eqb args "local" then ToListLocal
    else if str_eqb args "global" then ToListGlobal
    else ToListUsage
  else if str_eqb cmd "help" || str_eqb cmd "--help" || str_eqb cmd "-h" then ToHelp
  else if str_eqb cmd "enum" then ToEnum
  else if str_eqb cmd "break" then ToBreak args
  else if str_eqb cmd "scan" then ToScan args
  else if str_eqb cmd "inject" then ToInject args
  else if str_eqb cmd "auth_bypass" then ToAuthBypass args
  else if str_eqb cmd "spoof" then ToSpoof args
  else if str_eqb cmd "session" then ToSession args
  else if str_eqb cmd "history" then ToHistory args
  else if str_eqb cmd "payload_gen" then ToPayloadGen args
  else if str_eqb cmd "config" then ToConfig args
  else if str_eqb cmd "set" then ToSet args
  else ToUnknown cmd.

Definition route (line : str) : Route :=
  if is_empty line then ToNothing
  else
    let '(cmd, args) := split_command line in
    dispatch cmd args.

(** ** Tab completion *)

Definition mainCommands : list str :=
  [ "help" : str; "quit" : str; "exit" : str; "clr" : str; "clear" : str;
    "rl" : str; "reload" : str; "tcli" : str; "connect" : str; "ld" : str;
    "enum" : str; "break" : str; "scan" : str; "inject" : str;
    "auth_bypass" : str; "spoof" : str; "session" : str; "history" : str;
    "payload_gen" : str; "config" : str; "set" : str ].

Definition subCommands : list (str * list str) :=
  [ ("tcli" : str, ["setup" : str]);
    ("connect" : str, ["local" : str; "global" : str]);
    ("ld" : str, ["local" : str; "global" : str]);
    ("break" : str, ["local" : str; "global" : str]);
    ("session" : str, ["list" : str; "kill" : str; "resume" : str]);
    ("history" : str, ["clear" : str]);
    ("payload_gen" : str, ["reverse_shell" : str; "keylogger" : str]);
    ("config" : str, ["show" : str; "set" : str]);
    ("spoof" : str, ["mac" : str; "ip" : str; "dns" : str; "user-agent" : str]);
    ("inject" : str, ["--sql" : str; "--xss" : str; "--cmd" : str]);
    ("set" : str, []) ].

Definition connectSubSub : list (str * list str) :=
  [ ("global" : str, ["http" : str; "https" : str]) ].

(** [table.count(key)] and [table.at(key)] of a constant table. *)
Fixpoint table_find (key : str) (table : list (str * list str)) : option (list str) :=
  match table with
  | [] => None
  | (k, v) :: table' => if str_eqb key k then Some v else table_find key table'
  end.

(** [for (const auto& x : names) if (x.find(token) == 0) matches.push_back(x);] *)
Definition completing (token : str) (names : list str) : list str :=
  List.filter (fun name => startsWith name token) names.

Definition getCompletions (buffer : str) : list str :=
  let tokens := splitInput buffer in
  match tokens with
  | [] => mainCommands
  | [t0] => completing t0 mainCommands
  | cmd :: t1 :: _ =>
      let size := length tokens in
      let t2 := nth 2 tokens [] in
      let after_table :=
        if str_eqb cmd "inject" && (size =? 3)%nat then
          completing t2 ["--sql" : str; "--xss" : str; "--cmd" : str]
        else if str_eqb cmd "spoof" && (size =? 2)%nat then
          completing t1 ["mac" : str; "ip" : str; "dns" : str; "user-agent" : str]
        else if str_eqb cmd "payload_gen" && (size =? 2)%nat then
          completing t1 ["reverse_shell" : str; "keylogger" : str]
        else if str_eqb cmd "config" && (size =? 2)%nat then
          completing t1 ["show" : str; "set" : str]
        else if str_eqb cmd "session" && (size =? 2)%nat then
          completing t1 ["list" : str; "kill" : str; "resume" : str]
        else if str_eqb cmd "break" && (size =? 2)%nat then
          completing t1 ["local" : str; "global" : str]
        else if str_eqb cmd "ld" && (size =? 2)%nat then
          completing t1 ["local" : str; "global" : str]
        else if str_eqb cmd "history" && (size =? 2)%nat then
          completing t1 ["clear" : str]
        else [] in
      match table_find cmd subCommands with
      | Some subs =>
          if (size =? 2)%nat then
            let matches := completing t1 subs in
            if str_eqb cmd "connect" && str_eqb t1 "global" && (size =? 2)%nat
            then ["http" : str; "https" : str]
            else matches
          else if str_eqb cmd "connect" && (size =? 3)%nat && str_eqb t1 "global" then
            match table_find "global" connectSubSub with
            | Some protos => completing t2 protos
            | None => []
            end
          else after_table
      | None => after_table
      end
  end.

(** ** The prompt and the line editor *)

(** [printPrompt]. The comparisons of [config["prompt_color"]] read the
    same entry again, which changes nothing after the first read. *)
Definition printPrompt (sh : Shell) : Shell :=
  let '(show, sh) := read_config "prompt_show" sh in
  if str_eqb show "false" then sh
  else
    let '(color, sh) := read_config "prompt_color" sh in
    let prompt_color :=
      if str_eqb color "cyan" then COLOR_BG_CYAN
      else if str_eqb color "yellow" then COLOR_BG_YEL
      else if str_eqb color "red" then COLOR_BG_RED
      else if str_eqb color "blue" then COLOR_BG_BLU
      else COLOR_BG_GRN in
    let sh := cout (NL ++ COLOR_BOLD ++ COLOR_YELLOW ++ "[ STATUS ]" ++ COLOR_RESET ++ NL) sh in
    let '(lc, sh) := read_config "lc_path" sh in
    let sh := cout ("  " ++ prompt_color ++ COLOR_BOLD ++ COLOR_GRAY ++ "LOCAL"
                    ++ COLOR_RESET ++ " " ++ ".LC_PATH: " ++ COLOR_BOLD ++ COLOR_YELLOW
                    ++ lc ++ COLOR_RESET ++ NL) sh in
    let '(gl, sh) := read_config "gl_path" sh in
    let sh := cout ("  " ++ COLOR_BG_CYAN ++ COLOR_BOLD ++ COLOR_GRAY ++ "GLOBAL"
                    ++ COLOR_RESET ++ " " ++ ".GL_PATH: " ++ COLOR_BOLD ++ COLOR_CYAN
                    ++ gl ++ COLOR_RESET ++ NL) sh in
    let '(user, sh) := read_config "user" sh in
    cout ("  " ++ COLOR_BG_MAG ++ COLOR_BOLD ++ COLOR_GRAY ++ "USER"
          ++ COLOR_RESET ++ " " ++ ".LC_USR: " ++ COLOR_BOLD ++ COLOR_PURPLE
          ++ user ++ COLOR_RESET ++ NL) sh.

(** [printCompletions]: six names to a row. *)
Fixpoint print_names (i : nat) (names : list str) (sh : Shell) : Shell :=
  match names with
  | [] => sh
  | name :: names' =>
      let sh := cout ("  " ++ COLOR_BOLD ++ COLOR_PURPLE ++ name ++ COLOR_RESET) sh in
      let sh := if ((i + 1) mod 6 =? 0)%nat then cout NL sh else sh in
      print_names (i + 1) names' sh
  end.

Definition printCompletions (completions : list str) (sh : Shell) : Shell :=
  if is_empty completions then sh
  else
    let sh := cout NL sh in
    let sh := print_names 0 completions sh in
    let sh := cout NL sh in
    printPrompt sh.

(** The local variables of [readLineWithArrows]. *)
Record Editor : Type := MkEditor {
  buffer : str;
  cursor : nat;
  historyIndex : Z;
  currentBuffer : str;
  inHistory : bool;
  promptPrinted : bool
}.

(** How the editor goes on: the line is returned, the keys at hand are
    used up and it waits in [getch], or an exception left it. *)
Inductive Reading : Type :=
| Returned (line : str) (sh : Shell)
| Waiting (ed : Editor) (sh : Shell)
| Raised (sh : Shell).

(** [isprint] in the "C" locale. *)
Definition isprint (c : Z) : bool := (32 <=? c) && (c <=? 126).

Definition char_of (c : Z) : ascii := ascii_of_nat (Z.to_nat c).

(** [a - b] on [size_t]. *)
Definition size_sub (a b : nat) : nat :=
  Z.to_nat ((Z.of_nat a - Z.of_nat b) mod 2 ^ 64).

Definition BS : str := ["008"%char].
Definition BEL : str := ["007"%char].

Section LineEditor.

(** The highlighter is a function from the buffer to the text shown. *)
Variable highlightInput : str -> str.

Variable history : list str.

Definition start_prompt (ed : Editor) (sh : Shell) : Editor * Shell :=
  let sh := cout NL sh in
  let sh := printPrompt sh in
  let sh := cout (ESC ++ "[s") sh in
  (MkEditor (buffer ed) (cursor ed) (historyIndex ed) (currentBuffer ed)
            (inHistory ed) true, sh).

(** [\033[u], the highlighted buffer, [\033[K]. *)
Definition show_buffer (b : str) (sh : Shell) : Shell :=
  let sh := cout (ESC ++ "[u") sh in
  let sh := cout (highlightInput b) sh in
  cout (ESC ++ "[K") sh.

(** [for (size_t i = 0; i < buffer.size() - cursor; ++i) std::cout << "\b";] *)
Definition move_back (b : str) (cur : nat) (sh : Shell) : Shell :=
  fold_left (fun sh _ => cout BS sh) (seq 0 (size_sub (length b) cur)) sh.

Definition redraw (b : str) (cur : nat) (sh : Shell) : Shell :=
  move_back b cur (show_buffer b sh).

Definition with_text (b : str) (cur : nat) (ed : Editor) : Editor :=
  MkEditor b cur (historyIndex ed) (currentBuffer ed) (inHistory ed) (promptPrinted ed).

Definition backspace_key (ed : Editor) (sh : Shell) : Editor * Shell :=
  if (0 <? cursor ed)%nat then
    let b := take (cursor ed - 1) (buffer ed) ++ drop (cursor ed) (buffer ed) in
    let cur := (cursor ed - 1)%nat in
    (with_text b cur ed, redraw b cur sh)
  else (ed, sh).

Definition printable_key (c : Z) (ed : Editor) (sh : Shell) : Editor * Shell :=
  let b := take (cursor ed) (buffer ed) ++ char_of c :: drop (cursor ed) (buffer ed) in
  let cur := (cursor ed + 1)%nat in
  (with_text b cur ed, redraw b cur sh).

Definition history_at (i : Z) : str := nth (Z.to_nat i) history [].

Definition arrow_key (c2 : Z) (ed : Editor) (sh : Shell) : Editor * Shell :=
  if c2 =? 68 then
    if (0 <? cursor ed)%nat
    then (with_text (buffer ed) (cursor ed - 1) ed, cout BS sh)
    else (ed, sh)
  else if c2 =? 67 then
    if (cursor ed <? length (buffer ed))%nat
    then (with_text (buffer ed) (cursor ed + 1) ed,
          cout [nth (cursor ed) (buffer ed) "000"%char] sh)
    else (ed, sh)
  else if c2 =? 65 then
    if 0 <? historyIndex ed then
      let saved := if inHistory ed then currentBuffer ed else buffer ed in
      let index := historyIndex ed - 1 in
      let b := history_at index in
      (MkEditor b (length b) index saved true (promptPrinted ed), show_buffer b sh)
    else (ed, sh)
  else if c2 =? 66 then
    if inHistory ed && (historyIndex ed <? Z.of_nat (length history) - 1) then
      let index := historyIndex ed + 1 in
      let b := history_at index in
      (MkEditor b (length b) index (currentBuffer ed) true (promptPrinted ed),
       show_buffer b sh)
    else if inHistory ed && (historyIndex ed =? Z.of_nat (length history) - 1) then
      let index := historyIndex ed + 1 in
      let b := currentBuffer ed in
      (MkEditor b (length b) index (currentBuffer ed) false (promptPrinted ed),
       show_buffer b sh)
    else (ed, sh)
  else (ed, sh).

(** The text after the last space of [prefix]: [token] of the Tab code. *)
Definition last_token (prefix : str) : str :=
  match find_last_of " " prefix with
  | None => prefix
  | Some lastSpace => drop (lastSpace + 1) prefix
  end.

(** [buffer.insert(cursor, toInsert)] and the redraw after it. *)
Definition insert_text (toInsert : str) (ed : Editor) (sh : Shell) : Editor * Shell :=
  let b := take (cursor ed) (buffer ed) ++ toInsert ++ drop (cursor ed) (buffer ed) in
  let cur := (cursor ed + length toInsert)%nat in
  (with_text b cur ed, redraw b cur sh).

(** The loop that shortens [common] to what all the completions share
    from the end of the token on. *)
Fixpoint agree_from (j : nat) (common s : str) {struct common} : nat :=
  match common, s with
  | c :: common', d :: s' =>
      match j with
      | O => if ascii_eqb c d then S (agree_from O common' s') else O
      | S j' => S (agree_from j' common' s')
      end
  | _, _ => j
  end.

Definition common_prefix (token : str) (completions : list str) : str :=
  fold_left (fun common s => take (agree_from (length token) common s) common)
            completions (nth 0 completions []).

(** The code under [c == 9]. [None]: [substr] threw [std::out_of_range]. *)
Definition tab_key (ed : Editor) (sh : Shell) : option (Editor * Shell) :=
  let prefix := take (cursor ed) (buffer ed) in
  let completions := getCompletions prefix in
  match completions with
  | [] => Some (ed, cout BEL sh)
  | [comp] =>
      let token := last_token prefix in
      if (length comp <? length token)%nat then None
      else Some (insert_text (drop (length token) comp) ed sh)
  | _ :: _ :: _ =>
      let token := last_token prefix in
      let common := common_prefix token completions in
      if (length token <? length common)%nat then
        Some (insert_text (drop (length token) common) ed sh)
      else
        let sh := printCompletions completions sh in
        Some (ed, redraw (buffer ed) (cursor ed) sh)
  end.

(** [readLineWithArrows] on the keys that [getch] returns, from the state
    [ed] of its local variables. *)
Fixpoint readLine (keys : list Z) (ed : Editor) (sh : Shell) {struct keys} : Reading :=
  match keys with
  | [] => Waiting ed sh
  | c :: keys1 =>
      let '(ed, sh) :=
        if negb (promptPrinted ed)
           && (isprint c || (c =? 27) || (c =? 127) || (c =? 8) || (c =? 9))
        then start_prompt ed sh else (ed, sh) in
      if (c =? 10) || (c =? 13) then
        let '(ed, sh) := if negb (promptPrinted ed) then start_prompt ed sh else (ed, sh) in
        let sh := cout (ESC ++ "[u") sh in
        let sh := cout (highlightInput (buffer ed)) sh in
        let sh := cout (ESC ++ "[K" ++ NL) sh in
        Returned (buffer ed) sh
      else if (c =? 127) || (c =? 8) then
        let '(ed, sh) := backspace_key ed sh in readLine keys1 ed sh
      else if c =? 27 then
        match keys1 with
        | [] => Waiting ed sh
        | c1 :: keys2 =>
            if c1 =? 91 then
              match keys2 with
              | [] => Waiting ed sh
              | c2 :: keys3 =>
                  let '(ed, sh) := arrow_key c2 ed sh in readLine keys3 ed sh
              end
            else if c =? 9 then
              match tab_key ed sh with
              | Some (ed, sh) => readLine keys2 ed sh
              | None => Raised sh
              end
            else readLine keys2 ed sh
        end
      else if isprint c then
        let '(ed, sh) := printable_key c ed sh in readLine keys1 ed sh
      else readLine keys1 ed sh
  end.

(** The call from [cliLoop]: an empty buffer, the history at its end. *)
Definition readLineWithArrows (keys : list Z) (sh : Shell) : Reading :=
  readLine keys (MkEditor [] 0 (Z.of_nat (length history)) [] false false) sh.

End LineEditor.

(** * Notions used in the statements about the shell *)

Local Close Scope Z_scope.

(** All the ways in which a pattern with alternatives matches. *)
Inductive PMatches (n0 : nat) : pattern -> str -> str -> list (nat * str) -> Prop :=
| PM_Regex r s s' c :
    Matches false n0 r s s' c -> PMatches n0 (PRegex r) s s' c
| PM_Class (ok : ascii -> bool) ch s :
    ok ch = true -> PMatches n0 (PClass ok) (ch :: s) s []
| PM_StarNil (ok : ascii -> bool) s : PMatches n0 (PStar ok) s s []
| PM_StarCons (ok : ascii -> bool) ch s s' :
    ok ch = true -> PMatches n0 (PStar ok) s s' [] ->
    PMatches n0 (PStar ok) (ch :: s) s' []
| PM_Seq p q s s1 s2 c1 c2 :
    PMatches n0 p s s1 c1 -> PMatches n0 q s1 s2 c2 ->
    PMatches n0 (PSeq p q) s s2 (c2 ++ c1)
| PM_AltL p q s s' c : PMatches n0 p s s' c -> PMatches n0 (PAlt p q) s s' c
| PM_AltR p q s s' c : PMatches n0 q s s' c -> PMatches n0 (PAlt p q) s s' c
| PM_Group i p s s' c :
    PMatches n0 p s s' c ->
    PMatches n0 (PGroup i p) s s' ((i, take (length s - length s') s) :: c).

(** A word: not empty and free of white space. *)
Definition word (t : str) : Prop := t <> [] /\ Forall (fun c => is_space c = false) t.

(** A run of white space, possibly empty. *)
Definition white (ws : str) : Prop := Forall (fun c => is_space c = true) ws.

(** [Words s ts]: [ts] are the words of [s] in order, each a run of
    characters that are not white space, as long as it can be: it starts
    at the beginning of [s] or after white space and it ends at the end
    of [s] or before white space. *)
Inductive Words : str -> list str -> Prop :=
| Words_blank (ws : str) : white ws -> Words ws []
| Words_cons (ws t rest : str) (ts : list str) :
    white ws -> word t ->
    (rest = [] \/ exists c r, rest = c :: r /\ is_space c = true) ->
    Words rest ts ->
    Words (ws ++ t ++ rest) (t :: ts).

(** A protocol and a domain set apart by white space: what the pattern
    of [cmdConnect] accepts. *)
Definition ProtoDomain (url proto domain : str) : Prop :=
  exists lead gap,
    url = lead ++ proto ++ gap ++ domain
    /\ white lead
    /\ (proto = "http" \/ proto = "https" \/ proto = "HTTP" \/ proto = "HTTPS")
    /\ white gap /\ gap <> []
    /\ word domain.

(** Words joined by single spaces. *)
Fixpoint unwords (tokens : list str) : str :=
  match tokens with
  | [] => []
  | [t] => t
  | t :: tokens' => t ++ " " ++ unwords tokens'
  end.

(** The lines of a text file, each ended by a newline. *)
Definition unlines (lines : list str) : str := concat (map (fun l => l ++ NL) lines).

Definition newline : ascii := "010"%char.

(** The sub-commands of a command in the table, none for a command that
    is not in it. *)
Definition subs_of (cmd : str) : list str :=
  match table_find cmd subCommands with
  | Some subs => subs
  | None => []
  end.

Definition entry_text (kv : str * str) : str := fst kv ++ "=" ++ snd kv ++ NL.

Definition clean_entry (kv : str * str) : Prop :=
  ~ In "="%char (fst kv) /\ ~ In newline (fst kv) /\ ~ In newline (snd kv).

(** The characters that [sanitize] replaces. *)
Definition unsafe_char (c : ascii) : bool :=
  existsb (ascii_eqb c) ["/"; "\"; ":"; "?"; "*"; "<"; ">"; "|"]%char.

(** The calls of the file system that [cmdBreak] may make: on a history
    file of the working directory. *)
Definition history_call (e : IoEvent) : Prop :=
  match e with
  | IoExists p _ | IoRemove p _ =>
      startsWith p ".tcli_history_" = true
      /\ ~ In "/"%char p /\ ~ In "\"%char p
  | IoErr _ => True
  | _ => False
  end.

(** A quote character of [cmdSet]. *)
Definition is_quote (q : ascii) : Prop := q = dquote \/ q = "'"%char.

Definition set_usage : str :=
  COLOR_GRAY ++ "Usage: set <key> <value> <true|false>" ++ NL
  ++ "Example: set user " ++ DQ ++ "init" ++ DQ ++ " true" ++ NL ++ COLOR_RESET.

Definition connected_line (url : str) : str :=
  ok_tag ++ " Connected to global URL: " ++ url ++ NL.

(** ** The line editor *)

(** The line that [readLineWithArrows] returned, if it did. *)
Definition line_of (r : Reading) : option str :=
  match r with
  | Returned line _ => Some line
  | Waiting _ _ | Raised _ => None
  end.

(** The local variables but for the flag of the prompt. *)
Definition text_of (ed : Editor) : str * nat * Z * str * bool :=
  (buffer ed, cursor ed, historyIndex ed, currentBuffer ed, inHistory ed).

(** What holds of the local variables between two keys: the cursor is
    inside the buffer or at its end, and the history position is a valid
    index while a recalled line is shown, and the length of the history
    otherwise. *)
Definition editor_ok (history : list str) (ed : Editor) : Prop :=
  (cursor ed <= length (buffer ed))%nat
  /\ (0 <= historyIndex ed <= Z.of_nat (length history))%Z
  /\ (inHistory ed = true <-> (historyIndex ed < Z.of_nat (length history))%Z).

(** The code that [getch] returns for a character. *)
Definition code (c : ascii) : Z := Z.of_nat (nat_of_ascii c).

Definition printable (s : str) : Prop := Forall (fun c => isprint (code c) = true) s.

(** The keys of the arrows: ESC [ A and so on. *)
Definition up_key : list Z := [27; 91; 65]%Z.
Definition down_key : list Z := [27; 91; 66]%Z.
Definition right_key : list Z := [27; 91; 67]%Z.
Definition left_key : list Z := [27; 91; 68]%Z.

(** [n] times the same key. *)
Definition presses (n : nat) (key : list Z) : list Z := concat (repeat key n).

(** The state after the prompt was shown, if it had to be. *)
Definition prompted (c : Z) (ed : Editor) (sh : Shell) : Editor * Shell :=
  if negb (promptPrinted ed)
     && (isprint c || (c =? 27) || (c =? 127) || (c =? 8) || (c =? 9))%Z
  then start_prompt ed sh else (ed, sh).

(** The state in which the editor shows the line at index [i] of the
    history. *)
Definition recalled (history : list str) (i : Z) (saved : str) (p : bool) : Editor :=
  MkEditor (history_at history i) (length (history_at history i)) i saved true p.

(** ** The found-set and the requests of one level *)

(** The order of [std::set<std::string>]. *)
Definition str_lt (s t : str) : Prop := str_ltb s t = true.

(** The URLs of the status requests in a trace, in order. *)
Fixpoint status_urls (evs : list Event) : list str :=
  match evs with
  | [] => []
  | EvStatus url _ :: evs' => url :: status_urls evs'
  | _ :: evs' => status_urls evs'
  end.

(** The dictionary names that a page does not link to as directories. *)
Definition unlinked (html : str) : list str :=
  List.filter (fun d => negb (set_count d (knownDirs (extractLinks html)))) commonDirs.

(** ** Sample machines and shells *)

(** A machine on which every file holds [content] and can be written,
    nothing exists in the file system, and nothing is typed. *)
Definition disk_sys (content : str) : Sys :=
  MkSys (fun _ _ => Some content) (fun _ _ => true) (fun _ _ => Some false)
        (fun _ _ => Some false) (fun _ _ => true) (fun _ => []).

(** A machine without any file. *)
Definition bare_sys : Sys :=
  MkSys (fun _ _ => None) (fun _ _ => true) (fun _ _ => Some false)
        (fun _ _ => Some false) (fun _ _ => true) (fun _ => []).

(** A machine on which a file name of more than 255 characters cannot be
    looked up. *)
Definition short_names_sys : Sys :=
  MkSys (fun _ _ => None) (fun _ _ => true)
        (fun _ path => if (255 <? Z.of_nat (length path))%Z then None else Some false)
        (fun _ _ => Some false) (fun _ _ => true) (fun _ => []).

(** A URL of 237 characters, and the shell connected to it. *)
Definition long_url : str := "http://h/" ++ replicate 228 "a"%char.

Definition long_shell : Shell :=
  MkShell (<[("gl_path" : str) := long_url]> default_config) fresh_world [].

(** The shell at its start, and after a connection to [http://h]. *)
Definition start_shell : Shell := MkShell default_config fresh_world [].

Definition connected_shell : Shell :=
  MkShell (<[("gl_path" : str) := ("http://h" : str)]> default_config) fresh_world [].

(** The shell after an [enum] of [http://h] that got no answer, and the
    same after [set max_enum_depth abc false]. *)
Definition failed_shell : Shell :=
  MkShell (config connected_shell)
          (MkWorld [EvOut (enumerating_line [] "http://h"); EvGet "http://h" [];
                    EvOut (no_response_line [])]
                   {[ "http://h" : str ]} ∅)
          [].

Definition unreadable_shell : Shell :=
  cmdSet bare_sys "max_enum_depth abc false" failed_shell.

Definition two_entries : gmap str str :=
  list_to_map [ ("user" : str, "me" : str); ("gl_path" : str, "http://h" : str) ].

Definition two_lines : list str := [ "user=a" : str; "user=b" : str ].

Local Open Scope Z_scope.

(** * Properties *)

(** ** Strings *)

Lemma ascii_eqb_true (a b : ascii) : ascii_eqb a b = true <-> a = b.
Proof. apply Ascii.eqb_eq. Qed.

Lemma ascii_eqb_refl (a : ascii) : ascii_eqb a a = true.
Proof. apply Ascii.eqb_refl. Qed.

Lemma str_eqb_true (s t : str) : str_eqb s t = true <-> s = t.
Proof.
  revert t; induction s as [|c s IH]; intros [|d t]; simpl; try (split; congruence).
  rewrite andb_true_iff, ascii_eqb_true, IH. split.
  - intros [-> ->]; reflexivity.
  - intros [= -> ->]; auto.
Qed.

Lemma str_eqb_refl (s : str) : str_eqb s s = true.
Proof. apply str_eqb_true; reflexivity. Qed.

Lemma startsWith_true (s p : str) :
  startsWith s p = true <-> exists rest, s = p ++ rest.
Proof.
  revert s; induction p as [|c p IH]; intros s; simpl.
  - split; [intros _; exists s; reflexivity | reflexivity].
  - destruct s as [|d s].
    + split; [discriminate | intros [rest H]; discriminate].
    + rewrite andb_true_iff, ascii_eqb_true, IH. split.
      * intros [-> [rest ->]]. eauto.
      * intros [rest [= -> ->]]. eauto.
Qed.

Lemma contains_true (s pat : str) :
  contains s pat = true <-> exists pre post, s = pre ++ pat ++ post.
Proof.
  induction s as [|c s IH].
  - simpl. rewrite orb_false_r, startsWith_true. split.
    + intros [rest H]. exists [], rest. exact H.
    + intros (pre & post & H). symmetry in H.
      apply app_eq_nil in H as [-> H]. apply app_eq_nil in H as [-> ->].
      exists []. reflexivity.
  - simpl. rewrite orb_true_iff, startsWith_true, IH. split.
    + intros [[rest H] | (pre & post & H)].
      * exists [], rest. exact H.
      * exists (c :: pre), post. rewrite H. reflexivity.
    + intros (pre & post & H). destruct pre as [|d pre].
      * left. exists post. exact H.
      * right. injection H as -> ->. eauto.
Qed.

(** ** C1: the redirect signal *)

(** The body below refreshes to a login page and, after the tag, links
    to a page under [http://h]: no refresh tag has [http://h] in its
    target, and yet the signal is cleared. *)
Lemma notRedirect_counterexample :
  spec_notRedirect refresh_elsewhere_probe "http://h" = true
  /\ sig_notRedirect refresh_elsewhere_probe "http://h" = false.
Proof. split; vm_compute; reflexivity. Qed.

(** C1, as the code has it. [notRedirect] is false exactly when the body
    contains the text [http-equiv=Q refresh Q] (Q the double quote, no
    blanks) somewhere and contains [baseUrl] somewhere, inside the refresh
    tag or not; it is true whenever one of the two does not occur in the
    body. *)
Theorem notRedirect_substrings (probe baseUrl : str) :
  (sig_notRedirect probe baseUrl = false <->
     (exists pre post, probe = pre ++ refresh_marker ++ post)
     /\ (exists pre post, probe = pre ++ baseUrl ++ post))
  /\ (contains probe refresh_marker = false -> sig_notRedirect probe baseUrl = true)
  /\ (contains probe baseUrl = false -> sig_notRedirect probe baseUrl = true).
Proof.
  unfold sig_notRedirect. rewrite <- !contains_true.
  destruct (contains probe refresh_marker), (contains probe baseUrl); simpl;
    intuition congruence.
Qed.

(** ** C2: score and acceptance *)

Lemma score_counts (sg : Signals) : score_of sg = count_true sg.
Proof. destruct sg as [[] [] [] [] []]; reflexivity. Qed.

Lemma accepted_iff (sg : Signals) : accepted sg = true <-> 2 <= score_of sg.
Proof. unfold accepted. rewrite Z.geb_le. reflexivity. Qed.

Lemma probeTask_nonempty (E : Env) (baseUrl indent notFoundSig dir : str)
    (found : list str) (w : World) :
  let tryUrl := combineUrl baseUrl dir in
  let probe := env_get E (trace w) tryUrl in
  let code := env_status E (trace (log (EvGet tryUrl probe) w)) tryUrl in
  let sg := signals_of baseUrl probe notFoundSig code in
  probe <> [] ->
  fst (probeTask E baseUrl indent notFoundSig dir (found, w))
  = if accepted sg then set_insert dir found else found.
Proof.
  intros tryUrl probe code sg Hne. unfold probeTask, httpGet, httpStatus.
  cbv beta zeta iota. fold tryUrl. fold probe. fold code.
  destruct probe as [|c p] eqn:Hp; [congruence|].
  fold sg. unfold accepted.
  destruct (score_of sg >=? 2); reflexivity.
Qed.

(** C2. Whenever the probe body is not empty, the classifier returns the
    five signals, a score that is the number of true signals, and accepts
    exactly when the score is at least 2; the probing task inserts the
    candidate into the found-set exactly when it is accepted. When the
    first 512 bytes of the body equal the baseline signature, [not404] is
    false, and with the four other signals false as well the candidate is
    not accepted. *)
Theorem classifier_score_and_threshold
    (baseUrl probe notFoundSig : str) (code : option str) :
  probe <> [] ->
  let sg := signals_of baseUrl probe notFoundSig code in
  classify baseUrl probe notFoundSig code = Some (accepted sg, score_of sg, sg)
  /\ score_of sg = count_true sg
  /\ 0 <= score_of sg <= 5
  /\ (accepted sg = true <-> 2 <= score_of sg)
  /\ (forall (E : Env) (indent dir : str) (found : list str) (w : World),
        env_get E (trace w) (combineUrl baseUrl dir) = probe ->
        env_status E (trace (log (EvGet (combineUrl baseUrl dir) probe) w))
                   (combineUrl baseUrl dir) = code ->
        fst (probeTask E baseUrl indent notFoundSig dir (found, w))
        = if accepted sg then set_insert dir found else found)
  /\ (substr0 probe 512 = notFoundSig ->
        not404 sg = false
        /\ (statusOk sg = false -> looksLikeDir sg = false ->
            titleOk sg = false -> notRedirect sg = false ->
            score_of sg = 0 /\ accepted sg = false)).
Proof.
  intros Hne sg. repeat split.
  - destruct probe; [congruence | reflexivity].
  - apply score_counts.
  - rewrite score_counts. unfold count_true, b2z.
    destruct (not404 sg), (statusOk sg), (looksLikeDir sg), (titleOk sg),
      (notRedirect sg); lia.
  - rewrite score_counts. unfold count_true, b2z.
    destruct (not404 sg), (statusOk sg), (looksLikeDir sg), (titleOk sg),
      (notRedirect sg); lia.
  - apply accepted_iff.
  - apply accepted_iff.
  - intros E indent dir found w Hp Hc.
    pose proof (probeTask_nonempty E baseUrl indent notFoundSig dir found w) as H.
    cbv zeta in H. rewrite Hp, Hc in H. apply H, Hne.
  - subst sg. simpl. unfold sig_not404. rewrite H. rewrite str_eqb_refl. reflexivity.
  - unfold accepted. rewrite score_counts. unfold count_true.
    assert (not404 sg = false) as ->.
    { subst sg. simpl. unfold sig_not404. rewrite H, str_eqb_refl. reflexivity. }
    rewrite H0, H1, H2, H3. reflexivity.
  - unfold accepted. rewrite score_counts. unfold count_true.
    assert (not404 sg = false) as ->.
    { subst sg. simpl. unfold sig_not404. rewrite H, str_eqb_refl. reflexivity. }
    rewrite H0, H1, H2, H3. reflexivity.
Qed.

Lemma classifier_score_and_threshold_witness :
  ("soft 404 page" : str) <> []
  /\ classify "http://h" "soft 404 page" "soft 404 page" None
     = Some (false, 1, MkSignals false false false false true).
Proof.
  split; [discriminate|].
  pose proof (classifier_score_and_threshold "http://h" "soft 404 page"
                "soft 404 page" None ltac:(discriminate)) as H.
  cbv zeta in H. destruct H as [H _]. rewrite H. vm_compute. reflexivity.
Defined.

(** ** The shared state only grows *)

Lemma extends_refl (w : World) : extends w w.
Proof. repeat split; reflexivity. Qed.

Lemma extends_trans (w1 w2 w3 : World) :
  extends w1 w2 -> extends w2 w3 -> extends w1 w3.
Proof.
  intros (Ht & Hv & Hc) (Ht' & Hv' & Hc'). repeat split.
  - etrans; eassumption.
  - etrans; eassumption.
  - etrans; eassumption.
Qed.

Lemma extends_log (e : Event) (w : World) : extends w (log e w).
Proof. repeat split; simpl; try reflexivity. apply prefix_app_r. reflexivity. Qed.

Lemma extends_emit (t : str) (w : World) : extends w (emit t w).
Proof. apply extends_log. Qed.

Section EngineProperties.

Context (E : Env) (cfg : Config).

Lemma visitAndCheck_extends (url : str) (w : World) :
  extends w (snd (visitAndCheck url w)).
Proof.
  unfold visitAndCheck. case_bool_decide; simpl; [apply extends_refl|].
  repeat split; simpl; try reflexivity. apply union_subseteq_r.
Qed.

Lemma visitAndCheck_fresh (url : str) (w : World) :
  fst (visitAndCheck url w) = negb (bool_decide (url ∈ staticVisited w)).
Proof. unfold visitAndCheck. case_bool_decide; reflexivity. Qed.

Lemma baselineSignature_hit (baseUrl v : str) (w : World) :
  notFoundCache w !! baseUrl = Some v ->
  baselineSignature E baseUrl w = (v, w).
Proof. intros H. unfold baselineSignature. rewrite H. reflexivity. Qed.

Lemma baselineSignature_miss (baseUrl : str) (w : World) :
  notFoundCache w !! baseUrl = None ->
  let r := env_rand E (trace w) in
  let url := combineUrl baseUrl ("__tcli_fake404__" ++ to_string r ++ "/") in
  let body := env_get E (trace w ++ [EvRand r]) url in
  baselineSignature E baseUrl w
  = (substr0 body 512,
     MkWorld (trace w ++ [EvRand r; EvGet url body]) (staticVisited w)
             (<[baseUrl := substr0 body 512]> (notFoundCache w))).
Proof.
  intros H. unfold baselineSignature. rewrite H. simpl.
  rewrite <- app_assoc. reflexivity.
Qed.

Lemma baselineSignature_cached (baseUrl : str) (w : World) :
  notFoundCache (snd (baselineSignature E baseUrl w)) !! baseUrl
  = Some (fst (baselineSignature E baseUrl w)).
Proof.
  destruct (notFoundCache w !! baseUrl) as [v|] eqn:H.
  - rewrite (baselineSignature_hit _ _ _ H). exact H.
  - rewrite (baselineSignature_miss _ _ H). simpl. apply lookup_insert_eq.
Qed.

Lemma baselineSignature_extends (baseUrl : str) (w : World) :
  extends w (snd (baselineSignature E baseUrl w)).
Proof.
  destruct (notFoundCache w !! baseUrl) as [v|] eqn:H.
  - rewrite (baselineSignature_hit _ _ _ H). apply extends_refl.
  - rewrite (baselineSignature_miss _ _ H). repeat split; simpl.
    + apply prefix_app_r. reflexivity.
    + reflexivity.
    + apply insert_subseteq, H.
Qed.

Lemma probeTask_extends (baseUrl indent sig dir : str) (fw : list str * World) :
  extends (snd fw) (snd (probeTask E baseUrl indent sig dir fw)).
Proof.
  destruct fw as [found w]. unfold probeTask, httpGet, httpStatus.
  cbv beta zeta iota.
  destruct (env_get E (trace w) (combineUrl baseUrl dir)) as [|c p]; simpl snd.
  - apply extends_log.
  - match goal with |- context [if ?b then _ else _] => destruct b end; simpl snd.
    + eapply extends_trans; [apply extends_log|].
      eapply extends_trans; [apply extends_log|]. apply extends_emit.
    + eapply extends_trans; [apply extends_log|]. apply extends_log.
Qed.

Lemma probeAll_extends (baseUrl indent sig : str) (dirs : list str)
    (fw : list str * World) :
  extends (snd fw) (snd (probeAll E baseUrl indent sig dirs fw)).
Proof.
  revert fw; induction dirs as [|d dirs IH]; intros fw; simpl.
  - apply extends_refl.
  - unfold probeAll in *. simpl. eapply extends_trans; [|apply IH].
    destruct (set_count d (fst fw)); [apply extends_refl | apply probeTask_extends].
Qed.

Lemma enumLevel_extends (baseUrl indent html : str) (w : World) :
  extends w (snd (enumLevel E baseUrl indent html w)).
Proof.
  unfold enumLevel.
  pose proof (baselineSignature_extends baseUrl w) as H.
  destruct (baselineSignature E baseUrl w) as [sig w1]. simpl in H.
  eapply extends_trans; [exact H|].
  apply (probeAll_extends baseUrl indent sig commonDirs (_, w1)).
Qed.

(** The recursion over the found directories, as a fold that stops on
    the first branch that ran out of fuel. *)
Lemma fold_branches_extends (f : World -> str -> option World) (dirs : list str) :
  (forall w d w', f w d = Some w' -> extends w w') ->
  forall w w',
    fold_left (fun ow d => match ow with None => None | Some w => f w d end)
              dirs (Some w) = Some w' ->
    extends w w'.
Proof.
  intros Hf. induction dirs as [|d dirs IH]; intros w w'; simpl.
  - intros [= ->]. apply extends_refl.
  - destruct (f w d) as [w1|] eqn:H1.
    + intros H. eapply extends_trans; [eapply Hf, H1 | apply IH, H].
    + intros H. exfalso. clear -H. induction dirs; simpl in H; [discriminate | auto].
Qed.

Lemma joined_Some (r : option Ending) (w : World) :
  joined r = Some w <-> exists e, r = Some e /\ after e = w.
Proof.
  unfold joined. destruct r as [e|]; simpl; split.
  - intros [= <-]. eauto.
  - intros (e' & [= <-] & <-). reflexivity.
  - discriminate.
  - intros (e' & H & _). discriminate.
Qed.

(** The body of [enumerateDirectories], with the recursion as [branches]. *)
Lemma enumerateDirectories_unfold (fuel : nat) (baseUrl : str) (depth maxDepth : Z)
    (w : World) :
  enumerateDirectories E cfg fuel baseUrl depth maxDepth w
  = match depth_limit (max_enum_depth cfg) maxDepth with
    | None => Some (Throws w)
    | Some limit =>
        if depth >? limit then Some (Returns w)
        else
          let '(fresh, w1) := visitAndCheck baseUrl w in
          if negb fresh then Some (Returns w1)
          else
            match indent_of depth with
            | None => Some (Throws w1)
            | Some indent =>
                let w2 := emit (enumerating_line indent baseUrl) w1 in
                let '(html, w3) := httpGet E baseUrl w2 in
                match html with
                | [] => Some (Returns (emit (no_response_line indent) w3))
                | _ :: _ =>
                    let '(foundDirs, w4) := enumLevel E baseUrl indent html w3 in
                    match fuel with
                    | O => None
                    | S fuel' =>
                        option_map Returns
                          (branches (fun w d =>
                                       joined (enumerateDirectories E cfg fuel'
                                                 (combineUrl baseUrl d) (depth + 1) limit
                                                 (emit (dir_line indent d) w)))
                                    foundDirs w4)
                    end
                end
            end
    end.
Proof. destruct fuel; reflexivity. Qed.

(** The body of [listGlobalRecursive]. *)
Lemma listGlobalRecursive_unfold (fuel : nat) (url : str) (depth maxDepth : Z)
    (w : World) :
  listGlobalRecursive E cfg fuel url depth maxDepth w
  = match depth_limit (max_list_depth cfg) maxDepth with
    | None => Some (Throws w)
    | Some limit =>
        if depth >? limit then Some (Returns w)
        else
          match indent_of depth with
          | None => Some (Throws w)
          | Some indent =>
              let w1 := emit (listing_line indent url) w in
              let '(html, w2) := httpGet E url w1 in
              match html with
              | [] => Some (Returns (emit (notice_line indent
                                             "(Failed to fetch or empty content)") w2))
              | _ :: _ =>
                  match extractLinks html with
                  | [] => Some (Returns (emit (notice_line indent "(No links found)") w2))
                  | _ :: _ =>
                      let '(directories, files) := partition_links (extractLinks html) in
                      if is_empty files && is_empty directories then
                        Some (Returns (emit (notice_line indent
                                               "(No files or directories found)") w2))
                      else
                        let w3 :=
                          fold_left (fun w file => emit (file_line indent file) w)
                                    files w2 in
                        match fuel with
                        | O => None
                        | S fuel' =>
                            option_map Returns
                              (branches (fun w d =>
                                           joined (listGlobalRecursive E cfg fuel'
                                                     (combineUrl url d) (depth + 1) limit
                                                     (emit (dir_line indent d) w)))
                                        directories w3)
                        end
                  end
              end
          end
    end.
Proof. destruct fuel; reflexivity. Qed.

Lemma enumerateDirectories_extends (fuel : nat) :
  forall (baseUrl : str) (depth maxDepth : Z) (w : World) (e : Ending),
    enumerateDirectories E cfg fuel baseUrl depth maxDepth w = Some e ->
    extends w (after e).
Proof.
  induction fuel as [|fuel IH]; intros baseUrl depth maxDepth w e;
    rewrite enumerateDirectories_unfold.
  all: destruct (depth_limit _ _) as [limit|]; [|intros [= <-]; apply extends_refl].
  all: destruct (depth >? limit); [intros [= <-]; apply extends_refl|].
  all: pose proof (visitAndCheck_extends baseUrl w) as Hv;
    destruct (visitAndCheck baseUrl w) as [fresh w1]; simpl in Hv.
  all: destruct fresh; cbn [negb]; [|intros [= <-]; exact Hv].
  all: destruct (indent_of depth) as [indent|]; [|intros [= <-]; exact Hv].
  all: unfold httpGet; cbv beta zeta iota.
  all: set (w2 := emit _ w1);
    assert (extends w w2) as H2
      by (eapply extends_trans; [exact Hv | apply extends_emit]).
  all: destruct (env_get E (trace w2) baseUrl) as [|c html] eqn:Hhtml;
    [intros [= <-]; eapply extends_trans; [exact H2|];
     eapply extends_trans; [apply extends_log | apply extends_emit]|].
  all: set (w3 := log _ w2);
    pose proof (enumLevel_extends baseUrl indent (c :: html) w3) as H3;
    destruct (enumLevel E baseUrl indent (c :: html) w3) as [found w4];
    simpl in H3.
  - discriminate.
  - destruct (branches _ found w4) as [wb|] eqn:Hb; [|discriminate].
    intros [= <-]. cbn [after].
    eapply extends_trans; [exact H2|].
    eapply extends_trans; [apply (extends_log (EvGet baseUrl (c :: html)) w2)|].
    fold w3. eapply extends_trans; [exact H3|].
    eapply (fold_branches_extends _ found); [|exact Hb].
    intros wa d wc Hab. apply joined_Some in Hab as (e' & Hab & <-).
    eapply extends_trans; [apply extends_emit | eapply IH, Hab].
Qed.

End EngineProperties.

(** ** Termination of the two recursive walks *)

Lemma depth_limit_idem (c : str) (m limit : Z) :
  depth_limit c m = Some limit -> depth_limit c limit = Some limit.
Proof.
  unfold depth_limit. destruct (m =? -1) eqn:Hm.
  - intros H. destruct (limit =? -1); [exact H | reflexivity].
  - intros [= ->]. rewrite Hm. reflexivity.
Qed.

Lemma branches_nil f w : branches f [] w = Some w.
Proof. reflexivity. Qed.

Lemma fold_branches_none (f : World -> str -> option World) (dirs : list str) :
  fold_left (fun ow d => match ow with None => None | Some w => f w d end)
            dirs None = None.
Proof. induction dirs; simpl; auto. Qed.

Lemma branches_cons f d dirs w :
  branches f (d :: dirs) w
  = match f w d with Some w1 => branches f dirs w1 | None => None end.
Proof.
  unfold branches. simpl. destruct (f w d); [reflexivity | apply fold_branches_none].
Qed.

Lemma branches_total f dirs :
  (forall w d, is_Some (f w d)) -> forall w, is_Some (branches f dirs w).
Proof.
  intros Hf. induction dirs as [|d dirs IH]; intros w.
  - rewrite branches_nil. eauto.
  - rewrite branches_cons. destruct (Hf w d) as [w1 ->]. apply IH.
Qed.



Section Termination.

Context (E : Env) (cfg : Config).

Lemma enumerateDirectories_unreadable (fuel : nat) (baseUrl : str)
    (depth maxDepth : Z) (w : World) :
  depth_limit (max_enum_depth cfg) maxDepth = None ->
  enumerateDirectories E cfg fuel baseUrl depth maxDepth w = Some (Throws w).
Proof. intros H. rewrite enumerateDirectories_unfold, H. reflexivity. Qed.

Lemma enumerateDirectories_depth_exceeded (fuel : nat) (baseUrl : str)
    (depth maxDepth limit : Z) (w : World) :
  depth_limit (max_enum_depth cfg) maxDepth = Some limit ->
  limit < depth ->
  enumerateDirectories E cfg fuel baseUrl depth maxDepth w = Some (Returns w).
Proof.
  intros Hl H. rewrite enumerateDirectories_unfold, Hl.
  destruct (depth >? _) eqn:Hgt; [reflexivity|].
  rewrite Z.gtb_ltb, Z.ltb_ge in Hgt. lia.
Qed.

Lemma enumerateDirectories_revisit (fuel : nat) (baseUrl : str)
    (depth maxDepth limit : Z) (w : World) :
  depth_limit (max_enum_depth cfg) maxDepth = Some limit ->
  baseUrl ∈ staticVisited w ->
  enumerateDirectories E cfg fuel baseUrl depth maxDepth w = Some (Returns w).
Proof.
  intros Hl H. rewrite enumerateDirectories_unfold, Hl.
  destruct (depth >? _); [reflexivity|].
  unfold visitAndCheck. rewrite bool_decide_eq_true_2 by exact H. reflexivity.
Qed.

Lemma enumerateDirectories_total (fuel : nat) :
  forall (baseUrl : str) (depth maxDepth limit : Z) (w : World),
    depth_limit (max_enum_depth cfg) maxDepth = Some limit ->
    (Z.to_nat (limit + 1 - depth) <= fuel)%nat ->
    is_Some (enumerateDirectories E cfg fuel baseUrl depth maxDepth w).
Proof.
  induction fuel as [|fuel IH]; intros baseUrl depth maxDepth limit w Hl Hfuel;
    rewrite enumerateDirectories_unfold, Hl.
  all: destruct (depth >? _) eqn:Hgt; [eauto|].
  all: rewrite Z.gtb_ltb, Z.ltb_ge in Hgt.
  - lia.
  - destruct (visitAndCheck baseUrl w) as [fresh w1].
    destruct fresh; cbn [negb]; [|eauto].
    destruct (indent_of depth) as [indent|]; [|eauto].
    destruct (httpGet E baseUrl _) as [html w3].
    destruct html as [|c html]; [eauto|].
    destruct (enumLevel E baseUrl _ _ w3) as [found w4].
    apply fmap_is_Some, branches_total. intros wa d. apply fmap_is_Some.
    apply (IH _ _ _ limit); [apply (depth_limit_idem _ _ _ Hl) | lia].
Qed.


Lemma listGlobalRecursive_unreadable (fuel : nat) (url : str)
    (depth maxDepth : Z) (w : World) :
  depth_limit (max_list_depth cfg) maxDepth = None ->
  listGlobalRecursive E cfg fuel url depth maxDepth w = Some (Throws w).
Proof. intros H. rewrite listGlobalRecursive_unfold, H. reflexivity. Qed.




Lemma enumerateDirectories_bound (fuel : nat) (baseUrl : str)
    (depth maxDepth limit : Z) (w : World) :
  depth_limit (max_enum_depth cfg) maxDepth = Some limit ->
  enumerateDirectories E cfg fuel baseUrl depth maxDepth w
  = enumerateDirectories E cfg fuel baseUrl depth limit w.
Proof.
  intros Hl. rewrite !enumerateDirectories_unfold, Hl, (depth_limit_idem _ _ _ Hl).
  reflexivity.
Qed.

Lemma listGlobalRecursive_bound (fuel : nat) (url : str)
    (depth maxDepth limit : Z) (w : World) :
  depth_limit (max_list_depth cfg) maxDepth = Some limit ->
  listGlobalRecursive E cfg fuel url depth maxDepth w
  = listGlobalRecursive E cfg fuel url depth limit w.
Proof.
  intros Hl. rewrite !listGlobalRecursive_unfold, Hl, (depth_limit_idem _ _ _ Hl).
  reflexivity.
Qed.

Lemma enumerateDirectories_throws (fuel : nat) (baseUrl : str)
    (depth maxDepth limit : Z) (w w' : World) :
  depth_limit (max_enum_depth cfg) maxDepth = Some limit ->
  enumerateDirectories E cfg fuel baseUrl depth maxDepth w = Some (Throws w') ->
  depth <= limit /\ (baseUrl ∉ staticVisited w) /\ indent_of depth = None
  /\ w' = snd (visitAndCheck baseUrl w).
Proof.
  intros Hb. rewrite enumerateDirectories_unfold, Hb.
  destruct (depth >? limit) eqn:Hgt; [discriminate|].
  rewrite Z.gtb_ltb, Z.ltb_ge in Hgt.
  unfold visitAndCheck. case_bool_decide as Hin; cbn [negb snd]; [discriminate|].
  destruct (indent_of depth) as [indent|]; [|intros [= <-]; auto].
  cbv zeta. destruct (httpGet E baseUrl _) as [html w3].
  destruct html as [|c html]; [discriminate|].
  destruct (enumLevel E baseUrl indent _ w3) as [found w4].
  destruct fuel as [|fuel]; [discriminate|].
  destruct (branches _ found w4); discriminate.
Qed.


End Termination.

(** ** C5: the visited set *)

Lemma visitAndCheck_visited (url : str) (w : World) :
  staticVisited (snd (visitAndCheck url w)) = {[url]} ∪ staticVisited w.
Proof.
  unfold visitAndCheck. case_bool_decide; simpl; [|reflexivity].
  symmetry. apply subseteq_union_1_L, singleton_subseteq_l. assumption.
Qed.

Lemma visit_calls_cons (u : str) (urls : list str) (w : World) :
  visit_calls (u :: urls) w
  = (fst (visitAndCheck u w) :: fst (visit_calls urls (snd (visitAndCheck u w))),
     snd (visit_calls urls (snd (visitAndCheck u w)))).
Proof.
  cbn [visit_calls]. destruct (visitAndCheck u w) as [b w1]. simpl.
  destruct (visit_calls urls w1); reflexivity.
Qed.

(** The [i]-th call answers true exactly when its URL was not visited
    before the run and is not the URL of an earlier call of the run. *)
Lemma visit_calls_result (urls : list str) :
  forall (w : World) (i : nat) (x : str),
    urls !! i = Some x ->
    exists b, (fst (visit_calls urls w)) !! i = Some b
      /\ (b = true <-> (x ∉ staticVisited w) /\ (x ∉ take i urls)).
Proof.
  induction urls as [|u urls IH]; intros w i x Hi; [discriminate|].
  rewrite visit_calls_cons. cbn [fst].
  destruct i as [|i]; simpl in Hi.
  - injection Hi as ->. eexists; split; [reflexivity|].
    rewrite visitAndCheck_fresh, negb_true_iff, bool_decide_eq_false.
    simpl. split; [intros H; split; [exact H | apply not_elem_of_nil] | intros [H _]; exact H].
  - destruct (IH (snd (visitAndCheck u w)) i x Hi) as (b & Hb & Hiff).
    exists b. split; [exact Hb|]. rewrite Hiff, visitAndCheck_visited.
    cbn [take]. rewrite not_elem_of_cons, not_elem_of_union, not_elem_of_singleton.
    tauto.
Qed.

Lemma visit_calls_visited (urls : list str) :
  forall w : World,
    staticVisited (snd (visit_calls urls w)) = list_to_set urls ∪ staticVisited w.
Proof.
  induction urls as [|u urls IH]; intros w.
  - simpl. rewrite union_empty_l_L. reflexivity.
  - rewrite visit_calls_cons. cbn [snd]. rewrite IH, visitAndCheck_visited.
    simpl. rewrite (assoc_L (∪)), (comm_L (∪) (list_to_set urls) {[u]}). reflexivity.
Qed.

Lemma visit_calls_length (urls : list str) :
  forall w : World, length (fst (visit_calls urls w)) = length urls.
Proof.
  induction urls as [|u urls IH]; intros w; [reflexivity|].
  rewrite visit_calls_cons. simpl. f_equal. apply IH.
Qed.

(** *** The lock block under several threads *)

Lemma start_inv (v : gset str) (calls : list (str * bool)) :
  pool_inv v calls (start v calls).
Proof.
  assert (forall i t, pool_threads (start v calls) !! i = Some t -> th_pc t = AtLock) as Hpc.
  { intros i t. cbn [start pool_threads]. rewrite list_lookup_fmap.
    destruct (calls !! i); [|discriminate]. intros [= <-]. reflexivity. }
  assert (forall i t, pool_threads (start v calls) !! i = Some t ->
            inside t = false /\ won t = false /\ lost t = false) as Hno.
  { intros i t H. apply Hpc in H. unfold inside, won, lost. rewrite H. auto. }
  split.
  { cbn [start pool_threads]. rewrite map_map. cbn [th_url th_deep].
    rewrite <- (map_id calls) at 2. apply map_ext. intros [u d]. reflexivity. }
  split; [discriminate|].
  split; [intros i t H Hin; apply Hno in H as (H & _); congruence|].
  split.
  { intros x. cbn [start pool_visited]. split; [auto|].
    intros [H | (i & t & H & Hw & _)]; [exact H|].
    apply Hno in H as (_ & H & _). congruence. }
  split; [intros i t H Hi; apply Hpc in H; congruence|].
  split; [intros i t H Hw; apply Hno in H as (_ & H & _); congruence|].
  split; [intros i j ti tj H _ Hw; apply Hno in H as (_ & H & _); congruence|].
  intros i t H Hl. apply Hno in H as (_ & _ & H). congruence.
Qed.

Lemma moved_lookup (i j : nat) (t t' : Thread) (threads : list Thread) :
  threads !! i = Some t ->
  <[i := t']> threads !! j = (if decide (i = j) then Some t' else threads !! j).
Proof.
  intros H. destruct (decide (i = j)) as [<- | Hne].
  - apply list_lookup_insert_eq. eapply lookup_lt_Some, H.
  - apply list_lookup_insert_ne, Hne.
Qed.

Lemma moved_fields (i : nat) (t : Thread) (pc : Pc) (threads : list Thread) :
  threads !! i = Some t ->
  map (fun t => (th_url t, th_deep t)) (<[i := MkThread (th_url t) (th_deep t) pc]> threads)
  = map (fun t => (th_url t, th_deep t)) threads.
Proof.
  intros H. apply list_eq. intros j.
  change (map ?f ?l) with (f <$> l). rewrite !list_lookup_fmap, (moved_lookup _ _ _ _ _ H).
  destruct (decide (i = j)) as [<- | _]; [|reflexivity]. rewrite H. reflexivity.
Qed.

Lemma thread_step_inv (v : gset str) (calls : list (str * bool)) (i : nat) (p p' : Pool) :
  pool_inv v calls p -> thread_step i p = Some p' -> pool_inv v calls p'.
Proof.
  intros (Hcalls & Hheld & Hin & Hvis & Hins & Hwon & Huniq & Hlost).
  unfold thread_step. destruct (pool_threads p !! i) as [t|] eqn:Ht; [|discriminate].
  cbv zeta. destruct t as [u deep pc]. cbn [th_url th_deep th_pc].
  assert (forall pc' j tj,
             <[i := MkThread u deep pc']> (pool_threads p) !! j = Some tj ->
             (j = i /\ tj = MkThread u deep pc')
             \/ (j <> i /\ pool_threads p !! j = Some tj)) as Hcase.
  { intros pc' j tj. rewrite (moved_lookup _ _ _ _ _ Ht).
    destruct (decide (i = j)) as [<- | Hne]; [intros [= <-]; auto | auto]. }
  assert (forall pc', <[i := MkThread u deep pc']> (pool_threads p) !! i
                      = Some (MkThread u deep pc')) as Hself.
  { intros pc'. rewrite (moved_lookup _ _ _ _ _ Ht), decide_True by reflexivity.
    reflexivity. }
  assert (forall pc' j, j <> i ->
             <[i := MkThread u deep pc']> (pool_threads p) !! j = pool_threads p !! j)
    as Hother.
  { intros pc' j Hne. rewrite (moved_lookup _ _ _ _ _ Ht), decide_False by congruence.
    reflexivity. }
  destruct pc as [| | |go|go].
  - (* the lock is taken *)
    destruct (pool_holder p) as [k|] eqn:Hk; [discriminate|]. intros [= <-].
    unfold pool_inv; cbn [pool_threads pool_holder pool_visited].
    split; [rewrite <- Hcalls; apply (moved_fields i _ _ _ Ht)|].
    split.
    { intros k [= <-]. eexists. split; [apply Hself | reflexivity]. }
    split.
    { intros j tj Hj Hi. apply Hcase in Hj as [[-> ->] | [Hne Hj]]; [reflexivity|].
      specialize (Hin _ _ Hj Hi). congruence. }
    split.
    { intros x. rewrite Hvis. split; (intros [H | (j & tj & Hj & Hw & Hu)]; [auto|right]).
      - destruct (decide (j = i)) as [-> | Hne].
        + rewrite Ht in Hj. injection Hj as <-. discriminate Hw.
        + exists j, tj. rewrite Hother by exact Hne. auto.
      - apply Hcase in Hj as [[-> ->] | [Hne Hj]]; [discriminate Hw|]. eauto. }
    split.
    { intros j tj Hj Hpc. apply Hcase in Hj as [[-> ->] | [Hne Hj]]; [discriminate Hpc|].
      eauto. }
    split.
    { intros j tj Hj Hw. apply Hcase in Hj as [[-> ->] | [Hne Hj]]; [discriminate Hw|].
      eauto. }
    split.
    { intros j1 j2 t1 t2 H1 H2 Hw1 Hw2 Hu.
      apply Hcase in H1 as [[-> ->] | [Hne1 H1]]; [discriminate Hw1|].
      apply Hcase in H2 as [[-> ->] | [Hne2 H2]]; [discriminate Hw2|]. eauto. }
    intros j tj Hj Hl. apply Hcase in Hj as [[-> ->] | [Hne Hj]]; [discriminate Hl|].
    eauto.
  - (* the test *)
    assert (pool_holder p = Some i) as Hk by (apply (Hin _ _ Ht); reflexivity).
    destruct (deep || bool_decide (u ∈ pool_visited p)) eqn:Htest; intros [= <-];
      unfold pool_inv; cbn [pool_threads pool_holder pool_visited].
    + split; [rewrite <- Hcalls; apply (moved_fields i _ _ _ Ht)|].
      split.
      { intros k Hk'. rewrite Hk in Hk'. injection Hk' as <-.
        eexists. split; [apply Hself | reflexivity]. }
      split.
      { intros j tj Hj Hi. apply Hcase in Hj as [[-> ->] | [Hne Hj]]; [exact Hk|]. eauto. }
      split.
      { intros x. rewrite Hvis.
        split; (intros [H | (j & tj & Hj & Hw & Hu)]; [auto|right]).
        - destruct (decide (j = i)) as [-> | Hne].
          + rewrite Ht in Hj. injection Hj as <-. discriminate Hw.
          + exists j, tj. rewrite Hother by exact Hne. auto.
        - apply Hcase in Hj as [[-> ->] | [Hne Hj]]; [discriminate Hw|]. eauto. }
      split.
      { intros j tj Hj Hpc. apply Hcase in Hj as [[-> ->] | [Hne Hj]]; [discriminate Hpc|].
        eauto. }
      split.
      { intros j tj Hj Hw. apply Hcase in Hj as [[-> ->] | [Hne Hj]]; [discriminate Hw|].
        eauto. }
      split.
      { intros j1 j2 t1 t2 H1 H2 Hw1 Hw2 Hu.
        apply Hcase in H1 as [[-> ->] | [Hne1 H1]]; [discriminate Hw1|].
        apply Hcase in H2 as [[-> ->] | [Hne2 H2]]; [discriminate Hw2|]. eauto. }
      intros j tj Hj Hl. apply Hcase in Hj as [[-> ->] | [Hne Hj]]; [|eauto].
      cbn [th_deep th_url]. apply orb_true_iff in Htest as [-> | Hb]; [auto|].
      right. apply bool_decide_eq_true in Hb. exact Hb.
    + apply orb_false_iff in Htest as [-> Hb]. apply bool_decide_eq_false in Hb.
      split; [rewrite <- Hcalls; apply (moved_fields i _ _ _ Ht)|].
      split.
      { intros k Hk'. rewrite Hk in Hk'. injection Hk' as <-.
        eexists. split; [apply Hself | reflexivity]. }
      split.
      { intros j tj Hj Hi. apply Hcase in Hj as [[-> ->] | [Hne Hj]]; [exact Hk|]. eauto. }
      split.
      { intros x. rewrite Hvis.
        split; (intros [H | (j & tj & Hj & Hw & Hu)]; [auto|right]).
        - destruct (decide (j = i)) as [-> | Hne].
          + rewrite Ht in Hj. injection Hj as <-. discriminate Hw.
          + exists j, tj. rewrite Hother by exact Hne. auto.
        - apply Hcase in Hj as [[-> ->] | [Hne Hj]]; [discriminate Hw|]. eauto. }
      split.
      { intros j tj Hj Hpc. apply Hcase in Hj as [[-> ->] | [Hne Hj]]; [auto | eauto]. }
      split.
      { intros j tj Hj Hw. apply Hcase in Hj as [[-> ->] | [Hne Hj]]; [discriminate Hw|].
        eauto. }
      split.
      { intros j1 j2 t1 t2 H1 H2 Hw1 Hw2 Hu.
        apply Hcase in H1 as [[-> ->] | [Hne1 H1]]; [discriminate Hw1|].
        apply Hcase in H2 as [[-> ->] | [Hne2 H2]]; [discriminate Hw2|]. eauto. }
      intros j tj Hj Hl. apply Hcase in Hj as [[-> ->] | [Hne Hj]]; [discriminate Hl|].
      eauto.
  - (* the insert *)
    assert (pool_holder p = Some i) as Hk by (apply (Hin _ _ Ht); reflexivity).
    destruct (Hins _ _ Ht eq_refl) as [Hdeep Hfresh]. cbn [th_deep th_url] in Hdeep, Hfresh.
    intros [= <-]. unfold pool_inv; cbn [pool_threads pool_holder pool_visited].
    split; [rewrite <- Hcalls; apply (moved_fields i _ _ _ Ht)|].
    split.
    { intros k Hk'. rewrite Hk in Hk'. injection Hk' as <-.
      eexists. split; [apply Hself | reflexivity]. }
    split.
    { intros j tj Hj Hi. apply Hcase in Hj as [[-> ->] | [Hne Hj]]; [exact Hk|]. eauto. }
    split.
    { intros x. rewrite elem_of_union, elem_of_singleton, Hvis. split.
      - intros [-> | [H | (j & tj & Hj & Hw & Hu)]]; [right | auto | right].
        + exists i. eexists. split; [apply Hself|]. split; reflexivity.
        + destruct (decide (j = i)) as [-> | Hne].
          * rewrite Ht in Hj. injection Hj as <-. discriminate Hw.
          * exists j, tj. rewrite Hother by exact Hne. auto.
      - intros [H | (j & tj & Hj & Hw & Hu)]; [auto|].
        apply Hcase in Hj as [[-> ->] | [Hne Hj]]; [left; symmetry; exact Hu|].
        right. right. eauto. }
    split.
    { intros j tj Hj Hpc. apply Hcase in Hj as [[-> ->] | [Hne Hj]]; [discriminate Hpc|].
      exfalso. apply Hne. assert (inside tj = true) as Hi by (unfold inside; rewrite Hpc; reflexivity).
      specialize (Hin _ _ Hj Hi). congruence. }
    split.
    { intros j tj Hj Hw. apply Hcase in Hj as [[-> ->] | [Hne Hj]]; [|eauto].
      cbn [th_deep th_url]. split; [exact Hdeep|].
      intros Hv. apply Hfresh, Hvis. auto. }
    split.
    { assert (forall j tj, pool_threads p !! j = Some tj -> won tj = true -> th_url tj <> u)
        as Hnew.
      { intros j tj Hj Hw Hu. apply Hfresh, Hvis. right. eauto. }
      intros j1 j2 t1 t2 H1 H2 Hw1 Hw2 Hu.
      apply Hcase in H1 as [[-> ->] | [Hne1 H1]];
        apply Hcase in H2 as [[-> ->] | [Hne2 H2]]; [reflexivity | | | eauto].
      - exfalso. apply (Hnew _ _ H2 Hw2). symmetry. exact Hu.
      - exfalso. apply (Hnew _ _ H1 Hw1). exact Hu. }
    intros j tj Hj Hl. apply Hcase in Hj as [[-> ->] | [Hne Hj]]; [discriminate Hl|].
    destruct (Hlost _ _ Hj Hl) as [H | H]; [auto|]. right. apply elem_of_union_r, H.
  - (* the lock is released *)
    assert (pool_holder p = Some i) as Hk by (apply (Hin _ _ Ht); reflexivity).
    intros [= <-]. unfold pool_inv; cbn [pool_threads pool_holder pool_visited].
    split; [rewrite <- Hcalls; apply (moved_fields i _ _ _ Ht)|].
    split; [discriminate|].
    split.
    { intros j tj Hj Hi. apply Hcase in Hj as [[-> ->] | [Hne Hj]]; [discriminate Hi|].
      specialize (Hin _ _ Hj Hi). congruence. }
    split.
    { intros x. rewrite Hvis.
      split; (intros [H | (j & tj & Hj & Hw & Hu)]; [auto|right]).
      - destruct (decide (j = i)) as [-> | Hne].
        + rewrite Ht in Hj. injection Hj as <-.
          exists i. eexists. split; [apply Hself|]. split; [|exact Hu].
          destruct go; [reflexivity | discriminate Hw].
        + exists j, tj. rewrite Hother by exact Hne. auto.
      - apply Hcase in Hj as [[-> ->] | [Hne Hj]]; [|eauto].
        exists i. eexists. split; [exact Ht|]. split; [|exact Hu].
        destruct go; [reflexivity | discriminate Hw]. }
    split.
    { intros j tj Hj Hpc. apply Hcase in Hj as [[-> ->] | [Hne Hj]]; [discriminate Hpc|].
      eauto. }
    split.
    { intros j tj Hj Hw. apply Hcase in Hj as [[-> ->] | [Hne Hj]]; [|eauto].
      apply (Hwon _ _ Ht). destruct go; [reflexivity | discriminate Hw]. }
    split.
    { assert (forall tj, tj = MkThread u deep (Past go) -> won tj = true ->
                 won (MkThread u deep (AtUnlock go)) = true) as Hsame.
      { intros tj -> Hw. destruct go; [reflexivity | discriminate Hw]. }
      intros j1 j2 t1 t2 H1 H2 Hw1 Hw2 Hu.
      apply Hcase in H1 as [[-> E1] | [Hne1 H1]];
        apply Hcase in H2 as [[-> E2] | [Hne2 H2]]; [reflexivity | | | eauto].
      - apply (Huniq _ _ _ _ Ht H2 (Hsame _ E1 Hw1) Hw2). subst t1. exact Hu.
      - apply (Huniq _ _ _ _ H1 Ht Hw1 (Hsame _ E2 Hw2)). subst t2. exact Hu. }
    intros j tj Hj Hl. apply Hcase in Hj as [[-> ->] | [Hne Hj]]; [|eauto].
    apply (Hlost _ _ Ht). destruct go; [discriminate Hl | reflexivity].
  - discriminate.
Qed.

Lemma run_inv (v : gset str) (calls : list (str * bool)) (schedule : list nat) :
  forall p, pool_inv v calls p -> pool_inv v calls (run schedule p).
Proof.
  induction schedule as [|i schedule IH]; intros p Hp; [exact Hp|].
  cbn [run fold_left]. apply IH.
  destruct (thread_step i p) as [p'|] eqn:Hs; [|exact Hp].
  eapply thread_step_inv; [exact Hp | exact Hs].
Qed.

Lemma thread_step_visited (i : nat) (p p' : Pool) :
  thread_step i p = Some p' -> pool_visited p ⊆ pool_visited p'.
Proof.
  unfold thread_step. destruct (pool_threads p !! i) as [t|]; [|discriminate].
  cbv zeta. destruct (th_pc t); try discriminate.
  - destruct (pool_holder p); [discriminate|]. intros [= <-]. reflexivity.
  - destruct (_ || _); intros [= <-]; reflexivity.
  - intros [= <-]. apply union_subseteq_r.
  - intros [= <-]. reflexivity.
Qed.

Lemma run_visited (schedule : list nat) :
  forall p, pool_visited p ⊆ pool_visited (run schedule p).
Proof.
  induction schedule as [|i schedule IH]; intros p; [reflexivity|].
  cbn [run fold_left]. etrans; [|apply IH].
  destruct (thread_step i p) as [p'|] eqn:Hs; [|reflexivity].
  eapply thread_step_visited, Hs.
Qed.

Lemma work_moved (i : nat) (t t' : Thread) (threads : list Thread) :
  threads !! i = Some t -> (steps_left t' < steps_left t)%nat ->
  (list_sum (map steps_left (<[i := t']> threads)) < list_sum (map steps_left threads))%nat.
Proof.
  revert i. induction threads as [|a threads IH]; intros i; [discriminate|].
  destruct i as [|i]; simpl.
  - intros [= ->] Hs. lia.
  - intros H Hs. specialize (IH i H Hs). simpl in IH. lia.
Qed.

Lemma thread_step_work (i : nat) (p p' : Pool) :
  thread_step i p = Some p' -> (work p' < work p)%nat.
Proof.
  unfold thread_step, work. destruct (pool_threads p !! i) as [t|] eqn:Ht; [|discriminate].
  cbv zeta. destruct t as [u deep pc]. cbn [th_url th_deep th_pc].
  destruct pc as [| | |go|go]; try discriminate.
  - destruct (pool_holder p); [discriminate|]. intros [= <-].
    apply (work_moved _ _ _ _ Ht). cbn. lia.
  - destruct (_ || _); intros [= <-]; apply (work_moved _ _ _ _ Ht); cbn; lia.
  - intros [= <-]. apply (work_moved _ _ _ _ Ht). cbn. lia.
  - intros [= <-]. apply (work_moved _ _ _ _ Ht). cbn. lia.
Qed.

Lemma not_all_past (threads : list Thread) :
  forallb is_past threads = false ->
  exists i t, threads !! i = Some t /\ is_past t = false.
Proof.
  induction threads as [|a threads IH]; [discriminate|]. simpl.
  destruct (is_past a) eqn:Ha.
  - intros H. destruct (IH H) as (i & t & Hi & Ht). exists (S i), t. auto.
  - intros _. exists 0%nat, a. auto.
Qed.

Lemma pool_progress (v : gset str) (calls : list (str * bool)) (p : Pool) :
  pool_inv v calls p ->
  all_past p = true \/ exists i, is_Some (thread_step i p).
Proof.
  intros (_ & Hheld & Hin & _).
  destruct (all_past p) eqn:Hall; [auto|]. right.
  destruct (pool_holder p) as [k|] eqn:Hk.
  - destruct (Hheld k eq_refl) as (t & Ht & Hi). exists k.
    unfold thread_step. rewrite Ht. cbv zeta. unfold inside in Hi.
    destruct (th_pc t); try discriminate Hi; [destruct (_ || _)| |]; eauto.
  - apply not_all_past in Hall as (i & t & Ht & Hp).
    exists i. unfold thread_step. rewrite Ht. cbv zeta.
    assert (inside t = false) as Hi.
    { destruct (inside t) eqn:Hi; [|reflexivity].
      specialize (Hin _ _ Ht Hi). congruence. }
    unfold inside in Hi. unfold is_past in Hp.
    destruct (th_pc t); try discriminate; rewrite ?Hk; eauto.
Qed.

Lemma pool_result (v : gset str) (calls : list (str * bool)) (p : Pool) (u : str) :
  pool_inv v calls p -> all_past p = true ->
  (u ∈ v ->
   forall j t, pool_threads p !! j = Some t -> th_url t = u -> th_pc t = Past false)
  /\ (u ∉ v -> (u, false) ∈ calls ->
      exists i,
        pool_threads p !! i = Some (MkThread u false (Past true))
        /\ forall j t, pool_threads p !! j = Some t -> th_url t = u -> j <> i ->
             th_pc t = Past false).
Proof.
  intros (Hcalls & _ & _ & Hvis & _ & Hwon & Huniq & Hlost) Hall.
  assert (forall j t, pool_threads p !! j = Some t -> exists go, th_pc t = Past go) as Hpast.
  { intros j t Hj. unfold all_past in Hall. rewrite forallb_forall in Hall.
    specialize (Hall t). unfold is_past in Hall.
    destruct (th_pc t); try (discriminate Hall; apply list_elem_of_In;
                             eapply list_elem_of_lookup_2, Hj).
    eauto. }
  split.
  - intros Hv j t Hj Hu. destruct (Hpast _ _ Hj) as [go Hgo]. rewrite Hgo.
    destruct go; [|reflexivity].
    destruct (Hwon j t Hj) as [_ Hnot]; [unfold won; rewrite Hgo; reflexivity|].
    congruence.
  - intros Hfresh Hcall.
    assert (exists i t, pool_threads p !! i = Some t /\ won t = true /\ th_url t = u)
      as (i & t & Hi & Hw & Hu).
    { rewrite <- Hcalls in Hcall.
      apply list_elem_of_In, in_map_iff in Hcall as (t & Heq & Ht).
      apply list_elem_of_In, list_elem_of_lookup in Ht as [k Hk]. injection Heq as Hu Hd.
      destruct (Hpast _ _ Hk) as [go Hgo]. destruct go.
      - exists k, t. unfold won. rewrite Hgo. auto.
      - destruct (Hlost k t Hk) as [H | H]; [unfold lost; rewrite Hgo; reflexivity | congruence |].
        rewrite Hu in H. apply Hvis in H as [H | H]; [contradiction | exact H]. }
    exists i. split.
    + destruct (Hpast _ _ Hi) as [go Hgo]. destruct (Hwon _ _ Hi Hw) as [Hd _].
      destruct t as [u' d pc]. cbn in *. subst. unfold won in Hw. cbn in Hw.
      destruct go; [exact Hi | discriminate Hw].
    + intros j tj Hj Huj Hne. destruct (Hpast _ _ Hj) as [go Hgo]. rewrite Hgo.
      destruct go; [|reflexivity]. exfalso. apply Hne.
      apply (Huniq _ _ _ _ Hj Hi); [unfold won; rewrite Hgo; reflexivity | exact Hw | congruence].
Qed.

(** While a thread is in the block no other thread moves in it. *)
Lemma pool_exclusive (v : gset str) (calls : list (str * bool)) (p : Pool)
    (i j : nat) (t : Thread) :
  pool_inv v calls p -> pool_threads p !! i = Some t -> inside t = true ->
  j <> i -> thread_step j p = None.
Proof.
  intros (_ & _ & Hin & _) Hi Hins Hne.
  pose proof (Hin _ _ Hi Hins) as Hk.
  unfold thread_step. destruct (pool_threads p !! j) as [tj|] eqn:Hj; [|reflexivity].
  cbv zeta. destruct (inside tj) eqn:Hij.
  - specialize (Hin _ _ Hj Hij). congruence.
  - unfold inside in Hij. destruct (th_pc tj); try discriminate Hij; [|reflexivity].
    rewrite Hk. reflexivity.
Qed.

(** A thread that gets the mutex and is run through the block does what
    the step [visitAndCheck] does, after the depth test. *)
Lemma block_is_visitAndCheck (i : nat) (u : str) (deep : bool) (p : Pool) (w : World) :
  pool_threads p !! i = Some (MkThread u deep AtLock) ->
  pool_holder p = None ->
  staticVisited w = pool_visited p ->
  run [i; i; i; i] p
  = (let '(fresh, w') := if deep then (false, w) else visitAndCheck u w in
     MkPool (staticVisited w') None (<[i := MkThread u deep (Past fresh)]> (pool_threads p))).
Proof.
  intros Ht Hk Hw. pose proof (lookup_lt_Some _ _ _ Ht) as Hlt.
  assert (forall (pc : Pc) (v : gset str) (k : option nat),
             thread_step i (MkPool v k (<[i := MkThread u deep pc]> (pool_threads p)))
             = match pc with
               | AtLock =>
                   match k with
                   | None => Some (MkPool v (Some i)
                                          (<[i := MkThread u deep AtTest]> (pool_threads p)))
                   | Some _ => None
                   end
               | AtTest =>
                   if deep || bool_decide (u ∈ v)
                   then Some (MkPool v k (<[i := MkThread u deep (AtUnlock false)]>
                                            (pool_threads p)))
                   else Some (MkPool v k (<[i := MkThread u deep AtInsert]> (pool_threads p)))
               | AtInsert =>
                   Some (MkPool ({[u]} ∪ v) k
                                (<[i := MkThread u deep (AtUnlock true)]> (pool_threads p)))
               | AtUnlock go =>
                   Some (MkPool v None (<[i := MkThread u deep (Past go)]> (pool_threads p)))
               | Past _ => None
               end) as Hstep.
  { intros pc v k. unfold thread_step. cbn [pool_threads pool_holder pool_visited].
    rewrite list_lookup_insert_eq by exact Hlt. cbn [th_pc th_url th_deep].
    destruct pc; [destruct k | destruct (_ || _) | | |];
      rewrite ?list_insert_insert_eq; reflexivity. }
  assert (p = MkPool (pool_visited p) None
                     (<[i := MkThread u deep AtLock]> (pool_threads p))) as Hp.
  { rewrite list_insert_id by exact Ht. rewrite <- Hk. destruct p; reflexivity. }
  assert (forall sched q, run (i :: sched) q = run sched (default q (thread_step i q)))
    as Hrun by reflexivity.
  rewrite Hp at 1. rewrite Hrun, Hstep. cbn [from_option id]. rewrite Hrun, Hstep.
  unfold visitAndCheck. rewrite Hw.
  destruct deep; cbn [orb from_option id].
  - rewrite Hrun, Hstep. cbn [from_option id]. rewrite Hrun, Hstep. cbn [from_option id].
    rewrite Hw. reflexivity.
  - destruct (bool_decide (u ∈ pool_visited p)); cbn [from_option id].
    + rewrite Hrun, Hstep. cbn [from_option id]. rewrite Hrun, Hstep. cbn [from_option id].
      rewrite Hw. reflexivity.
    + rewrite Hrun, Hstep. cbn [from_option id]. rewrite Hrun, Hstep. cbn [from_option id].
      reflexivity.
Qed.

Section VisitedSet.

Context (E : Env) (cfg : Config).

(** A second crawl in the same process: the calls for a URL that an
    earlier crawl has visited all answer false, none answers true. *)
Lemma second_crawl_counterexample :
  fst (visit_calls ["a" : str; "b" : str; "a" : str]
                   (snd (visit_calls ["a" : str] fresh_world)))
  = [false; true; false]
  /\ cmdEnum silent_env 1 connected_shell = Finished failed_shell
  /\ fst (visitAndCheck "http://h" (world failed_shell)) = false
  /\ cmdEnum silent_env 1 failed_shell = Finished failed_shell.
Proof. repeat split; vm_compute; reflexivity. Qed.

(** C5, as the code has it. In a run of check-and-insert calls, a call
    for [u] answers true exactly when [u] was not in the visited set
    before the run and no earlier call of the run was for [u]. So when
    [u] was not visited before, exactly one call for [u] answers true, the
    first one, and every other call for [u] answers false; when [u] was
    visited before, by an earlier crawl of the process, no call answers
    true. The step only adds to the set, as does every call of the
    enumerator, and a call of the enumerator whose check answers false
    returns at once with the state untouched: no output, no fetch.

    The same with the threads and [visMutex] written out, for every
    number of calls and every schedule: the set only grows; while a thread
    is in the block no other thread moves; no two calls go on with the
    same URL; a call goes on only with a URL that was new, a call returns
    only when it is too deep or its URL is in the set; as long as a thread
    is not past the block some thread can move, and each move brings the
    end nearer; when all threads are past the block, exactly one of the
    calls for a new URL went on and all others returned, and all calls for
    a URL visited before returned. A thread run through the block alone
    does what the step [visitAndCheck] does. *)
Theorem visited_exactly_once (u : str) (urls : list str) (w : World) :
  let answers := fst (visit_calls urls w) in
  let w' := snd (visit_calls urls w) in
  length answers = length urls
  /\ (forall i, urls !! i = Some u ->
        exists b, answers !! i = Some b
          /\ (b = true <-> (u ∉ staticVisited w) /\ (u ∉ take i urls)))
  /\ (u ∉ staticVisited w -> u ∈ urls ->
      exists i,
        urls !! i = Some u /\ answers !! i = Some true
        /\ forall j, urls !! j = Some u ->
             (i <= j)%nat /\ (j <> i -> answers !! j = Some false))
  /\ (u ∈ urls -> u ∈ staticVisited w')
  /\ staticVisited w ⊆ staticVisited w'
  /\ (forall (url : str) (w0 : World),
        staticVisited w0 ⊆ staticVisited (snd (visitAndCheck url w0))
        /\ url ∈ staticVisited (snd (visitAndCheck url w0))
        /\ (fst (visitAndCheck url w0) = false -> snd (visitAndCheck url w0) = w0))
  /\ (forall (fuel : nat) (depth maxDepth limit : Z) (w0 : World),
        depth_limit (max_enum_depth cfg) maxDepth = Some limit ->
        fst (visitAndCheck u w0) = false ->
        enumerateDirectories E cfg fuel u depth maxDepth w0 = Some (Returns w0))
  /\ (forall (fuel : nat) (url : str) (depth maxDepth : Z) (w0 : World) (e : Ending),
        enumerateDirectories E cfg fuel url depth maxDepth w0 = Some e ->
        staticVisited w0 ⊆ staticVisited (after e))
  /\ (u ∈ staticVisited w -> forall i b, answers !! i = Some b -> urls !! i = Some u ->
      b = false)
  /\ (forall (v : gset str) (calls : list (str * bool)) (schedule : list nat),
        let p := run schedule (start v calls) in
        v ⊆ pool_visited p
        /\ (forall i t, pool_threads p !! i = Some t -> inside t = true ->
              forall j, j <> i -> thread_step j p = None)
        /\ (forall i j ti tj,
              pool_threads p !! i = Some ti -> pool_threads p !! j = Some tj ->
              won ti = true -> won tj = true -> th_url ti = th_url tj -> i = j)
        /\ (forall i t, pool_threads p !! i = Some t -> won t = true ->
              th_deep t = false /\ (th_url t ∉ v) /\ th_url t ∈ pool_visited p)
        /\ (forall i t, pool_threads p !! i = Some t -> lost t = true ->
              th_deep t = true \/ th_url t ∈ pool_visited p)
        /\ (all_past p = true \/ exists i, is_Some (thread_step i p))
        /\ (forall i p', thread_step i p = Some p' ->
              (work p' < work p)%nat /\ pool_visited p ⊆ pool_visited p')
        /\ (all_past p = true ->
            (u ∈ v ->
             forall j t, pool_threads p !! j = Some t -> th_url t = u ->
                         th_pc t = Past false)
            /\ (u ∉ v -> (u, false) ∈ calls ->
                exists i,
                  pool_threads p !! i = Some (MkThread u false (Past true))
                  /\ forall j t, pool_threads p !! j = Some t -> th_url t = u -> j <> i ->
                       th_pc t = Past false)))
  /\ (forall (i : nat) (deep : bool) (p : Pool) (w0 : World),
        pool_threads p !! i = Some (MkThread u deep AtLock) ->
        pool_holder p = None ->
        staticVisited w0 = pool_visited p ->
        run [i; i; i; i] p
        = (let '(fresh, w1) := if deep then (false, w0) else visitAndCheck u w0 in
           MkPool (staticVisited w1) None
                  (<[i := MkThread u deep (Past fresh)]> (pool_threads p)))).
Proof.
  intros answers w'. subst answers w'.
  split; [apply visit_calls_length|].
  split; [intros i Hi; apply visit_calls_result, Hi|].
  split.
  { intros Hfresh Hin.
    apply list_elem_of_split_l in Hin as (l1 & l2 & -> & Hl1).
    exists (length l1).
    assert ((l1 ++ u :: l2) !! length l1 = Some u) as Hi
      by (rewrite lookup_app_r, Nat.sub_diag by lia; reflexivity).
    split; [exact Hi|]. split.
    - destruct (visit_calls_result _ w _ _ Hi) as (b & Hb & Hiff).
      rewrite Hb. f_equal. apply Hiff. split; [exact Hfresh|].
      rewrite take_app_length. exact Hl1.
    - intros j Hj.
      assert (length l1 <= j)%nat as Hle.
      { destruct (decide (j < length l1)%nat) as [Hlt|]; [|lia].
        rewrite lookup_app_l in Hj by exact Hlt.
        exfalso. apply Hl1. eapply list_elem_of_lookup_2, Hj. }
      split; [exact Hle|]. intros Hne.
      destruct (visit_calls_result _ w _ _ Hj) as (b & Hb & Hiff).
      rewrite Hb. f_equal. destruct b; [|reflexivity].
      exfalso. destruct Hiff as [Hiff _]. destruct (Hiff eq_refl) as [_ Hnot].
      apply Hnot. rewrite take_app_ge by lia.
      apply elem_of_app. right.
      destruct (j - length l1)%nat as [|k] eqn:Hk; [lia|].
      simpl. apply list_elem_of_here. }
  split.
  { intros Hin. rewrite visit_calls_visited.
    apply elem_of_union_l, elem_of_list_to_set, Hin. }
  split; [rewrite visit_calls_visited; apply union_subseteq_r|].
  split.
  { intros url w0. rewrite visitAndCheck_visited.
    split; [apply union_subseteq_r|].
    split; [apply elem_of_union_l, elem_of_singleton; reflexivity|].
    unfold visitAndCheck. case_bool_decide; [reflexivity | discriminate]. }
  split.
  { intros fuel depth maxDepth limit w0 Hl Hf.
    apply (enumerateDirectories_revisit E cfg _ _ _ _ limit); [exact Hl|].
    rewrite visitAndCheck_fresh, negb_false_iff in Hf.
    apply bool_decide_eq_true in Hf. exact Hf. }
  split.
  { intros fuel url depth maxDepth w0 e H.
    apply (enumerateDirectories_extends E cfg) in H. apply H. }
  split.
  { intros Hin i b Hb Hi.
    destruct (visit_calls_result _ w _ _ Hi) as (b' & Hb' & Hiff).
    rewrite Hb in Hb'. injection Hb' as <-.
    destruct b; [|reflexivity]. destruct Hiff as [Hiff _].
    destruct (Hiff eq_refl) as [Hnot _]. contradiction. }
  split; [|intros i deep p w0; apply block_is_visitAndCheck].
  intros v calls schedule p.
  pose proof (run_inv v calls schedule _ (start_inv v calls)) as Hinv. fold p in Hinv.
  split; [apply (run_visited schedule (start v calls))|].
  split; [intros i t Hi Hins j Hne; apply (pool_exclusive v calls p i j t); assumption|].
  pose proof Hinv as (_ & _ & _ & Hvis & _ & Hwon & Huniq & Hlost).
  split; [exact Huniq|].
  split.
  { intros i t Hi Hw. destruct (Hwon _ _ Hi Hw) as [Hd Hv].
    split; [exact Hd|]. split; [exact Hv|]. apply Hvis. right. eauto. }
  split; [exact Hlost|].
  split; [apply (pool_progress v calls), Hinv|].
  split.
  { intros i p' Hs. split; [apply (thread_step_work _ _ _ Hs)|].
    apply (thread_step_visited _ _ _ Hs). }
  intros Hall. apply (pool_result v calls p u Hinv Hall).
Qed.

End VisitedSet.

Lemma visited_exactly_once_witness :
  (("a" : str) ∉ staticVisited fresh_world)
  /\ fst (visit_calls ["a" : str; "b" : str; "a" : str] fresh_world) = [true; true; false]
  /\ (exists i,
        ["a" : str; "b" : str; "a" : str] !! i = Some ("a" : str)
        /\ fst (visit_calls ["a" : str; "b" : str; "a" : str] fresh_world) !! i = Some true
        /\ forall j, ["a" : str; "b" : str; "a" : str] !! j = Some ("a" : str) ->
             (i <= j)%nat
             /\ (j <> i ->
                 fst (visit_calls ["a" : str; "b" : str; "a" : str] fresh_world) !! j
                 = Some false))
  /\ map th_pc (pool_threads (run [0; 2; 1; 0; 0; 2; 0; 1; 1; 1; 1; 2; 2; 2]%nat
                                  (start ∅ [("a" : str, false); ("b" : str, false);
                                            ("a" : str, false)])))
     = [Past true; Past true; Past false]
  /\ map th_pc (pool_threads (run [2; 0; 2; 2; 1; 2; 0; 0; 0; 1; 1; 1; 1]%nat
                                  (start ∅ [("a" : str, false); ("b" : str, false);
                                            ("a" : str, false)])))
     = [Past false; Past true; Past true]
  /\ (exists i,
        pool_threads (run [2; 0; 2; 2; 1; 2; 0; 0; 0; 1; 1; 1; 1]%nat
                          (start ∅ [("a" : str, false); ("b" : str, false);
                                    ("a" : str, false)])) !! i
        = Some (MkThread "a" false (Past true))
        /\ forall j t,
             pool_threads (run [2; 0; 2; 2; 1; 2; 0; 0; 0; 1; 1; 1; 1]%nat
                               (start ∅ [("a" : str, false); ("b" : str, false);
                                         ("a" : str, false)])) !! j = Some t ->
             th_url t = ("a" : str) -> j <> i -> th_pc t = Past false).
Proof.
  assert (("a" : str) ∉ staticVisited fresh_world) as Hf by apply not_elem_of_empty.
  assert (("a" : str) ∈ ["a" : str; "b" : str; "a" : str]) as Hin
    by apply list_elem_of_here.
  destruct (visited_exactly_once silent_env (MkConfig "3" "5") "a"
              ["a" : str; "b" : str; "a" : str] fresh_world)
    as (_ & _ & Hone & _ & _ & _ & _ & _ & _ & Hpool & _).
  split; [exact Hf|]. split; [vm_compute; reflexivity|].
  split; [exact (Hone Hf Hin)|].
  split; [vm_compute; reflexivity|]. split; [vm_compute; reflexivity|].
  destruct (Hpool ∅ [("a" : str, false); ("b" : str, false); ("a" : str, false)]
                  [2; 0; 2; 2; 1; 2; 0; 0; 0; 1; 1; 1; 1]%nat)
    as (_ & _ & _ & _ & _ & _ & _ & Hend).
  destruct (Hend ltac:(vm_compute; reflexivity)) as [_ Hnew].
  apply Hnew; [apply not_elem_of_empty | apply list_elem_of_here].
Defined.

(** ** The found-set *)

Lemma set_insert_In (x z : str) (l : list str) :
  In z (set_insert x l) -> z = x \/ In z l.
Proof.
  induction l as [|y l IH]; simpl.
  - intros [<- | []]. left; reflexivity.
  - destruct (str_ltb x y); simpl; [intros [<- | H]; auto|].
    destruct (str_ltb y x); simpl; [|auto].
    intros [<- | H]; auto. destruct (IH H); auto.
Qed.

Lemma set_count_true (x : str) (l : list str) : set_count x l = true <-> In x l.
Proof.
  unfold set_count. rewrite existsb_exists. split.
  - intros (y & Hy & Heq). apply str_eqb_true in Heq. subst. exact Hy.
  - intros H. exists x. split; [exact H | apply str_eqb_refl].
Qed.

Lemma distinct_NoDup (l : list str) : distinct l = true -> NoDup l.
Proof.
  induction l as [|x l IH]; simpl; [constructor|].
  rewrite andb_true_iff, negb_true_iff. intros [Hx Hl]. constructor; [|auto].
  intros Hin. apply list_elem_of_In, set_count_true in Hin. congruence.
Qed.

Lemma commonDirs_NoDup : NoDup commonDirs.
Proof. apply distinct_NoDup. vm_compute. reflexivity. Qed.

Section Probing.

Context (E : Env) (cfg : Config).

Lemma probeTask_empty (baseUrl indent sig dir : str) (found : list str) (w : World) :
  env_get E (trace w) (combineUrl baseUrl dir) = [] ->
  probeTask E baseUrl indent sig dir (found, w)
  = (found, log (EvGet (combineUrl baseUrl dir) []) w).
Proof.
  intros H. unfold probeTask, httpGet. cbv beta zeta iota. rewrite H. reflexivity.
Qed.

Lemma probeTask_found (baseUrl indent sig dir z : str) (fw : list str * World) :
  In z (fst (probeTask E baseUrl indent sig dir fw)) -> z = dir \/ In z (fst fw).
Proof.
  destruct fw as [found w]. unfold probeTask, httpGet, httpStatus.
  cbv beta zeta iota.
  destruct (env_get E (trace w) (combineUrl baseUrl dir)) as [|c p]; [auto|].
  match goal with |- context [if ?b then _ else _] => destruct b end; simpl fst;
    [apply set_insert_In | auto].
Qed.

Lemma probeAll_app (baseUrl indent sig : str) (l1 l2 : list str) fw :
  probeAll E baseUrl indent sig (l1 ++ l2) fw
  = probeAll E baseUrl indent sig l2 (probeAll E baseUrl indent sig l1 fw).
Proof. unfold probeAll. apply fold_left_app. Qed.

Lemma probeAll_cons (baseUrl indent sig d : str) (l : list str) fw :
  probeAll E baseUrl indent sig (d :: l) fw
  = probeAll E baseUrl indent sig l
      (if set_count d (fst fw) then fw else probeTask E baseUrl indent sig d fw).
Proof. reflexivity. Qed.

Lemma probeAll_found (baseUrl indent sig z : str) (dirs : list str) :
  forall fw, In z (fst (probeAll E baseUrl indent sig dirs fw)) ->
             In z dirs \/ In z (fst fw).
Proof.
  induction dirs as [|d dirs IH]; intros fw; [auto|].
  rewrite probeAll_cons. intros H. apply IH in H as [H | H]; [left; right; exact H|].
  destruct (set_count d (fst fw)); [auto|].
  apply probeTask_found in H as [-> | H]; [left; left; reflexivity | auto].
Qed.

(** C7. A dictionary name that is not a known directory and whose probe
    comes back empty: its task ends after the fetch, with the found-set
    untouched and nothing but the fetch in the trace (no status request, no
    output line); no classification exists for an empty body; and the name
    is in the found-set neither when its task ends nor when the whole
    probing loop has ended. *)
Theorem empty_probe_is_absent (baseUrl indent sig dir : str)
    (before after found : list str) (w : World) :
  commonDirs = before ++ dir :: after ->
  ~ In dir found ->
  env_get E (trace (snd (probeAll E baseUrl indent sig before (found, w))))
          (combineUrl baseUrl dir) = [] ->
  let fw1 := probeAll E baseUrl indent sig before (found, w) in
  probeTask E baseUrl indent sig dir fw1
  = (fst fw1, log (EvGet (combineUrl baseUrl dir) []) (snd fw1))
  /\ (forall code, classify baseUrl [] sig code = None)
  /\ ~ In dir (fst fw1)
  /\ ~ In dir (fst (probeAll E baseUrl indent sig commonDirs (found, w))).
Proof.
  intros Hsplit Hknown Hempty fw1.
  pose proof commonDirs_NoDup as Hnd. rewrite Hsplit in Hnd.
  apply NoDup_app in Hnd as (_ & Hba & Hnd).
  apply NoDup_cons in Hnd as [Hafter _].
  assert (~ In dir before) as Hbefore.
  { intros Hin. apply list_elem_of_In in Hin. apply (Hba dir Hin), list_elem_of_here. }
  assert (~ In dir (fst fw1)) as H1.
  { intros Hin. apply probeAll_found in Hin as [Hin | Hin]; auto. }
  assert (probeTask E baseUrl indent sig dir fw1
          = (fst fw1, log (EvGet (combineUrl baseUrl dir) []) (snd fw1))) as Htask.
  { destruct fw1 as [f1 w1] eqn:Hfw. apply probeTask_empty.
    subst fw1. rewrite Hfw in Hempty. exact Hempty. }
  split; [exact Htask|]. split; [reflexivity|]. split; [exact H1|].
  rewrite Hsplit, probeAll_app, probeAll_cons. fold fw1.
  destruct (set_count dir (fst fw1)) eqn:Hc; [apply set_count_true in Hc; tauto|].
  rewrite Htask. intros Hin. apply probeAll_found in Hin as [Hin | Hin].
  - apply Hafter, list_elem_of_In, Hin.
  - apply H1, Hin.
Qed.

End Probing.

Lemma empty_probe_is_absent_witness :
  probeTask silent_env "http://h" "" "" "admin/" ([], fresh_world)
  = ([], log (EvGet "http://h/admin/" []) fresh_world)
  /\ ~ In ("admin/" : str) (fst (probeAll silent_env "http://h" "" "" commonDirs ([], fresh_world))).
Proof.
  pose proof (empty_probe_is_absent silent_env "http://h" "" "" "admin/"
                [] (tl commonDirs) [] fresh_world eq_refl (fun H => H) eq_refl) as H.
  cbv zeta in H. destruct H as (H1 & _ & _ & H4). split; [exact H1 | exact H4].
Defined.

Section Enumerator.

Context (E : Env) (cfg : Config).

Lemma files_extends (indent : str) (files : list str) :
  forall w, extends w (fold_left (fun w file => emit (file_line indent file) w) files w).
Proof.
  induction files as [|f files IH]; intros w; simpl; [apply extends_refl|].
  eapply extends_trans; [apply extends_emit | apply IH].
Qed.

Lemma listGlobalRecursive_extends (fuel : nat) :
  forall (url : str) (depth maxDepth : Z) (w : World) (e : Ending),
    listGlobalRecursive E cfg fuel url depth maxDepth w = Some e ->
    extends w (after e).
Proof.
  induction fuel as [|fuel IH]; intros url depth maxDepth w e;
    rewrite listGlobalRecursive_unfold.
  all: destruct (depth_limit _ _) as [limit|]; [|intros [= <-]; apply extends_refl].
  all: destruct (depth >? _); [intros [= <-]; apply extends_refl|].
  all: destruct (indent_of depth) as [indent|]; [|intros [= <-]; apply extends_refl].
  all: unfold httpGet; cbv beta zeta iota.
  all: set (w1 := emit _ w); set (html := env_get E (trace w1) url);
    set (w2 := log (EvGet url html) w1).
  all: assert (extends w w2) as H2
      by (eapply extends_trans; [apply extends_emit | apply extends_log]).
  all: destruct html as [|c html];
    [intros [= <-]; eapply extends_trans; [exact H2 | apply extends_emit]|].
  all: destruct (extractLinks (c :: html)) as [|l links];
    [intros [= <-]; eapply extends_trans; [exact H2 | apply extends_emit]|].
  all: destruct (partition_links (l :: links)) as [directories files].
  all: destruct (is_empty files && is_empty directories);
    [intros [= <-]; eapply extends_trans; [exact H2 | apply extends_emit]|].
  - discriminate.
  - destruct (branches _ directories _) as [wb|] eqn:Hb; [|discriminate].
    intros [= <-]. cbn [after].
    eapply extends_trans; [exact H2|].
    eapply extends_trans; [apply (files_extends indent files)|].
    eapply (fold_branches_extends _ directories); [|exact Hb].
    intros wa d wc Hab. apply joined_Some in Hab as (e' & Hab & <-).
    eapply extends_trans; [apply extends_emit | eapply IH, Hab].
Qed.

(** ** C4: the baseline cache *)

(** C4. A lookup of the baseline signature for [baseUrl]. On a miss it
    draws one random number, performs exactly one fetch (of the nonce
    path under [baseUrl]) and stores the first 512 bytes of the body, or
    the whole body if it is shorter: the empty body included. On a hit it
    returns the stored value with no event at all. After the lookup the
    value is in the cache, and stays there in every later state of the
    process, so that every later lookup returns the same value without a
    fetch; the enumerator and the lister only lead to later states,
    whether they return or throw. *)
Theorem baseline_computed_once (baseUrl : str) (w : World) :
  let sig := fst (baselineSignature E baseUrl w) in
  let w1 := snd (baselineSignature E baseUrl w) in
  (notFoundCache w !! baseUrl = None ->
     let r := env_rand E (trace w) in
     let body := env_get E (trace w ++ [EvRand r]) (fake404_url baseUrl r) in
     trace w1 = trace w ++ [EvRand r; EvGet (fake404_url baseUrl r) body]
     /\ sig = take 512 body
     /\ (length sig <= 512)%nat
     /\ ((length body <= 512)%nat -> sig = body)
     /\ (body = [] -> notFoundCache w1 !! baseUrl = Some [])
     /\ notFoundCache w1 = <[baseUrl := sig]> (notFoundCache w)
     /\ staticVisited w1 = staticVisited w)
  /\ (forall v, notFoundCache w !! baseUrl = Some v -> sig = v /\ w1 = w)
  /\ notFoundCache w1 !! baseUrl = Some sig
  /\ (forall w2, extends w1 w2 -> baselineSignature E baseUrl w2 = (sig, w2))
  /\ (forall fuel url depth maxDepth w2 e,
        extends w1 w2 ->
        enumerateDirectories E cfg fuel url depth maxDepth w2 = Some e
        \/ listGlobalRecursive E cfg fuel url depth maxDepth w2 = Some e ->
        extends w1 (after e)).
Proof.
  intros sig w1. subst sig w1.
  split.
  { intros Hmiss r body. rewrite (baselineSignature_miss E _ _ Hmiss).
    cbn [fst snd trace notFoundCache staticVisited]. fold r. unfold substr0.
    change (combineUrl baseUrl ("__tcli_fake404__" ++ to_string r ++ "/"))
      with (fake404_url baseUrl r). fold body.
    split; [reflexivity|]. split; [reflexivity|].
    split; [rewrite length_take; lia|].
    split; [intros Hlen; apply take_ge; exact Hlen|].
    split; [intros ->; apply lookup_insert_eq|].
    split; reflexivity. }
  split.
  { intros v Hhit. rewrite (baselineSignature_hit E _ _ _ Hhit). split; reflexivity. }
  split; [apply baselineSignature_cached|].
  split.
  { intros w2 (_ & _ & Hc). apply baselineSignature_hit.
    eapply lookup_weaken; [apply baselineSignature_cached | exact Hc]. }
  intros fuel url depth maxDepth w2 e H12 [H | H].
  - eapply extends_trans; [exact H12 | eapply enumerateDirectories_extends, H].
  - eapply extends_trans; [exact H12 | eapply listGlobalRecursive_extends, H].
Qed.

(** ** C6: termination of the enumerator *)







(** ** C10: a URL whose fetch failed *)

(** C10, as the code has it. A call of the enumerator within the depth
    bound, at a depth for which the indent can be built, on a URL not yet
    visited, whose fetch comes back empty: it returns with the URL in the
    visited set although the trace holds nothing but the announcement,
    the fetch and the no-response line, and nothing else of the state
    changed. The set is a static of the process: in every later state,
    whatever depth, bound and settings a call for this URL is given, it
    makes no output and no fetch. It returns at once when its bound can
    be read; a call that is to read the bound from a setting that
    [std::stoi] cannot read (a new top-level call after the setting was
    changed) throws instead, before the visited set is looked at. The
    command [enum] on this URL behaves accordingly. Whatever the process
    runs in between leads to such a later state. *)
Theorem failed_url_stays_visited (baseUrl : str) (depth maxDepth limit : Z)
    (indent : str) (w : World) :
  depth_limit (max_enum_depth cfg) maxDepth = Some limit ->
  depth <= limit ->
  indent_of depth = Some indent ->
  baseUrl ∉ staticVisited w ->
  env_get E (trace w ++ [EvOut (enumerating_line indent baseUrl)]) baseUrl = [] ->
  exists w1,
    (forall fuel,
        enumerateDirectories E cfg fuel baseUrl depth maxDepth w = Some (Returns w1))
    /\ trace w1 = trace w ++ [EvOut (enumerating_line indent baseUrl);
                              EvGet baseUrl [];
                              EvOut (no_response_line indent)]
    /\ staticVisited w1 = {[baseUrl]} ∪ staticVisited w
    /\ notFoundCache w1 = notFoundCache w
    /\ (forall (cfg' : Config) (w2 : World), extends w1 w2 ->
          forall fuel d m,
            enumerateDirectories E cfg' fuel baseUrl d m w2
            = match depth_limit (max_enum_depth cfg') m with
              | Some _ => Some (Returns w2)
              | None => Some (Throws w2)
              end)
    /\ (forall (sh : Shell) (fuel : nat) (setting : str),
          extends w1 (world sh) ->
          config sh !! ("gl_path" : str) = Some baseUrl -> baseUrl <> "n/a" ->
          config sh !! ("max_enum_depth" : str) = Some setting ->
          cmdEnum E fuel sh
          = match stoi setting with
            | Some _ => Finished sh
            | None => Thrown sh
            end)
    /\ (forall fuel url d m w2 e,
          extends w1 w2 ->
          enumerateDirectories E cfg fuel url d m w2 = Some e
          \/ listGlobalRecursive E cfg fuel url d m w2 = Some e ->
          extends w1 (after e)).
Proof.
  intros Hl Hdepth Hind Hfresh Hempty.
  assert (forall (cfg' : Config) (w2 : World),
             baseUrl ∈ staticVisited w2 ->
             forall fuel d m,
               enumerateDirectories E cfg' fuel baseUrl d m w2
               = match depth_limit (max_enum_depth cfg') m with
                 | Some _ => Some (Returns w2)
                 | None => Some (Throws w2)
                 end) as Hlater.
  { intros cfg' w2 Hin fuel d m.
    destruct (depth_limit (max_enum_depth cfg') m) as [l|] eqn:Hm.
    - apply (enumerateDirectories_revisit E cfg' _ _ _ _ l); assumption.
    - apply enumerateDirectories_unreadable, Hm. }
  eexists. split.
  { intros fuel. rewrite enumerateDirectories_unfold, Hl.
    destruct (depth >? _) eqn:Hgt.
    { rewrite Z.gtb_ltb, Z.ltb_lt in Hgt. lia. }
    unfold visitAndCheck. rewrite bool_decide_eq_false_2 by exact Hfresh.
    cbn [negb]. rewrite Hind. unfold httpGet. cbv beta zeta iota.
    change (trace (emit ?t ?w0)) with (trace w0 ++ [EvOut t]).
    cbn [trace]. rewrite Hempty.
    reflexivity. }
  split.
  { cbn [emit log trace]. rewrite <- !app_assoc. reflexivity. }
  split; [reflexivity|]. split; [reflexivity|]. split.
  { intros cfg' w2 (_ & Hv & _). apply Hlater.
    apply Hv. cbn. apply elem_of_union_l, elem_of_singleton. reflexivity. }
  split.
  { intros sh fuel setting (_ & Hv & _) Hgl Hne Hset.
    assert (forall key v (s0 : Shell), config s0 !! key = Some v ->
              read_config key s0 = (v, s0)) as Hread.
    { intros key v s0 H. unfold read_config, config_at. rewrite H.
      destruct s0; reflexivity. }
    unfold cmdEnum. rewrite !(Hread _ _ _ Hgl).
    destruct (str_eqb baseUrl "n/a") eqn:Hna;
      [apply str_eqb_true in Hna; contradiction|].
    rewrite (Hread _ _ _ Hset).
    rewrite Hlater
      by (apply Hv; cbn; apply elem_of_union_l, elem_of_singleton; reflexivity).
    unfold depth_limit, settings, config_at. cbn [Z.eqb max_enum_depth fst].
    rewrite Hset. cbn [fst].
    destruct (stoi setting); destruct sh; reflexivity. }
  intros fuel url d m w2 e H12 [H | H].
  - eapply extends_trans; [exact H12 | eapply enumerateDirectories_extends, H].
  - eapply extends_trans; [exact H12 | eapply listGlobalRecursive_extends, H].
Qed.

End Enumerator.


Lemma failed_url_stays_visited_witness :
  exists w1,
    enumerateDirectories silent_env (MkConfig "3" "5") 1 "http://h" 0 (-1) fresh_world
    = Some (Returns w1)
    /\ ("http://h" : str) ∈ staticVisited w1
    /\ enumerateDirectories silent_env (MkConfig "3" "5") 1 "http://h" 0 (-1) w1
       = Some (Returns w1).
Proof.
  destruct (failed_url_stays_visited silent_env (MkConfig "3" "5") "http://h" 0 (-1) 3 []
              fresh_world) as (w1 & H1 & _ & Hv & _ & Hlater & _).
  - reflexivity.
  - lia.
  - reflexivity.
  - apply not_elem_of_empty.
  - reflexivity.
  - exists w1. split; [apply H1|].
    split; [rewrite Hv; apply elem_of_union_l, elem_of_singleton; reflexivity|].
    apply (Hlater (MkConfig "3" "5") w1), extends_refl.
Defined.

(** A failed fetch, then [set max_enum_depth abc false], then [enum]
    again: the second [enum] does not return at once, [std::stoi]
    throws. *)
Lemma failed_url_counterexample :
  cmdEnum silent_env 1 connected_shell = Finished failed_shell
  /\ ("http://h" : str) ∈ staticVisited (world failed_shell)
  /\ config unreadable_shell !! ("gl_path" : str) = Some ("http://h" : str)
  /\ config unreadable_shell !! ("max_enum_depth" : str) = Some ("abc" : str)
  /\ staticVisited (world unreadable_shell) = staticVisited (world failed_shell)
  /\ cmdEnum silent_env 1 unreadable_shell = Thrown unreadable_shell
  /\ enumerateDirectories silent_env (settings (config unreadable_shell)) 1
       "http://h" 0 (-1) (world unreadable_shell)
     = Some (Throws (world unreadable_shell)).
Proof.
  split; [vm_compute; reflexivity|].
  split; [apply (bool_decide_unpack _); vm_compute; exact I|].
  repeat split; vm_compute; reflexivity.
Qed.

(** ** C9: the flat lister *)








Section Lister.

Context (E : Env) (cfg : Config).









End Lister.

Local Close Scope Z_scope.

(** ** The matcher against [Matches] *)

Lemma or_else_Some {A} (x y : option A) (v : A) :
  or_else x y = Some v -> x = Some v \/ (x = None /\ y = Some v).
Proof. destruct x; simpl; auto. Qed.

Lemma or_else_None {A} (x y : option A) :
  or_else x y = None <-> x = None /\ y = None.
Proof. destruct x; simpl; intuition congruence. Qed.

Section Matcher.

Context (icase : bool) (n0 : nat).

Lemma star_sound (g : bool) (a : atom) (s : str) :
  forall caps k res,
    star icase g a s caps k = Some res ->
    exists s', Matches icase n0 (Star g a) s s' [] /\ k (MState s' caps) = Some res.
Proof.
  induction s as [|c s IH]; intros caps k res; simpl.
  - intros H. exists []. split; [constructor | exact H].
  - destruct (atom_ok icase a c) eqn:Hc.
    + destruct g; intros H; apply or_else_Some in H as [H | [_ H]].
      * apply IH in H as (s' & Hm & Hk). exists s'. split; [constructor; auto | exact Hk].
      * exists (c :: s). split; [constructor | exact H].
      * exists (c :: s). split; [constructor | exact H].
      * apply IH in H as (s' & Hm & Hk). exists s'. split; [constructor; auto | exact Hk].
    + intros H. exists (c :: s). split; [constructor | exact H].
Qed.

Lemma star_complete (g : bool) (a : atom) (s s' : str) :
  Matches icase n0 (Star g a) s s' [] ->
  forall caps k,
    k (MState s' caps) <> None -> star icase g a s caps k <> None.
Proof.
  intros Hm. remember (Star g a) as r eqn:Hr. remember [] as c0 eqn:Hc0.
  induction Hm; try discriminate; injection Hr as -> ->; intros caps k Hk.
  - destruct s as [|c s]; simpl; [exact Hk|].
    destruct (atom_ok icase a c); [|exact Hk].
    destruct g; rewrite or_else_None; tauto.
  - simpl. rewrite H. specialize (IHHm eq_refl Hc0 caps k Hk).
    destruct g; rewrite or_else_None; tauto.
Qed.

Lemma exec_sound (r : regex) :
  forall s caps k res,
    exec icase n0 r (MState s caps) k = Some res ->
    exists s' c, Matches icase n0 r s s' c /\ k (MState s' (c ++ caps)) = Some res.
Proof.
  induction r as [|a| |r1 IH1 r2 IH2|r IH|g a|i r IH]; intros s caps k res; simpl.
  - intros H. exists s, []. split; [constructor | exact H].
  - destruct s as [|c s]; [discriminate|].
    destruct (atom_ok icase a c) eqn:Hc; [|discriminate].
    intros H. exists s, []. split; [constructor; exact Hc | exact H].
  - destruct (length s =? n0)%nat eqn:Hn; [|discriminate].
    apply Nat.eqb_eq in Hn.
    intros H. exists s, []. split; [constructor; exact Hn | exact H].
  - intros H. apply IH1 in H as (s1 & c1 & Hm1 & H).
    apply IH2 in H as (s2 & c2 & Hm2 & H).
    exists s2, (c2 ++ c1). split; [econstructor; eassumption|].
    rewrite <- app_assoc. exact H.
  - intros H. apply or_else_Some in H as [H | [_ H]].
    + apply IH in H as (s' & c & Hm & H). exists s', c. split; [constructor; exact Hm | exact H].
    + exists s, []. split; [constructor | exact H].
  - intros H. apply star_sound in H as (s' & Hm & H). exists s', []. auto.
  - intros H. apply IH in H as (s' & c & Hm & H). simpl in H.
    exists s', ((i, take (length s - length s') s) :: c).
    split; [constructor; exact Hm | exact H].
Qed.

Lemma exec_complete (r : regex) (s s' : str) (c : list (nat * str)) :
  Matches icase n0 r s s' c ->
  forall caps k,
    k (MState s' (c ++ caps)) <> None ->
    exec icase n0 r (MState s caps) k <> None.
Proof.
  induction 1 as [s|a ch s Hc|s Hn|r1 r2 s s1 s2 c1 c2 _ IH1 _ IH2|r s
                  |r s s' c _ IH|g a s|g a ch s s' Hc Hm _|i r s s' c _ IH];
    intros caps k Hk; simpl.
  - exact Hk.
  - rewrite Hc. exact Hk.
  - apply Nat.eqb_eq in Hn. rewrite Hn. exact Hk.
  - apply IH1. apply IH2. rewrite app_assoc. exact Hk.
  - rewrite or_else_None. tauto.
  - rewrite or_else_None. intros [H _]. revert H. apply IH, Hk.
  - apply (star_complete g a s s); [constructor | exact Hk].
  - apply (star_complete g a (ch :: s) s'); [constructor; assumption | exact Hk].
  - apply IH. exact Hk.
Qed.

(** What a match consumes is a prefix of the text it started from. *)
Lemma Matches_suffix (r : regex) (s s' : str) (c : list (nat * str)) :
  Matches icase n0 r s s' c -> exists m, s = m ++ s'.
Proof.
  induction 1 as [s|a ch s Hc|s Hn|r1 r2 s s1 s2 c1 c2 _ [m1 ->] _ [m2 ->]|r s
                  |r s s' c _ IH|g a s|g a ch s s' Hc _ [m ->]|i r s s' c _ IH];
    try (exists []; reflexivity); auto.
  - exists [ch]. reflexivity.
  - exists (m1 ++ m2). rewrite app_assoc. reflexivity.
  - exists (ch :: m). reflexivity.
Qed.

End Matcher.

Section Search.

Context (icase : bool).

Lemma Matches_min_len (n0 : nat) (r : regex) (s s' : str) (c : list (nat * str)) :
  Matches icase n0 r s s' c -> length s' + min_len r <= length s.
Proof.
  induction 1; simpl in *; lia.
Qed.

Lemma star_ext (g : bool) (a : atom) (s : str) :
  forall caps k k', (forall st, k st = k' st) ->
    star icase g a s caps k = star icase g a s caps k'.
Proof.
  induction s as [|c s IH]; intros caps k k' Hk; simpl.
  - apply Hk.
  - rewrite (IH caps k k' Hk), Hk. reflexivity.
Qed.

Lemma exec_ext (n0 : nat) (r : regex) :
  forall st k k', (forall st', k st' = k' st') ->
    exec icase n0 r st k = exec icase n0 r st k'.
Proof.
  induction r as [|a| |r1 IH1 r2 IH2|r IH|g a|i r IH]; intros st k k' Hk; simpl.
  - apply Hk.
  - destruct (m_rest st) as [|c s]; [reflexivity|]. rewrite Hk. reflexivity.
  - rewrite Hk. reflexivity.
  - apply IH1. intros st'. apply IH2, Hk.
  - rewrite (IH st k k' Hk), Hk. reflexivity.
  - apply star_ext, Hk.
  - apply IH. intros st'. apply Hk.
Qed.

Lemma exec_no_bol (n0 n1 : nat) (r : regex) :
  no_bol r = true ->
  forall st k, exec icase n0 r st k = exec icase n1 r st k.
Proof.
  induction r as [|a| |r1 IH1 r2 IH2|r IH|g a|i r IH]; intros Hb st k; simpl in *;
    try reflexivity; try discriminate.
  - apply andb_true_iff in Hb as [Hb1 Hb2]. rewrite (IH1 Hb1).
    apply exec_ext. intros st'. apply IH2, Hb2.
  - rewrite (IH Hb). reflexivity.
  - apply IH, Hb.
Qed.

(** The matcher at one start position. *)
Lemma exec_at_Some (n0 : nat) (r : regex) (s : str) (st : mstate) :
  exec icase n0 r (MState s []) Some = Some st ->
  Matches icase n0 r s (m_rest st) (m_caps st)
  /\ s = take (length s - length (m_rest st)) s ++ m_rest st.
Proof.
  intros H. apply exec_sound in H as (s' & c & Hm & [= <-]). simpl.
  rewrite app_nil_r. split; [exact Hm|].
  destruct (Matches_suffix _ _ _ _ _ _ Hm) as [m ->].
  rewrite length_app, Nat.add_sub, take_app_length. reflexivity.
Qed.

Lemma exec_at_None (n0 : nat) (r : regex) (s : str) :
  exec icase n0 r (MState s []) Some = None ->
  forall s' c, ~ Matches icase n0 r s s' c.
Proof.
  intros H s' c Hm. revert H. eapply exec_complete; [exact Hm | discriminate].
Qed.

Lemma search_from_unfold (n0 : nat) (r : regex) (pre s : str) :
  search_from icase n0 r pre s
  = match exec icase n0 r (MState s []) Some with
    | Some st =>
        Some (RMatch (rev pre) (take (length s - length (m_rest st)) s)
                     (m_caps st) (m_rest st))
    | None =>
        match s with
        | [] => None
        | c :: s' => search_from icase n0 r (c :: pre) s'
        end
    end.
Proof. destruct s; reflexivity. Qed.

Lemma found_here (n0 : nat) (r : regex) (pre s : str) (st : mstate) :
  exec icase n0 r (MState s []) Some = Some st ->
  leftmost_match icase n0 r pre s
    (RMatch (rev pre) (take (length s - length (m_rest st)) s) (m_caps st) (m_rest st)).
Proof.
  intros He. apply exec_at_Some in He as [Hm Heq]. exists [].
  cbn [rm_prefix rm_str0 rm_suffix rm_caps]. rewrite app_nil_r, <- Heq.
  split; [reflexivity|]. split; [reflexivity|]. split; [exact Hm|].
  intros sk1 sk2 s' c Hsk Hne. destruct sk1, sk2; simpl in *; congruence.
Qed.

(** [std::regex_search] finds a match, and the leftmost start. *)
Lemma search_from_Some (n0 : nat) (r : regex) (s : str) :
  forall pre m,
    search_from icase n0 r pre s = Some m -> leftmost_match icase n0 r pre s m.
Proof.
  induction s as [|ch s IH]; intros pre m; rewrite search_from_unfold;
    destruct (exec icase n0 r (MState _ []) Some) as [st|] eqn:He;
    try discriminate.
  1, 2: intros [= <-]; exact (found_here n0 r pre _ st He).
  intros H. apply IH in H as (skipped & Hpre & Hs & Hm & Hleft).
  exists (ch :: skipped). simpl in Hpre. rewrite <- app_assoc in Hpre.
  split; [exact Hpre|]. split; [simpl; f_equal; exact Hs|]. split; [exact Hm|].
  intros sk1 sk2 s' c Hsk Hne. destruct sk1 as [|x sk1]; simpl in Hsk.
  - subst sk2. simpl. rewrite <- Hs. apply exec_at_None, He.
  - injection Hsk as _ Hsk. eapply Hleft; eassumption.
Qed.

Lemma search_from_None (n0 : nat) (r : regex) (s : str) :
  forall pre,
    search_from icase n0 r pre s = None ->
    forall sk rest s' c, s = sk ++ rest -> ~ Matches icase n0 r rest s' c.
Proof.
  induction s as [|ch s IH]; intros pre; rewrite search_from_unfold;
    destruct (exec icase n0 r (MState _ []) Some) as [st|] eqn:He;
    try discriminate.
  - intros _ sk rest s' c Hs. symmetry in Hs. apply app_eq_nil in Hs as [_ ->].
    apply exec_at_None, He.
  - intros H sk rest s' c Hs. destruct sk as [|x sk]; simpl in Hs.
    + subst rest. apply exec_at_None, He.
    + injection Hs as _ Hs. eapply IH; eassumption.
Qed.

Lemma search_from_no_bol (n0 n1 : nat) (r : regex) (s : str) :
  no_bol r = true ->
  forall pre, search_from icase n0 r pre s = search_from icase n1 r pre s.
Proof.
  intros Hb. induction s as [|ch s IH]; intros pre;
    rewrite (search_from_unfold n0), (search_from_unfold n1);
    rewrite (exec_no_bol n0 n1 r Hb); [reflexivity|].
  destruct (exec icase n1 r _ Some); [reflexivity | apply IH].
Qed.

(** For a pattern that cannot match the empty string and has no [^], the
    iterator is a plain loop: search, then go on after the match; fuel
    above the length of the text is enough. *)
Lemma iterate_step (fuel n0 : nat) (r : regex) (s : str) :
  0 < min_len r ->
  iterate (S fuel) icase n0 r s
  = match search_from icase n0 r [] s with
    | None => []
    | Some m => m :: iterate fuel icase (S n0) r (rm_suffix m)
    end.
Proof.
  intros Hmin. cbn [iterate].
  destruct (search_from icase n0 r [] s) as [m|] eqn:Hs; [|reflexivity].
  apply search_from_Some in Hs as (_ & _ & _ & Hm & _).
  apply Matches_min_len in Hm. rewrite length_app in Hm.
  destruct (rm_str0 m); [simpl in Hm; lia | reflexivity].
Qed.

Lemma iterate_enough (r : regex) :
  0 < min_len r -> no_bol r = true ->
  forall fuel1 fuel2 n0 n1 s,
    length s < fuel1 -> length s < fuel2 ->
    iterate fuel1 icase n0 r s = iterate fuel2 icase n1 r s.
Proof.
  intros Hmin Hb. induction fuel1 as [|fuel1 IH]; intros fuel2 n0 n1 s H1 H2; [lia|].
  destruct fuel2 as [|fuel2]; [lia|].
  rewrite !iterate_step by exact Hmin.
  rewrite (search_from_no_bol n0 n1 r s Hb).
  destruct (search_from icase n1 r [] s) as [m|] eqn:Hs; [|reflexivity].
  f_equal. apply search_from_Some in Hs as (sk & _ & Hs & Hm & _).
  apply Matches_min_len in Hm. rewrite length_app in Hm.
  apply (f_equal (@length ascii)) in Hs. rewrite !length_app in Hs.
  apply IH; lia.
Qed.

End Search.

(** ** Inversion of [Matches] on the shapes the patterns use *)

Section Shapes.

Context (icase : bool) (n0 : nat).

Lemma Matches_Seq_inv r1 r2 s s2 c :
  Matches icase n0 (Seq r1 r2) s s2 c ->
  exists s1 c1 c2,
    Matches icase n0 r1 s s1 c1 /\ Matches icase n0 r2 s1 s2 c2 /\ c = c2 ++ c1.
Proof. inversion 1; subst. eauto 10. Qed.

Lemma Matches_Atom_inv a s s' c :
  Matches icase n0 (Atom a) s s' c ->
  exists ch, s = ch :: s' /\ atom_ok icase a ch = true /\ c = [].
Proof. inversion 1; subst. eauto. Qed.

Lemma Matches_Lit (l : str) :
  forall s s' c,
    Matches icase n0 (Lit l) s s' c <->
    exists m, s = m ++ s' /\ c = [] /\ lit_ok icase l m.
Proof.
  unfold lit_ok. induction l as [|x l IH]; intros s s' c; simpl.
  - split.
    + inversion 1; subst. exists []. auto.
    + intros (m & -> & -> & Hm). symmetry in Hm. apply map_eq_nil in Hm as ->.
      constructor.
  - split.
    + intros H. apply Matches_Seq_inv in H as (s1 & c1 & c2 & H1 & H2 & ->).
      apply Matches_Atom_inv in H1 as (ch & -> & Hch & ->).
      apply IH in H2 as (m & -> & -> & Hm).
      exists (ch :: m). split; [reflexivity|]. split; [reflexivity|].
      simpl. f_equal; [|exact Hm]. apply ascii_eqb_true, Hch.
    + intros (m & -> & -> & Hm). destruct m as [|ch m]; [discriminate|].
      simpl in Hm. injection Hm as Hch Hm.
      change (@nil (nat * str)) with (@nil (nat * str) ++ []).
      econstructor.
      * constructor. simpl. apply ascii_eqb_true, Hch.
      * apply IH. exists m. auto.
Qed.

Lemma Matches_Star (g : bool) (a : atom) (s s' : str) (c : list (nat * str)) :
  Matches icase n0 (Star g a) s s' c <->
  exists m, s = m ++ s' /\ c = [] /\ Forall (fun ch => atom_ok icase a ch = true) m.
Proof.
  split.
  - intros H. remember (Star g a) as r eqn:Hr.
    induction H; try discriminate; injection Hr as -> ->.
    + exists []. auto.
    + destruct (IHMatches eq_refl) as (m & -> & _ & Hm).
      exists (c :: m). auto.
  - intros (m & -> & -> & Hm). induction Hm as [|ch m Hch _ IH]; simpl;
      constructor; assumption.
Qed.

Lemma Matches_Plus (a : atom) (s s' : str) (c : list (nat * str)) :
  Matches icase n0 (Plus a) s s' c <->
  exists m, s = m ++ s' /\ c = [] /\ m <> []
            /\ Forall (fun ch => atom_ok icase a ch = true) m.
Proof.
  unfold Plus. split.
  - intros H. apply Matches_Seq_inv in H as (s1 & c1 & c2 & H1 & H2 & ->).
    apply Matches_Atom_inv in H1 as (ch & -> & Hch & ->).
    apply Matches_Star in H2 as (m & -> & -> & Hm).
    exists (ch :: m). repeat split; auto; discriminate.
  - intros (m & -> & -> & Hne & Hm). destruct m as [|ch m]; [congruence|].
    apply Forall_cons in Hm as [Hch Hm].
    change (@nil (nat * str)) with (@nil (nat * str) ++ []).
    econstructor; [constructor; exact Hch|].
    apply Matches_Star. exists m. auto.
Qed.

End Shapes.

(** ** The link pattern *)

Lemma tolower_gt (c : ascii) : tolower ">" = tolower c <-> c = ">"%char.
Proof.
  destruct c as [[] [] [] [] [] [] [] []]; vm_compute; split; congruence.
Qed.

Lemma tolower_dquote (c : ascii) : tolower dquote = tolower c <-> c = dquote.
Proof.
  destruct c as [[] [] [] [] [] [] [] []]; vm_compute; split; congruence.
Qed.

Lemma NotChr_ok (x c : ascii) :
  atom_ok true (NotChr x) c = true <-> tolower x <> tolower c.
Proof.
  unfold atom_ok, translate, ascii_eqb. rewrite negb_true_iff, Ascii.eqb_neq.
  reflexivity.
Qed.

Lemma not_gt_ok (text : str) :
  Forall (fun ch => atom_ok true (NotChr ">") ch = true) text <-> ~ In ">"%char text.
Proof.
  induction text as [|c text IH]; cbn [In].
  - split; [tauto | constructor].
  - rewrite Forall_cons, IH, NotChr_ok, tolower_gt. intuition congruence.
Qed.

Lemma not_dquote_ok (v : str) :
  Forall (fun ch => atom_ok true (NotChr dquote) ch = true) v <-> ~ In dquote v.
Proof.
  induction v as [|c v IH]; cbn [In].
  - split; [tauto | constructor].
  - rewrite Forall_cons, IH, NotChr_ok, tolower_dquote. intuition congruence.
Qed.

Lemma Matches_Opt_inv (icase : bool) (n0 : nat) r s s' c :
  Matches icase n0 (Opt r) s s' c -> (s' = s /\ c = []) \/ Matches icase n0 r s s' c.
Proof. inversion 1; subst; auto. Qed.

Lemma Matches_Group_inv (icase : bool) (n0 : nat) i r s s' c :
  Matches icase n0 (Group i r) s s' c ->
  exists c', Matches icase n0 r s s' c' /\ c = (i, take (length s - length s') s) :: c'.
Proof. inversion 1; subst; eauto. Qed.

Lemma Matches_Group_intro (icase : bool) (n0 : nat) i r (v rest : str) c :
  Matches icase n0 r (v ++ rest) rest c ->
  Matches icase n0 (Group i r) (v ++ rest) rest ((i, v) :: c).
Proof.
  intros H. apply (M_Group icase n0 i) in H.
  rewrite length_app, Nat.add_sub, take_app_length in H. exact H.
Qed.

Lemma href_regex_shape : no_bol href_regex = true /\ 0 < min_len href_regex.
Proof. split; [reflexivity | vm_compute; lia]. Qed.

Lemma href_Matches (n0 : nat) (s s' : str) (c : list (nat * str)) :
  Matches true n0 href_regex s s' c <->
  exists m v, s = m ++ s' /\ AnchorMatch m v /\ c = [(1, v)].
Proof.
  unfold href_regex. split.
  - intros H.
    apply Matches_Seq_inv in H as (s1 & c1 & cr1 & H1 & H & ->).
    apply Matches_Lit in H1 as (o & -> & -> & Ho).
    apply Matches_Seq_inv in H as (s2 & c2 & cr2 & H2 & H & ->).
    apply Matches_Plus in H2 as (ws & -> & -> & Hws1 & Hws2).
    apply Matches_Seq_inv in H as (s3 & c3 & cr3 & H3 & H & ->).
    assert (exists attrs, s2 = attrs ++ s3 /\ c3 = []
              /\ (attrs = [] \/ exists text ws', attrs = text ++ ws'
                                 /\ ~ In ">"%char text /\ blank ws'))
      as (attrs & -> & -> & Hattrs).
    { apply Matches_Opt_inv in H3 as [[-> ->] | Ho3].
      - exists []. split; [reflexivity|]. split; [reflexivity|]. left. reflexivity.
      - apply Matches_Seq_inv in Ho3 as (sx & cx & cy & Hx & Hy & ->).
        apply Matches_Star in Hx as (text & -> & -> & Htext).
        apply Matches_Plus in Hy as (ws' & -> & -> & Hw1 & Hw2).
        exists (text ++ ws'). rewrite <- app_assoc. split; [reflexivity|].
        split; [reflexivity|]. right. exists text, ws'.
        split; [reflexivity|]. split; [apply not_gt_ok, Htext | split; assumption]. }
    apply Matches_Seq_inv in H as (s4 & c4 & cr4 & H4 & H & ->).
    apply Matches_Lit in H4 as (h & -> & -> & Hh).
    apply Matches_Seq_inv in H as (s5 & c5 & cr5 & H5 & H & ->).
    apply Matches_Group_inv in H5 as (cg & Hg & ->).
    apply Matches_Star in Hg as (v & -> & -> & Hvok).
    apply Matches_Atom_inv in H as (q & -> & Hq & ->).
    apply ascii_eqb_true, tolower_dquote in Hq. subst q.
    rewrite length_app, Nat.add_sub, take_app_length.
    exists (o ++ ws ++ attrs ++ h ++ v ++ DQ), v.
    split; [unfold DQ; rewrite <- !app_assoc; reflexivity|].
    split; [|reflexivity].
    exists o, ws, attrs, h. split; [reflexivity|].
    split; [symmetry; exact Ho|]. split; [split; assumption|].
    split; [exact Hattrs|]. split; [symmetry; exact Hh | apply not_dquote_ok, Hvok].
  - intros (m & v & -> & (o & ws & attrs & h & -> & Ho & [Hws1 Hws2] & Hattrs & Hh & Hv) & ->).
    rewrite <- !app_assoc.
    change [(1, v)] with
      ((((([] ++ [(1, v)]) ++ []) ++ []) ++ []) ++ @nil (nat * str)).
    apply M_Seq with (s1 := ws ++ attrs ++ h ++ v ++ DQ ++ s').
    { apply Matches_Lit. exists o. split; [reflexivity|]. split; [reflexivity|].
      symmetry. exact Ho. }
    apply M_Seq with (s1 := attrs ++ h ++ v ++ DQ ++ s').
    { apply Matches_Plus. exists ws. auto. }
    apply M_Seq with (s1 := h ++ v ++ DQ ++ s').
    { destruct Hattrs as [-> | (text & ws' & -> & Htext & [Hw1 Hw2])].
      - apply M_OptSkip.
      - apply M_OptTake. rewrite <- app_assoc.
        change (@nil (nat * str)) with (@nil (nat * str) ++ []).
        apply M_Seq with (s1 := ws' ++ h ++ v ++ DQ ++ s').
        + apply Matches_Star. exists text. split; [reflexivity|].
          split; [reflexivity | apply not_gt_ok, Htext].
        + apply Matches_Plus. exists ws'. auto. }
    apply M_Seq with (s1 := v ++ DQ ++ s').
    { apply Matches_Lit. exists h. split; [reflexivity|]. split; [reflexivity|].
      symmetry. exact Hh. }
    apply M_Seq with (s1 := DQ ++ s').
    { apply Matches_Group_intro. apply Matches_Star. exists v. split; [reflexivity|].
      split; [reflexivity | apply not_dquote_ok, Hv]. }
    constructor. reflexivity.
Qed.

(** ** C8: the link extractor *)

Lemma extractLinks_unfold (html : str) :
  extractLinks html
  = match search_from true (length html) href_regex [] html with
    | None => []
    | Some m => rm_group 1 m :: extractLinks (rm_suffix m)
    end.
Proof.
  destruct href_regex_shape as [Hb Hmin].
  unfold extractLinks, regex_iterator. rewrite iterate_step by exact Hmin.
  destruct (search_from true (length html) href_regex [] html) as [m|] eqn:Hs;
    [|reflexivity].
  cbn [map]. f_equal. f_equal.
  apply search_from_Some in Hs as (sk & _ & Hs & Hm & _).
  apply Matches_min_len in Hm. rewrite length_app in Hm.
  apply (f_equal (@length ascii)) in Hs. rewrite !length_app in Hs.
  apply iterate_enough; [exact Hmin | exact Hb | lia | lia].
Qed.

Lemma search_href_None (html : str) :
  search_from true (length html) href_regex [] html = None <-> ~ has_anchor html.
Proof.
  split.
  - intros Hs (pre & m & v & post & Heq & Hm).
    eapply (search_from_None true _ _ _ _ Hs pre (m ++ post) post [(1, v)] Heq).
    apply href_Matches. exists m, v. auto.
  - intros Hno. destruct (search_from _ _ _ _ html) as [m|] eqn:Hs; [|reflexivity].
    exfalso. apply Hno. apply search_from_Some in Hs as (sk & _ & Hs & Hm & _).
    apply href_Matches in Hm as (m' & v & Heq & Ha & _).
    apply app_inv_tail in Heq. subst m'.
    exists sk, (rm_str0 m), v, (rm_suffix m). auto.
Qed.

Lemma search_href_Some (html : str) (m : rmatch) :
  search_from true (length html) href_regex [] html = Some m ->
  html = rm_prefix m ++ rm_str0 m ++ rm_suffix m
  /\ AnchorMatch (rm_str0 m) (rm_group 1 m)
  /\ forall pre' m' v' post',
       html = pre' ++ m' ++ post' -> AnchorMatch m' v' ->
       length (rm_prefix m) <= length pre'.
Proof.
  intros Hs. apply search_from_Some in Hs as (sk & Hpre & Heq & Hm & Hleft).
  simpl in Hpre. subst sk.
  apply href_Matches in Hm as (m0 & v & Hm0 & Ha & Hc).
  apply app_inv_tail in Hm0. subst m0.
  split; [exact Heq|]. split.
  { unfold rm_group. rewrite Hc. exact Ha. }
  intros pre' m' v' post' Heq' Ha'.
  destruct (le_lt_dec (length (rm_prefix m)) (length pre')) as [Hle | Hlt]; [exact Hle|].
  exfalso.
  assert (rm_prefix m = pre' ++ drop (length pre') (rm_prefix m)) as Hsplit.
  { rewrite <- (take_drop (length pre') (rm_prefix m)) at 1. f_equal.
    rewrite Heq' in Heq. apply (f_equal (take (length pre'))) in Heq.
    rewrite take_app_length, take_app_le in Heq by lia. symmetry. exact Heq. }
  set (sk2 := drop (length pre') (rm_prefix m)) in *.
  apply (Hleft pre' sk2 post' [(1, v')] Hsplit).
  - intros Hnil. rewrite Hnil, app_nil_r in Hsplit.
    rewrite Hsplit in Hlt. lia.
  - apply href_Matches. exists m', v'. split; [|auto].
    rewrite Heq', Hsplit, <- app_assoc in Heq. apply app_inv_head in Heq.
    symmetry. exact Heq.
Qed.

Lemma extractLinks_Links (n : nat) :
  forall html, length html <= n -> Links html (extractLinks html).
Proof.
  induction n as [|n IH]; intros html Hlen; rewrite extractLinks_unfold;
    destruct (search_from true (length html) href_regex [] html) as [m|] eqn:Hs.
  2, 4: constructor; apply search_href_None, Hs.
  all: destruct (search_href_Some html m Hs) as (Heq & Ha & Hleft);
    pose proof (f_equal (@length ascii) Heq) as Hl; rewrite !length_app in Hl.
  all: assert (0 < length (rm_str0 m)) as Hpos
      by (destruct Ha as (o & ws & at' & h & -> & _); unfold DQ;
          rewrite !length_app; simpl; lia).
  - lia.
  - rewrite Heq at 1. constructor; [exact Ha | | apply IH; lia].
    intros pre' m' v' post' Heq' Ha'.
    apply (Hleft pre' m' v' post'); [rewrite Heq; exact Heq' | exact Ha'].
Qed.

(** Section 4.2 read as a form of tags fails both ways: an anchor tag of
    that form whose link is not returned, and a text with no [>] in it,
    so with no tag of that form, for which a link is returned. *)
Lemma extractLinks_counterexample :
  (spec_anchor_tag quoted_gt_anchor "x" /\ extractLinks quoted_gt_anchor = [])
  /\ (~ spec_has_anchor_tag unclosed_anchor
      /\ extractLinks unclosed_anchor = [("x" : str)]).
Proof.
  split; split.
  - exists (" title=" ++ DQ ++ "a>b" ++ DQ ++ " "), "".
    split; [reflexivity|]. split.
    + exists " "%char. split; reflexivity.
    + simpl. intros [H | []]. discriminate.
  - vm_compute. reflexivity.
  - intros (pre & tag & v & post & Heq & (attrs & rest & -> & _)).
    assert (In ">"%char unclosed_anchor) as Hin.
    { rewrite Heq. apply in_or_app. right. apply in_or_app. left.
      rewrite !in_app_iff. do 7 right. left. reflexivity. }
    vm_compute in Hin. intuition discriminate.
  - vm_compute. reflexivity.
Qed.

(** C8, as the code has it. The list returned is that of a scan from left
    to right: at each step the leftmost place where a match of the link
    pattern starts, the value captured by one match there, verbatim, and
    on after the end of that match; hence in document order, with
    duplicates, one value per match. A match is [<a], white space,
    optionally text without [>] that ends in white space, [href=] and a
    quoted value without double quote, in any letter case; the closing
    [>] of the tag is not part of it. The list is empty exactly when the
    text has no such match, and the two-anchor example of the
    specification gives its two values in order. *)
Theorem extractLinks_scan (html : str) :
  Links html (extractLinks html)
  /\ (extractLinks html = [] <-> ~ has_anchor html)
  /\ extractLinks two_anchors = [("x/" : str); ("z.txt" : str)].
Proof.
  split; [apply (extractLinks_Links (length html)); lia|].
  split; [|vm_compute; reflexivity].
  rewrite extractLinks_unfold, <- search_href_None.
  destruct (search_from true (length html) href_regex [] html);
    split; congruence.
Qed.

(** Of two [href] attributes in one tag the pattern takes the second: the
    optional group before [href] is tried first. *)
Example extractLinks_two_hrefs : extractLinks two_hrefs = [("y" : str)].
Proof. vm_compute. reflexivity. Qed.

(** ** C3: the URL resolver *)

Lemma host_split (s : str) : s = host_of s ++ after_host s.
Proof.
  induction s as [|c s IH]; simpl; [reflexivity|].
  destruct (ascii_eqb "/" c); simpl; [reflexivity | f_equal; exact IH].
Qed.

Lemma host_of_no_slash (s : str) : ~ In "/"%char (host_of s).
Proof.
  induction s as [|c s IH]; simpl; [tauto|].
  destruct (ascii_eqb "/" c) eqn:Hc; simpl; [tauto|].
  intros [-> | H]; [|auto]. rewrite ascii_eqb_refl in Hc. discriminate.
Qed.

Lemma after_host_stop (s : str) :
  after_host s = [] \/ exists rest, after_host s = "/"%char :: rest.
Proof.
  induction s as [|c s IH]; simpl; [auto|].
  destruct (ascii_eqb "/" c) eqn:Hc; [|exact IH].
  apply ascii_eqb_true in Hc. subst c. eauto.
Qed.

Lemma host_of_app (host rest : str) :
  ~ In "/"%char host -> (rest = [] \/ exists rest', rest = "/"%char :: rest') ->
  host_of (host ++ rest) = host.
Proof.
  intros Hh Hr. induction host as [|c host IH]; simpl.
  - destruct Hr as [-> | [rest' ->]]; reflexivity.
  - simpl in Hh. destruct (ascii_eqb "/" c) eqn:Hc.
    + apply ascii_eqb_true in Hc. subst c. tauto.
    + f_equal. apply IH. tauto.
Qed.

Lemma startsWith_app (l s p : str) : startsWith (l ++ s) (l ++ p) = startsWith s p.
Proof. induction l as [|c l IH]; simpl; [reflexivity|]. rewrite ascii_eqb_refl. exact IH. Qed.

Lemma startsWith_drop (s p : str) :
  startsWith s p = true -> s = p ++ drop (length p) s.
Proof.
  intros H. apply startsWith_true in H as [rest ->].
  rewrite drop_app_length. reflexivity.
Qed.

Section DomainPattern.

Context (n0 : nat).

Lemma exec_Lit (l : str) (r : regex) :
  forall s caps k,
    exec false n0 (Seq (Lit l) r) (MState s caps) k
    = if startsWith s l then exec false n0 r (MState (drop (length l) s) caps) k
      else None.
Proof.
  induction l as [|x l IH]; intros s caps k.
  - reflexivity.
  - destruct s as [|c s]; [reflexivity|].
    change (exec false n0 (Seq (Lit (x :: l)) r) (MState (c :: s) caps) k)
      with (if ascii_eqb x c
            then exec false n0 (Seq (Lit l) r) (MState s caps) k else None).
    cbn [startsWith]. destruct (ascii_eqb x c); [|reflexivity].
    rewrite IH. reflexivity.
Qed.

Lemma star_greedy_last (a : atom) (s : str) (caps : list (nat * str)) :
  exists rest, star false true a s caps Some = Some (MState rest caps)
    /\ (a = NotChr "/" -> rest = after_host s).
Proof.
  induction s as [|c s (rest & IH & Hrest)]; simpl.
  - eauto.
  - destruct (atom_ok false a c) eqn:Hc.
    + rewrite IH. simpl. exists rest. split; [reflexivity|].
      intros ->. simpl in Hc. apply negb_true_iff in Hc.
      unfold translate in Hc. rewrite Hc. auto.
    + exists (c :: s). split; [reflexivity|].
      intros ->. simpl in Hc. apply negb_false_iff in Hc.
      unfold translate in Hc. rewrite Hc. reflexivity.
Qed.

Lemma exec_host (s : str) (caps : list (nat * str)) :
  exec false n0 (Plus (NotChr "/")) (MState s caps) Some
  = match host_of s with
    | [] => None
    | _ :: _ => Some (MState (after_host s) caps)
    end.
Proof.
  destruct s as [|c s]; [reflexivity|].
  cbn [Plus exec m_rest m_caps host_of after_host atom_ok translate].
  destruct (ascii_eqb "/" c); [reflexivity|]. cbn [negb].
  destruct (star_greedy_last (NotChr "/") s caps) as (rest & -> & Hrest).
  rewrite (Hrest eq_refl). reflexivity.
Qed.

Lemma exec_scheme_tail (s : str) (caps : list (nat * str)) :
  exec false n0 (Seq (Lit "://") (Plus (NotChr "/"))) (MState s caps) Some
  = if startsWith s "://" then
      match host_of (drop 3 s) with
      | [] => None
      | _ :: _ => Some (MState (after_host (drop 3 s)) caps)
      end
    else None.
Proof. rewrite exec_Lit. destruct (startsWith s "://"); [apply exec_host | reflexivity]. Qed.

End DomainPattern.

Lemma startsWith_app_false (s l1 l2 : str) :
  startsWith s l1 = false -> startsWith s (l1 ++ l2) = false.
Proof.
  intros H. destruct (startsWith s (l1 ++ l2)) eqn:H2; [|reflexivity].
  apply startsWith_true in H2 as [rest ->]. rewrite <- app_assoc in H.
  rewrite <- H. symmetry. apply startsWith_true. eauto.
Qed.

Lemma scheme_host_http (x : str) :
  scheme_host ("http://" ++ x) = host_after "http://" x.
Proof.
  unfold scheme_host, host_after.
  assert (startsWith ("http://" ++ x) "http://" = true) as -> by reflexivity.
  assert (startsWith ("http://" ++ x) "https://" = false) as -> by reflexivity.
  rewrite drop_app_length. destruct (host_of x); reflexivity.
Qed.

Lemma scheme_host_https (x : str) :
  scheme_host ("https://" ++ x) = host_after "https://" x.
Proof.
  unfold scheme_host, host_after.
  assert (startsWith ("https://" ++ x) "http://" = false) as -> by reflexivity.
  assert (startsWith ("https://" ++ x) "https://" = true) as -> by reflexivity.
  rewrite drop_app_length. reflexivity.
Qed.

Lemma scheme_host_other (b : str) :
  startsWith b "http://" = false -> startsWith b "https://" = false ->
  scheme_host b = None.
Proof. intros H1 H2. unfold scheme_host. rewrite H1, H2. reflexivity. Qed.

Section DomainSearch.

Context (n0 : nat).

Lemma exec_scheme_tail_host (scheme x : str) :
  match exec false n0 (Seq (Lit "://") (Plus (NotChr "/")))
          (MState ("://" ++ x) []) Some with
  | Some st => exists p, host_after (scheme ++ "://") x = Some p
                         /\ scheme ++ "://" ++ x = p ++ m_rest st
  | None => host_after (scheme ++ "://") x = None
  end.
Proof.
  rewrite exec_scheme_tail.
  assert (startsWith ("://" ++ x) "://" = true) as -> by reflexivity.
  change (drop 3 ("://" ++ x)) with x. unfold host_after.
  destruct (host_of x) as [|c h] eqn:Hh; [reflexivity|].
  eexists. split; [reflexivity|]. cbn [m_rest].
  rewrite <- Hh, <- !app_assoc. do 2 f_equal. apply host_split.
Qed.

Lemma exec_domain_tail (b : str) :
  match exec false n0 domain_tail (MState b []) Some with
  | Some st => exists p, scheme_host b = Some p /\ b = p ++ m_rest st
  | None => scheme_host b = None
  end.
Proof.
  unfold domain_tail. rewrite exec_Lit.
  destruct (startsWith b "http") eqn:Hhttp.
  2: { apply scheme_host_other.
       - apply (startsWith_app_false b "http" "://"), Hhttp.
       - apply (startsWith_app_false b "http" "s://"), Hhttp. }
  apply startsWith_drop in Hhttp. set (b1 := drop (length ("http" : str)) b) in *.
  rewrite Hhttp. clearbody b1. clear Hhttp b.
  set (T := Seq (Lit "://") (Plus (NotChr "/"))).
  change (exec false n0 (Seq (Opt (Atom (Chr "s"))) T) (MState b1 []) Some)
    with (or_else (exec false n0 (Atom (Chr "s")) (MState b1 [])
                     (fun st' => exec false n0 T st' Some))
                  (exec false n0 T (MState b1 []) Some)).
  destruct (startsWith b1 "://") eqn:H1.
  - (* http:// *)
    apply startsWith_drop in H1. set (x := drop (length ("://" : str)) b1) in *.
    rewrite H1. clearbody x. clear H1 b1.
    change (exec false n0 (Atom (Chr "s")) (MState ("://" ++ x) []) _) with (@None mstate).
    cbn [or_else].
    change (("http" : str) ++ "://" ++ x) with (("http://" : str) ++ x).
    rewrite scheme_host_http.
    exact (exec_scheme_tail_host "http" x).
  - assert (exec false n0 T (MState b1 []) Some = None) as HT.
    { unfold T. rewrite exec_scheme_tail, H1. reflexivity. }
    rewrite HT.
    destruct (startsWith b1 "s://") eqn:H2.
    + (* https:// *)
      apply startsWith_drop in H2. set (x := drop (length ("s://" : str)) b1) in *.
      rewrite H2. clearbody x. clear H2 H1 HT b1.
      change (exec false n0 (Atom (Chr "s")) (MState ("s://" ++ x) [])
                (fun st' => exec false n0 T st' Some))
        with (exec false n0 T (MState ("://" ++ x) []) Some).
      change (("http" : str) ++ "s://" ++ x) with (("https://" : str) ++ x).
      rewrite scheme_host_https.
      pose proof (exec_scheme_tail_host "https" x) as H. fold T in H.
      destruct (exec false n0 T (MState ("://" ++ x) []) Some); exact H.
    + assert (exec false n0 (Atom (Chr "s")) (MState b1 [])
                (fun st' => exec false n0 T st' Some) = None) as HA.
      { destruct b1 as [|c b2]; [reflexivity|].
        cbn [exec m_rest m_caps atom_ok translate].
        change (startsWith (c :: b2) "s://")
          with (ascii_eqb "s" c && startsWith b2 "://") in H2.
        destruct (ascii_eqb "s" c); [|reflexivity]. cbn [andb] in H2.
        unfold T. rewrite exec_scheme_tail, H2. reflexivity. }
      rewrite HA. cbn [or_else]. apply scheme_host_other.
      * change ("http://" : str) with (("http" : str) ++ "://").
        rewrite startsWith_app. exact H1.
      * change ("https://" : str) with (("http" : str) ++ "s://").
        rewrite startsWith_app. exact H2.
Qed.

Lemma search_from_bol_later (r : regex) (s : str) :
  forall pre, length s < n0 -> search_from false n0 (Seq Bol r) pre s = None.
Proof.
  induction s as [|c s IH]; intros pre Hlen; rewrite search_from_unfold;
    cbn [exec m_rest];
    match goal with
    | |- context [(?n =? n0)%nat] =>
        destruct (Nat.eqb_spec n n0) as [Heq|_]; [lia|]
    end.
  - reflexivity.
  - apply IH. simpl in Hlen. lia.
Qed.

End DomainSearch.

Lemma regex_search_domain (b : str) :
  match regex_search false domain_regex b with
  | Some m => scheme_host b = Some (rm_str0 m)
  | None => scheme_host b = None
  end.
Proof.
  unfold regex_search. rewrite search_from_unfold.
  change (exec false (length b) domain_regex (MState b []) Some)
    with (if (length b =? length b)%nat
          then exec false (length b) domain_tail (MState b []) Some else None).
  rewrite Nat.eqb_refl.
  pose proof (exec_domain_tail (length b) b) as H.
  destruct (exec false (length b) domain_tail (MState b []) Some) as [st|].
  - destruct H as (p & Hp & Hb). rewrite Hp. f_equal. cbn [rm_str0].
    generalize dependent (m_rest st). intros rest ->.
    rewrite length_app, Nat.add_sub, take_app_length. reflexivity.
  - destruct b as [|c b]; [exact H|].
    change domain_regex with (Seq Bol domain_tail).
    rewrite search_from_bol_later by (simpl; lia). exact H.
Qed.

Lemma pop_slash_strip (base : str) : pop_slash base = strip_trailing_slash base.
Proof.
  unfold pop_slash, strip_trailing_slash, ends_with_slash.
  destruct (last base) as [c|]; [|reflexivity].
  destruct (ascii_eqb c "/"); [|reflexivity].
  rewrite removelast_firstn_len. f_equal. lia.
Qed.

Lemma pop_slash_snoc (b : str) : pop_slash (b ++ "/") = b.
Proof.
  unfold pop_slash. change (list_ascii_of_string "/") with ["/"%char].
  rewrite last_snoc, ascii_eqb_refl. apply removelast_last.
Qed.

Lemma pop_slash_other (base : str) : ends_with_slash base = false -> pop_slash base = base.
Proof.
  unfold pop_slash, ends_with_slash. destruct (last base) as [c|]; [|reflexivity].
  intros ->. reflexivity.
Qed.

Lemma scheme_host_SchemeHost (b p : str) : scheme_host b = Some p <-> SchemeHost b p.
Proof.
  split.
  - intros H.
    destruct (startsWith b "http://") eqn:H1;
      [|destruct (startsWith b "https://") eqn:H2;
        [|rewrite scheme_host_other in H by assumption; discriminate]].
    + apply startsWith_drop in H1. set (x := drop _ b) in H1. clearbody x. subst b.
      rewrite scheme_host_http in H. unfold host_after in H.
      destruct (host_of x) as [|c h] eqn:Hh; [discriminate|]. injection H as <-.
      exists "http", (c :: h), (after_host x).
      assert (x = (c :: h) ++ after_host x) as Hx
        by (rewrite <- Hh; apply host_split).
      split; [exact (f_equal (app ("http://" : str)) Hx)|].
      split; [reflexivity|]. split; [left; reflexivity|]. split; [discriminate|].
      split; [rewrite <- Hh; apply host_of_no_slash | apply after_host_stop].
    + apply startsWith_drop in H2. set (x := drop _ b) in H2. clearbody x. subst b.
      rewrite scheme_host_https in H. unfold host_after in H.
      destruct (host_of x) as [|c h] eqn:Hh; [discriminate|]. injection H as <-.
      exists "https", (c :: h), (after_host x).
      assert (x = (c :: h) ++ after_host x) as Hx
        by (rewrite <- Hh; apply host_split).
      split; [exact (f_equal (app ("https://" : str)) Hx)|].
      split; [reflexivity|]. split; [right; reflexivity|]. split; [discriminate|].
      split; [rewrite <- Hh; apply host_of_no_slash | apply after_host_stop].
  - intros (scheme & host & rest & -> & -> & Hs & Hne & Hh & Hr).
    destruct Hs as [-> | ->].
    + change ((("http" : str) ++ "://" ++ host) ++ rest)
        with (("http://" : str) ++ host ++ rest).
      rewrite scheme_host_http. unfold host_after.
      rewrite (host_of_app host rest Hh Hr). destruct host; [congruence | reflexivity].
    + change ((("https" : str) ++ "://" ++ host) ++ rest)
        with (("https://" : str) ++ host ++ rest).
      rewrite scheme_host_https. unfold host_after.
      rewrite (host_of_app host rest Hh Hr). destruct host; [congruence | reflexivity].
Qed.

Lemma combineUrl_resolve (base relative : str) :
  combineUrl base relative = resolve base relative.
Proof.
  unfold combineUrl, resolve. destruct relative as [|r0 tail]; [reflexivity|].
  cbn [is_empty].
  destruct (startsWith (r0 :: tail) "http://" || startsWith (r0 :: tail) "https://");
    [reflexivity|].
  cbv zeta. rewrite pop_slash_strip.
  change (startsWith (r0 :: tail) "/") with (ascii_eqb "/" r0 && true).
  rewrite andb_true_r.
  replace (ascii_eqb r0 "/") with (ascii_eqb "/" r0)
    by (unfold ascii_eqb; apply Ascii.eqb_sym).
  destruct (ascii_eqb "/" r0); [|reflexivity].
  pose proof (regex_search_domain (strip_trailing_slash base)) as H.
  destruct (regex_search false domain_regex (strip_trailing_slash base)) as [m|];
    rewrite H; reflexivity.
Qed.

(** C3. [combineUrl] is the resolver of Section 4.1, case by case: an empty
    [relative] gives [base]; a [relative] that begins with [http://] or
    [https://] is returned as it is; otherwise one trailing [/] of [base],
    if there is one, is dropped, and then a [relative] that begins with [/]
    is appended to the [scheme://host] prefix of that base (which the
    pattern finds exactly when the base has one, and then it is the only
    one), or to that base itself when it has no such prefix; any other
    [relative] is appended after a [/]. The example of the specification
    holds. *)
Theorem combineUrl_cases (base relative : str) :
  combineUrl base relative = resolve base relative
  /\ (relative = [] -> combineUrl base relative = base)
  /\ (startsWith relative "http://" = true \/ startsWith relative "https://" = true ->
      combineUrl base relative = relative)
  /\ (forall b, base = b ++ "/" -> pop_slash base = b)
  /\ (ends_with_slash base = false -> pop_slash base = base)
  /\ (forall tail, relative = "/"%char :: tail ->
        (forall p, SchemeHost (pop_slash base) p -> combineUrl base relative = p ++ relative)
        /\ ((forall p, ~ SchemeHost (pop_slash base) p) ->
            combineUrl base relative = pop_slash base ++ relative)
        /\ ((exists p, SchemeHost (pop_slash base) p)
            \/ (forall p, ~ SchemeHost (pop_slash base) p)))
  /\ (relative <> [] ->
      startsWith relative "http://" = false -> startsWith relative "https://" = false ->
      startsWith relative "/" = false ->
      combineUrl base relative = pop_slash base ++ "/" ++ relative)
  /\ combineUrl "http://h.com/a" "/b" = "http://h.com/b".
Proof.
  split; [apply combineUrl_resolve|].
  split; [intros ->; reflexivity|].
  split.
  { intros H. unfold combineUrl. destruct relative as [|r0 tail];
      [destruct H as [H | H]; discriminate|].
    apply orb_true_iff in H. rewrite H. reflexivity. }
  split; [intros b ->; apply pop_slash_snoc|].
  split; [apply pop_slash_other|].
  split.
  { intros tail ->. rewrite combineUrl_resolve. unfold resolve.
    cbn [is_empty]. rewrite <- pop_slash_strip.
    assert (startsWith ("/"%char :: tail) "http://"
            || startsWith ("/"%char :: tail) "https://" = false) as -> by reflexivity.
    assert (startsWith ("/"%char :: tail) "/" = true) as -> by reflexivity.
    cbv zeta.
    destruct (scheme_host (pop_slash base)) as [p0|] eqn:Hsh.
    - apply scheme_host_SchemeHost in Hsh as Hp0. split; [|split].
      + intros p Hp. apply scheme_host_SchemeHost in Hp. congruence.
      + intros Hno. destruct (Hno p0 Hp0).
      + left. eauto.
    - assert (forall p, ~ SchemeHost (pop_slash base) p) as Hno.
      { intros p Hp. apply scheme_host_SchemeHost in Hp. congruence. }
      split; [|split].
      + intros p Hp. destruct (Hno p Hp).
      + reflexivity.
      + right. exact Hno. }
  split; [|reflexivity].
  intros Hne H1 H2 H3. unfold combineUrl. destruct relative as [|r0 tail]; [congruence|].
  rewrite H1, H2. cbn [orb].
  change (startsWith (r0 :: tail) "/") with (ascii_eqb "/" r0 && true) in H3.
  rewrite andb_true_r in H3.
  replace (ascii_eqb r0 "/") with (ascii_eqb "/" r0)
    by (unfold ascii_eqb; apply Ascii.eqb_sym).
  rewrite H3. reflexivity.
Qed.

(** * Properties of the command shell *)

(** ** The string utilities of the shell *)

Lemma startsWith_length (s p : str) : startsWith s p = true -> length p <= length s.
Proof.
  intros H. apply startsWith_true in H as [rest ->]. rewrite length_app. lia.
Qed.

Lemma endsWith_true (s suffix : str) :
  endsWith s suffix = true <-> exists front, s = front ++ suffix.
Proof.
  unfold endsWith. rewrite startsWith_true. split.
  - intros [rest H]. exists (rev rest).
    apply (f_equal (@rev ascii)) in H. rewrite rev_involutive in H.
    rewrite H, rev_app_distr, rev_involutive. reflexivity.
  - intros [front ->]. exists (rev front). apply rev_app_distr.
Qed.

(** X1. [endsWith s suffix] holds exactly when [s] is some text followed
    by [suffix]. It is false for a suffix longer than [s], and true for
    the empty suffix and for [s] itself. *)
Theorem endsWith_suffix (s suffix : str) :
  (endsWith s suffix = true <-> exists front, s = front ++ suffix)
  /\ (length s < length suffix -> endsWith s suffix = false)
  /\ endsWith s [] = true
  /\ endsWith s s = true.
Proof.
  split; [apply endsWith_true|]. split; [|split].
  - intros Hlen. destruct (endsWith s suffix) eqn:He; [|reflexivity].
    apply endsWith_true in He as [front ->]. rewrite length_app in Hlen. lia.
  - apply endsWith_true. exists s. symmetry. apply app_nil_r.
  - apply endsWith_true. exists []. reflexivity.
Qed.

(** ** The tokenizer *)

Lemma skip_ws_white (ws rest : str) :
  white ws -> skip_ws (ws ++ rest) = skip_ws rest.
Proof.
  induction 1 as [|c ws Hc _ IH]; [reflexivity|]. simpl. rewrite Hc. exact IH.
Qed.

Lemma skip_ws_word (t rest : str) : word t -> skip_ws (t ++ rest) = t ++ rest.
Proof.
  intros [Hne Ht]. destruct t as [|c t]; [congruence|].
  apply Forall_cons in Ht as [Hc _]. simpl. rewrite Hc. reflexivity.
Qed.

Lemma skip_ws_suffix (s : str) : exists ws, white ws /\ s = ws ++ skip_ws s.
Proof.
  induction s as [|c s (ws & Hws & IH)].
  - exists []. split; [constructor | reflexivity].
  - simpl. destruct (is_space c) eqn:Hc.
    + exists (c :: ws). split; [constructor; assumption|]. simpl. congruence.
    + exists []. split; [constructor | reflexivity].
Qed.

Lemma skip_ws_head (s : str) (c : ascii) (s1 : str) :
  skip_ws s = c :: s1 -> is_space c = false.
Proof.
  induction s as [|d s IH]; [discriminate|]. simpl.
  destruct (is_space d) eqn:Hd; [exact IH|]. intros [= <- _]. exact Hd.
Qed.

Lemma read_word_split (s : str) :
  s = fst (read_word s) ++ snd (read_word s)
  /\ Forall (fun c => is_space c = false) (fst (read_word s))
  /\ (snd (read_word s) = [] \/ exists c r, snd (read_word s) = c :: r /\ is_space c = true).
Proof.
  induction s as [|c s (IH1 & IH2 & IH3)].
  - simpl. repeat split; [constructor | left; reflexivity].
  - simpl. destruct (is_space c) eqn:Hc.
    + simpl. repeat split; [constructor | right; eauto].
    + destruct (read_word s) as [w r]. simpl in *.
      repeat split; [congruence | constructor; assumption | exact IH3].
Qed.

Lemma read_word_word (t rest : str) :
  Forall (fun c => is_space c = false) t ->
  (rest = [] \/ exists c r, rest = c :: r /\ is_space c = true) ->
  read_word (t ++ rest) = (t, rest).
Proof.
  intros Ht Hrest. induction Ht as [|c t Hc _ IH].
  - simpl. destruct Hrest as [-> | (c & r & -> & Hc)]; [reflexivity|].
    simpl. rewrite Hc. reflexivity.
  - simpl. rewrite Hc, IH. reflexivity.
Qed.

Lemma extract_length (s t rest : str) :
  extract s = Some (t, rest) -> length rest < length s.
Proof.
  unfold extract. destruct (skip_ws s) as [|c s1] eqn:Hs; [discriminate|].
  intros [= H]. pose proof (skip_ws_head s c s1 Hs) as Hc.
  destruct (skip_ws_suffix s) as (ws & _ & Hsplit). rewrite Hs in Hsplit.
  cbn [read_word] in H. rewrite Hc in H.
  destruct (read_word s1) as [w r] eqn:Hr. injection H as <- <-.
  destruct (read_word_split s1) as (Hw & _). rewrite Hr in Hw. simpl in Hw.
  rewrite Hsplit, length_app. simpl. rewrite Hw, length_app. lia.
Qed.

Lemma tokens_loop_enough (n m : nat) :
  forall s, length s < n -> length s < m -> tokens_loop n s = tokens_loop m s.
Proof.
  revert m. induction n as [|n IH]; intros m s Hn Hm; [lia|].
  destruct m as [|m]; [lia|]. simpl.
  destruct (extract s) as [[t rest]|] eqn:He; [|reflexivity].
  apply extract_length in He. f_equal. apply IH; lia.
Qed.

Lemma tokens_loop_S (n : nat) (s : str) :
  tokens_loop (S n) s
  = match extract s with
    | Some (t, rest) => t :: tokens_loop n rest
    | None => []
    end.
Proof. reflexivity. Qed.

Lemma splitInput_step (s : str) :
  splitInput s
  = match extract s with
    | Some (t, rest) => t :: splitInput rest
    | None => []
    end.
Proof.
  unfold splitInput at 1. rewrite tokens_loop_S.
  destruct (extract s) as [[t rest]|] eqn:He; [|reflexivity].
  f_equal. apply extract_length in He. unfold splitInput.
  apply tokens_loop_enough; lia.
Qed.

Lemma extract_white (ws : str) : white ws -> extract ws = None.
Proof.
  intros H. unfold extract.
  rewrite <- (app_nil_r ws), skip_ws_white by exact H. reflexivity.
Qed.

Lemma extract_word_at (ws t rest : str) :
  white ws -> word t ->
  (rest = [] \/ exists c r, rest = c :: r /\ is_space c = true) ->
  extract (ws ++ t ++ rest) = Some (t, rest).
Proof.
  intros Hws Ht Hrest. unfold extract.
  rewrite skip_ws_white, skip_ws_word by assumption.
  destruct Ht as [Hne Ht]. destruct t as [|c t]; [congruence|].
  pose proof (read_word_word (c :: t) rest Ht Hrest) as H.
  cbn [app] in *. rewrite H. reflexivity.
Qed.

Lemma splitInput_white (ws : str) : white ws -> splitInput ws = [].
Proof. intros H. rewrite splitInput_step, extract_white by exact H. reflexivity. Qed.

Lemma white_rest (ws : str) :
  white ws -> ws = [] \/ exists c r, ws = c :: r /\ is_space c = true.
Proof. intros [|c r Hc _]; [left; reflexivity | right; eauto]. Qed.

Lemma splitInput_cons (ws t rest : str) :
  white ws -> word t ->
  (rest = [] \/ exists c r, rest = c :: r /\ is_space c = true) ->
  splitInput (ws ++ t ++ rest) = t :: splitInput rest.
Proof.
  intros Hws Ht Hrest.
  rewrite splitInput_step, extract_word_at by assumption. reflexivity.
Qed.


Lemma extract_Some (s t rest : str) :
  extract s = Some (t, rest) ->
  exists ws, white ws /\ word t /\ s = ws ++ t ++ rest
    /\ (rest = [] \/ exists c r, rest = c :: r /\ is_space c = true).
Proof.
  unfold extract. destruct (skip_ws s) as [|c s1] eqn:Hs; [discriminate|].
  intros [= H]. pose proof (skip_ws_head s c s1 Hs) as Hc.
  destruct (skip_ws_suffix s) as (ws & Hws & Hsplit). rewrite Hs in Hsplit.
  cbn [read_word] in H. rewrite Hc in H.
  destruct (read_word s1) as [w r] eqn:Hr. injection H as <- <-.
  destruct (read_word_split s1) as (Hw & Hall & Hrest).
  rewrite Hr in Hw, Hall, Hrest. cbn [fst snd] in *.
  exists ws. split; [exact Hws|]. split; [|split; [|exact Hrest]].
  - split; [discriminate | constructor; assumption].
  - rewrite Hsplit, Hw. reflexivity.
Qed.

Lemma extract_None (s : str) : extract s = None -> white s.
Proof.
  unfold extract. destruct (skip_ws s) as [|c s1] eqn:Hs; [|discriminate].
  intros _. destruct (skip_ws_suffix s) as (ws & Hws & Hsplit).
  rewrite Hs, app_nil_r in Hsplit. subst ws. exact Hws.
Qed.

Lemma filter_white (ws : str) : white ws -> List.filter not_space ws = [].
Proof.
  induction 1 as [|c ws Hc _ IH]; [reflexivity|].
  simpl. unfold not_space at 1. rewrite Hc. exact IH.
Qed.

Lemma filter_word (t : str) :
  Forall (fun c => is_space c = false) t -> List.filter not_space t = t.
Proof.
  induction 1 as [|c t Hc _ IH]; [reflexivity|].
  simpl. unfold not_space at 1. rewrite Hc. simpl. congruence.
Qed.

Lemma splitInput_words_aux (n : nat) :
  forall s, length s < n ->
    Forall word (splitInput s) /\ concat (splitInput s) = List.filter not_space s.
Proof.
  induction n as [|n IH]; intros s Hlen; [lia|].
  rewrite splitInput_step. destruct (extract s) as [[t rest]|] eqn:He.
  - pose proof (extract_length _ _ _ He) as Hlt.
    apply extract_Some in He as (ws & Hws & Ht & -> & _).
    destruct (IH rest ltac:(lia)) as [IH1 IH2]. split.
    + constructor; assumption.
    + cbn [concat]. rewrite IH2, !List.filter_app, (filter_white ws Hws).
      rewrite (filter_word t (proj2 Ht)). reflexivity.
  - apply extract_None in He. split; [constructor|].
    rewrite filter_white by exact He. reflexivity.
Qed.

(** ** The configuration file *)

Lemma read_until_found (d : ascii) (l r : str) :
  ~ In d l -> read_until d (l ++ d :: r) = (l, r).
Proof.
  induction l as [|c l IH]; intros Hin.
  - simpl. rewrite ascii_eqb_refl. reflexivity.
  - simpl. destruct (ascii_eqb c d) eqn:Hc.
    + apply ascii_eqb_true in Hc. subst c. exfalso. apply Hin. left. reflexivity.
    + rewrite IH; [reflexivity|]. intros H. apply Hin. right. exact H.
Qed.

Lemma read_until_absent (d : ascii) (s : str) :
  ~ In d s -> read_until d s = (s, []).
Proof.
  induction s as [|c s IH]; intros Hin; [reflexivity|].
  simpl. destruct (ascii_eqb c d) eqn:Hc.
  - apply ascii_eqb_true in Hc. subst c. exfalso. apply Hin. left. reflexivity.
  - rewrite IH; [reflexivity|]. intros H. apply Hin. right. exact H.
Qed.

Lemma read_until_length (d : ascii) (s : str) :
  length (snd (read_until d s)) <= length s - 1.
Proof.
  induction s as [|c s IH]; [simpl; lia|].
  simpl. destruct (ascii_eqb c d); [simpl; lia|].
  destruct (read_until d s) as [l r]. simpl in *. lia.
Qed.

Lemma getline_length (d : ascii) (s line rest : str) :
  getline d s = Some (line, rest) -> length rest < length s.
Proof.
  destruct s as [|c s]; [discriminate|]. unfold getline.
  pose proof (read_until_length d (c :: s)) as Hl.
  destruct (read_until d (c :: s)) as [l r]. intros [= <- <-]. simpl in *. lia.
Qed.

Lemma load_loop_enough (n m : nat) :
  forall text c, length text < n -> length text < m ->
    load_loop n text c = load_loop m text c.
Proof.
  revert m. induction n as [|n IH]; intros m text c Hn Hm; [lia|].
  destruct m as [|m]; [lia|]. simpl.
  destruct (getline "010" text) as [[line rest]|] eqn:Hg; [|reflexivity].
  apply getline_length in Hg. apply IH; lia.
Qed.

Lemma load_loop_S (n : nat) (text : str) (c : gmap str str) :
  load_loop (S n) text c
  = match getline "010" text with
    | Some (line, rest) => load_loop n rest (config_line line c)
    | None => c
    end.
Proof. reflexivity. Qed.

Lemma load_text_step (text : str) (c : gmap str str) :
  load_text text c
  = match getline "010" text with
    | Some (line, rest) => load_text rest (config_line line c)
    | None => c
    end.
Proof.
  unfold load_text at 1. rewrite load_loop_S.
  destruct (getline "010" text) as [[line rest]|] eqn:Hg; [|reflexivity].
  apply getline_length in Hg. unfold load_text. apply load_loop_enough; lia.
Qed.

Lemma load_text_nil (c : gmap str str) : load_text [] c = c.
Proof. reflexivity. Qed.

Lemma load_text_line (line rest : str) (c : gmap str str) :
  ~ In newline line ->
  load_text (line ++ NL ++ rest) c = load_text rest (config_line line c).
Proof.
  intros Hin. rewrite load_text_step.
  assert (getline "010" (line ++ NL ++ rest) = Some (line, rest)) as ->; [|reflexivity].
  unfold getline. change (NL ++ rest) with (newline :: rest).
  rewrite <- (read_until_found newline line rest Hin).
  destruct line; reflexivity.
Qed.

Lemma load_text_last (line : str) (c : gmap str str) :
  line <> [] -> ~ In newline line -> load_text line c = config_line line c.
Proof.
  intros Hne Hin. rewrite load_text_step.
  assert (getline "010" line = Some (line, [])) as ->; [|reflexivity].
  unfold getline. destruct line as [|ch line]; [congruence|].
  f_equal. apply (read_until_absent newline), Hin.
Qed.

Lemma find_char_found (d : ascii) (k v : str) :
  ~ In d k -> find_char d (k ++ d :: v) = Some (length k).
Proof.
  induction k as [|c k IH]; intros Hin.
  - simpl. rewrite ascii_eqb_refl. reflexivity.
  - simpl. destruct (ascii_eqb c d) eqn:Hc.
    + apply ascii_eqb_true in Hc. subst c. exfalso. apply Hin. left. reflexivity.
    + rewrite IH; [reflexivity|]. intros H. apply Hin. right. exact H.
Qed.

Lemma find_char_absent (d : ascii) (s : str) : ~ In d s <-> find_char d s = None.
Proof.
  induction s as [|c s IH]; simpl.
  - split; [reflexivity | intros _ []].
  - destruct (ascii_eqb c d) eqn:Hc.
    + apply ascii_eqb_true in Hc. subst c. split; [|discriminate].
      intros H. exfalso. apply H. left. reflexivity.
    + split.
      * intros H. destruct (find_char d s) eqn:Hf; [|reflexivity].
        exfalso. assert (~ In d s) as Hn by (intros Hd; apply H; right; exact Hd).
        apply IH in Hn. discriminate.
      * intros H [-> | Hd].
        { rewrite ascii_eqb_refl in Hc. discriminate. }
        destruct (find_char d s); [discriminate|]. apply IH in Hd; [exact Hd | reflexivity].
Qed.

Lemma find_char_Some (d : ascii) (s : str) (p : nat) :
  find_char d s = Some p ->
  s = take p s ++ d :: drop (p + 1) s /\ ~ In d (take p s) /\ length (take p s) = p.
Proof.
  revert p. induction s as [|c s IH]; intros p; [discriminate|]. simpl.
  destruct (ascii_eqb c d) eqn:Hc.
  - apply ascii_eqb_true in Hc. subst c. intros [= <-]. simpl.
    repeat split. intros [].
  - destruct (find_char d s) as [q|]; [|discriminate]. intros [= <-].
    destruct (IH q eq_refl) as (H1 & H2 & H3). simpl.
    split; [f_equal; exact H1|]. split; [|simpl in *; congruence].
    intros [-> | H]; [rewrite ascii_eqb_refl in Hc; discriminate | exact (H2 H)].
Qed.

Lemma config_line_assign (k v : str) (c : gmap str str) :
  ~ In "="%char k -> config_line (k ++ "=" ++ v) c = <[k := v]> c.
Proof.
  intros Hin. unfold config_line.
  change (k ++ "=" ++ v) with (k ++ "="%char :: v).
  rewrite find_char_found by exact Hin.
  rewrite take_app_length.
  replace (length k + 1) with (length (k ++ ["="%char])) by (rewrite length_app; reflexivity).
  change (k ++ "="%char :: v) with (k ++ ["="%char] ++ v).
  rewrite app_assoc, drop_app_length. reflexivity.
Qed.

Lemma config_line_skip (line : str) (c : gmap str str) :
  ~ In "="%char line -> config_line line c = c.
Proof.
  intros H. unfold config_line. apply find_char_absent in H. rewrite H. reflexivity.
Qed.

Lemma load_entries (l : list (str * str)) :
  Forall clean_entry l ->
  forall c, load_text (concat (map entry_text l)) c
            = fold_left (fun c kv => <[fst kv := snd kv]> c) l c.
Proof.
  induction 1 as [|[k v] l (Hk & Hkn & Hvn) _ IH]; intros c; [reflexivity|].
  cbn [map concat fold_left fst snd]. unfold entry_text at 1. cbn [fst snd].
  replace ((k ++ "=" ++ v ++ NL) ++ concat (map entry_text l))
    with ((k ++ "=" ++ v) ++ NL ++ concat (map entry_text l))
    by (rewrite <- !app_assoc; reflexivity).
  rewrite load_text_line.
  - rewrite config_line_assign by exact Hk. apply IH.
  - rewrite !in_app_iff. intros [H | [H | H]]; [exact (Hkn H) | | exact (Hvn H)].
    destruct H as [H | []]. discriminate.
Qed.

Lemma fold_insert_union (l : list (str * str)) (c : gmap str str) :
  fold_left (fun c kv => <[fst kv := snd kv]> c) l c
  = list_to_map (rev l) ∪ c.
Proof.
  revert c. induction l as [|[k v] l IH]; intros c.
  - simpl. symmetry. apply (left_id_L ∅ (∪)).
  - cbn [fold_left fst snd rev]. rewrite IH.
    rewrite list_to_map_app. cbn [list_to_map foldr fst snd].
    rewrite <- (assoc_L (∪)). f_equal.
    rewrite insert_union_singleton_l. rewrite insert_empty. reflexivity.
Qed.

Lemma entries_Permutation (c : gmap str str) : entries c ≡ₚ map_to_list c.
Proof. apply merge_sort_Permutation. Qed.

Lemma list_to_map_rev_entries (c : gmap str str) : list_to_map (rev (entries c)) = c.
Proof.
  rewrite <- (list_to_map_to_list c) at 2.
  apply list_to_map_proper.
  - rewrite rev_alt. 
    assert (rev (entries c) ≡ₚ map_to_list c) as Hp.
    { rewrite <- entries_Permutation. symmetry. apply Permutation_rev. }
    rewrite <- rev_alt. rewrite Hp. apply NoDup_fst_map_to_list.
  - rewrite <- entries_Permutation. symmetry. apply Permutation_rev.
Qed.

Lemma load_text_config_text (c c0 : gmap str str) :
  (forall k v, c !! k = Some v ->
     ~ In "="%char k /\ ~ In newline k /\ ~ In newline v) ->
  load_text (config_text c) c0 = c ∪ c0.
Proof.
  intros Hclean. unfold config_text.
  change (fun kv : str * str => fst kv ++ "=" ++ snd kv ++ NL) with entry_text.
  rewrite load_entries.
  - rewrite fold_insert_union, list_to_map_rev_entries. reflexivity.
  - apply Forall_forall. intros [k v] Hin. apply Hclean.
    apply elem_of_map_to_list. rewrite <- entries_Permutation. exact Hin.
Qed.

Lemma config_line_lookup (l k : str) (c : gmap str str) :
  ~ In "="%char k ->
  config_line l c !! k
  = if startsWith l (k ++ "=") then Some (drop (length k + 1) l) else c !! k.
Proof.
  intros Hk. unfold config_line.
  destruct (find_char "=" l) as [p|] eqn:Hf.
  - destruct (find_char_Some _ _ _ Hf) as (Hl & Hnot & Hlen).
    destruct (startsWith l (k ++ "=")) eqn:Hs.
    + apply startsWith_true in Hs as [rest Hrest].
      assert (p = length k) as ->.
      { rewrite Hrest in Hf. rewrite <- app_assoc in Hf.
        change (("=" : str) ++ rest) with ("="%char :: rest) in Hf.
        rewrite find_char_found in Hf by exact Hk. congruence. }
      assert (take (length k) l = k) as ->.
      { rewrite Hrest, <- app_assoc. apply take_app_length. }
      apply lookup_insert_eq.
    + rewrite lookup_insert_ne; [reflexivity|].
      intros Heq. assert (startsWith l (k ++ "=") = true) as Ht; [|congruence].
      apply startsWith_true. exists (drop (p + 1) l).
      rewrite <- Heq, <- app_assoc. exact Hl.
  - destruct (startsWith l (k ++ "=")) eqn:Hs; [|reflexivity].
    apply find_char_absent in Hf. exfalso. apply Hf.
    apply startsWith_true in Hs as [rest ->].
    rewrite !in_app_iff. left. right. left. reflexivity.
Qed.

Lemma config_line_other (l k : str) (c : gmap str str) :
  In "="%char k -> config_line l c !! k = c !! k.
Proof.
  intros Hk. unfold config_line. destruct (find_char "=" l) as [p|] eqn:Hf; [|reflexivity].
  destruct (find_char_Some _ _ _ Hf) as (_ & Hnot & _).
  apply lookup_insert_ne. intros Heq. apply Hnot. rewrite Heq. exact Hk.
Qed.

Lemma load_loop_other (n : nat) (k : str) :
  In "="%char k -> forall text c, load_loop n text c !! k = c !! k.
Proof.
  intros Hk. induction n as [|n IH]; intros text c; [reflexivity|].
  rewrite load_loop_S. destruct (getline "010" text) as [[line rest]|]; [|reflexivity].
  rewrite IH. apply config_line_other, Hk.
Qed.

Lemma load_text_unlines_cons (l : str) (lines : list str) (c : gmap str str) :
  ~ In newline l ->
  load_text (unlines (l :: lines)) c = load_text (unlines lines) (config_line l c).
Proof.
  intros Hl. unfold unlines. cbn [map concat]. rewrite <- app_assoc.
  apply load_text_line, Hl.
Qed.

Lemma load_text_unlines_lookup (lines : list str) (k : str) :
  Forall (fun l => ~ In newline l) lines -> ~ In "="%char k ->
  forall c,
    load_text (unlines lines) c !! k
    = match last (List.filter (fun l => startsWith l (k ++ "=")) lines) with
      | Some l => Some (drop (length k + 1) l)
      | None => c !! k
      end.
Proof.
  intros Hlines Hk. induction Hlines as [|l lines Hl _ IH]; intros c; [reflexivity|].
  rewrite load_text_unlines_cons by exact Hl. rewrite IH.
  cbn [List.filter]. rewrite config_line_lookup by exact Hk.
  destruct (startsWith l (k ++ "=")) eqn:Hs.
  - rewrite last_cons. destruct (last _); reflexivity.
  - destruct (last _); reflexivity.
Qed.

Lemma load_text_unlines_last (lines : list str) (l : str) :
  Forall (fun l => ~ In newline l) lines -> l <> [] -> ~ In newline l ->
  forall c, load_text (unlines lines ++ l) c = load_text (unlines (lines ++ [l])) c.
Proof.
  intros Hlines Hne Hl. induction Hlines as [|l0 lines Hl0 _ IH]; intros c.
  - cbn [unlines map concat app]. rewrite app_nil_r.
    rewrite load_text_last by assumption.
    rewrite <- (app_nil_r (l ++ NL)), <- app_assoc, load_text_line by exact Hl.
    reflexivity.
  - cbn [app]. rewrite load_text_unlines_cons by exact Hl0.
    unfold unlines at 1. cbn [map concat]. rewrite <- !app_assoc.
    rewrite load_text_line by exact Hl0. apply IH.
Qed.

Section ConfigFile.

Context (Sy : Sys).

(** X2. A configuration written by [saveConfig] and read back by
    [loadConfig]. When no key holds [=] or a newline, no value holds a
    newline, and the file can be opened for writing, [saveConfig] writes
    one line [key=value] per entry, in key order, and leaves the map as it
    was. [loadConfig] of a file with this content puts every written
    entry back over the map it is loaded into: the result is the written
    map, completed by the entries of the present map under other keys.
    Loaded into the same map or into an empty one, the file gives the
    written map back. *)
Theorem loadConfig_saveConfig_roundtrip (filename : str) (sh sh' : Shell) :
  (forall k v, config sh !! k = Some v ->
     ~ In "="%char k /\ ~ In newline k /\ ~ In newline v) ->
  sys_writable Sy (io sh) filename = true ->
  sys_read Sy (io sh') filename = Some (config_text (config sh)) ->
  io (saveConfig Sy filename sh)
    = io sh ++ [IoOpenWrite filename (Some (config_text (config sh)))]
  /\ config (saveConfig Sy filename sh) = config sh
  /\ config (loadConfig Sy filename sh') = config sh ∪ config sh'
  /\ (config sh' = config sh -> config (loadConfig Sy filename sh') = config sh)
  /\ (config sh' = ∅ -> config (loadConfig Sy filename sh') = config sh).
Proof.
  intros Hclean Hw Hr.
  assert (config (loadConfig Sy filename sh') = config sh ∪ config sh') as Hload.
  { unfold loadConfig. rewrite Hr. cbn [config set_config io_log].
    apply load_text_config_text, Hclean. }
  split; [unfold saveConfig; rewrite Hw; reflexivity|].
  split; [unfold saveConfig; rewrite Hw; reflexivity|].
  split; [exact Hload|]. split; intros Heq; rewrite Hload, Heq.
  - apply (idemp_L (∪)).
  - apply (right_id_L ∅ (∪)).
Qed.

(** X3. What a configuration file means. For a file of lines, the last of
    which may lack its newline: after [loadConfig], a key without [=] has
    the value of the last line that starts with the key and [=], namely
    all that follows this first [=] of the line; a key for which the file
    has no such line keeps the value it had, or stays absent. A key that
    holds a [=] is never set by a file. *)
Theorem loadConfig_lines (filename : str) (lines : list str) (final k : str)
    (sh : Shell) :
  Forall (fun l => ~ In newline l) (lines ++ [final]) ->
  sys_read Sy (io sh) filename
    = Some (unlines lines ++ final) ->
  let all := if is_empty final then lines else lines ++ [final] in
  config (loadConfig Sy filename sh) !! k
  = match find_char "=" k with
    | Some _ => config sh !! k
    | None =>
        match last (List.filter (fun l => startsWith l (k ++ "=")) all) with
        | Some l => Some (drop (length k + 1) l)
        | None => config sh !! k
        end
    end.
Proof.
  intros Hlines Hr all. unfold loadConfig. rewrite Hr. cbn [config set_config io_log].
  destruct (find_char "=" k) as [p|] eqn:Hk.
  - apply load_loop_other. intros.
    destruct (find_char_Some _ _ _ Hk) as (-> & _). apply in_app_iff. right. left.
    reflexivity.
  - apply find_char_absent in Hk.
    apply Forall_app in Hlines as [Hlines Hfinal].
    apply Forall_cons in Hfinal as [Hfinal _].
    destruct final as [|ch final].
    + rewrite app_nil_r. apply load_text_unlines_lookup; assumption.
    + rewrite load_text_unlines_last by (assumption || discriminate).
      apply load_text_unlines_lookup; [|assumption].
      apply Forall_app. split; [assumption | constructor; [assumption | constructor]].
Qed.

End ConfigFile.

(** ** Completion *)

Lemma str_eqb_false (s t : str) : str_eqb s t = false <-> s <> t.
Proof.
  split.
  - intros H Heq. apply str_eqb_true in Heq. congruence.
  - intros H. destruct (str_eqb s t) eqn:He; [|reflexivity].
    apply str_eqb_true in He. contradiction.
Qed.

Ltac by_command cmd :=
  repeat match goal with
         | |- context [str_eqb cmd ?k] =>
             let H := fresh "Hcmd" in
             destruct (str_eqb cmd k) eqn:H;
             [apply str_eqb_true in H; subst cmd; reflexivity|]
         end.

Lemma completions_two (buffer cmd t : str) :
  splitInput buffer = [cmd; t] ->
  getCompletions buffer
  = if str_eqb cmd "connect" && str_eqb t "global" then ["http" : str; "https" : str]
    else completing t (subs_of cmd).
Proof.
  intros Htok. unfold getCompletions, subs_of. rewrite Htok. cbv zeta.
  cbn [length Nat.eqb nth]. rewrite !andb_true_r, !andb_false_r.
  unfold subCommands, table_find.
  by_command cmd. reflexivity.
Qed.

Lemma completions_three (buffer cmd t1 t2 : str) :
  splitInput buffer = [cmd; t1; t2] ->
  getCompletions buffer
  = if str_eqb cmd "connect" && str_eqb t1 "global"
    then completing t2 ["http" : str; "https" : str]
    else if str_eqb cmd "inject"
         then completing t2 ["--sql" : str; "--xss" : str; "--cmd" : str]
         else [].
Proof.
  intros Htok. unfold getCompletions. rewrite Htok. cbv zeta.
  cbn [length Nat.eqb nth]. rewrite !andb_true_r, !andb_false_r.
  unfold subCommands, connectSubSub, table_find.
  destruct (str_eqb cmd "connect") eqn:Hc.
  { apply str_eqb_true in Hc. subst cmd. cbn. destruct (str_eqb t1 "global"); reflexivity. }
  cbn [andb].
  destruct (str_eqb cmd "inject") eqn:Hi.
  { apply str_eqb_true in Hi. subst cmd. reflexivity. }
  by_command cmd. reflexivity.
Qed.

Lemma completions_more (buffer cmd t1 t2 t3 : str) (rest : list str) :
  splitInput buffer = cmd :: t1 :: t2 :: t3 :: rest ->
  getCompletions buffer = [].
Proof.
  intros Htok. unfold getCompletions. rewrite Htok. cbv zeta.
  cbn [length Nat.eqb nth]. rewrite !andb_false_r.
  destruct (table_find cmd subCommands); reflexivity.
Qed.

(** ** Patterns with alternatives against [PMatches] *)

Section PatternMatcher.

Context (n0 : nat).

Lemma class_star_sound (ok : ascii -> bool) (s : str) :
  forall caps k res,
    class_star ok s caps k = Some res ->
    exists s', PMatches n0 (PStar ok) s s' [] /\ k (MState s' caps) = Some res.
Proof.
  induction s as [|c s IH]; intros caps k res; simpl.
  - intros H. exists []. split; [constructor | exact H].
  - destruct (ok c) eqn:Hc.
    + intros H. apply or_else_Some in H as [H | [_ H]].
      * apply IH in H as (s' & Hm & Hk). exists s'. split; [constructor; auto | exact Hk].
      * exists (c :: s). split; [constructor | exact H].
    + intros H. exists (c :: s). split; [constructor | exact H].
Qed.

Lemma class_star_complete (ok : ascii -> bool) (s s' : str) :
  PMatches n0 (PStar ok) s s' [] ->
  forall caps k,
    k (MState s' caps) <> None -> class_star ok s caps k <> None.
Proof.
  intros Hm. remember (PStar ok) as p eqn:Hp. remember [] as c0 eqn:Hc0.
  induction Hm; try discriminate; injection Hp as ->; intros caps k Hk.
  - destruct s as [|c s]; simpl; [exact Hk|].
    destruct (ok c); [|exact Hk]. rewrite or_else_None. tauto.
  - simpl. rewrite H. specialize (IHHm eq_refl Hc0 caps k Hk).
    rewrite or_else_None. tauto.
Qed.

Lemma pexec_sound (p : pattern) :
  forall s caps k res,
    pexec n0 p (MState s caps) k = Some res ->
    exists s' c, PMatches n0 p s s' c /\ k (MState s' (c ++ caps)) = Some res.
Proof.
  induction p as [r|ok|ok|p1 IH1 p2 IH2|p1 IH1 p2 IH2|i p IH]; intros s caps k res;
    cbn [pexec m_rest m_caps].
  - intros H. apply exec_sound with (n0 := n0) in H as (s' & c & Hm & H).
    exists s', c. split; [constructor; exact Hm | exact H].
  - destruct s as [|c s]; [discriminate|].
    destruct (ok c) eqn:Hc; [|discriminate].
    intros H. exists s, []. split; [constructor; exact Hc | exact H].
  - intros H. apply class_star_sound in H as (s' & Hm & H). exists s', []. auto.
  - intros H. apply IH1 in H as (s1 & c1 & Hm1 & H).
    apply IH2 in H as (s2 & c2 & Hm2 & H).
    exists s2, (c2 ++ c1). split; [econstructor; eassumption|].
    rewrite <- app_assoc. exact H.
  - intros H. apply or_else_Some in H as [H | [_ H]].
    + apply IH1 in H as (s' & c & Hm & H). exists s', c.
      split; [apply PM_AltL; exact Hm | exact H].
    + apply IH2 in H as (s' & c & Hm & H). exists s', c.
      split; [apply PM_AltR; exact Hm | exact H].
  - intros H. apply IH in H as (s' & c & Hm & H). cbn [m_rest m_caps] in H.
    exists s', ((i, take (length s - length s') s) :: c).
    split; [constructor; exact Hm | exact H].
Qed.

Lemma pexec_complete (p : pattern) (s s' : str) (c : list (nat * str)) :
  PMatches n0 p s s' c ->
  forall caps k,
    k (MState s' (c ++ caps)) <> None ->
    pexec n0 p (MState s caps) k <> None.
Proof.
  induction 1 as [r s s' c Hm|ok ch s Hc|ok s|ok ch s s' Hc Hm _
                  |p q s s1 s2 c1 c2 _ IH1 _ IH2|p q s s' c _ IH|p q s s' c _ IH
                  |i p s s' c _ IH];
    intros caps k Hk; cbn [pexec m_rest m_caps].
  - eapply exec_complete; eassumption.
  - rewrite Hc. exact Hk.
  - apply (class_star_complete ok s s); [constructor | exact Hk].
  - apply (class_star_complete ok (ch :: s) s'); [constructor; assumption | exact Hk].
  - apply IH1. apply IH2. rewrite app_assoc. exact Hk.
  - rewrite or_else_None. intros [H _]. revert H. apply IH, Hk.
  - rewrite or_else_None. intros [_ H]. revert H. apply IH, Hk.
  - apply IH. exact Hk.
Qed.

End PatternMatcher.

Lemma regex_match_Some (p : pattern) (s : str) (m : list (nat * str)) :
  regex_match p s = Some m -> PMatches (length s) p s [] m.
Proof.
  unfold regex_match.
  destruct (pexec _ _ _ _) as [st|] eqn:He; [|discriminate]. intros [= <-].
  apply pexec_sound in He as (s' & c & Hm & Hk). cbn [m_rest] in Hk.
  destruct s' as [|ch s']; [|discriminate]. cbn in Hk. injection Hk as <-.
  cbn [m_caps]. rewrite app_nil_r. exact Hm.
Qed.

Lemma regex_match_None (p : pattern) (s : str) :
  regex_match p s = None -> forall m, ~ PMatches (length s) p s [] m.
Proof.
  unfold regex_match. intros H m Hm.
  apply pexec_complete with (caps := [])
    (k := fun st => if is_empty (m_rest st) then Some st else None) in Hm.
  - destruct (pexec _ _ _ _); [discriminate | congruence].
  - cbn. discriminate.
Qed.

(** ** The pattern of [cmdConnect] *)

Lemma PMatches_Seq_inv n0 p q s s2 c :
  PMatches n0 (PSeq p q) s s2 c ->
  exists s1 c1 c2, PMatches n0 p s s1 c1 /\ PMatches n0 q s1 s2 c2 /\ c = c2 ++ c1.
Proof. inversion 1; subst. eauto 10. Qed.

Lemma PMatches_Regex_inv n0 r s s' c :
  PMatches n0 (PRegex r) s s' c -> Matches false n0 r s s' c.
Proof. inversion 1; subst. assumption. Qed.

Lemma PMatches_Group_inv n0 i p s s' c :
  PMatches n0 (PGroup i p) s s' c ->
  exists c1, PMatches n0 p s s' c1 /\ c = (i, take (length s - length s') s) :: c1.
Proof. inversion 1; subst. eauto. Qed.

Lemma PMatches_Alt_inv n0 p q s s' c :
  PMatches n0 (PAlt p q) s s' c -> PMatches n0 p s s' c \/ PMatches n0 q s s' c.
Proof. inversion 1; subst; auto. Qed.

Lemma PMatches_Class_inv n0 ok s s' c :
  PMatches n0 (PClass ok) s s' c -> exists ch, s = ch :: s' /\ ok ch = true /\ c = [].
Proof. inversion 1; subst. eauto. Qed.

Lemma PMatches_Star n0 (ok : ascii -> bool) (s s' : str) (c : list (nat * str)) :
  PMatches n0 (PStar ok) s s' c <->
  exists m, s = m ++ s' /\ c = [] /\ Forall (fun ch => ok ch = true) m.
Proof.
  split.
  - intros H. remember (PStar ok) as p eqn:Hp.
    induction H; try discriminate; injection Hp as ->.
    + exists []. auto.
    + destruct (IHPMatches eq_refl) as (m & -> & _ & Hm).
      exists (ch :: m). auto.
  - intros (m & -> & -> & Hm). induction Hm as [|ch m Hch _ IH]; simpl;
      constructor; assumption.
Qed.

Lemma take_app_suffix (m s' : str) : take (length (m ++ s') - length s') (m ++ s') = m.
Proof.
  rewrite length_app. replace (length m + length s' - length s') with (length m) by lia.
  apply take_app_length.
Qed.

Lemma Space_white (m : str) :
  Forall (fun ch => atom_ok false Space ch = true) m <-> white m.
Proof. reflexivity. Qed.

Lemma not_space_word (m : str) :
  Forall (fun ch => not_space ch = true) m <-> Forall (fun c => is_space c = false) m.
Proof.
  unfold not_space. split; intros H; eapply Forall_impl; try exact H;
    intros c Hc; simpl in *; destruct (is_space c); simpl in *; congruence.
Qed.

Lemma lit_plain (l m : str) : lit_ok false l m <-> m = l.
Proof.
  unfold lit_ok, translate. rewrite !map_id. split; congruence.
Qed.

Lemma Matches_scheme n0 (scheme : str) (x : ascii) (s s' : str) c :
  Matches false n0 (Seq (Lit scheme) (Opt (Atom (Chr x)))) s s' c <->
  c = [] /\ (s = scheme ++ s' \/ s = scheme ++ x :: s').
Proof.
  split.
  - intros H. apply Matches_Seq_inv in H as (s1 & c1 & c2 & H1 & H2 & ->).
    apply Matches_Lit in H1 as (m & -> & -> & Hm).
    apply (proj1 (lit_plain scheme m)) in Hm. subst m.
    apply Matches_Opt_inv in H2 as [[-> ->] | H2].
    + auto.
    + apply Matches_Atom_inv in H2 as (ch & -> & Hch & ->).
      cbn in Hch. apply ascii_eqb_true in Hch. subst ch. auto.
  - intros [-> [-> | ->]].
    + change (@nil (nat * str)) with (@nil (nat * str) ++ []).
      econstructor; [apply Matches_Lit; exists scheme; split; [reflexivity|];
                     split; [reflexivity | apply lit_plain; reflexivity]|].
      apply M_OptSkip.
    + change (@nil (nat * str)) with (@nil (nat * str) ++ []).
      econstructor; [apply Matches_Lit; exists scheme; split; [reflexivity|];
                     split; [reflexivity | apply lit_plain; reflexivity]|].
      apply M_OptTake. constructor. cbn. apply ascii_eqb_refl.
Qed.

Lemma proto_domain_PMatches (url : str) (m : list (nat * str)) :
  PMatches (length url) proto_domain url [] m <->
  exists proto domain, ProtoDomain url proto domain /\ m = [(2, domain); (1, proto)].
Proof.
  unfold proto_domain. split.
  - intros H.
    apply PMatches_Seq_inv in H as (s1 & c1 & c2 & H1 & H & ->).
    apply PMatches_Regex_inv, Matches_Seq_inv in H1 as (s0 & c0 & c0' & Hb & H1 & ->).
    inversion Hb; subst. clear Hb.
    apply Matches_Star in H1 as (lead & -> & -> & Hlead).
    apply PMatches_Seq_inv in H as (s2 & c3 & c4 & Hg1 & H & ->).
    apply PMatches_Group_inv in Hg1 as (c5 & Hg1 & ->).
    apply PMatches_Seq_inv in H as (s3 & c6 & c7 & Hgap & Hg2 & ->).
    apply PMatches_Regex_inv, Matches_Plus in Hgap as (gap & -> & -> & Hne & Hgap).
    apply PMatches_Group_inv in Hg2 as (c8 & Hg2 & ->).
    apply PMatches_Seq_inv in Hg2 as (s4 & c9 & c10 & Hd1 & Hd2 & ->).
    apply PMatches_Class_inv in Hd1 as (ch & -> & Hch & ->).
    apply PMatches_Star in Hd2 as (dom & Hdom & -> & Hd).
    rewrite app_nil_r in Hdom. subst s4.
    assert (exists proto, s1 = proto ++ gap ++ ch :: dom /\ c5 = []
              /\ (proto = "http" \/ proto = "https" \/ proto = "HTTP" \/ proto = "HTTPS"))
      as (proto & -> & -> & Hproto).
    { apply PMatches_Alt_inv in Hg1 as [Hg1 | Hg1];
        apply PMatches_Regex_inv, Matches_scheme in Hg1 as [-> [-> | ->]].
      - exists ("http" : str). auto.
      - exists ("https" : str). split; [reflexivity|]. auto.
      - exists ("HTTP" : str). auto 6.
      - exists ("HTTPS" : str). split; [reflexivity|]. auto 6. }
    exists proto, (ch :: dom). split.
    + exists lead, gap. repeat split; try assumption; try discriminate.
      apply not_space_word. constructor; assumption.
    + cbn [app]. rewrite take_app_suffix.
      replace (length (ch :: dom) - length (@nil ascii)) with (length (ch :: dom))
        by (simpl; lia).
      rewrite firstn_all. reflexivity.
  - intros (proto & domain & (lead & gap & -> & Hlead & Hproto & Hgap & Hne & Hd0 & Hd) & ->).
    destruct domain as [|ch dom]; [congruence|]. apply not_space_word in Hd.
    apply Forall_cons in Hd as [Hch Hd].
    change [(2, ch :: dom); (1, proto)]
      with ((([(2, ch :: dom)] ++ []) ++ [(1, proto)]) ++ (@nil (nat * str))).
    econstructor.
    { constructor.
      change (@nil (nat * str)) with (@nil (nat * str) ++ []).
      econstructor; [constructor; reflexivity|].
      apply Matches_Star. exists lead. auto. }
    econstructor.
    { pose proof (PM_Group (length (lead ++ proto ++ gap ++ ch :: dom)) 1
                    (PAlt (PRegex (Seq (Lit "http") (Opt (Atom (Chr "s")))))
                          (PRegex (Seq (Lit "HTTP") (Opt (Atom (Chr "S"))))))
                    (proto ++ gap ++ ch :: dom) (gap ++ ch :: dom) []) as HG.
      rewrite take_app_suffix in HG. apply HG.
      destruct Hproto as [-> | [-> | [-> | ->]]].
      - apply PM_AltL. constructor. apply Matches_scheme. auto.
      - apply PM_AltL. constructor. apply Matches_scheme. auto.
      - apply PM_AltR. constructor. apply Matches_scheme. auto.
      - apply PM_AltR. constructor. apply Matches_scheme. auto. }
    econstructor.
    { constructor. apply Matches_Plus. exists gap. auto. }
    pose proof (PM_Group (length (lead ++ proto ++ gap ++ ch :: dom)) 2
                  (PSeq (PClass not_space) (PStar not_space)) (ch :: dom) [] []) as HG.
    replace (length (ch :: dom) - length (@nil ascii)) with (length (ch :: dom)) in HG
      by (simpl; lia).
    rewrite firstn_all in HG. apply HG.
    change (@nil (nat * str)) with (@nil (nat * str) ++ []).
    econstructor; [constructor; exact Hch|].
    apply PMatches_Star. exists dom. rewrite app_nil_r. auto.
Qed.

Lemma white_split_unique (a b : str) (x y : ascii) (r r' : str) :
  white a -> white b -> is_space x = false -> is_space y = false ->
  a ++ x :: r = b ++ y :: r' -> a = b /\ x = y /\ r = r'.
Proof.
  intros Ha. revert b. induction Ha as [|c a Hc _ IH]; intros b Hb Hx Hy H.
  - destruct Hb as [|d b Hd _]; simpl in H.
    + injection H as -> ->. auto.
    + injection H as -> _. congruence.
  - destruct Hb as [|d b Hd Hb]; simpl in H.
    + injection H as -> _. congruence.
    + injection H as -> H. destruct (IH b Hb Hx Hy H) as (-> & -> & ->). auto.
Qed.

Lemma proto_head (proto : str) :
  proto = "http" \/ proto = "https" \/ proto = "HTTP" \/ proto = "HTTPS" ->
  exists x r, proto = x :: r /\ is_space x = false.
Proof. intros [-> | [-> | [-> | ->]]]; eexists _, _; split; reflexivity. Qed.

Lemma gap_head (gap rest : str) :
  white gap -> gap <> [] -> exists c r, gap ++ rest = c :: r /\ is_space c = true.
Proof.
  intros [|c g Hc _] Hne; [congruence|]. exists c, (g ++ rest). auto.
Qed.

Lemma ProtoDomain_unique (url p1 d1 p2 d2 : str) :
  ProtoDomain url p1 d1 -> ProtoDomain url p2 d2 -> p1 = p2 /\ d1 = d2.
Proof.
  intros (l1 & g1 & -> & Hl1 & Hp1 & Hg1 & Hn1 & Hd1)
         (l2 & g2 & H & Hl2 & Hp2 & Hg2 & Hn2 & Hd2).
  destruct (proto_head p1 Hp1) as (x1 & r1 & Hx1 & Hs1).
  destruct (proto_head p2 Hp2) as (x2 & r2 & Hx2 & Hs2).
  assert (l1 = l2 /\ p1 ++ g1 ++ d1 = p2 ++ g2 ++ d2) as [-> Hrest].
  { rewrite Hx1, Hx2 in H. cbn [app] in H.
    destruct (white_split_unique _ _ _ _ _ _ Hl1 Hl2 Hs1 Hs2 H) as (-> & -> & Hr).
    split; [reflexivity|]. rewrite Hx1, Hx2. cbn [app]. congruence. }
  clear H Hx1 Hx2 Hs1 Hs2.
  destruct (gap_head g1 d1 Hg1 Hn1) as (c1 & t1 & Hc1 & Hsp1).
  destruct (gap_head g2 d2 Hg2 Hn2) as (c2 & t2 & Hc2 & Hsp2).
  assert (p1 = p2) as ->.
  { rewrite Hc1, Hc2 in Hrest.
    destruct Hp1 as [-> | [-> | [-> | ->]]], Hp2 as [-> | [-> | [-> | ->]]];
      try reflexivity; simpl in Hrest; try discriminate Hrest; exfalso;
      injection Hrest; intros; subst;
      first [cbv in Hsp1; discriminate Hsp1 | cbv in Hsp2; discriminate Hsp2]. }
  split; [reflexivity|].
  apply app_inv_head in Hrest.
  destruct Hd1 as [Hne1 Hw1], Hd2 as [Hne2 Hw2].
  destruct d1 as [|y1 d1]; [congruence|]. destruct d2 as [|y2 d2]; [congruence|].
  apply Forall_cons in Hw1 as [Hy1 _]. apply Forall_cons in Hw2 as [Hy2 _].
  destruct (white_split_unique _ _ _ _ _ _ Hg1 Hg2 Hy1 Hy2 Hrest) as (_ & -> & ->).
  reflexivity.
Qed.

Lemma regex_match_ProtoDomain (url proto domain : str) :
  ProtoDomain url proto domain ->
  regex_match proto_domain url = Some [(2, domain); (1, proto)].
Proof.
  intros H. destruct (regex_match proto_domain url) as [m|] eqn:Hm.
  - apply regex_match_Some, proto_domain_PMatches in Hm as (p & d & Hpd & ->).
    destruct (ProtoDomain_unique _ _ _ _ _ Hpd H) as [-> ->]. reflexivity.
  - exfalso. eapply regex_match_None; [exact Hm|].
    apply proto_domain_PMatches. eauto.
Qed.

Lemma regex_match_no_ProtoDomain (url : str) :
  (forall proto domain, ~ ProtoDomain url proto domain) ->
  regex_match proto_domain url = None.
Proof.
  intros H. destruct (regex_match proto_domain url) as [m|] eqn:Hm; [|reflexivity].
  apply regex_match_Some, proto_domain_PMatches in Hm as (p & d & Hpd & _).
  exfalso. exact (H p d Hpd).
Qed.

Section Targets.

Context (E : Env) (Sy : Sys).

Lemma Finished_inj (a b : Shell) : Finished a = Finished b -> a = b.
Proof. intros [= ->]. reflexivity. Qed.

Lemma cmdConnect_global_unfold (url : str) (sh : Shell) :
  cmdConnect Sy ("global " ++ url) sh
  = Finished
      match regex_match proto_domain url with
      | Some m =>
          let fullUrl := cap_lookup 1 m ++ "://" ++ cap_lookup 2 m in
          cout (connected_line fullUrl) (assign "gl_path" fullUrl sh)
      | None =>
          if startsWith url "http://" || startsWith url "https://" then
            cout (connected_line url) (assign "gl_path" url sh)
          else
            cerr (fail_tag ++ " Usage: connect global <http(s) example.com> or "
                  ++ "connect global <http(s)://url>" ++ NL) sh
      end.
Proof.
  unfold cmdConnect.
  change (startsWith ("global " ++ url) "local ") with false.
  change (startsWith ("global " ++ url) "global ") with true.
  change (drop 7 ("global " ++ url)) with url. cbv iota.
  destruct (regex_match proto_domain url); [reflexivity|].
  destruct (_ || _); reflexivity.
Qed.

Lemma cmdConnect_global_target (url : str) (sh : Shell) :
  exists sh',
    cmdConnect Sy ("global " ++ url) sh = Finished sh'
    /\ (config sh' = config sh
        \/ exists u, config sh' = <[("gl_path" : str) := u]> (config sh)
                     /\ (startsWith u "http" = true \/ startsWith u "HTTP" = true)).
Proof.
  rewrite cmdConnect_global_unfold. eexists. split; [reflexivity|].
  destruct (regex_match proto_domain url) as [m|] eqn:Hm.
  - right. apply regex_match_Some, proto_domain_PMatches in Hm
      as (p & d & (l & g & _ & _ & Hp & _) & ->).
    eexists. split; [reflexivity|]. cbn [cap_lookup Nat.eqb].
    destruct Hp as [-> | [-> | [-> | ->]]]; auto.
  - destruct (startsWith url "http://" || startsWith url "https://") eqn:Hs.
    + right. exists url. split; [reflexivity|]. left.
      apply orb_true_iff in Hs as [Hs | Hs];
        apply startsWith_true in Hs as [rest ->]; reflexivity.
    + left. reflexivity.
Qed.

(** X4. [connect global] on the rest [url] of its argument always
    returns. When [url] is one of the protocols [http], [https], [HTTP],
    [HTTPS] and a domain, set apart by white space (white space before
    the protocol is allowed, none inside or after the domain), [gl_path]
    becomes protocol [://] domain. Otherwise a [url] that starts with
    [http://] or [https://] becomes [gl_path] as it is, and any other
    [url] changes neither the configuration nor [std::cout]: one message
    goes to [std::cerr]. In every case the configuration is unchanged, or
    differs by a [gl_path] that starts with [http] or [HTTP]. *)
Theorem cmdConnect_global (url : str) (sh : Shell) :
  exists sh',
    cmdConnect Sy ("global " ++ url) sh = Finished sh'
    /\ (forall proto domain,
          ProtoDomain url proto domain ->
          sh' = cout (connected_line (proto ++ "://" ++ domain))
                     (assign "gl_path" (proto ++ "://" ++ domain) sh))
    /\ ((forall proto domain, ~ ProtoDomain url proto domain) ->
        (startsWith url "http://" || startsWith url "https://" = true ->
         sh' = cout (connected_line url) (assign "gl_path" url sh))
        /\ (startsWith url "http://" || startsWith url "https://" = false ->
            config sh' = config sh /\ world sh' = world sh
            /\ exists text, io sh' = io sh ++ [IoErr text]))
    /\ (config sh' = config sh
        \/ exists u, config sh' = <[("gl_path" : str) := u]> (config sh)
                     /\ (startsWith u "http" = true \/ startsWith u "HTTP" = true)).
Proof.
  destruct (cmdConnect_global_target url sh) as (sh' & Hsh' & Htarget).
  exists sh'. split; [exact Hsh'|]. split; [|split; [|exact Htarget]].
  - rewrite cmdConnect_global_unfold in Hsh'. apply Finished_inj in Hsh'. subst sh'.
    intros proto domain H. rewrite (regex_match_ProtoDomain _ _ _ H). reflexivity.
  - rewrite cmdConnect_global_unfold in Hsh'. apply Finished_inj in Hsh'. subst sh'.
    intros H. rewrite (regex_match_no_ProtoDomain _ H). split.
    + intros ->. reflexivity.
    + intros ->. repeat split. eexists. reflexivity.
Qed.

Lemma read_config_present (key v : str) (sh : Shell) :
  config sh !! key = Some v -> read_config key sh = (v, sh).
Proof.
  intros H. unfold read_config, config_at. rewrite H. destruct sh; reflexivity.
Qed.

Lemma read_config_setting (key v : str) (sh sh1 : Shell) :
  read_config key sh = (v, sh1) -> fst (config_at key (config sh1)) = v.
Proof.
  unfold read_config, config_at. destruct (config sh !! key) as [v0|] eqn:H.
  - intros [= <- <-]. destruct sh. cbn in *. rewrite H. reflexivity.
  - intros [= <- <-]. destruct sh. cbn in *. rewrite lookup_insert_eq. reflexivity.
Qed.

Lemma cmdEnum_connected (fuel : nat) (u : str) (sh : Shell) :
  config sh !! ("gl_path" : str) = Some u -> u <> "n/a" ->
  cmdEnum E fuel sh
  = let '(setting, sh1) := read_config "max_enum_depth" sh in
    match stoi setting with
    | None => Thrown sh1
    | Some limit =>
        match enumerateDirectories E (settings (config sh1)) fuel u 0 limit (world sh1) with
        | Some (Returns w) => Finished (MkShell (config sh1) w (io sh1))
        | Some (Throws w) => Thrown (MkShell (config sh1) w (io sh1))
        | None => Unfinished
        end
    end.
Proof.
  intros Hu Hne. unfold cmdEnum. rewrite !(read_config_present _ _ _ Hu).
  apply str_eqb_false in Hne. rewrite Hne.
  destruct (read_config "max_enum_depth" sh) as [setting sh1] eqn:Hr.
  apply read_config_setting in Hr.
  assert (depth_limit (max_enum_depth (settings (config sh1))) (-1) = stoi setting) as Hl
    by (unfold depth_limit, settings; cbn [Z.eqb max_enum_depth]; rewrite Hr; reflexivity).
  destruct (stoi setting) as [limit|].
  - rewrite (enumerateDirectories_bound _ _ _ _ _ _ limit _ Hl). reflexivity.
  - rewrite enumerateDirectories_unreadable by exact Hl. destruct sh1; reflexivity.
Qed.

Lemma cmdListGlobal_connected (fuel : nat) (u : str) (sh : Shell) :
  config sh !! ("gl_path" : str) = Some u -> u <> "n/a" ->
  cmdListGlobal E fuel sh
  = let '(setting, sh1) := read_config "max_list_depth" sh in
    match stoi setting with
    | None => Thrown sh1
    | Some limit =>
        match listGlobalRecursive E (settings (config sh1)) fuel u 0 limit (world sh1) with
        | Some (Returns w) => Finished (MkShell (config sh1) w (io sh1))
        | Some (Throws w) => Thrown (MkShell (config sh1) w (io sh1))
        | None => Unfinished
        end
    end.
Proof.
  intros Hu Hne. unfold cmdListGlobal. rewrite !(read_config_present _ _ _ Hu).
  apply str_eqb_false in Hne. rewrite Hne.
  destruct (read_config "max_list_depth" sh) as [setting sh1] eqn:Hr.
  apply read_config_setting in Hr.
  assert (depth_limit (max_list_depth (settings (config sh1))) (-1) = stoi setting) as Hl
    by (unfold depth_limit, settings; cbn [Z.eqb max_list_depth]; rewrite Hr; reflexivity).
  destruct (stoi setting) as [limit|].
  - rewrite (listGlobalRecursive_bound _ _ _ _ _ _ limit _ Hl). reflexivity.
  - rewrite listGlobalRecursive_unreadable by exact Hl. destruct sh1; reflexivity.
Qed.

Lemma not_na (u : str) :
  startsWith u "http" = true \/ startsWith u "HTTP" = true -> u <> "n/a".
Proof. intros [H | H] ->; discriminate. Qed.

(** X5. [connect global] returns, and after one that changed the
    configuration [gl_path] holds a URL that starts with [http] or
    [HTTP], and [enum] and [ld global] run the enumerator and the lister
    on this very URL, from depth 0, with the bound read from
    [max_enum_depth] and [max_list_depth]; a bound that [std::stoi] cannot
    read ends the command by its exception, and so does an exception of
    the walk. *)
Theorem connect_then_enum (url : str) (fuel : nat) (sh : Shell) :
  exists sh',
    cmdConnect Sy ("global " ++ url) sh = Finished sh'
    /\ (config sh' <> config sh ->
        exists u,
          config sh' !! ("gl_path" : str) = Some u
          /\ (startsWith u "http" = true \/ startsWith u "HTTP" = true)
          /\ cmdEnum E fuel sh'
             = (let '(setting, sh1) := read_config "max_enum_depth" sh' in
                match stoi setting with
                | None => Thrown sh1
                | Some limit =>
                    match enumerateDirectories E (settings (config sh1)) fuel u 0 limit
                            (world sh1) with
                    | Some (Returns w) => Finished (MkShell (config sh1) w (io sh1))
                    | Some (Throws w) => Thrown (MkShell (config sh1) w (io sh1))
                    | None => Unfinished
                    end
                end)
          /\ cmdListGlobal E fuel sh'
             = (let '(setting, sh1) := read_config "max_list_depth" sh' in
                match stoi setting with
                | None => Thrown sh1
                | Some limit =>
                    match listGlobalRecursive E (settings (config sh1)) fuel u 0 limit
                            (world sh1) with
                    | Some (Returns w) => Finished (MkShell (config sh1) w (io sh1))
                    | Some (Throws w) => Thrown (MkShell (config sh1) w (io sh1))
                    | None => Unfinished
                    end
                end)).
Proof.
  destruct (cmdConnect_global_target url sh) as (sh' & Hsh' & Htarget).
  exists sh'. split; [exact Hsh'|]. intros Hchanged.
  destruct Htarget as [Hsame | (u & Hu & Hhttp)]; [contradiction|].
  exists u.
  assert (config sh' !! ("gl_path" : str) = Some u) as Hget
    by (rewrite Hu; apply lookup_insert_eq).
  split; [exact Hget|]. split; [exact Hhttp|]. split.
  - apply cmdEnum_connected; [exact Hget | apply not_na, Hhttp].
  - apply cmdListGlobal_connected; [exact Hget | apply not_na, Hhttp].
Qed.

(** X6. While [gl_path] is [n/a], [enum] and [ld global] only write the
    not-connected message to [std::cerr]: no request is made, nothing is
    printed on [std::cout], the configuration stays as it is. *)
Theorem commands_need_target (fuel : nat) (sh : Shell) :
  config sh !! ("gl_path" : str) = Some ("n/a" : str) ->
  cmdEnum E fuel sh = Finished (cerr not_connected sh)
  /\ cmdListGlobal E fuel sh = Finished (cerr not_connected sh)
  /\ world (cerr not_connected sh) = world sh
  /\ config (cerr not_connected sh) = config sh.
Proof.
  intros H. unfold cmdEnum, cmdListGlobal.
  rewrite !(read_config_present _ _ _ H). repeat split.
Qed.

(** X7. [enum] with a target and with [max_enum_depth] set. A setting that
    [std::stoi] cannot read ends the command by the exception, before any
    output or request. A negative bound makes the command return at once
    with the shell unchanged. A bound [limit >= 0] makes the command
    return for every number of rounds above [limit + 1], in a world that
    extends the one before (trace, visited set and baseline cache only
    grow), with the configuration and [std::cerr] untouched. *)
Theorem cmdEnum_depth_setting (fuel : nat) (u setting : str) (sh : Shell) :
  config sh !! ("gl_path" : str) = Some u -> u <> "n/a" ->
  config sh !! ("max_enum_depth" : str) = Some setting ->
  (stoi setting = None -> cmdEnum E fuel sh = Thrown sh)
  /\ (forall limit, stoi setting = Some limit -> (limit < 0)%Z ->
        cmdEnum E (S fuel) sh = Finished sh)
  /\ (forall limit, stoi setting = Some limit -> (0 <= limit)%Z ->
        exists w, cmdEnum E (S (S (Z.to_nat limit)) + fuel) sh
                  = Finished (MkShell (config sh) w (io sh))
                  /\ extends (world sh) w).
Proof.
  intros Hu Hne Hd. split; [|split].
  - intros Hs. rewrite (cmdEnum_connected _ _ _ Hu Hne).
    rewrite (read_config_present _ _ _ Hd), Hs. reflexivity.
  - intros limit Hs Hneg. rewrite (cmdEnum_connected _ _ _ Hu Hne).
    rewrite (read_config_present _ _ _ Hd), Hs.
    rewrite (enumerateDirectories_depth_exceeded E _ _ _ _ _ limit);
      [destruct sh; reflexivity | | exact Hneg].
    apply (depth_limit_idem _ (-1)). unfold depth_limit, settings, config_at.
    cbn [Z.eqb max_enum_depth]. rewrite Hd. exact Hs.
  - intros limit Hs Hpos. rewrite (cmdEnum_connected _ _ _ Hu Hne).
    rewrite (read_config_present _ _ _ Hd), Hs.
    assert (depth_limit (max_enum_depth (settings (config sh))) limit = Some limit) as Hl.
    { apply (depth_limit_idem _ (-1)). unfold depth_limit, settings, config_at.
      cbn [Z.eqb max_enum_depth]. rewrite Hd. exact Hs. }
    destruct (enumerateDirectories_total E (settings (config sh))
                (S (S (Z.to_nat limit)) + fuel) u 0 limit limit (world sh) Hl ltac:(lia))
      as [e He].
    rewrite He. destruct e as [w | w].
    + exists w. split; [reflexivity|].
      apply (enumerateDirectories_extends _ _ _ _ _ _ _ _ He).
    + apply (enumerateDirectories_throws _ _ _ _ _ _ limit _ _ Hl) in He
        as (_ & _ & Hind & _).
      discriminate Hind.
Qed.

End Targets.

(** ** The history file *)

Lemma sanitize_map (s : str) :
  sanitize s = map (fun c => if unsafe_char c then "_"%char else c) s.
Proof.
  unfold sanitize, replace_char. cbv zeta. rewrite !map_map.
  apply map_ext. intros c. unfold unsafe_char. cbn [existsb].
  repeat match goal with
         | |- context [ascii_eqb c ?x] =>
             let H := fresh "H" in
             destruct (ascii_eqb c x) eqn:H; [reflexivity|]
         end.
  reflexivity.
Qed.

Lemma unsafe_underscore : unsafe_char "_" = false.
Proof. reflexivity. Qed.

Lemma sanitize_no_unsafe (s : str) :
  Forall (fun c => unsafe_char c = false) (sanitize s).
Proof.
  rewrite sanitize_map. apply Forall_forall. intros c Hin.
  apply list_elem_of_In, in_map_iff in Hin as (d & <- & _).
  destruct (unsafe_char d) eqn:Hd; [reflexivity | exact Hd].
Qed.

(** X8. The name of a history file. [sanitize] replaces each of the eight
    characters / \ : ? * < > | by an underscore and keeps every other
    character in its place: the result has the length of the input and
    none of the eight characters. Sanitizing twice changes nothing more,
    and a text without these characters is returned as it is. *)
Theorem sanitize_safe (s : str) :
  sanitize s = map (fun c => if unsafe_char c then "_"%char else c) s
  /\ length (sanitize s) = length s
  /\ Forall (fun c => unsafe_char c = false) (sanitize s)
  /\ sanitize (sanitize s) = sanitize s
  /\ (Forall (fun c => unsafe_char c = false) s -> sanitize s = s).
Proof.
  pose proof (sanitize_no_unsafe s) as Hsafe.
  assert (forall t, Forall (fun c => unsafe_char c = false) t -> sanitize t = t) as Hid.
  { intros t Ht. rewrite sanitize_map. induction Ht as [|c t Hc _ IH]; [reflexivity|].
    simpl. rewrite Hc, IH. reflexivity. }
  split; [apply sanitize_map|]. split; [rewrite sanitize_map; apply length_map|].
  split; [exact Hsafe|]. split; [apply Hid, Hsafe | apply Hid].
Qed.

Lemma unsafe_slash (c : ascii) : unsafe_char c = false -> c <> "/"%char /\ c <> "\"%char.
Proof. intros H; split; intros ->; discriminate. Qed.

Lemma history_file_safe (type path : str) :
  type = "local" \/ type = "global" ->
  startsWith (history_file type path) ".tcli_history_" = true
  /\ ~ In "/"%char (history_file type path)
  /\ ~ In "\"%char (history_file type path).
Proof.
  intros Htype. split; [reflexivity|].
  pose proof (sanitize_no_unsafe path) as Hsafe.
  assert (forall c, In c (history_file type path) -> c <> "/"%char /\ c <> "\"%char) as H.
  { intros c. unfold history_file. rewrite !in_app_iff. intros [Hc | [Hc | [Hc | Hc]]].
    - simpl in Hc. split; intros ->; intuition discriminate.
    - destruct Htype as [-> | ->]; simpl in Hc; split; intros ->; intuition discriminate.
    - simpl in Hc. split; intros ->; intuition discriminate.
    - apply unsafe_slash. rewrite Forall_forall in Hsafe. apply Hsafe.
      apply list_elem_of_In. exact Hc. }
  split; intros Hin; apply H in Hin; tauto.
Qed.

Section Break.

Context (E : Env) (Sy : Sys).

Lemma removeHistoryFor_frame (type path : str) (sh : Shell) :
  type = "local" \/ type = "global" ->
  match removeHistoryFor Sy type path sh with
  | Finished sh' =>
      sys_exists Sy (io sh) (history_file type path) <> None
      /\ config sh' = config sh
      /\ exists evs, io sh' = io sh ++ evs /\ Forall history_call evs
  | Thrown sh' =>
      sys_exists Sy (io sh) (history_file type path) = None
      /\ sh' = io_log (IoExists (history_file type path) None) sh
  | Unfinished => False
  end.
Proof.
  intros Htype. unfold removeHistoryFor, fs_exists. cbv zeta.
  pose proof (history_file_safe type path Htype) as Hsafe.
  destruct (sys_exists Sy (io sh) (history_file type path)) as [[|]|].
  - cbn [io io_log]. destruct (sys_remove Sy _ _).
    + split; [discriminate|]. split; [reflexivity|]. eexists. cbn [io cout io_log].
      rewrite <- app_assoc. split; [reflexivity|].
      repeat constructor; apply Hsafe.
    + split; [discriminate|]. split; [reflexivity|]. eexists. cbn [io cerr io_log].
      rewrite <- !app_assoc. split; [reflexivity|].
      repeat constructor; apply Hsafe.
  - split; [discriminate|]. split; [reflexivity|]. eexists. split; [reflexivity|].
    repeat constructor; apply Hsafe.
  - split; reflexivity.
Qed.

Lemma read_config_value (key : str) (sh : Shell) :
  io (snd (read_config key sh)) = io sh
  /\ world (snd (read_config key sh)) = world sh
  /\ config (snd (read_config key sh)) !! key = Some (fst (read_config key sh))
  /\ (forall k, k <> key ->
        config (snd (read_config key sh)) !! k = config sh !! k)
  /\ (fst (read_config key sh) = [] \/ config sh !! key = Some (fst (read_config key sh))).
Proof.
  unfold read_config, config_at. destruct (config sh !! key) as [v|] eqn:Hk;
    cbn [fst snd io world config set_config].
  - repeat split; auto.
  - repeat split; auto.
    + apply lookup_insert_eq.
    + intros k Hne. apply lookup_insert_ne. congruence.
Qed.

Lemma read_config_fst (key : str) (sh : Shell) :
  fst (read_config key sh) = fst (config_at key (config sh)).
Proof. unfold read_config. destruct (config_at key (config sh)). reflexivity. Qed.

(** What [break] does for one kind of target. *)
Lemma break_body (type k t1 t2 : str) (sh0 : Shell) :
  type = "local" \/ type = "global" ->
  let target := fst (config_at k (config sh0)) in
  let histFile := history_file type target in
  match (let '(v, sh1) := read_config k sh0 in
         if str_eqb v "n/a" then Finished (cerr t1 sh1)
         else
           let '(p, sh2) := read_config k sh1 in
           match removeHistoryFor Sy type p sh2 with
           | Finished sh => Finished (cout t2 (assign k "n/a" sh))
           | ending => ending
           end) with
  | Finished sh3 =>
      (target = "n/a" \/ sys_exists Sy (io sh0) histFile <> None)
      /\ config sh3 !! k = Some ("n/a" : str)
      /\ (forall k', k' <> k -> config sh3 !! k' = config sh0 !! k')
      /\ (exists evs, io sh3 = io sh0 ++ evs /\ Forall history_call evs)
  | Thrown sh3 =>
      target <> "n/a"
      /\ sys_exists Sy (io sh0) histFile = None
      /\ sh3 = io_log (IoExists histFile None) (snd (read_config k sh0))
  | Unfinished => False
  end.
Proof.
  intros Htype target histFile. subst histFile target.
  rewrite <- (read_config_fst k sh0).
  destruct (read_config_value k sh0) as (Hio & _ & Hget & Hother & _).
  destruct (read_config k sh0) as [v sh1]. cbn [fst snd] in *.
  destruct (str_eqb v "n/a") eqn:Hv.
  - apply str_eqb_true in Hv. subst v. cbn [config cerr io_log io].
    split; [auto|]. split; [exact Hget|]. split; [exact Hother|].
    exists [IoErr t1]. rewrite Hio. split; [reflexivity|]. repeat constructor.
  - apply str_eqb_false in Hv.
    rewrite (read_config_present _ _ _ Hget).
    pose proof (removeHistoryFor_frame type v sh1 Htype) as Hrem.
    rewrite Hio in Hrem.
    destruct (removeHistoryFor Sy type v sh1) as [sh2 | sh2 |]; [| |contradiction].
    + destruct Hrem as (Hex & Hc & evs & Hevs & Hall).
      cbn [config cout assign set_config io].
      split; [auto|]. split; [apply lookup_insert_eq|]. split.
      * intros k' Hne. rewrite lookup_insert_ne by congruence.
        rewrite Hc, Hother by exact Hne. reflexivity.
      * exists evs. rewrite Hevs. auto.
    + destruct Hrem as [Hex ->]. auto.
Qed.

Lemma cmdBreak_valid (args : str) (sh : Shell) :
  lower args = "local" \/ lower args = "global" ->
  let key := if str_eqb (lower args) "local" then ("lc_path" : str)
             else ("gl_path" : str) in
  let type := if str_eqb (lower args) "local" then ("local" : str)
              else ("global" : str) in
  let target := fst (config_at key (config sh)) in
  let histFile := history_file type target in
  match cmdBreak Sy args sh with
  | Finished sh' =>
      (target = "n/a" \/ sys_exists Sy (io sh) histFile <> None)
      /\ config sh' !! key = Some ("n/a" : str)
      /\ (forall k, k <> key -> config sh' !! k = config sh !! k)
      /\ (exists evs, io sh' = io sh ++ evs /\ Forall history_call evs)
  | Thrown sh' =>
      target <> "n/a"
      /\ sys_exists Sy (io sh) histFile = None
      /\ sh' = io_log (IoExists histFile None) (snd (read_config key sh))
  | Unfinished => False
  end.
Proof.
  intros Harg. unfold cmdBreak. cbv zeta. destruct Harg as [-> | ->].
  - apply (break_body "local" "lc_path"). auto.
  - apply (break_body "global" "gl_path"). auto.
Qed.

Lemma cmdBreak_other (args : str) (sh : Shell) :
  lower args <> "local" -> lower args <> "global" ->
  exists text, cmdBreak Sy args sh = Finished (cerr text sh).
Proof.
  intros Hl Hg. unfold cmdBreak.
  apply str_eqb_false in Hl, Hg. cbv zeta. rewrite Hl, Hg. eexists. reflexivity.
Qed.

Lemma cmdBreak_again (args : str) (sh : Shell) :
  lower args = "local" \/ lower args = "global" ->
  config sh !! (if str_eqb (lower args) "local" then ("lc_path" : str)
                else ("gl_path" : str)) = Some ("n/a" : str) ->
  exists text, cmdBreak Sy args sh = Finished (cerr text sh).
Proof.
  intros Harg Hget. unfold cmdBreak. cbv zeta.
  destruct Harg as [Harg | Harg]; rewrite Harg in *.
  - change (str_eqb "local" "local") with true in *. cbv iota in *.
    rewrite (read_config_present _ _ _ Hget). eexists. reflexivity.
  - change (str_eqb "global" "local") with false in *.
    change (str_eqb "global" "global") with true in *. cbv iota in *.
    rewrite (read_config_present _ _ _ Hget). eexists. reflexivity.
Qed.

(** X9. [break local] and [break global], in any letter case. When the
    command returns, it has set [lc_path] or [gl_path] to [n/a] and left
    every other entry of the configuration as it was; besides messages,
    all it did on the machine was to look for, and remove, a history file
    of the working directory; and a second [break] of the same kind right
    after only reports that nothing is connected. The command does not
    return exactly when a target is connected and [fs::exists] throws on
    the name of its history file: the exception leaves the command before
    the target is cleared, with the target and all other entries as they
    were. Any other argument gives the usage message and changes
    nothing. *)
Theorem cmdBreak_clears_target (args : str) (sh : Shell) :
  let key := if str_eqb (lower args) "local" then ("lc_path" : str)
             else ("gl_path" : str) in
  let type := if str_eqb (lower args) "local" then ("local" : str)
              else ("global" : str) in
  let target := fst (config_at key (config sh)) in
  let histFile := history_file type target in
  (lower args = "local" \/ lower args = "global" ->
     (forall sh', cmdBreak Sy args sh = Finished sh' ->
        config sh' !! key = Some ("n/a" : str)
        /\ (forall k, k <> key -> config sh' !! k = config sh !! k)
        /\ (exists evs, io sh' = io sh ++ evs /\ Forall history_call evs)
        /\ (exists text, cmdBreak Sy args sh' = Finished (cerr text sh')))
     /\ (forall sh', cmdBreak Sy args sh = Thrown sh' <->
           target <> "n/a"
           /\ sys_exists Sy (io sh) histFile = None
           /\ sh' = io_log (IoExists histFile None) (snd (read_config key sh)))
     /\ (forall sh', cmdBreak Sy args sh = Thrown sh' ->
           config sh' !! key = Some target
           /\ (forall k, k <> key -> config sh' !! k = config sh !! k)
           /\ world sh' = world sh)
     /\ ((exists sh', cmdBreak Sy args sh = Finished sh') <->
         target = "n/a" \/ sys_exists Sy (io sh) histFile <> None)
     /\ cmdBreak Sy args sh <> Unfinished)
  /\ (lower args <> "local" -> lower args <> "global" ->
      exists text, cmdBreak Sy args sh = Finished (cerr text sh)).
Proof.
  intros key type target histFile. split; [|apply cmdBreak_other].
  intros Harg.
  pose proof (cmdBreak_valid args sh Harg) as Hv.
  fold key type target histFile in Hv.
  assert (forall sh', cmdBreak Sy args sh = Thrown sh' ->
            target <> "n/a" /\ sys_exists Sy (io sh) histFile = None
            /\ sh' = io_log (IoExists histFile None) (snd (read_config key sh)))
    as Hthrown by (intros sh' H; rewrite H in Hv; exact Hv).
  split.
  { intros sh' H. rewrite H in Hv. destruct Hv as (_ & Hget & Hother & Hio).
    split; [exact Hget|]. split; [exact Hother|]. split; [exact Hio|].
    apply (cmdBreak_again args sh' Harg Hget). }
  split.
  { intros sh'. split; [apply Hthrown|]. intros (Hna & Hex & ->).
    destruct (cmdBreak Sy args sh) as [sh1 | sh1 |]; [| |contradiction].
    - destruct Hv as ([Hv | Hv] & _); contradiction.
    - destruct Hv as (_ & _ & ->). reflexivity. }
  split.
  { intros sh' H. apply Hthrown in H as (_ & _ & ->).
    destruct (read_config_value key sh) as (_ & Hw & Hget & Hother & _).
    cbn [config world io_log]. rewrite read_config_fst in Hget. auto. }
  split.
  { split.
    - intros [sh' H]. rewrite H in Hv. apply Hv.
    - intros Hcan. destruct (cmdBreak Sy args sh) as [sh1 | sh1 |]; [eauto | | contradiction].
      destruct Hv as (Hna & Hex & _). destruct Hcan; contradiction. }
  intros H. rewrite H in Hv. exact Hv.
Qed.

(** X10. After a [break global] that returned, [enum] and [ld global]
    make no request: both answer with the not-connected message. A
    [break global] that does not return was left by the exception of
    [fs::exists], which nothing catches. *)
Theorem break_then_enum (args : str) (fuel : nat) (sh : Shell) :
  lower args = "global" ->
  (exists sh',
      cmdBreak Sy args sh = Finished sh'
      /\ cmdEnum E fuel sh' = Finished (cerr not_connected sh')
      /\ cmdListGlobal E fuel sh' = Finished (cerr not_connected sh'))
  \/ (exists sh',
        cmdBreak Sy args sh = Thrown sh'
        /\ sys_exists Sy (io sh)
             (history_file "global" (fst (config_at "gl_path" (config sh)))) = None).
Proof.
  intros Harg.
  pose proof (cmdBreak_valid args sh (or_intror Harg)) as Hv.
  rewrite Harg in Hv. change (str_eqb "global" "local") with false in Hv.
  cbv iota zeta in Hv.
  destruct (cmdBreak Sy args sh) as [sh' | sh' |]; [| |contradiction].
  - left. exists sh'. destruct Hv as (_ & Hget & _). split; [reflexivity|].
    unfold cmdEnum, cmdListGlobal. rewrite !(read_config_present _ _ _ Hget).
    split; reflexivity.
  - right. exists sh'. destruct Hv as (_ & Hex & _). auto.
Qed.

End Break.

(** ** The arguments of [set] *)

Lemma extract_word_first (lead t rest : str) :
  white lead -> word t ->
  (rest = [] \/ exists c r, rest = c :: r /\ is_space c = true) ->
  extract_word (lead ++ t ++ rest) = (t, rest).
Proof.
  intros Hl Ht Hr. unfold extract_word. rewrite extract_word_at by assumption.
  reflexivity.
Qed.

Lemma skip_ws_stop (gap : str) (c : ascii) (r : str) :
  white gap -> is_space c = false -> skip_ws (gap ++ c :: r) = c :: r.
Proof.
  intros Hg Hc. rewrite skip_ws_white by exact Hg. simpl. rewrite Hc. reflexivity.
Qed.

Lemma quote_test (q : ascii) :
  ascii_eqb q dquote || ascii_eqb q "'" = true <-> is_quote q.
Proof.
  unfold is_quote. rewrite orb_true_iff, !ascii_eqb_true. reflexivity.
Qed.

Lemma set_arguments_quoted (lead key gap value rest : str) (q : ascii) :
  white lead -> word key -> white gap -> gap <> [] ->
  is_quote q -> ~ In q value ->
  set_arguments (lead ++ key ++ gap ++ q :: value ++ q :: rest)
  = (key, value, fst (extract_word rest)).
Proof.
  intros Hl Hk Hg Hne Hq Hv. unfold set_arguments.
  destruct (gap_head gap (q :: value ++ q :: rest) Hg Hne) as (c & r & Hc & Hsp).
  rewrite extract_word_first; [|assumption|assumption|right; eauto].
  assert (is_space q = false) as Hqs by (destruct Hq as [-> | ->]; reflexivity).
  rewrite skip_ws_stop by assumption.
  apply quote_test in Hq. rewrite Hq.
  rewrite read_until_found by exact Hv.
  destruct (extract_word rest) as [p r']. reflexivity.
Qed.

Lemma set_arguments_open_quote (lead key gap value : str) (q : ascii) :
  white lead -> word key -> white gap -> gap <> [] ->
  is_quote q -> ~ In q value ->
  set_arguments (lead ++ key ++ gap ++ q :: value) = (key, value, []).
Proof.
  intros Hl Hk Hg Hne Hq Hv. unfold set_arguments.
  destruct (gap_head gap (q :: value) Hg Hne) as (c & r & Hc & Hsp).
  rewrite extract_word_first; [|assumption|assumption|right; eauto].
  assert (is_space q = false) as Hqs by (destruct Hq as [-> | ->]; reflexivity).
  rewrite skip_ws_stop by assumption.
  apply quote_test in Hq. rewrite Hq.
  rewrite read_until_absent by exact Hv. reflexivity.
Qed.

Lemma set_arguments_plain (lead key gap value rest : str) :
  white lead -> word key -> white gap -> gap <> [] -> word value ->
  (forall c r, value = c :: r -> ~ is_quote c) ->
  (rest = [] \/ exists c r, rest = c :: r /\ is_space c = true) ->
  set_arguments (lead ++ key ++ gap ++ value ++ rest)
  = (key, value, fst (extract_word rest)).
Proof.
  intros Hl Hk Hg Hne Hv Hnq Hrest. unfold set_arguments.
  destruct (gap_head gap (value ++ rest) Hg Hne) as (c & r & Hc & Hsp).
  rewrite extract_word_first; [|assumption|assumption|right; eauto].
  destruct Hv as [Hvne Hv]. destruct value as [|v0 value]; [congruence|].
  pose proof Hv as Hv'. apply Forall_cons in Hv' as [Hv0 _].
  cbn [app]. rewrite skip_ws_stop by assumption.
  destruct (ascii_eqb v0 dquote || ascii_eqb v0 "'") eqn:Hq.
  { apply quote_test in Hq. exfalso. exact (Hnq v0 value eq_refl Hq). }
  change (v0 :: value ++ rest) with ([] ++ (v0 :: value) ++ rest).
  rewrite extract_word_first; [|constructor|split; [discriminate | exact Hv]|exact Hrest].
  destruct (extract_word rest) as [p r']. reflexivity.
Qed.

Section SetCommand.

Context (Sy : Sys).

Lemma cmdSet_unfold (args : str) (sh : Shell) :
  cmdSet Sy args sh
  = let '(key, value, persist) := set_arguments args in
    if is_empty key || is_empty value || is_empty persist then cerr set_usage sh
    else if unknown_key (lower key) sh then
      cerr (COLOR_GRAY ++ "Unknown config key: " ++ lower key ++ COLOR_RESET ++ NL) sh
    else
      let sh1 := assign (lower key) value sh in
      if persists (lower persist) then
        cout (ok_tag ++ " '" ++ lower key ++ "' set to '" ++ value ++ "' (persisted)." ++ NL)
             (saveConfig Sy "TCLI" sh1)
      else
        cout (ok_tag ++ " '" ++ lower key ++ "' set to '" ++ value ++ "' (temporary)." ++ NL)
             sh1.
Proof. reflexivity. Qed.

Lemma saveConfig_frame (filename : str) (sh : Shell) :
  config (saveConfig Sy filename sh) = config sh
  /\ world (saveConfig Sy filename sh) = world sh.
Proof. unfold saveConfig. destruct (sys_writable Sy _ _); split; reflexivity. Qed.

Lemma dom_assign_known (key value : str) (sh : Shell) :
  unknown_key key sh = false ->
  dom (config (assign key value sh)) = dom (config sh).
Proof.
  unfold unknown_key. destruct (config sh !! key) as [v|] eqn:Hk; [|discriminate].
  intros _. cbn [config assign set_config]. rewrite dom_insert_L.
  apply subseteq_union_1_L. apply singleton_subseteq_l.
  apply elem_of_dom. eauto.
Qed.

Lemma cmdSet_dom (args : str) (sh : Shell) :
  dom (config (cmdSet Sy args sh)) = dom (config sh).
Proof.
  rewrite cmdSet_unfold. destruct (set_arguments args) as [[key value] persist].
  destruct (is_empty key || is_empty value || is_empty persist); [reflexivity|].
  destruct (unknown_key (lower key) sh) eqn:Hk; [reflexivity|].
  destruct (persists (lower persist)); cbn [config cout].
  - rewrite (proj1 (saveConfig_frame _ _)). apply dom_assign_known, Hk.
  - apply dom_assign_known, Hk.
Qed.

Lemma ask_frame (sh : Shell) :
  config (snd (ask Sy sh)) = config sh.
Proof. reflexivity. Qed.

Lemma fold_cout_config {A} (f : A -> str) (l : list A) (sh : Shell) :
  config (fold_left (fun sh x => cout (f x) sh) l sh) = config sh.
Proof. revert sh. induction l as [|x l IH]; intros sh; [reflexivity|]. simpl. rewrite IH. reflexivity. Qed.

Lemma cmdConfig_dom (args : str) (sh : Shell) :
  dom (config (cmdConfig Sy args sh)) = dom (config sh).
Proof.
  unfold cmdConfig. destruct (extract_word args) as [subcmd iss].
  destruct (str_eqb subcmd "show").
  { rewrite fold_cout_config. reflexivity. }
  destruct (str_eqb subcmd "set"); [|reflexivity].
  destruct (extract_word iss) as [key iss1]. destruct (extract_word iss1) as [value iss2].
  destruct (is_empty key || is_empty value); [reflexivity|].
  destruct (unknown_key (lower key) sh) eqn:Hk; [reflexivity|].
  cbv zeta. destruct (ask Sy _) as [answer sh1] eqn:Hask.
  assert (config sh1 = config sh) as Hc.
  { pose proof (ask_frame (cout (COLOR_YELLOW ++ "Are you sure you want to change '"
       ++ lower key ++ "' to '" ++ value ++ "'? (y/n): " ++ COLOR_RESET) sh)) as H.
    rewrite Hask in H. exact H. }
  destruct (negb (said_yes answer)); cbn [config cout].
  - rewrite Hc. reflexivity.
  - rewrite (proj1 (saveConfig_frame _ _)).
    rewrite dom_assign_known; [rewrite Hc; reflexivity|].
    unfold unknown_key in *. rewrite Hc. exact Hk.
Qed.

Lemma config_line_dom (line : str) (c : gmap str str) :
  dom c ⊆ dom (config_line line c).
Proof.
  unfold config_line. destruct (find_char "=" line); [|reflexivity].
  rewrite dom_insert_L. apply union_subseteq_r.
Qed.

Lemma load_loop_dom (n : nat) :
  forall text c, dom c ⊆ dom (load_loop n text c).
Proof.
  induction n as [|n IH]; intros text c; [reflexivity|].
  rewrite load_loop_S. destruct (getline "010" text) as [[line rest]|]; [|reflexivity].
  etransitivity; [apply config_line_dom | apply IH].
Qed.

Lemma read_config_dom (key : str) (sh : Shell) :
  dom (config sh) ⊆ dom (config (snd (read_config key sh))).
Proof.
  unfold read_config, config_at. destruct (config sh !! key); cbn [snd config set_config].
  - reflexivity.
  - rewrite dom_insert_L. apply union_subseteq_r.
Qed.

Lemma assign_dom (key value : str) (sh : Shell) :
  dom (config sh) ⊆ dom (config (assign key value sh)).
Proof. cbn [config assign set_config]. rewrite dom_insert_L. apply union_subseteq_r. Qed.

Lemma cmdConnect_dom (args : str) (sh sh' : Shell) :
  cmdConnect Sy args sh = Finished sh' \/ cmdConnect Sy args sh = Thrown sh' ->
  dom (config sh) ⊆ dom (config sh').
Proof.
  unfold cmdConnect. destruct (startsWith args "local ").
  { unfold is_existing_directory, fs_exists, fs_is_directory. cbv zeta.
    destruct (sys_exists Sy _ _) as [[|]|]; [destruct (sys_is_directory Sy _ _) as [[|]|]| |];
      intros [[= <-] | [= <-]]; cbn [config cout cerr io_log]; try reflexivity.
    apply (assign_dom _ _ (io_log _ (io_log _ sh))). }
  destruct (startsWith args "global ");
    [|intros [[= <-] | [=]]; reflexivity].
  cbv zeta. destruct (regex_match _ _).
  { intros [[= <-] | [=]]. cbn [config cout]. apply assign_dom. }
  destruct (_ || _); intros [[= <-] | [=]]; [|reflexivity].
  cbn [config cout]. apply assign_dom.
Qed.

Lemma cmdBreak_dom (args : str) (sh sh' : Shell) :
  cmdBreak Sy args sh = Finished sh' \/ cmdBreak Sy args sh = Thrown sh' ->
  dom (config sh) ⊆ dom (config sh').
Proof.
  intros Hend.
  assert (forall key : str,
             (forall k, k <> key -> config sh' !! k = config sh !! k) ->
             is_Some (config sh' !! key) -> dom (config sh) ⊆ dom (config sh')) as Hsub.
  { intros key Hrest Hget k Hk. apply elem_of_dom. apply elem_of_dom in Hk.
    destruct (decide (k = key)) as [-> | Hne]; [exact Hget|].
    rewrite Hrest by exact Hne. exact Hk. }
  destruct (decide (lower args = "local" \/ lower args = "global")) as [Harg | Hno].
  - pose proof (cmdBreak_valid Sy args sh Harg) as Hv. cbv zeta in Hv.
    destruct Hend as [H | H]; rewrite H in Hv.
    + destruct Hv as (_ & Hget & Hrest & _). eapply Hsub; [exact Hrest | eauto].
    + destruct Hv as (_ & _ & ->). cbn [config io_log].
      destruct (read_config_value
                  (if str_eqb (lower args) "local" then ("lc_path" : str)
                   else ("gl_path" : str)) sh) as (_ & _ & Hget & Hrest & _).
      eapply Hsub; [exact Hrest | eauto].
  - destruct (cmdBreak_other Sy args sh) as [text Ht]; [tauto..|].
    rewrite Ht in Hend. destruct Hend as [[= <-] | [=]]. reflexivity.
Qed.

(** X11. No command removes a key of the configuration. [set] and [config]
    keep the set of keys as it is: they refuse a key that is not there.
    [connect], [break] and [loadConfig] can only add keys, [connect] and
    [break] also when an exception of the file system ends them.
    [saveConfig] and [tcli setup] leave the whole map unchanged. *)
Theorem config_keys_stable (args : str) (sh : Shell) :
  dom (config (cmdSet Sy args sh)) = dom (config sh)
  /\ dom (config (cmdConfig Sy args sh)) = dom (config sh)
  /\ (forall sh',
        cmdConnect Sy args sh = Finished sh' \/ cmdConnect Sy args sh = Thrown sh' ->
        dom (config sh) ⊆ dom (config sh'))
  /\ (forall sh',
        cmdBreak Sy args sh = Finished sh' \/ cmdBreak Sy args sh = Thrown sh' ->
        dom (config sh) ⊆ dom (config sh'))
  /\ cmdConnect Sy args sh <> Unfinished
  /\ cmdBreak Sy args sh <> Unfinished
  /\ dom (config sh) ⊆ dom (config (loadConfig Sy args sh))
  /\ config (saveConfig Sy args sh) = config sh
  /\ config (cmdSetup Sy sh) = config sh.
Proof.
  split; [apply cmdSet_dom|]. split; [apply cmdConfig_dom|].
  split; [intros sh'; apply cmdConnect_dom|]. split; [intros sh'; apply cmdBreak_dom|].
  split.
  { unfold cmdConnect. cbv zeta.
    destruct (startsWith args "local ").
    { destruct (is_existing_directory Sy _ sh) as [[[|]|] sh1]; discriminate. }
    destruct (startsWith args "global "); [|discriminate].
    destruct (regex_match _ _); [discriminate|]. destruct (_ || _); discriminate. }
  split.
  { destruct (decide (lower args = "local" \/ lower args = "global")) as [Harg | Hno].
    - pose proof (cmdBreak_valid Sy args sh Harg) as Hv. cbv zeta in Hv.
      intros H. rewrite H in Hv. exact Hv.
    - destruct (cmdBreak_other Sy args sh) as [text Ht]; [tauto..|].
      rewrite Ht. discriminate. }
  split; [|split].
  - unfold loadConfig. destruct (sys_read Sy _ _); [|reflexivity].
    cbn [config set_config io_log]. apply load_loop_dom.
  - apply saveConfig_frame.
  - unfold cmdSetup. cbv zeta. destruct (ask Sy _) as [answer sh1] eqn:Hask.
    assert (config sh1 = config sh) as Hc.
    { pose proof (ask_frame (cout (COLOR_YELLOW
         ++ "Do you want to create a new TCLI config file? (y/n): " ++ COLOR_RESET) sh)) as H.
      rewrite Hask in H. exact H. }
    destruct (said_yes answer); cbn [config cout]; [|exact Hc].
    rewrite (proj1 (saveConfig_frame _ _)). exact Hc.
Qed.

(** X12. [set key Q value Q flag], where Q is a double or a single quote,
    the parts are set apart by white space, the value holds no Q but may
    hold white space, and the lower-cased key is in the configuration:
    the entry of the lower-cased key becomes the text between the quotes.
    With a flag [true], [1] or [yes], in any letter case, the
    configuration is then written to the file [TCLI]; when that file
    cannot be opened the failure is reported and the entry stays set.
    With any other flag nothing is written. When the closing quote is
    missing, the usage message is shown and nothing is set. *)
Theorem cmdSet_quoted_value (lead key gap value gap2 flag rest old : str) (q : ascii)
    (sh : Shell) :
  white lead -> word key -> white gap -> gap <> [] ->
  is_quote q -> ~ In q value -> value <> [] ->
  white gap2 -> word flag ->
  (rest = [] \/ exists c r, rest = c :: r /\ is_space c = true) ->
  config sh !! lower key = Some old ->
  let sh' := cmdSet Sy (lead ++ key ++ gap ++ q :: value ++ q :: gap2 ++ flag ++ rest) sh in
  config sh' = <[lower key := value]> (config sh)
  /\ io sh'
     = (if persists (lower flag) then
          if sys_writable Sy (io sh) "TCLI" then
            io sh ++ [IoOpenWrite "TCLI" (Some (config_text (config sh')))]
          else
            io sh ++ [IoOpenWrite "TCLI" None;
                      IoErr (fail_tag ++ " Could not write config file." ++ NL)]
        else io sh)
  /\ cmdSet Sy (lead ++ key ++ gap ++ q :: value) sh = cerr set_usage sh.
Proof.
  intros Hl Hk Hg Hgne Hq Hv Hvne Hg2 Hf Hrest Hold sh'.
  assert (set_arguments (lead ++ key ++ gap ++ q :: value ++ q :: gap2 ++ flag ++ rest)
          = (key, value, flag)) as Hargs.
  { rewrite set_arguments_quoted by assumption.
    rewrite extract_word_first by assumption. reflexivity. }
  assert (is_empty key = false) as Hke by (destruct Hk as [? _]; destruct key; [congruence | reflexivity]).
  assert (is_empty value = false) as Hve by (destruct value; [congruence | reflexivity]).
  assert (is_empty flag = false) as Hfe by (destruct Hf as [? _]; destruct flag; [congruence | reflexivity]).
  assert (unknown_key (lower key) sh = false) as Hknown
    by (unfold unknown_key; rewrite Hold; reflexivity).
  subst sh'. rewrite !cmdSet_unfold, Hargs.
  rewrite set_arguments_open_quote by assumption.
  rewrite Hke, Hve, Hfe, Hknown. cbn [orb is_empty]. cbv zeta.
  split; [|split; [|reflexivity]].
  - destruct (persists (lower flag)); cbn [config cout]; [|reflexivity].
    rewrite (proj1 (saveConfig_frame _ _)). reflexivity.
  - destruct (persists (lower flag)); cbn [io cout]; [|reflexivity].
    unfold saveConfig. cbn [io assign set_config].
    destruct (sys_writable Sy (io sh) "TCLI"); cbn [io io_log cerr config];
      [reflexivity | rewrite <- app_assoc; reflexivity].
Qed.

End SetCommand.

(** ** The line editor *)

Section EditorProperties.

Context (hl : str -> str) (history : list str).

Lemma readLine_unfold (c : Z) (keys1 : list Z) (ed0 : Editor) (sh0 : Shell) :
  readLine hl history (c :: keys1) ed0 sh0
  = let '(ed, sh) :=
      if negb (promptPrinted ed0)
         && (isprint c || (c =? 27) || (c =? 127) || (c =? 8) || (c =? 9))%Z
      then start_prompt ed0 sh0 else (ed0, sh0) in
    if ((c =? 10) || (c =? 13))%Z then
      let '(ed, sh) := if negb (promptPrinted ed) then start_prompt ed sh else (ed, sh) in
      Returned (buffer ed)
        (cout (ESC ++ "[K" ++ NL) (cout (hl (buffer ed)) (cout (ESC ++ "[u") sh)))
    else if ((c =? 127) || (c =? 8))%Z then
      let '(ed, sh) := backspace_key hl ed sh in readLine hl history keys1 ed sh
    else if (c =? 27)%Z then
      match keys1 with
      | [] => Waiting ed sh
      | c1 :: keys2 =>
          if (c1 =? 91)%Z then
            match keys2 with
            | [] => Waiting ed sh
            | c2 :: keys3 =>
                let '(ed, sh) := arrow_key hl history c2 ed sh in readLine hl history keys3 ed sh
            end
          else if (c =? 9)%Z then
            match tab_key hl ed sh with
            | Some (ed, sh) => readLine hl history keys2 ed sh
            | None => Raised sh
            end
          else readLine hl history keys2 ed sh
      end
    else if isprint c then
      let '(ed, sh) := printable_key hl c ed sh in readLine hl history keys1 ed sh
    else readLine hl history keys1 ed sh.
Proof. reflexivity. Qed.

Lemma prompted_text (c : Z) (ed : Editor) (sh : Shell) :
  text_of (fst (prompted c ed sh)) = text_of ed.
Proof. unfold prompted. destruct (_ && _); reflexivity. Qed.

Lemma text_of_fields (ed ed' : Editor) :
  text_of ed = text_of ed' ->
  buffer ed = buffer ed' /\ cursor ed = cursor ed'
  /\ historyIndex ed = historyIndex ed' /\ currentBuffer ed = currentBuffer ed'
  /\ inHistory ed = inHistory ed'.
Proof. unfold text_of. intros [= -> -> -> -> ->]. auto. Qed.

Lemma backspace_text (ed ed' : Editor) (sh sh' : Shell) :
  text_of ed = text_of ed' ->
  text_of (fst (backspace_key hl ed sh)) = text_of (fst (backspace_key hl ed' sh')).
Proof.
  intros H. apply text_of_fields in H as (Hb & Hc & Hi & Hs & Hh).
  unfold backspace_key. rewrite Hb, Hc.
  destruct (0 <? cursor ed')%nat; unfold text_of; cbn; congruence.
Qed.

Lemma printable_text (c : Z) (ed ed' : Editor) (sh sh' : Shell) :
  text_of ed = text_of ed' ->
  text_of (fst (printable_key hl c ed sh)) = text_of (fst (printable_key hl c ed' sh')).
Proof.
  intros H. apply text_of_fields in H as (Hb & Hc & Hi & Hs & Hh).
  unfold printable_key, text_of. cbn. congruence.
Qed.

Lemma arrow_text (c2 : Z) (ed ed' : Editor) (sh sh' : Shell) :
  text_of ed = text_of ed' ->
  text_of (fst (arrow_key hl history c2 ed sh))
  = text_of (fst (arrow_key hl history c2 ed' sh')).
Proof.
  intros H. apply text_of_fields in H as (Hb & Hc & Hi & Hs & Hh).
  unfold arrow_key. rewrite Hb, Hc, Hi, Hs, Hh.
  repeat match goal with
         | |- context [if ?b then _ else _] => destruct b
         end; unfold text_of; cbn; congruence.
Qed.

(** The line returned depends on the text state alone. *)
Lemma readLine_text (n : nat) :
  forall keys ed ed' sh sh',
    (length keys <= n)%nat -> text_of ed = text_of ed' ->
    line_of (readLine hl history keys ed sh) = line_of (readLine hl history keys ed' sh').
Proof.
  induction n as [|n IH]; intros keys ed ed' sh sh' Hlen Htext.
  { destruct keys; [reflexivity | simpl in Hlen; lia]. }
  destruct keys as [|c keys1]; [reflexivity|].
  rewrite !readLine_unfold.
  fold (prompted c ed sh). fold (prompted c ed' sh').
  pose proof (prompted_text c ed sh) as H1. pose proof (prompted_text c ed' sh') as H2.
  destruct (prompted c ed sh) as [e1 s1]. destruct (prompted c ed' sh') as [e2 s2].
  cbn [fst] in H1, H2.
  assert (text_of e1 = text_of e2) as Ht by congruence. clear H1 H2 Htext.
  simpl in Hlen.
  destruct ((c =? 10) || (c =? 13))%Z.
  { assert (buffer (fst (if negb (promptPrinted e1) then start_prompt e1 s1 else (e1, s1)))
            = buffer (fst (if negb (promptPrinted e2) then start_prompt e2 s2 else (e2, s2))))
      as Hb.
    { apply text_of_fields in Ht as (Hb & _).
      destruct (negb (promptPrinted e1)), (negb (promptPrinted e2)); exact Hb. }
    destruct (if negb (promptPrinted e1) then _ else _) as [e1' s1'].
    destruct (if negb (promptPrinted e2) then _ else _) as [e2' s2'].
    cbn [fst] in Hb. cbn [line_of]. congruence. }
  destruct ((c =? 127) || (c =? 8))%Z.
  { pose proof (backspace_text e1 e2 s1 s2 Ht) as Hb.
    destruct (backspace_key hl e1 s1) as [e1' s1'].
    destruct (backspace_key hl e2 s2) as [e2' s2'].
    apply IH; [lia | exact Hb]. }
  destruct (c =? 27)%Z eqn:Hesc.
  { apply Z.eqb_eq in Hesc. subst c. change (27 =? 9)%Z with false. cbv iota.
    destruct keys1 as [|c1 keys2]; [reflexivity|].
    destruct (c1 =? 91)%Z.
    - destruct keys2 as [|c2 keys3]; [reflexivity|].
      pose proof (arrow_text c2 e1 e2 s1 s2 Ht) as Hb.
      destruct (arrow_key hl history c2 e1 s1) as [e1' s1'].
      destruct (arrow_key hl history c2 e2 s2) as [e2' s2'].
      apply IH; [simpl in Hlen; lia | exact Hb].
    - apply IH; [simpl in Hlen; lia | exact Ht]. }
  destruct (isprint c).
  { pose proof (printable_text c e1 e2 s1 s2 Ht) as Hb.
    destruct (printable_key hl c e1 s1) as [e1' s1'].
    destruct (printable_key hl c e2 s2) as [e2' s2'].
    apply IH; [lia | exact Hb]. }
  apply IH; [lia | exact Ht].
Qed.

Lemma line_text (keys : list Z) (ed ed' : Editor) (sh sh' : Shell) :
  text_of ed = text_of ed' ->
  line_of (readLine hl history keys ed sh) = line_of (readLine hl history keys ed' sh').
Proof. apply (readLine_text (length keys)). lia. Qed.

(** One key at a time. *)

Lemma line_enter (c : Z) (keys : list Z) (ed : Editor) (sh : Shell) :
  c = 10%Z \/ c = 13%Z ->
  line_of (readLine hl history (c :: keys) ed sh) = Some (buffer ed).
Proof.
  intros Hc. rewrite readLine_unfold.
  assert (((c =? 10) || (c =? 13))%Z = true) as ->
    by (destruct Hc as [-> | ->]; reflexivity).
  assert ((isprint c || (c =? 27) || (c =? 127) || (c =? 8) || (c =? 9))%Z = false) as ->
    by (destruct Hc as [-> | ->]; reflexivity).
  rewrite andb_false_r. destruct (negb (promptPrinted ed)); reflexivity.
Qed.

Lemma line_printable (c : Z) (keys : list Z) (ed : Editor) (sh : Shell) :
  isprint c = true ->
  line_of (readLine hl history (c :: keys) ed sh)
  = line_of (readLine hl history keys (fst (printable_key hl c ed sh)) sh).
Proof.
  intros Hc. rewrite readLine_unfold.
  fold (prompted c ed sh). pose proof (prompted_text c ed sh) as H1.
  destruct (prompted c ed sh) as [e1 s1]. cbn [fst] in H1.
  unfold isprint in Hc. apply andb_true_iff in Hc as [Hlo Hhi].
  apply Z.leb_le in Hlo, Hhi.
  assert (((c =? 10) || (c =? 13))%Z = false) as ->.
  { apply orb_false_iff. split; apply Z.eqb_neq; lia. }
  assert (((c =? 127) || (c =? 8))%Z = false) as ->.
  { apply orb_false_iff. split; apply Z.eqb_neq; lia. }
  assert ((c =? 27)%Z = false) as -> by (apply Z.eqb_neq; lia).
  assert (isprint c = true) as ->.
  { unfold isprint. apply andb_true_iff. split; apply Z.leb_le; lia. }
  pose proof (printable_text c e1 ed s1 sh H1) as Hb.
  destruct (printable_key hl c e1 s1) as [e1' s1']. cbn [fst] in Hb.
  apply line_text. exact Hb.
Qed.

Lemma line_backspace (c : Z) (keys : list Z) (ed : Editor) (sh : Shell) :
  c = 127%Z \/ c = 8%Z ->
  line_of (readLine hl history (c :: keys) ed sh)
  = line_of (readLine hl history keys (fst (backspace_key hl ed sh)) sh).
Proof.
  intros Hc. rewrite readLine_unfold.
  fold (prompted c ed sh). pose proof (prompted_text c ed sh) as H1.
  destruct (prompted c ed sh) as [e1 s1]. cbn [fst] in H1.
  assert (((c =? 10) || (c =? 13))%Z = false) as ->
    by (destruct Hc as [-> | ->]; reflexivity).
  assert (((c =? 127) || (c =? 8))%Z = true) as ->
    by (destruct Hc as [-> | ->]; reflexivity).
  pose proof (backspace_text e1 ed s1 sh H1) as Hb.
  destruct (backspace_key hl e1 s1) as [e1' s1']. cbn [fst] in Hb.
  apply line_text. exact Hb.
Qed.

Lemma line_arrow (c2 : Z) (keys : list Z) (ed : Editor) (sh : Shell) :
  line_of (readLine hl history (27 :: 91 :: c2 :: keys)%Z ed sh)
  = line_of (readLine hl history keys (fst (arrow_key hl history c2 ed sh)) sh).
Proof.
  rewrite readLine_unfold.
  fold (prompted 27 ed sh). pose proof (prompted_text 27 ed sh) as H1.
  destruct (prompted 27 ed sh) as [e1 s1]. cbn [fst] in H1.
  change ((27 =? 10) || (27 =? 13))%Z with false.
  change ((27 =? 127) || (27 =? 8))%Z with false.
  change (27 =? 27)%Z with true. change (91 =? 91)%Z with true. cbv iota.
  pose proof (arrow_text c2 e1 ed s1 sh H1) as Hb.
  destruct (arrow_key hl history c2 e1 s1) as [e1' s1']. cbn [fst] in Hb.
  apply line_text. exact Hb.
Qed.

Lemma line_escape_other (c1 : Z) (keys : list Z) (ed : Editor) (sh : Shell) :
  c1 <> 91%Z ->
  line_of (readLine hl history (27 :: c1 :: keys)%Z ed sh) = line_of (readLine hl history keys ed sh).
Proof.
  intros Hc1. rewrite readLine_unfold.
  fold (prompted 27 ed sh). pose proof (prompted_text 27 ed sh) as H1.
  destruct (prompted 27 ed sh) as [e1 s1]. cbn [fst] in H1.
  change ((27 =? 10) || (27 =? 13))%Z with false.
  change ((27 =? 127) || (27 =? 8))%Z with false.
  change (27 =? 27)%Z with true. change (27 =? 9)%Z with false. cbv iota.
  apply Z.eqb_neq in Hc1. rewrite Hc1. apply line_text. exact H1.
Qed.

Lemma line_ignored (c : Z) (keys : list Z) (ed : Editor) (sh : Shell) :
  isprint c = false -> c <> 10%Z -> c <> 13%Z -> c <> 127%Z -> c <> 8%Z -> c <> 27%Z ->
  line_of (readLine hl history (c :: keys) ed sh) = line_of (readLine hl history keys ed sh).
Proof.
  intros Hp H10 H13 H127 H8 H27. rewrite readLine_unfold.
  fold (prompted c ed sh). pose proof (prompted_text c ed sh) as H1.
  destruct (prompted c ed sh) as [e1 s1]. cbn [fst] in H1.
  apply Z.eqb_neq in H10, H13, H127, H8, H27.
  rewrite H10, H13, H127, H8, H27, Hp. cbn [orb]. apply line_text. exact H1.
Qed.

Lemma char_of_code (c : ascii) : char_of (code c) = c.
Proof. unfold char_of, code. rewrite Nat2Z.id. apply ascii_nat_embedding. Qed.

Lemma typed_state (c : ascii) (ed : Editor) (sh : Shell) :
  fst (printable_key hl (code c) ed sh)
  = with_text (take (cursor ed) (buffer ed) ++ c :: drop (cursor ed) (buffer ed))
              (cursor ed + 1) ed.
Proof. unfold printable_key. cbn [fst]. rewrite char_of_code. reflexivity. Qed.

Lemma insert_after (b s : str) (c : ascii) (cur : nat) :
  cur <= length b ->
  take (cur + 1) (take cur b ++ c :: drop cur b) ++ s
    ++ drop (cur + 1) (take cur b ++ c :: drop cur b)
  = take cur b ++ (c :: s) ++ drop cur b.
Proof.
  intros Hcur.
  assert (cur = length (take cur b)) as Hlen by (rewrite length_take; lia).
  rewrite (take_app_add' _ _ cur 1 Hlen), (drop_app_add' _ _ cur 1 Hlen).
  cbn [take drop]. rewrite <- app_assoc. reflexivity.
Qed.

Lemma line_typing (s : str) :
  printable s ->
  forall keys ed sh,
    cursor ed <= length (buffer ed) ->
    line_of (readLine hl history (map code s ++ keys) ed sh)
    = line_of (readLine hl history keys
                 (with_text (take (cursor ed) (buffer ed) ++ s ++ drop (cursor ed) (buffer ed))
                            (cursor ed + length s) ed) sh).
Proof.
  induction 1 as [|c s Hc _ IH]; intros keys ed sh Hcur.
  - cbn [map app length]. apply line_text. unfold text_of, with_text. cbn.
    rewrite take_drop, Nat.add_0_r. reflexivity.
  - cbn [map app]. rewrite line_printable by exact Hc. rewrite typed_state.
    rewrite IH.
    + apply line_text. unfold text_of, with_text. cbn [buffer cursor historyIndex
        currentBuffer inHistory length].
      rewrite insert_after by exact Hcur.
      replace (cursor ed + 1 + length s) with (cursor ed + S (length s)) by lia.
      reflexivity.
    + cbn [with_text buffer cursor]. rewrite length_app, length_take. cbn [length].
      rewrite length_drop. lia.
Qed.

(** X13. Typing printable characters and then Enter (newline or carriage
    return) returns the typed text. More generally, typing a text in the
    middle of a line inserts it at the cursor and leaves the cursor
    behind it. *)
Theorem editor_returns_typed_text (s : str) (enter : Z) (sh : Shell) :
  printable s -> enter = 10%Z \/ enter = 13%Z ->
  line_of (readLineWithArrows hl history (map code s ++ [enter]) sh) = Some s
  /\ forall front back keys p,
       line_of (readLine hl history (map code s ++ keys)
                  (MkEditor (front ++ back) (length front)
                            (Z.of_nat (length history)) [] false p) sh)
       = line_of (readLine hl history keys
                    (MkEditor (front ++ s ++ back) (length (front ++ s))
                              (Z.of_nat (length history)) [] false p) sh).
Proof.
  intros Hs Henter.
  assert (forall front back keys p,
             line_of (readLine hl history (map code s ++ keys)
                        (MkEditor (front ++ back) (length front)
                                  (Z.of_nat (length history)) [] false p) sh)
             = line_of (readLine hl history keys
                          (MkEditor (front ++ s ++ back) (length (front ++ s))
                                    (Z.of_nat (length history)) [] false p) sh)) as Hins.
  { intros front back keys p. rewrite line_typing; [|exact Hs|].
    - apply line_text. unfold text_of, with_text. cbn [buffer cursor historyIndex
        currentBuffer inHistory].
      rewrite take_app_length, drop_app_length, length_app. reflexivity.
    - cbn [cursor buffer]. rewrite length_app. lia. }
  split; [|exact Hins].
  unfold readLineWithArrows. pose proof (Hins [] [] [enter] false) as H0.
  cbn [app length] in H0. rewrite H0.
  rewrite line_enter by exact Henter. cbn [buffer]. rewrite app_nil_r. reflexivity.
Qed.

(** Tab *)

Lemma readLine_tab (keys : list Z) (ed : Editor) (sh : Shell) :
  readLine hl history (9 :: keys)%Z ed sh
  = if promptPrinted ed then readLine hl history keys ed sh
    else readLine hl history keys (fst (start_prompt ed sh)) (snd (start_prompt ed sh)).
Proof.
  rewrite readLine_unfold.
  change (isprint 9 || (9 =? 27) || (9 =? 127) || (9 =? 8) || (9 =? 9))%Z with true.
  rewrite andb_true_r.
  destruct (promptPrinted ed); cbn [negb]; [reflexivity|].
  destruct (start_prompt ed sh) as [e1 s1]. reflexivity.
Qed.

Lemma readLine_never_raised (n : nat) :
  forall keys ed sh sh',
    length keys <= n -> readLine hl history keys ed sh <> Raised sh'.
Proof.
  induction n as [|n IH]; intros keys ed sh sh' Hlen.
  { destruct keys; [discriminate | simpl in Hlen; lia]. }
  destruct keys as [|c keys1]; [discriminate|].
  rewrite readLine_unfold. simpl in Hlen.
  destruct (if _ && _ then _ else _) as [e1 s1].
  destruct ((c =? 10) || (c =? 13))%Z.
  { destruct (if negb _ then _ else _). discriminate. }
  destruct ((c =? 127) || (c =? 8))%Z.
  { destruct (backspace_key hl e1 s1). apply IH. lia. }
  destruct (c =? 27)%Z eqn:Hesc.
  { apply Z.eqb_eq in Hesc. subst c. change (27 =? 9)%Z with false. cbv iota.
    destruct keys1 as [|c1 keys2]; [discriminate|].
    destruct (c1 =? 91)%Z.
    - destruct keys2 as [|c2 keys3]; [discriminate|].
      destruct (arrow_key hl history c2 e1 s1). apply IH. simpl in Hlen. lia.
    - apply IH. simpl in Hlen. lia. }
  destruct (isprint c).
  { destruct (printable_key hl c e1 s1). apply IH. lia. }
  apply IH. lia.
Qed.

(** X14. The Tab key does nothing to the line: the completion is written
    inside the branch of the Escape key, where the key just read is never
    a Tab. A Tab, like an Escape that is not followed by an opening
    bracket, at most makes the prompt appear; the line returned is the
    same as without it. The completion is the only place of the editor
    that could throw, so the editor never ends by an exception. *)
Theorem tab_key_is_ignored (keys : list Z) (ed : Editor) (sh : Shell) :
  readLine hl history (9 :: keys)%Z ed sh
  = (if promptPrinted ed then readLine hl history keys ed sh
     else readLine hl history keys (fst (start_prompt ed sh)) (snd (start_prompt ed sh)))
  /\ line_of (readLine hl history (9 :: keys)%Z ed sh)
     = line_of (readLine hl history keys ed sh)
  /\ (forall c1, c1 <> 91%Z ->
        line_of (readLine hl history (27 :: c1 :: keys)%Z ed sh)
        = line_of (readLine hl history keys ed sh))
  /\ (forall sh', readLine hl history keys ed sh <> Raised sh').
Proof.
  split; [apply readLine_tab|]. split; [|split].
  - apply line_ignored; (reflexivity || discriminate).
  - intros c1 Hc1. apply line_escape_other, Hc1.
  - intros sh'. apply (readLine_never_raised (length keys)). lia.
Qed.

(** The invariant *)

Lemma backspace_ok (ed : Editor) (sh : Shell) :
  editor_ok history ed -> editor_ok history (fst (backspace_key hl ed sh)).
Proof.
  intros (Hc & Hi & Hh). unfold backspace_key.
  destruct (0 <? cursor ed) eqn:Hpos; [|exact (conj Hc (conj Hi Hh))].
  apply Nat.ltb_lt in Hpos. unfold editor_ok. cbn [with_text fst buffer cursor
    historyIndex inHistory].
  split; [|tauto]. rewrite length_app, length_take, length_drop. lia.
Qed.

Lemma printable_ok (c : Z) (ed : Editor) (sh : Shell) :
  editor_ok history ed -> editor_ok history (fst (printable_key hl c ed sh)).
Proof.
  intros (Hc & Hi & Hh). unfold printable_key, editor_ok. cbn [with_text fst buffer
    cursor historyIndex inHistory].
  split; [|tauto]. rewrite length_app, length_take. cbn [length]. rewrite length_drop. lia.
Qed.

Lemma arrow_ok (c2 : Z) (ed : Editor) (sh : Shell) :
  editor_ok history ed -> editor_ok history (fst (arrow_key hl history c2 ed sh)).
Proof.
  intros Hok. pose proof Hok as (Hc & Hi & Hh). unfold arrow_key.
  destruct (c2 =? 68)%Z.
  { destruct (0 <? cursor ed) eqn:Hpos; [|exact Hok].
    unfold editor_ok. cbn. split; [lia | tauto]. }
  destruct (c2 =? 67)%Z.
  { destruct (cursor ed <? length (buffer ed)) eqn:Hlt; [|exact Hok].
    apply Nat.ltb_lt in Hlt. unfold editor_ok. cbn. split; [lia | tauto]. }
  destruct (c2 =? 65)%Z.
  { destruct (0 <? historyIndex ed)%Z eqn:Hpos; [|exact Hok].
    apply Z.ltb_lt in Hpos. unfold editor_ok. cbn [fst buffer cursor historyIndex inHistory].
    split; [lia|]. split; [lia|]. split; [lia | reflexivity]. }
  destruct (c2 =? 66)%Z; [|exact Hok].
  destruct (inHistory ed) eqn:Hin; cbn [andb]; [|exact Hok].
  destruct (historyIndex ed <? Z.of_nat (length history) - 1)%Z eqn:Hlt.
  { apply Z.ltb_lt in Hlt. unfold editor_ok. cbn [fst buffer cursor historyIndex inHistory].
    split; [lia|]. split; [lia|]. split; [lia | reflexivity]. }
  destruct (historyIndex ed =? Z.of_nat (length history) - 1)%Z eqn:Heq; [|exact Hok].
  apply Z.eqb_eq in Heq. unfold editor_ok. cbn [fst buffer cursor historyIndex inHistory].
  split; [lia|]. split; [lia|]. split; [discriminate | lia].
Qed.

Lemma prompted_ok (c : Z) (ed : Editor) (sh : Shell) :
  editor_ok history ed -> editor_ok history (fst (prompted c ed sh)).
Proof. unfold prompted. destruct (_ && _); intros H; exact H. Qed.

Lemma readLine_ok (n : nat) :
  forall keys ed sh,
    length keys <= n -> editor_ok history ed ->
    match readLine hl history keys ed sh with
    | Waiting ed' _ => editor_ok history ed'
    | Returned _ _ => True
    | Raised _ => False
    end.
Proof.
  induction n as [|n IH]; intros keys ed sh Hlen Hok.
  { destruct keys; [exact Hok | simpl in Hlen; lia]. }
  destruct keys as [|c keys1]; [exact Hok|].
  rewrite readLine_unfold. simpl in Hlen.
  fold (prompted c ed sh). pose proof (prompted_ok c ed sh Hok) as H1.
  destruct (prompted c ed sh) as [e1 s1]. cbn [fst] in H1.
  destruct ((c =? 10) || (c =? 13))%Z.
  { destruct (if negb _ then _ else _). exact I. }
  destruct ((c =? 127) || (c =? 8))%Z.
  { pose proof (backspace_ok e1 s1 H1) as H2.
    destruct (backspace_key hl e1 s1). apply IH; [lia | exact H2]. }
  destruct (c =? 27)%Z eqn:Hesc.
  { apply Z.eqb_eq in Hesc. subst c. change (27 =? 9)%Z with false. cbv iota.
    destruct keys1 as [|c1 keys2]; [exact H1|].
    destruct (c1 =? 91)%Z.
    - destruct keys2 as [|c2 keys3]; [exact H1|].
      pose proof (arrow_ok c2 e1 s1 H1) as H2.
      destruct (arrow_key hl history c2 e1 s1). apply IH; [simpl in Hlen; lia | exact H2].
    - apply IH; [simpl in Hlen; lia | exact H1]. }
  destruct (isprint c).
  { pose proof (printable_ok c e1 s1 H1) as H2.
    destruct (printable_key hl c e1 s1). apply IH; [lia | exact H2]. }
  apply IH; [lia | exact H1].
Qed.

Lemma size_sub_exact (a b : nat) :
  b <= a -> (Z.of_nat a < 2 ^ 64)%Z -> size_sub a b = a - b.
Proof.
  intros Hle Hlt. unfold size_sub. rewrite Z.mod_small by lia. lia.
Qed.

(** X15. Whatever keys are typed, between two keys the cursor is inside
    the buffer or at its end, and the history position is a valid index
    while a recalled line is shown and the length of the history
    otherwise. So the unsigned difference [buffer.size() - cursor], by
    which the redraw moves the cursor back, never wraps around. *)
Theorem editor_keeps_cursor_inside (keys : list Z) (sh : Shell) :
  match readLineWithArrows hl history keys sh with
  | Waiting ed _ =>
      editor_ok history ed
      /\ ((Z.of_nat (length (buffer ed)) < 2 ^ 64)%Z ->
          size_sub (length (buffer ed)) (cursor ed) = length (buffer ed) - cursor ed)
  | Returned _ _ => True
  | Raised _ => False
  end.
Proof.
  pose proof (readLine_ok (length keys) keys
                (MkEditor [] 0 (Z.of_nat (length history)) [] false false) sh) as H.
  unfold readLineWithArrows. destruct (readLine hl history keys _ sh) as [| ed' sh' |].
  - exact I.
  - assert (editor_ok history ed') as Hok.
    { apply H; [lia|]. unfold editor_ok. cbn. split; [lia|]. split; [lia|].
      split; [discriminate | lia]. }
    split; [exact Hok|]. intros Hsmall. apply size_sub_exact; [apply Hok | exact Hsmall].
  - apply H; [lia|]. unfold editor_ok. cbn. split; [lia|]. split; [lia|].
    split; [discriminate | lia].
Qed.

(** The history *)

Lemma presses_S (k : nat) (key : list Z) : presses (S k) key = key ++ presses k key.
Proof. reflexivity. Qed.

Lemma line_up (keys : list Z) (ed : Editor) (sh : Shell) :
  line_of (readLine hl history (up_key ++ keys) ed sh)
  = line_of (readLine hl history keys (fst (arrow_key hl history 65 ed sh)) sh).
Proof. apply line_arrow. Qed.

Lemma line_down (keys : list Z) (ed : Editor) (sh : Shell) :
  line_of (readLine hl history (down_key ++ keys) ed sh)
  = line_of (readLine hl history keys (fst (arrow_key hl history 66 ed sh)) sh).
Proof. apply line_arrow. Qed.

Lemma ups_in_history (j : nat) :
  forall keys ed sh,
    inHistory ed = true -> (Z.of_nat (S j) <= historyIndex ed)%Z ->
    line_of (readLine hl history (presses (S j) up_key ++ keys) ed sh)
    = line_of (readLine hl history keys
                 (recalled history (historyIndex ed - Z.of_nat (S j)) (currentBuffer ed)
                           (promptPrinted ed)) sh).
Proof.
  induction j as [|j IH]; intros keys ed sh Hin Hidx.
  - rewrite presses_S. cbn [presses repeat concat]. rewrite app_nil_r, line_up.
    apply line_text. unfold arrow_key. change (65 =? 68)%Z with false.
    change (65 =? 67)%Z with false. change (65 =? 65)%Z with true. cbv iota.
    assert ((0 <? historyIndex ed)%Z = true) as -> by (apply Z.ltb_lt; lia).
    rewrite Hin. reflexivity.
  - rewrite presses_S, <- app_assoc, line_up.
    set (ed1 := fst (arrow_key hl history 65 ed sh)).
    assert (text_of ed1 = text_of (recalled history (historyIndex ed - 1) (currentBuffer ed)
                                            (promptPrinted ed))) as H1.
    { subst ed1. unfold arrow_key. change (65 =? 68)%Z with false.
      change (65 =? 67)%Z with false. change (65 =? 65)%Z with true. cbv iota.
      assert ((0 <? historyIndex ed)%Z = true) as -> by (apply Z.ltb_lt; lia).
      rewrite Hin. reflexivity. }
    rewrite (line_text _ _ _ _ sh H1). rewrite IH.
    + apply line_text. unfold recalled, text_of. cbn [buffer cursor historyIndex
        currentBuffer inHistory].
      replace (historyIndex ed - 1 - Z.of_nat (S j))%Z
        with (historyIndex ed - Z.of_nat (S (S j)))%Z by lia.
      reflexivity.
    + reflexivity.
    + cbn [recalled historyIndex]. lia.
Qed.

Lemma downs_in_history (j : nat) :
  forall keys ed sh,
    inHistory ed = true ->
    (historyIndex ed + Z.of_nat (S j) <= Z.of_nat (length history))%Z ->
    line_of (readLine hl history (presses (S j) down_key ++ keys) ed sh)
    = line_of (readLine hl history keys
                 (if (historyIndex ed + Z.of_nat (S j) <? Z.of_nat (length history))%Z
                  then recalled history (historyIndex ed + Z.of_nat (S j)) (currentBuffer ed)
                                (promptPrinted ed)
                  else MkEditor (currentBuffer ed) (length (currentBuffer ed))
                                (Z.of_nat (length history)) (currentBuffer ed) false
                                (promptPrinted ed)) sh).
Proof.
  induction j as [|j IH]; intros keys ed sh Hin Hidx.
  - rewrite presses_S. cbn [presses repeat concat]. rewrite app_nil_r, line_down.
    apply line_text. unfold arrow_key. change (66 =? 68)%Z with false.
    change (66 =? 67)%Z with false. change (66 =? 65)%Z with false.
    change (66 =? 66)%Z with true. cbv iota. rewrite Hin. cbn [andb].
    destruct (historyIndex ed + Z.of_nat 1 <? Z.of_nat (length history))%Z eqn:Hlt.
    + apply Z.ltb_lt in Hlt.
      assert ((historyIndex ed <? Z.of_nat (length history) - 1)%Z = true) as ->
        by (apply Z.ltb_lt; lia).
      reflexivity.
    + apply Z.ltb_ge in Hlt.
      assert ((historyIndex ed <? Z.of_nat (length history) - 1)%Z = false) as ->
        by (apply Z.ltb_ge; lia).
      assert ((historyIndex ed =? Z.of_nat (length history) - 1)%Z = true) as ->
        by (apply Z.eqb_eq; lia).
      unfold text_of. cbn [fst buffer cursor historyIndex currentBuffer inHistory].
      repeat f_equal. lia.
  - rewrite presses_S, <- app_assoc, line_down.
    set (ed1 := fst (arrow_key hl history 66 ed sh)).
    assert (text_of ed1 = text_of (recalled history (historyIndex ed + 1) (currentBuffer ed)
                                            (promptPrinted ed))) as H1.
    { subst ed1. unfold arrow_key. change (66 =? 68)%Z with false.
      change (66 =? 67)%Z with false. change (66 =? 65)%Z with false.
      change (66 =? 66)%Z with true. cbv iota. rewrite Hin. cbn [andb].
      assert ((historyIndex ed <? Z.of_nat (length history) - 1)%Z = true) as ->
        by (apply Z.ltb_lt; lia).
      reflexivity. }
    rewrite (line_text _ _ _ _ sh H1). rewrite IH.
    + apply line_text. cbn [recalled historyIndex currentBuffer promptPrinted].
      replace (historyIndex ed + 1 + Z.of_nat (S j))%Z
        with (historyIndex ed + Z.of_nat (S (S j)))%Z by lia.
      reflexivity.
    + reflexivity.
    + cbn [recalled historyIndex]. lia.
Qed.

Lemma up_at_oldest (keys : list Z) (ed : Editor) (sh : Shell) :
  historyIndex ed = 0%Z ->
  line_of (readLine hl history (up_key ++ keys) ed sh)
  = line_of (readLine hl history keys ed sh).
Proof.
  intros H0. rewrite line_up. apply line_text. unfold arrow_key.
  change (65 =? 68)%Z with false. change (65 =? 67)%Z with false.
  change (65 =? 65)%Z with true. cbv iota. rewrite H0. reflexivity.
Qed.

Lemma ups_at_oldest (m : nat) (keys : list Z) (ed : Editor) (sh : Shell) :
  historyIndex ed = 0%Z ->
  line_of (readLine hl history (presses m up_key ++ keys) ed sh)
  = line_of (readLine hl history keys ed sh).
Proof.
  intros H0. induction m as [|m IH]; [reflexivity|].
  rewrite presses_S, <- app_assoc, up_at_oldest by exact H0. exact IH.
Qed.

Lemma first_up (keys : list Z) (ed : Editor) (sh : Shell) :
  inHistory ed = false -> (0 < historyIndex ed)%Z ->
  line_of (readLine hl history (up_key ++ keys) ed sh)
  = line_of (readLine hl history keys
               (recalled history (historyIndex ed - 1) (buffer ed) (promptPrinted ed)) sh).
Proof.
  intros Hin Hpos. rewrite line_up. apply line_text. unfold arrow_key.
  change (65 =? 68)%Z with false. change (65 =? 67)%Z with false.
  change (65 =? 65)%Z with true. cbv iota.
  assert ((0 <? historyIndex ed)%Z = true) as -> by (apply Z.ltb_lt; lia).
  rewrite Hin. reflexivity.
Qed.

Lemma ups_from_end (k : nat) (keys : list Z) (ed : Editor) (sh : Shell) :
  inHistory ed = false -> historyIndex ed = Z.of_nat (length history) ->
  1 <= k <= length history ->
  line_of (readLine hl history (presses k up_key ++ keys) ed sh)
  = line_of (readLine hl history keys
               (recalled history (Z.of_nat (length history - k)) (buffer ed) (promptPrinted ed)) sh).
Proof.
  intros Hin Hidx Hk. destruct k as [|k]; [lia|].
  rewrite presses_S, <- app_assoc, first_up by (assumption || lia).
  destruct k as [|k].
  - cbn [presses repeat concat app]. apply line_text. rewrite Hidx.
    replace (Z.of_nat (length history) - 1)%Z with (Z.of_nat (length history - 1)) by lia.
    reflexivity.
  - rewrite ups_in_history.
    + apply line_text. cbn [recalled historyIndex currentBuffer promptPrinted].
      rewrite Hidx.
      replace (Z.of_nat (length history) - 1 - Z.of_nat (S k))%Z
        with (Z.of_nat (length history - S (S k))) by lia.
      reflexivity.
    + reflexivity.
    + cbn [recalled historyIndex]. lia.
Qed.

(** X16. The Up key pressed [k] times, for [k] between 1 and the number of
    lines of the history, and then Enter, returns the [k]-th last line of
    the history. [k] times Up and then [k] times Down bring back the line
    that was being typed, with the cursor at its end. Pressing Up more
    often than the history has lines changes nothing more. *)
Theorem editor_history_recall (k m : nat) (b saved : str) (cur : nat) (p : bool)
    (keys : list Z) (sh : Shell) :
  1 <= k <= length history ->
  let ed := MkEditor b cur (Z.of_nat (length history)) saved false p in
  line_of (readLine hl history (presses k up_key ++ [13%Z]) ed sh)
    = Some (nth (length history - k) history [])
  /\ line_of (readLine hl history (presses k up_key ++ presses k down_key ++ keys) ed sh)
     = line_of (readLine hl history keys
                  (MkEditor b (length b) (Z.of_nat (length history)) b false p) sh)
  /\ line_of (readLine hl history (presses (length history + m) up_key ++ keys) ed sh)
     = line_of (readLine hl history (presses (length history) up_key ++ keys) ed sh).
Proof.
  intros Hk ed. split; [|split].
  - rewrite ups_from_end by (reflexivity || exact Hk).
    rewrite line_enter by auto. cbn [recalled buffer]. unfold history_at.
    rewrite Nat2Z.id. reflexivity.
  - rewrite ups_from_end by (reflexivity || exact Hk).
    destruct k as [|k]; [lia|]. rewrite downs_in_history.
    + cbn [recalled historyIndex currentBuffer promptPrinted buffer ed].
      assert ((Z.of_nat (length history - S k) + Z.of_nat (S k)
               <? Z.of_nat (length history))%Z = false) as -> by (apply Z.ltb_ge; lia).
      reflexivity.
    + reflexivity.
    + cbn [recalled historyIndex]. lia.
  - unfold presses. rewrite repeat_app, concat_app, <- app_assoc.
    fold (presses (length history) up_key). fold (presses m up_key).
    destruct (length history) as [|n] eqn:Hn; [lia|].
    rewrite !(ups_from_end (S n)) by (reflexivity || (rewrite Hn; reflexivity)
                                      || (rewrite ?Hn; lia)).
    apply ups_at_oldest. cbn [recalled historyIndex]. lia.
Qed.

Lemma erase_inserted (b : str) (c : ascii) (cur : nat) :
  cur <= length b ->
  take (cur + 1 - 1) (take cur b ++ c :: drop cur b)
    ++ drop (cur + 1) (take cur b ++ c :: drop cur b) = b.
Proof.
  intros Hcur.
  assert (cur = length (take cur b)) as Hlen by (rewrite length_take; lia).
  replace (cur + 1 - 1) with cur by lia.
  rewrite (take_app_length' _ _ cur Hlen), (drop_app_add' _ _ cur 1 Hlen).
  change (drop 1 (c :: drop cur b)) with (drop cur b). apply take_drop.
Qed.

(** X17. Keys that cancel each other, for the line returned in the end: a
    printable character and then Backspace; Left and then Right, when the
    cursor is not at the start; Right and then Left, when it is not at
    the end. Backspace and Left at the start of the line do nothing. *)
Theorem editor_keys_cancel (c : ascii) (keys : list Z) (ed : Editor) (sh : Shell) :
  cursor ed <= length (buffer ed) ->
  (isprint (code c) = true ->
     line_of (readLine hl history (code c :: 127%Z :: keys) ed sh)
     = line_of (readLine hl history keys ed sh))
  /\ (0 < cursor ed ->
      line_of (readLine hl history (left_key ++ right_key ++ keys) ed sh)
      = line_of (readLine hl history keys ed sh))
  /\ (cursor ed < length (buffer ed) ->
      line_of (readLine hl history (right_key ++ left_key ++ keys) ed sh)
      = line_of (readLine hl history keys ed sh))
  /\ (cursor ed = 0 ->
      line_of (readLine hl history (127%Z :: keys) ed sh)
      = line_of (readLine hl history keys ed sh)
      /\ line_of (readLine hl history (left_key ++ keys) ed sh)
         = line_of (readLine hl history keys ed sh)).
Proof.
  intros Hcur. split; [|split; [|split]].
  - intros Hc. rewrite line_printable by exact Hc. rewrite typed_state.
    rewrite line_backspace by auto. apply line_text.
    unfold backspace_key. cbn [with_text cursor buffer].
    assert ((0 <? cursor ed + 1) = true) as -> by (apply Nat.ltb_lt; lia).
    unfold text_of. cbn [fst with_text buffer cursor historyIndex currentBuffer inHistory].
    rewrite erase_inserted by exact Hcur.
    replace (cursor ed + 1 - 1) with (cursor ed) by lia. reflexivity.
  - intros Hpos. unfold left_key, right_key. cbn [app]. rewrite !line_arrow.
    apply line_text. unfold arrow_key at 2. change (68 =? 68)%Z with true. cbv iota.
    assert ((0 <? cursor ed) = true) as -> by (apply Nat.ltb_lt; lia).
    cbn [fst]. unfold arrow_key. change (67 =? 68)%Z with false.
    change (67 =? 67)%Z with true. cbv iota. cbn [with_text cursor buffer].
    assert ((cursor ed - 1 <? length (buffer ed)) = true) as -> by (apply Nat.ltb_lt; lia).
    unfold text_of. cbn [fst with_text buffer cursor historyIndex currentBuffer inHistory].
    replace (cursor ed - 1 + 1) with (cursor ed) by lia. reflexivity.
  - intros Hlt. unfold left_key, right_key. cbn [app]. rewrite !line_arrow.
    apply line_text. unfold arrow_key at 2. change (67 =? 68)%Z with false.
    change (67 =? 67)%Z with true. cbv iota.
    assert ((cursor ed <? length (buffer ed)) = true) as -> by (apply Nat.ltb_lt; lia).
    cbn [fst]. unfold arrow_key. change (68 =? 68)%Z with true. cbv iota.
    cbn [with_text cursor buffer].
    assert ((0 <? cursor ed + 1) = true) as -> by (apply Nat.ltb_lt; lia).
    unfold text_of. cbn [fst with_text buffer cursor historyIndex currentBuffer inHistory].
    replace (cursor ed + 1 - 1) with (cursor ed) by lia. reflexivity.
  - intros H0. split.
    + rewrite line_backspace by auto. apply line_text. unfold backspace_key.
      rewrite H0. reflexivity.
    + unfold left_key. cbn [app]. rewrite line_arrow. apply line_text.
      unfold arrow_key. change (68 =? 68)%Z with true. cbv iota. rewrite H0. reflexivity.
Qed.

End EditorProperties.

(** ** The found-set *)

Lemma nat_of_ascii_inj (c d : ascii) : nat_of_ascii c = nat_of_ascii d -> c = d.
Proof.
  intros H. rewrite <- (ascii_nat_embedding c), <- (ascii_nat_embedding d), H.
  reflexivity.
Qed.

Lemma str_ltb_irrefl (s : str) : str_ltb s s = false.
Proof.
  induction s as [|c s IH]; [reflexivity|]. simpl.
  rewrite Nat.ltb_irrefl, ascii_eqb_refl. exact IH.
Qed.

Lemma str_ltb_cons (c d : ascii) (s t : str) :
  str_ltb (c :: s) (d :: t) = true <->
  nat_of_ascii c < nat_of_ascii d \/ (c = d /\ str_ltb s t = true).
Proof.
  simpl. destruct (nat_of_ascii c <? nat_of_ascii d) eqn:Hlt.
  - apply Nat.ltb_lt in Hlt. tauto.
  - apply Nat.ltb_ge in Hlt. destruct (ascii_eqb c d) eqn:He.
    + apply ascii_eqb_true in He. subst d. split; [auto|]. intros [H | [_ H]]; [lia | exact H].
    + split; [discriminate|]. intros [H | [-> _]]; [lia|].
      rewrite ascii_eqb_refl in He. discriminate.
Qed.

Lemma str_ltb_trans (s t u : str) :
  str_ltb s t = true -> str_ltb t u = true -> str_ltb s u = true.
Proof.
  revert t u. induction s as [|c s IH]; intros [|d t] [|e u]; try discriminate; auto.
  rewrite !str_ltb_cons. intros [H1 | [-> H1]] [H2 | [-> H2]].
  - left. lia.
  - left. exact H1.
  - left. exact H2.
  - right. split; [reflexivity|]. eapply IH; eassumption.
Qed.

Lemma str_ltb_total (s t : str) :
  str_ltb s t = false -> str_ltb t s = false -> s = t.
Proof.
  revert t. induction s as [|c s IH]; intros [|d t]; try discriminate; auto.
  intros H1 H2.
  destruct (Nat.lt_trichotomy (nat_of_ascii c) (nat_of_ascii d)) as [Hlt | [Heq | Hgt]].
  - assert (str_ltb (c :: s) (d :: t) = true) by (apply str_ltb_cons; auto). congruence.
  - apply nat_of_ascii_inj in Heq. subst d. f_equal. apply IH.
    + destruct (str_ltb s t) eqn:H; [|reflexivity].
      assert (str_ltb (c :: s) (c :: t) = true) by (apply str_ltb_cons; auto). congruence.
    + destruct (str_ltb t s) eqn:H; [|reflexivity].
      assert (str_ltb (c :: t) (c :: s) = true) by (apply str_ltb_cons; auto). congruence.
  - assert (str_ltb (d :: t) (c :: s) = true) by (apply str_ltb_cons; auto). congruence.
Qed.

Lemma set_insert_keeps (x z : str) (l : list str) :
  In z l -> In z (set_insert x l).
Proof.
  induction l as [|y l IH]; [intros []|]. simpl.
  destruct (str_ltb x y); [intros H; right; exact H|].
  destruct (str_ltb y x); [|auto].
  intros [<- | H]; [left; reflexivity | right; auto].
Qed.

Lemma set_insert_there (x : str) (l : list str) : In x (set_insert x l).
Proof.
  induction l as [|y l IH]; [left; reflexivity|]. simpl.
  destruct (str_ltb x y) eqn:H1; [left; reflexivity|].
  destruct (str_ltb y x) eqn:H2; [right; exact IH|].
  left. symmetry. apply str_ltb_total; assumption.
Qed.

Lemma set_insert_iff (x z : str) (l : list str) :
  In z (set_insert x l) <-> z = x \/ In z l.
Proof.
  split; [apply set_insert_In|].
  intros [-> | H]; [apply set_insert_there | apply set_insert_keeps, H].
Qed.

Lemma set_insert_sorted (x : str) (l : list str) :
  StronglySorted str_lt l -> StronglySorted str_lt (set_insert x l).
Proof.
  induction 1 as [|y l Hs IH Hall]; simpl.
  - repeat constructor.
  - destruct (str_ltb x y) eqn:H1.
    + constructor; [constructor; assumption|]. constructor; [exact H1|].
      eapply Forall_impl; [exact Hall|]. intros z Hz. eapply str_ltb_trans; eassumption.
    + destruct (str_ltb y x) eqn:H2; [|constructor; assumption].
      constructor; [exact IH|]. apply Forall_forall. intros z Hz.
      apply list_elem_of_In, set_insert_In in Hz as [-> | Hz]; [exact H2|].
      rewrite Forall_forall in Hall. apply Hall, list_elem_of_In, Hz.
Qed.

Lemma sorted_NoDup (l : list str) : StronglySorted str_lt l -> NoDup l.
Proof.
  induction 1 as [|y l Hs IH Hall]; constructor; [|exact IH].
  intros Hin. rewrite Forall_forall in Hall. apply Hall in Hin.
  unfold str_lt in Hin. rewrite str_ltb_irrefl in Hin. discriminate.
Qed.

Lemma knownDirs_fold (links : list str) :
  forall acc,
    StronglySorted str_lt acc ->
    let found := fold_left (fun found link =>
                              if is_dir_link link then set_insert link found else found)
                           links acc in
    StronglySorted str_lt found
    /\ forall d, In d found <-> In d acc \/ (In d links /\ is_dir_link d = true).
Proof.
  induction links as [|l links IH]; intros acc Hacc; cbn [fold_left].
  - split; [exact Hacc|]. intros d. simpl. tauto.
  - destruct (is_dir_link l) eqn:Hl.
    + destruct (IH (set_insert l acc) (set_insert_sorted l acc Hacc)) as [Hs Hin].
      split; [exact Hs|]. intros d. rewrite Hin, set_insert_iff. simpl.
      split.
      * intros [[-> | H] | [H1 H2]]; auto.
      * intros [H | [[<- | H1] H2]]; auto.
    + destruct (IH acc Hacc) as [Hs Hin].
      split; [exact Hs|]. intros d. rewrite Hin. simpl. split.
      * intros [H | [H1 H2]]; auto.
      * intros [H | [[<- | H1] H2]]; auto. congruence.
Qed.

Lemma is_dir_link_shape (d : str) :
  is_dir_link d = true <->
  d <> "../" /\ d <> "./" /\ exists front, d = front ++ "/".
Proof.
  unfold is_dir_link. rewrite !andb_true_iff, !negb_true_iff, !str_eqb_false.
  unfold ends_with_slash. split.
  - intros [[[H1 H2] H3] H4]. split; [exact H1|]. split; [exact H2|].
    destruct (last d) as [c|] eqn:Hlast; [|discriminate].
    apply ascii_eqb_true in H4. subst c.
    apply last_Some in Hlast as [front ->]. exists front. reflexivity.
  - intros (H1 & H2 & front & ->). repeat split; auto.
    + destruct front; reflexivity.
    + change (list_ascii_of_string "/") with ["/"%char].
      rewrite last_snoc. apply ascii_eqb_refl.
Qed.

Section Level.

Context (E : Env).

Lemma fetched_urls_app (a b : list Event) :
  fetched_urls (a ++ b) = fetched_urls a ++ fetched_urls b.
Proof.
  induction a as [|e a IH]; [reflexivity|]. destruct e; simpl; rewrite IH; reflexivity.
Qed.

Lemma status_urls_app (a b : list Event) :
  status_urls (a ++ b) = status_urls a ++ status_urls b.
Proof.
  induction a as [|e a IH]; [reflexivity|]. destruct e; simpl; rewrite IH; reflexivity.
Qed.

Lemma probeTask_events (baseUrl indent sig dir : str) (found : list str) (w : World) :
  let fw := probeTask E baseUrl indent sig dir (found, w) in
  exists evs,
    trace (snd fw) = trace w ++ evs
    /\ fetched_urls evs = [combineUrl baseUrl dir]
    /\ (status_urls evs = [] \/ status_urls evs = [combineUrl baseUrl dir])
    /\ (fst fw = found \/ fst fw = set_insert dir found).
Proof.
  unfold probeTask, httpGet, httpStatus. cbv beta zeta iota.
  destruct (env_get E (trace w) (combineUrl baseUrl dir)) as [|c probe].
  - eexists. cbn [snd fst trace log]. split; [reflexivity|]. auto.
  - match goal with |- context [if ?b then _ else _] => destruct b end;
      eexists; cbn [snd fst trace log emit]; rewrite <- ?app_assoc;
      (split; [reflexivity|]); cbn; auto.
Qed.

Lemma probeAll_events (baseUrl indent sig : str) (known : list str) (dirs : list str) :
  NoDup dirs ->
  forall fw,
    (forall d, In d dirs -> set_count d (fst fw) = set_count d known) ->
    StronglySorted str_lt (fst fw) ->
    let res := probeAll E baseUrl indent sig dirs fw in
    exists evs,
      trace (snd res) = trace (snd fw) ++ evs
      /\ fetched_urls evs
         = map (combineUrl baseUrl)
               (List.filter (fun d => negb (set_count d known)) dirs)
      /\ status_urls evs `sublist_of` fetched_urls evs
      /\ StronglySorted str_lt (fst res)
      /\ (forall z, In z (fst fw) -> In z (fst res)).
Proof.
  induction 1 as [|d dirs Hd Hnd IH]; intros fw Hcount Hsorted.
  - exists []. cbn. rewrite app_nil_r. repeat split; auto.
  - rewrite probeAll_cons. cbn [List.filter].
    rewrite <- (Hcount d (or_introl eq_refl)).
    destruct (set_count d (fst fw)) eqn:Hin; cbn [negb].
    + apply IH; [|exact Hsorted]. intros d' Hd'. apply Hcount. right. exact Hd'.
    + destruct fw as [found w]. cbn [fst snd] in *.
      destruct (probeTask_events baseUrl indent sig d found w)
        as (evs1 & Ht1 & Hf1 & Hs1 & Hfound).
      set (fw1 := probeTask E baseUrl indent sig d (found, w)) in *.
      assert (forall z, In z found -> In z (fst fw1)) as Hkeep.
      { intros z Hz. destruct Hfound as [-> | ->]; [exact Hz | apply set_insert_keeps, Hz]. }
      assert (StronglySorted str_lt (fst fw1)) as Hsorted1.
      { destruct Hfound as [-> | ->]; [exact Hsorted | apply set_insert_sorted, Hsorted]. }
      assert (forall d', In d' dirs -> set_count d' (fst fw1) = set_count d' known) as Hc1.
      { intros d' Hd'. rewrite <- (Hcount d' (or_intror Hd')).
        apply eq_true_iff_eq. rewrite !set_count_true. split.
        - intros Hz. destruct Hfound as [Hf | Hf]; rewrite Hf in Hz; [exact Hz|].
          apply set_insert_In in Hz as [-> | Hz]; [|exact Hz].
          exfalso. apply Hd, list_elem_of_In, Hd'.
        - apply Hkeep. }
      destruct (IH fw1 Hc1 Hsorted1) as (evs2 & Ht2 & Hf2 & Hs2 & Hsorted2 & Hkeep2).
      exists (evs1 ++ evs2). rewrite Ht2, Ht1, <- app_assoc.
      split; [reflexivity|]. rewrite fetched_urls_app, status_urls_app, Hf1, Hf2.
      split; [reflexivity|]. split.
      * apply sublist_app; [|rewrite <- Hf2; exact Hs2].
        destruct Hs1 as [-> | ->]; [apply sublist_nil_l | reflexivity].
      * split; [exact Hsorted2|]. intros z Hz. apply Hkeep2, Hkeep, Hz.
Qed.

Lemma knownDirs_spec (links : list str) :
  StronglySorted str_lt (knownDirs links)
  /\ forall d, In d (knownDirs links) <-> In d links /\ is_dir_link d = true.
Proof.
  destruct (knownDirs_fold links [] (SSorted_nil _)) as [Hs Hin].
  split; [exact Hs|]. intros d. unfold knownDirs. rewrite Hin. simpl. tauto.
Qed.

Lemma filter_length_le {A} (f : A -> bool) (l : list A) :
  length (List.filter f l) <= length l.
Proof.
  induction l as [|x l IH]; [reflexivity|]. simpl. destruct (f x); simpl; lia.
Qed.

Lemma baselineSignature_events (baseUrl : str) (w : World) :
  exists evs,
    trace (snd (baselineSignature E baseUrl w)) = trace w ++ evs
    /\ fetched_urls evs
       = match notFoundCache w !! baseUrl with
         | Some _ => []
         | None => [fake404_url baseUrl (env_rand E (trace w))]
         end
    /\ status_urls evs = [].
Proof.
  unfold baselineSignature, c_rand, httpGet.
  destruct (notFoundCache w !! baseUrl) as [sig|].
  - exists []. cbn [snd]. rewrite app_nil_r. auto.
  - eexists. cbn [snd trace log]. rewrite <- app_assoc. split; [reflexivity|].
    split; reflexivity.
Qed.

Lemma unlinked_eq (html : str) :
  unlinked html
  = List.filter (fun d => negb (set_count d (knownDirs (extractLinks html)))) commonDirs.
Proof. unfold unlinked. reflexivity. Qed.

Lemma enumLevel_unfold (baseUrl indent html : str) (w : World) :
  enumLevel E baseUrl indent html w
  = probeAll E baseUrl indent (fst (baselineSignature E baseUrl w)) commonDirs
      (knownDirs (extractLinks html), snd (baselineSignature E baseUrl w)).
Proof. unfold enumLevel. destruct (baselineSignature E baseUrl w). reflexivity. Qed.

Lemma filter_Permutation (f : str -> bool) (l l' : list str) :
  l ≡ₚ l' -> List.filter f l ≡ₚ List.filter f l'.
Proof.
  induction 1 as [|x l l' _ IH|x y l|l l' l'' _ IH1 _ IH2]; cbn [List.filter].
  - reflexivity.
  - destruct (f x); [constructor|]; exact IH.
  - destruct (f x), (f y); try reflexivity. constructor.
  - etransitivity; eassumption.
Qed.

Lemma combineUrl_name (base d : str) :
  In d commonDirs -> combineUrl base d = pop_slash base ++ "/" ++ d.
Proof.
  intros Hd.
  assert (forallb (fun d => negb (is_empty d)
                            && negb (startsWith d "http://" || startsWith d "https://")
                            && negb (startsWith d "/")) commonDirs = true) as Hall
    by (vm_compute; reflexivity).
  rewrite forallb_forall in Hall. specialize (Hall d Hd).
  apply andb_true_iff in Hall as [Hall Hslash].
  apply andb_true_iff in Hall as [Hne Hhttp].
  apply negb_true_iff in Hne, Hhttp, Hslash.
  unfold combineUrl. destruct d as [|r0 tail]; [discriminate Hne|].
  rewrite Hhttp. cbv zeta.
  change (startsWith (r0 :: tail) "/") with (ascii_eqb "/" r0 && true) in Hslash.
  rewrite andb_true_r in Hslash.
  replace (ascii_eqb r0 "/") with (ascii_eqb "/" r0)
    by (unfold ascii_eqb; apply Ascii.eqb_sym).
  rewrite Hslash. reflexivity.
Qed.

Lemma NoDup_map_strong (f : str -> str) (l : list str) :
  (forall x y, In x l -> In y l -> f x = f y -> x = y) ->
  NoDup l -> NoDup (map f l).
Proof.
  intros Hinj. induction 1 as [|x l Hx Hl IH]; cbn [map]; constructor.
  - intros Hin. apply list_elem_of_In, in_map_iff in Hin as (y & Hxy & Hy).
    apply Hx. apply list_elem_of_In.
    rewrite <- (Hinj y x); [exact Hy | right; exact Hy | left; reflexivity | exact Hxy].
  - apply IH. intros a b Ha Hb. apply Hinj; right; assumption.
Qed.

Lemma probed_NoDup (baseUrl html : str) :
  NoDup (map (combineUrl baseUrl) (unlinked html)).
Proof.
  apply NoDup_map_strong.
  - intros x y Hx Hy. rewrite unlinked_eq in Hx, Hy.
    apply filter_In in Hx as [Hx _]. apply filter_In in Hy as [Hy _].
    rewrite (combineUrl_name _ _ Hx), (combineUrl_name _ _ Hy).
    intros H. apply app_inv_head in H. apply app_inv_head in H. exact H.
  - rewrite unlinked_eq. apply NoDup_ListNoDup, List.NoDup_filter, NoDup_ListNoDup.
    apply commonDirs_NoDup.
Qed.

Lemma submseteq_NoDup (l k : list str) : l ⊆+ k -> NoDup k -> NoDup l.
Proof.
  intros H Hk. apply submseteq_sublist_r in H as (l2 & Hp & Hs).
  rewrite Hp. eapply sublist_NoDup; eassumption.
Qed.

(** X18. The requests of one level of the enumerator, once its page is
    fetched. First comes one request for the nonce page, when the
    baseline of the URL is not in the cache. The probing tasks then
    request one page for each dictionary name that the page does not link
    to as a directory, each for the name resolved against the URL, and
    the status of some of these URLs; these URLs are all different, and
    none has its status requested twice. This holds in whatever order the
    tasks run. So one level makes at most 33 page requests and at most 32
    status requests. *)
Theorem enumLevel_requests (baseUrl indent html : str) (w : World) :
  let nonce := match notFoundCache w !! baseUrl with
               | Some _ => []
               | None => [fake404_url baseUrl (env_rand E (trace w))]
               end in
  let probed := map (combineUrl baseUrl) (unlinked html) in
  NoDup probed
  /\ (exists evs probes,
        trace (snd (enumLevel E baseUrl indent html w)) = trace w ++ evs
        /\ fetched_urls evs = nonce ++ probes
        /\ probes ≡ₚ probed
        /\ status_urls evs ⊆+ probed
        /\ NoDup (status_urls evs)
        /\ length (fetched_urls evs) <= 33
        /\ length (status_urls evs) <= 32)
  /\ (forall order sig w1,
        order ≡ₚ commonDirs ->
        exists evs,
          trace (snd (probeAll E baseUrl indent sig order
                        (knownDirs (extractLinks html), w1)))
          = trace w1 ++ evs
          /\ fetched_urls evs ≡ₚ probed
          /\ status_urls evs ⊆+ probed
          /\ NoDup (status_urls evs)
          /\ length (fetched_urls evs) <= 32
          /\ length (status_urls evs) <= 32).
Proof.
  intros nonce probed.
  pose proof (probed_NoDup baseUrl html) as Hnodup. fold probed in Hnodup.
  split; [exact Hnodup|].
  destruct (knownDirs_spec (extractLinks html)) as [Hsorted _].
  assert (length probed <= 32) as Hlen.
  { subst probed. rewrite length_map, unlinked_eq.
    etransitivity; [apply filter_length_le | reflexivity]. }
  assert (forall order sig w1,
             order ≡ₚ commonDirs ->
             exists evs,
               trace (snd (probeAll E baseUrl indent sig order
                             (knownDirs (extractLinks html), w1)))
               = trace w1 ++ evs
               /\ fetched_urls evs
                  = map (combineUrl baseUrl)
                        (List.filter
                           (fun d => negb (set_count d (knownDirs (extractLinks html))))
                           order)
               /\ fetched_urls evs ≡ₚ probed
               /\ status_urls evs ⊆+ probed
               /\ NoDup (status_urls evs)
               /\ length (fetched_urls evs) <= 32
               /\ length (status_urls evs) <= 32) as Hany.
  { intros order sig w1 Horder.
    assert (NoDup order) as Hnd by (rewrite Horder; apply commonDirs_NoDup).
    destruct (probeAll_events baseUrl indent sig (knownDirs (extractLinks html))
                order Hnd (knownDirs (extractLinks html), w1))
      as (evs & Ht & Hf & Hs & _); [intros d _; cbn [fst]; reflexivity | exact Hsorted |].
    cbn [snd] in Ht. exists evs. split; [exact Ht|]. split; [exact Hf|].
    assert (fetched_urls evs ≡ₚ probed) as Hp.
    { rewrite Hf. subst probed. rewrite unlinked_eq.
      apply Permutation_map, filter_Permutation, Horder. }
    split; [exact Hp|].
    assert (status_urls evs ⊆+ probed) as Hsub
      by (rewrite <- Hp; apply sublist_submseteq, Hs).
    split; [exact Hsub|].
    split; [apply (submseteq_NoDup _ _ Hsub Hnodup)|].
    split; [rewrite Hp; exact Hlen|].
    apply submseteq_length in Hsub. lia. }
  split.
  - rewrite enumLevel_unfold.
    destruct (baselineSignature_events baseUrl w) as (evs0 & Ht0 & Hf0 & Hs0).
    destruct (Hany commonDirs (fst (baselineSignature E baseUrl w))
                   (snd (baselineSignature E baseUrl w)) ltac:(reflexivity))
      as (evs & Ht & _ & Hp & Hs & Hsd & Hl1 & Hl2).
    exists (evs0 ++ evs), (fetched_urls evs).
    rewrite Ht, Ht0, <- app_assoc. split; [reflexivity|].
    rewrite fetched_urls_app, status_urls_app, Hf0, Hs0. cbn [app].
    split; [reflexivity|]. split; [exact Hp|]. split; [exact Hs|].
    split; [exact Hsd|]. split; [|exact Hl2].
    rewrite length_app. subst nonce.
    destruct (notFoundCache w !! baseUrl); cbn [length]; lia.
  - intros order sig w1 Horder.
    destruct (Hany order sig w1 Horder) as (evs & Ht & _ & Hrest).
    exists evs. split; [exact Ht | exact Hrest].
Qed.

(** X19. The found-set at the end of one level is strictly ascending, so
    free of duplicates. It holds every link of the page that is a
    directory link, and nothing but such links and dictionary names; it
    never holds [../], [./] or the empty name. *)
Theorem enumLevel_found_set (baseUrl indent html : str) (w : World) :
  let found := fst (enumLevel E baseUrl indent html w) in
  StronglySorted str_lt found
  /\ NoDup found
  /\ (forall d, In d (extractLinks html) -> is_dir_link d = true -> In d found)
  /\ (forall d, In d found ->
        (In d (extractLinks html) /\ is_dir_link d = true) \/ In d commonDirs)
  /\ ~ In ("../" : str) found /\ ~ In ("./" : str) found /\ ~ In [] found.
Proof.
  intros found. subst found. rewrite enumLevel_unfold.
  destruct (knownDirs_spec (extractLinks html)) as [Hsorted Hknown].
  destruct (baselineSignature E baseUrl w) as [sig w1]. cbn [fst snd].
  destruct (probeAll_events baseUrl indent sig (knownDirs (extractLinks html))
              commonDirs commonDirs_NoDup (knownDirs (extractLinks html), w1))
    as (evs & _ & _ & _ & Hs & Hkeep); [intros d _; cbn [fst]; reflexivity | exact Hsorted |].
  cbn [fst] in Hkeep.
  assert (forall d, In d (fst (probeAll E baseUrl indent sig commonDirs
                                 (knownDirs (extractLinks html), w1))) ->
                    (In d (extractLinks html) /\ is_dir_link d = true) \/ In d commonDirs)
    as Hfrom.
  { intros d Hd. apply probeAll_found in Hd as [Hd | Hd]; [right; exact Hd|].
    left. apply Hknown, Hd. }
  split; [exact Hs|]. split; [apply sorted_NoDup, Hs|].
  split; [intros d H1 H2; apply Hkeep, Hknown; auto|].
  split; [exact Hfrom|].
  repeat split; intros Hin; apply Hfrom in Hin as [[_ Hin] | Hin];
    first [ discriminate Hin
          | apply (proj2 (set_count_true _ _)) in Hin; vm_compute in Hin;
            discriminate Hin ].
Qed.

End Level.

(** ** The extension of a file name *)

Lemma contains_dot (s : str) : contains s "." = true <-> In "."%char s.
Proof.
  rewrite contains_true. split.
  - intros (pre & post & ->). apply in_or_app. right. left. reflexivity.
  - intros H. apply in_split in H as (pre & post & ->). exists pre, post. reflexivity.
Qed.

Lemma contains_dot_false (s : str) : contains s "." = false <-> ~ In "."%char s.
Proof.
  rewrite <- contains_dot. destruct (contains s "."); split; congruence.
Qed.

Lemma ext_of_no_dot (file : str) : ~ In "."%char file -> ext_of file = file.
Proof.
  destruct file as [|c rest]; [reflexivity|]. intros H. cbn [ext_of].
  assert (contains rest "." = false) as ->
    by (apply contains_dot_false; intros Hin; apply H; right; exact Hin).
  destruct (ascii_eqb c ".") eqn:He; [|reflexivity].
  apply ascii_eqb_true in He. exfalso. apply H. left. exact He.
Qed.

Lemma ext_of_last_dot (stem ext : str) :
  ~ In "."%char ext -> ext_of (stem ++ "." ++ ext) = ext.
Proof.
  intros H. induction stem as [|c stem IH].
  - change ([] ++ "." ++ ext) with ("."%char :: ext). cbn [ext_of].
    apply contains_dot_false in H. rewrite H. reflexivity.
  - change ((c :: stem) ++ "." ++ ext) with (c :: (stem ++ "." ++ ext)).
    cbn [ext_of].
    assert (contains (stem ++ "." ++ ext) "." = true) as ->
      by (apply contains_true; exists stem, ext; reflexivity).
    exact IH.
Qed.

Lemma last_dot (s : str) :
  In "."%char s -> exists stem ext, s = stem ++ "." ++ ext /\ ~ In "."%char ext.
Proof.
  induction s as [|c s IH]; [intros []|]. intros H.
  destruct (in_dec ascii_dec "."%char s) as [Hin | Hno].
  - destruct (IH Hin) as (stem & ext & -> & Hext).
    exists (c :: stem), ext. split; [reflexivity | exact Hext].
  - destruct H as [-> | H]; [|contradiction].
    exists [], s. split; [reflexivity | exact Hno].
Qed.

(** X20. The extension of a file name is the text after its last dot, and
    holds no dot. A name without a dot is its own extension, so a file
    named [md] or [zip] is coloured like a file of that type. The colour
    of a file depends on its extension alone. *)
Theorem ext_of_last_dot_or_name (file : str) :
  (forall stem ext, file = stem ++ "." ++ ext -> ~ In "."%char ext ->
     ext_of file = ext /\ file_color file = file_color ext)
  /\ (~ In "."%char file -> ext_of file = file)
  /\ ~ In "."%char (ext_of file).
Proof.
  split; [|split].
  - intros stem ext -> Hext. split; [apply ext_of_last_dot, Hext|].
    unfold file_color. rewrite ext_of_last_dot, ext_of_no_dot by exact Hext.
    reflexivity.
  - apply ext_of_no_dot.
  - destruct (in_dec ascii_dec "."%char file) as [Hin | Hno].
    + apply last_dot in Hin as (stem & ext & -> & Hext).
      rewrite ext_of_last_dot by exact Hext. exact Hext.
    + rewrite ext_of_no_dot by exact Hno. exact Hno.
Qed.

(** ** The title of a probed page *)

Lemma star_lazy (icase : bool) (a : atom) (caps : list (nat * str))
    (k : mstate -> option mstate) (s : str) (st : mstate) :
  star icase false a s caps k = Some st ->
  exists m rest,
    s = m ++ rest /\ Forall (fun ch => atom_ok icase a ch = true) m
    /\ k (MState rest caps) = Some st
    /\ forall m1 m2, m = m1 ++ m2 -> m2 <> [] -> k (MState (m2 ++ rest) caps) = None.
Proof.
  induction s as [|c s IH]; cbn [star].
  - intros H. exists [], []. split; [reflexivity|]. split; [constructor|].
    split; [exact H|]. intros m1 m2 Hm Hne. symmetry in Hm.
    apply app_eq_nil in Hm as [_ ->]. congruence.
  - destruct (atom_ok icase a c) eqn:Hc.
    + destruct (k (MState (c :: s) caps)) as [r|] eqn:Hk; cbn [or_else].
      * intros [= <-]. exists [], (c :: s). split; [reflexivity|].
        split; [constructor|]. split; [exact Hk|]. intros m1 m2 Hm Hne.
        symmetry in Hm. apply app_eq_nil in Hm as [_ ->]. congruence.
      * intros H. destruct (IH H) as (m & rest & -> & Hall & Hr & Hmin).
        exists (c :: m), rest. split; [reflexivity|].
        split; [constructor; assumption|]. split; [exact Hr|].
        intros m1 m2 Hm Hne. destruct m1 as [|x m1]; simpl in Hm.
        -- subst m2. exact Hk.
        -- injection Hm as _ Hm. apply (Hmin m1 m2 Hm Hne).
    + intros H. exists [], (c :: s). split; [reflexivity|].
      split; [constructor|]. split; [exact H|]. intros m1 m2 Hm Hne.
      symmetry in Hm. apply app_eq_nil in Hm as [_ ->]. congruence.
Qed.

Lemma exec_Lit_Some (icase : bool) (n0 : nat) (l : str) :
  forall st k r,
    exec icase n0 (Lit l) st k = Some r ->
    exists m rest, m_rest st = m ++ rest /\ lit_ok icase l m
                   /\ k (MState rest (m_caps st)) = Some r.
Proof.
  unfold lit_ok. induction l as [|x l IH]; intros st k r; cbn [Lit exec].
  - intros H. exists [], (m_rest st). split; [reflexivity|]. split; [reflexivity|].
    destruct st. exact H.
  - destruct (m_rest st) as [|c s'] eqn:Hs; [discriminate|]. cbn [atom_ok].
    destruct (ascii_eqb _ _) eqn:Hc; [|discriminate].
    apply ascii_eqb_true in Hc. intros H.
    apply IH in H as (m & rest & Hm & Hl & Hk). cbn [m_rest m_caps] in Hm, Hk.
    subst s'. exists (c :: m), rest. split; [reflexivity|].
    split; [simpl; congruence | exact Hk].
Qed.

Lemma exec_Lit_here (icase : bool) (n0 : nat) (l : str) :
  forall m rest caps k,
    lit_ok icase l m ->
    exec icase n0 (Lit l) (MState (m ++ rest) caps) k = k (MState rest caps).
Proof.
  unfold lit_ok. induction l as [|x l IH]; intros m rest caps k Hl; cbn [Lit exec].
  - symmetry in Hl. apply map_eq_nil in Hl as ->. reflexivity.
  - destruct m as [|c m]; [discriminate|]. simpl in Hl. injection Hl as Hc Hl.
    cbn [m_rest app atom_ok m_caps]. rewrite Hc, ascii_eqb_refl.
    apply IH, Hl.
Qed.

Lemma search_from_first (icase : bool) (n0 : nat) (r : regex) (s : str) :
  forall pre m,
    search_from icase n0 r pre s = Some m ->
    exists sk rest st,
      s = sk ++ rest /\ exec icase n0 r (MState rest []) Some = Some st
      /\ rm_prefix m = rev pre ++ sk
      /\ rm_caps m = m_caps st /\ rm_suffix m = m_rest st
      /\ forall sk' rest',
           s = sk' ++ rest' -> length sk' < length sk ->
           exec icase n0 r (MState rest' []) Some = None.
Proof.
  induction s as [|ch s IH]; intros pre m; rewrite search_from_unfold;
    destruct (exec icase n0 r (MState _ []) Some) as [st|] eqn:He;
    try discriminate.
  - intros [= <-]. exists [], [], st. cbn [rm_prefix rm_caps rm_suffix].
    rewrite (app_nil_r (rev pre)).
    repeat (split; [reflexivity || exact He|]). intros sk' rest' _ Hlt.
    simpl in Hlt. lia.
  - intros [= <-]. exists [], (ch :: s), st. cbn [rm_prefix rm_caps rm_suffix].
    rewrite (app_nil_r (rev pre)).
    repeat (split; [reflexivity || exact He|]). intros sk' rest' _ Hlt.
    simpl in Hlt. lia.
  - intros H. apply IH in H as (sk & rest & st & -> & Hx & Hp & Hc & Hsf & Hleft).
    exists (ch :: sk), rest, st. split; [reflexivity|]. split; [exact Hx|].
    split; [rewrite Hp; simpl; rewrite <- app_assoc; reflexivity|].
    split; [exact Hc|]. split; [exact Hsf|].
    intros sk' rest' Hs Hlt. destruct sk' as [|x sk']; simpl in Hs.
    + subst rest'. exact He.
    + injection Hs as _ Hs. apply (Hleft sk' rest' Hs). simpl in Hlt. lia.
Qed.

Lemma search_from_nowhere (icase : bool) (n0 : nat) (r : regex) (s : str) :
  forall pre,
    search_from icase n0 r pre s = None ->
    forall sk rest, s = sk ++ rest -> exec icase n0 r (MState rest []) Some = None.
Proof.
  induction s as [|ch s IH]; intros pre; rewrite search_from_unfold;
    destruct (exec icase n0 r (MState _ []) Some) as [st|] eqn:He;
    try discriminate.
  - intros _ sk rest Hs. symmetry in Hs. apply app_eq_nil in Hs as [_ ->]. exact He.
  - intros H sk rest Hs. destruct sk as [|x sk]; simpl in Hs.
    + subst rest. exact He.
    + injection Hs as _ Hs. apply (IH _ H sk rest Hs).
Qed.

Lemma star_lazy_found (icase : bool) (a : atom) (caps : list (nat * str))
    (k : mstate -> option mstate) (m rest : str) :
  Forall (fun ch => atom_ok icase a ch = true) m ->
  is_Some (k (MState rest caps)) ->
  is_Some (star icase false a (m ++ rest) caps k).
Proof.
  intros Hall Hk. induction Hall as [|c m Hc _ IH]; cbn [app].
  - destruct rest as [|c rest]; cbn [star]; [exact Hk|].
    destruct (atom_ok icase a c); [|exact Hk].
    destruct Hk as [st ->]. cbn [or_else]. eauto.
  - cbn [star]. rewrite Hc.
    destruct (k (MState (c :: m ++ rest) caps)); cbn [or_else]; [eauto | exact IH].
Qed.

Lemma lit_ok_nocase (l m : str) : lit_ok true l m <-> eq_nocase m l.
Proof. unfold lit_ok, eq_nocase, translate. split; intros H; symmetry; exact H. Qed.

Lemma any_char_ok (icase : bool) (t : str) :
  Forall (fun ch => atom_ok icase AnyChar ch = true) t
  <-> Forall (fun ch => is_line_terminator ch = false) t.
Proof.
  split; intros H; induction H; constructor; try assumption; cbn [atom_ok] in *.
  - destruct (is_line_terminator x); [discriminate | reflexivity].
  - rewrite H. reflexivity.
Qed.

Lemma title_exec (n0 : nat) (s : str) (st : mstate) :
  exec true n0 title_regex (MState s []) Some = Some st ->
  exists opening title closing,
    s = opening ++ title ++ closing ++ m_rest st
    /\ m_caps st = [(1, title)]
    /\ eq_nocase opening "<title>" /\ eq_nocase closing "</title>"
    /\ Forall (fun ch => is_line_terminator ch = false) title
    /\ forall t1 c1 rest1,
         title ++ closing ++ m_rest st = t1 ++ c1 ++ rest1 ->
         eq_nocase c1 "</title>" -> length title <= length t1.
Proof.
  unfold title_regex. cbn [exec]. intros H.
  apply exec_Lit_Some in H as (opening & s1 & Hs & Ho & H).
  cbn [m_rest m_caps] in Hs, H. subst s.
  apply star_lazy in H as (title & s2 & -> & Hall & H & Hmin).
  cbn [m_rest m_caps] in H.
  apply exec_Lit_Some in H as (closing & s3 & Hs & Hc & H).
  cbn [m_rest m_caps] in Hs, H. subst s2. injection H as <-.
  cbn [m_rest m_caps].
  rewrite length_app, Nat.add_sub, take_app_length.
  exists opening, title, closing. split; [reflexivity|]. split; [reflexivity|].
  split; [apply lit_ok_nocase, Ho|]. split; [apply lit_ok_nocase, Hc|].
  split; [apply any_char_ok in Hall; exact Hall|].
  intros t1 c1 rest1 Heq Hc1.
  destruct (le_lt_dec (length title) (length t1)) as [Hle | Hlt]; [exact Hle|].
  exfalso.
  assert (title = t1 ++ drop (length t1) title) as Hsplit.
  { rewrite <- (take_drop (length t1) title) at 1. f_equal.
    apply (f_equal (take (length t1))) in Heq.
    rewrite take_app_length, take_app_le in Heq by lia. exact Heq. }
  set (t2 := drop (length t1) title) in *.
  assert (t2 <> []) as Hne.
  { intros Hnil. rewrite Hnil, app_nil_r in Hsplit. rewrite Hsplit in Hlt. lia. }
  pose proof (Hmin t1 t2 Hsplit Hne) as Hk. cbn [m_rest m_caps] in Hk.
  rewrite Hsplit, <- app_assoc in Heq. apply app_inv_head in Heq.
  rewrite Heq in Hk.
  rewrite (exec_Lit_here true n0 "</title>" c1 rest1) in Hk
    by (apply lit_ok_nocase, Hc1).
  discriminate Hk.
Qed.

Lemma title_exec_found (n0 : nat) (opening title closing after : str) :
  eq_nocase opening "<title>" -> eq_nocase closing "</title>" ->
  Forall (fun ch => is_line_terminator ch = false) title ->
  is_Some (exec true n0 title_regex
             (MState (opening ++ title ++ closing ++ after) []) Some).
Proof.
  intros Ho Hc Hall. unfold title_regex. cbn [exec].
  rewrite (exec_Lit_here true n0 "<title>" opening) by (apply lit_ok_nocase, Ho).
  cbn [m_rest m_caps]. apply star_lazy_found; [apply any_char_ok, Hall|].
  cbn [m_rest m_caps].
  rewrite (exec_Lit_here true n0 "</title>" closing) by (apply lit_ok_nocase, Hc).
  eauto.
Qed.

Lemma eq_nocase_length (a b : str) : eq_nocase a b -> length a = length b.
Proof.
  unfold eq_nocase. intros H. apply (f_equal (@length ascii)) in H.
  rewrite !length_map in H. exact H.
Qed.

Lemma app_same_length (a b c d : str) :
  a ++ b = c ++ d -> length a = length c -> a = c /\ b = d.
Proof.
  intros H Hl. apply app_inj_1 in H; [exact H | exact Hl].
Qed.

Lemma TitleAt_exec (n0 : nat) (sk rest before title : str) :
  TitleAt (sk ++ rest) before title -> length before = length sk ->
  is_Some (exec true n0 title_regex (MState rest []) Some).
Proof.
  intros (o & c & a & Heq & Ho & Hc & Hall) Hlen.
  symmetry in Heq. apply app_same_length in Heq as [_ <-]; [|exact Hlen].
  apply title_exec_found; assumption.
Qed.

(** What the search finds is the first title element of the page, with
    the nearest closing tag. *)
Lemma probe_title_found (probe : str) (m : rmatch) :
  regex_search true title_regex probe = Some m ->
  exists before,
    TitleAt probe before (rm_group 1 m)
    /\ (forall before' title',
          TitleAt probe before' title' -> length before <= length before')
    /\ (forall title',
          TitleAt probe before title' -> length (rm_group 1 m) <= length title').
Proof.
  unfold regex_search. intros Hs.
  apply search_from_first in Hs as (sk & rest & st & Hp & Hx & _ & Hc & _ & Hleft).
  apply title_exec in Hx as (o & t & c & Hr & Hcaps & Ho & Hcl & Hall & Hmin).
  assert (rm_group 1 m = t) as ->
    by (unfold rm_group; rewrite Hc, Hcaps; reflexivity).
  exists sk. split; [|split].
  - exists o, c, (m_rest st). subst probe rest. auto.
  - intros before' title' Hat.
    destruct (le_lt_dec (length sk) (length before')) as [Hle | Hlt]; [exact Hle|].
    exfalso.
    assert (probe = before' ++ drop (length before') probe) as Hsplit.
    { destruct Hat as (o' & c' & a' & Heq & _). rewrite Heq at 2.
      rewrite drop_app_length. exact Heq. }
    pose proof (Hleft _ _ Hsplit Hlt) as Hnone.
    rewrite Hsplit in Hat.
    destruct (TitleAt_exec (length probe) _ _ _ _ Hat eq_refl) as [st' Hst'].
    congruence.
  - intros title' (o' & c' & a' & Heq & Ho' & Hc' & _).
    rewrite Hp, Hr in Heq. apply app_inv_head in Heq.
    apply app_same_length in Heq as [_ Heq];
      [|rewrite (eq_nocase_length _ _ Ho), (eq_nocase_length _ _ Ho'); reflexivity].
    apply (Hmin title' c' a' Heq Hc').
Qed.

Lemma TitleAt_same (probe before before' title title' : str) :
  TitleAt probe before title -> TitleAt probe before' title' ->
  length before = length before' -> length title = length title' ->
  title = title'.
Proof.
  intros (o & c & a & Heq & Ho & _) (o' & c' & a' & Heq' & Ho' & _) Hb Ht.
  rewrite Heq in Heq'.
  apply app_same_length in Heq' as [_ Heq']; [|exact Hb].
  apply app_same_length in Heq' as [_ Heq'];
    [|rewrite (eq_nocase_length _ _ Ho), (eq_nocase_length _ _ Ho'); reflexivity].
  apply app_same_length in Heq' as [Heq' _]; [exact Heq' | exact Ht].
Qed.

Lemma TitleAt_before (probe before before' title title' : str) :
  TitleAt probe before title -> TitleAt probe before' title' ->
  length before = length before' -> before = before'.
Proof.
  intros (o & c & a & Heq & _) (o' & c' & a' & Heq' & _) Hb.
  rewrite Heq in Heq'. apply app_same_length in Heq' as [Heq' _]; assumption.
Qed.

(** X21. The title that the classifier reads is that of the first title
    element of the page that lies on one line: the text between the
    leftmost opening title tag that is closed on its own line and the
    nearest closing tag after it, the tags in any letter case. Whenever
    the page has such an element, the title is exactly this text, and no
    other: of two elements in a row the first gives the title. A page in
    which every pair of title tags has a line break between them has no
    title and does not earn the title signal. *)
Theorem probe_title_first_pair (probe : str) :
  ((exists before title, TitleAt probe before title) ->
   exists before,
     TitleAt probe before (probe_title probe)
     /\ (forall before' title',
           TitleAt probe before' title' -> length before <= length before')
     /\ (forall title',
           TitleAt probe before title' -> length (probe_title probe) <= length title'))
  /\ (forall before title,
        TitleAt probe before title ->
        (forall before' title',
            TitleAt probe before' title' -> length before <= length before') ->
        (forall title', TitleAt probe before title' -> length title <= length title') ->
        probe_title probe = title)
  /\ ((forall before opening title closing after,
         probe = before ++ opening ++ title ++ closing ++ after ->
         eq_nocase opening "<title>" -> eq_nocase closing "</title>" ->
         exists ch, In ch title /\ is_line_terminator ch = true) ->
      probe_title probe = [] /\ sig_titleOk probe = false)
  /\ probe_title "<title>A</title><title>B</title>" = "A"
  /\ probe_title ("<title>A" ++ newline :: "</title><TITLE>B</Title>") = "B".
Proof.
  assert ((exists before title, TitleAt probe before title) ->
          exists before,
            TitleAt probe before (probe_title probe)
            /\ (forall before' title',
                  TitleAt probe before' title' -> length before <= length before')
            /\ (forall title',
                  TitleAt probe before title' ->
                  length (probe_title probe) <= length title')) as Hfound.
  { intros (before & title & Hat). unfold probe_title.
    destruct (regex_search true title_regex probe) as [m|] eqn:Hs.
    - apply probe_title_found, Hs.
    - exfalso. unfold regex_search in Hs.
      assert (probe = before ++ drop (length before) probe) as Hsplit.
      { destruct Hat as (o & c & a & Heq & _). rewrite Heq at 2.
        rewrite drop_app_length. exact Heq. }
      pose proof (search_from_nowhere _ _ _ _ _ Hs _ _ Hsplit) as Hnone.
      rewrite Hsplit in Hat.
      destruct (TitleAt_exec (length probe) _ _ _ _ Hat eq_refl) as [st Hst].
      congruence. }
  split; [exact Hfound|]. split; [|split; [|split; vm_compute; reflexivity]].
  - intros before title Hat Hleft Hnear.
    destruct (Hfound (ex_intro _ before (ex_intro _ title Hat)))
      as (before0 & Hat0 & Hleft0 & Hnear0).
    assert (length before0 = length before) as Hb.
    { apply Nat.le_antisymm; [apply (Hleft0 _ _ Hat) | apply (Hleft _ _ Hat0)]. }
    assert (before0 = before) as -> by (eapply TitleAt_before; eassumption).
    eapply TitleAt_same; [exact Hat0 | exact Hat | reflexivity|].
    apply Nat.le_antisymm; [apply (Hnear0 _ Hat) | apply (Hnear _ Hat0)].
  - intros Hno.
    assert (probe_title probe = []) as Hnil.
    { unfold probe_title.
      destruct (regex_search true title_regex probe) as [m|] eqn:Hs; [|reflexivity].
      exfalso. apply probe_title_found in Hs as (before & (o & c & a & Heq & Ho & Hc & Hall) & _).
      destruct (Hno _ _ _ _ _ Heq Ho Hc) as (ch & Hin & Hch).
      rewrite Forall_forall in Hall. apply list_elem_of_In, Hall in Hin. congruence. }
    split; [exact Hnil|]. unfold sig_titleOk. rewrite Hnil. reflexivity.
Qed.

(** ** The tokens of a line *)

Lemma extract_lead (ws s : str) : white ws -> extract (ws ++ s) = extract s.
Proof. intros H. unfold extract. rewrite skip_ws_white by exact H. reflexivity. Qed.

Lemma splitInput_lead (ws s : str) : white ws -> splitInput (ws ++ s) = splitInput s.
Proof.
  intros H. rewrite splitInput_step, extract_lead by exact H.
  symmetry. apply splitInput_step.
Qed.

Lemma splitInput_trail_aux (ws : str) (n : nat) :
  white ws -> forall s, length s < n -> splitInput (s ++ ws) = splitInput s.
Proof.
  intros Hws. induction n as [|n IH]; intros s Hlen; [lia|].
  rewrite (splitInput_step s). destruct (extract s) as [[t rest]|] eqn:He.
  - pose proof (extract_length _ _ _ He) as Hlt.
    apply extract_Some in He as (lead & Hlead & Ht & -> & Hrest).
    rewrite <- !app_assoc. rewrite splitInput_cons; [|assumption..|].
    + f_equal. apply IH. lia.
    + destruct Hrest as [-> | (c & r & -> & Hc)].
      * apply white_rest, Hws.
      * right. exists c, (r ++ ws). split; [reflexivity | exact Hc].
  - apply extract_None in He. apply splitInput_white, Forall_app. split; assumption.
Qed.

Lemma splitInput_trail (ws s : str) : white ws -> splitInput (s ++ ws) = splitInput s.
Proof. intros H. apply (splitInput_trail_aux ws (S (length s)) H). lia. Qed.

Lemma splitInput_nil (s : str) : splitInput s = [] <-> white s.
Proof.
  split; [|apply splitInput_white].
  rewrite splitInput_step. destruct (extract s) as [[t rest]|] eqn:He; [discriminate|].
  intros _. apply extract_None, He.
Qed.

Lemma splitInput_Words_aux (n : nat) :
  forall s, length s < n -> Words s (splitInput s).
Proof.
  induction n as [|n IH]; intros s Hlen; [lia|].
  rewrite splitInput_step. destruct (extract s) as [[t rest]|] eqn:He.
  - pose proof (extract_length _ _ _ He) as Hlt.
    apply extract_Some in He as (ws & Hws & Ht & -> & Hrest).
    apply Words_cons; [assumption..|]. apply IH. lia.
  - apply Words_blank, extract_None, He.
Qed.

Lemma Words_splitInput (s : str) (ts : list str) : Words s ts -> splitInput s = ts.
Proof.
  induction 1 as [ws Hws | ws t rest ts Hws Ht Hrest _ IH].
  - apply splitInput_white, Hws.
  - rewrite splitInput_cons by assumption. f_equal. exact IH.
Qed.

(** X22. The tokens of a line are exactly its words, in order: the runs
    of characters that are not white space, each as long as it can be,
    so that a token starts at the beginning of the line or after white
    space and ends at the end of the line or before white space. No
    token is empty or holds white space, and the tokens put together are
    the line without its white space. A line has no token exactly when it
    is blank, and white space before or after a line changes nothing. *)
Theorem splitInput_words (s : str) :
  (forall ts, splitInput s = ts <-> Words s ts)
  /\ Forall word (splitInput s)
  /\ concat (splitInput s) = List.filter not_space s
  /\ (splitInput s = [] <-> white s)
  /\ (forall ws, white ws ->
        splitInput (ws ++ s) = splitInput s /\ splitInput (s ++ ws) = splitInput s).
Proof.
  destruct (splitInput_words_aux (S (length s)) s ltac:(lia)) as [H1 H2].
  split.
  { intros ts. split; [|apply Words_splitInput].
    intros <-. apply (splitInput_Words_aux (S (length s))). lia. }
  split; [exact H1|]. split; [exact H2|]. split; [apply splitInput_nil|].
  intros ws Hws. split; [apply splitInput_lead | apply splitInput_trail]; exact Hws.
Qed.

(** X23. Words joined by single spaces, with any white space before and
    after them, are split into the same words again. *)
Theorem splitInput_of_unwords (tokens : list str) :
  Forall word tokens ->
  forall lead trail, white lead -> white trail ->
    splitInput (lead ++ unwords tokens ++ trail) = tokens.
Proof.
  induction 1 as [|t tokens Ht Htok IH]; intros lead trail Hlead Htrail.
  - apply splitInput_white, Forall_app. split; assumption.
  - destruct tokens as [|t' tokens].
    + cbn [unwords]. rewrite splitInput_cons by (auto using white_rest).
      f_equal. apply splitInput_white, Htrail.
    + cbn [unwords]. rewrite <- !app_assoc.
      rewrite splitInput_cons;
        [|assumption|assumption|right; eexists _, _; split; reflexivity].
      f_equal. apply (IH (" " : str) trail); [|assumption].
      constructor; [reflexivity | constructor].
Qed.

(** ** Completion *)


(** X24. What is suggested depends on the tokens of the line alone: all
    commands for a blank line; the commands that start with the only
    token; the sub-commands of the first token that start with the
    second, where [connect global] offers both protocols at once; a third
    token is completed only after [connect global] and after [inject];
    from four tokens on nothing is suggested. The cases that the code
    goes through after the table add nothing to the table. White space
    after the line changes nothing: after a complete word the suggestions
    are still those for that word. *)
Theorem getCompletions_by_tokens (buffer : str) :
  getCompletions buffer
  = match splitInput buffer with
    | [] => mainCommands
    | [t] => completing t mainCommands
    | [cmd; t] =>
        if str_eqb cmd "connect" && str_eqb t "global"
        then ["http" : str; "https" : str]
        else completing t (subs_of cmd)
    | [cmd; t1; t2] =>
        if str_eqb cmd "connect" && str_eqb t1 "global"
        then completing t2 ["http" : str; "https" : str]
        else if str_eqb cmd "inject"
             then completing t2 ["--sql" : str; "--xss" : str; "--cmd" : str]
             else []
    | _ => []
    end
  /\ (forall ws, white ws -> getCompletions (buffer ++ ws) = getCompletions buffer).
Proof.
  split.
  - destruct (splitInput buffer) as [|cmd [|t1 [|t2 [|t3 rest]]]] eqn:Htok.
    + unfold getCompletions. rewrite Htok. reflexivity.
    + unfold getCompletions. rewrite Htok. reflexivity.
    + apply completions_two, Htok.
    + apply completions_three, Htok.
    + apply (completions_more buffer cmd t1 t2 t3 rest), Htok.
  - intros ws Hws. unfold getCompletions.
    rewrite (splitInput_trail ws buffer Hws). reflexivity.
Qed.

(** ** The dispatch of a line *)

Lemma split_command_cases (line : str) :
  (~ In " "%char line /\ split_command line = (line, []))
  \/ exists cmd args,
       line = cmd ++ " " ++ args /\ ~ In " "%char cmd
       /\ split_command line = (cmd, args).
Proof.
  unfold split_command. destruct (find_char " " line) as [p|] eqn:Hf.
  - right. apply find_char_Some in Hf as (Heq & Hno & _).
    exists (take p line), (drop (p + 1) line). auto.
  - left. apply find_char_absent in Hf. auto.
Qed.

Lemma split_command_at (cmd args : str) :
  ~ In " "%char cmd -> split_command (cmd ++ " " ++ args) = (cmd, args).
Proof.
  intros H. unfold split_command.
  change (cmd ++ " " ++ args) with (cmd ++ " "%char :: args).
  rewrite find_char_found by exact H.
  rewrite take_app_length.
  rewrite <- drop_drop, drop_app_length. reflexivity.
Qed.

Lemma route_cases (line : str) :
  (line = [] /\ route line = ToNothing)
  \/ (line <> [] /\ ~ In " "%char line /\ route line = dispatch line [])
  \/ exists cmd args,
       line = cmd ++ " " ++ args /\ ~ In " "%char cmd
       /\ route line = dispatch cmd args.
Proof.
  destruct line as [|c line]; [left; split; reflexivity|]. right.
  unfold route. cbn [is_empty].
  destruct (split_command_cases (c :: line)) as [[Hno ->] | (cmd & args & Heq & Hno & ->)].
  - left. split; [discriminate|]. split; [exact Hno | reflexivity].
  - right. exists cmd, args. auto.
Qed.

Ltac next_test :=
  match goal with
  | |- (if ?t then _ else _) = _ -> _ => destruct t eqn:?
  end.

Lemma dispatch_setup (cmd args : str) :
  dispatch cmd args = ToSetup -> cmd = "tcli" /\ args = "setup".
Proof.
  unfold dispatch. repeat (next_test; try discriminate).
  intros _. match goal with H : _ && _ = true |- _ => apply andb_true_iff in H as [H1 H2] end.
  apply str_eqb_true in H1, H2. auto.
Qed.

Lemma dispatch_list_global (cmd args : str) :
  dispatch cmd args = ToListGlobal -> cmd = "ld" /\ args = "global".
Proof.
  unfold dispatch. repeat (next_test; try discriminate).
  intros _.
  repeat match goal with H : str_eqb _ _ = true |- _ => apply str_eqb_true in H end.
  auto.
Qed.

Lemma dispatch_connect (cmd args args0 : str) :
  dispatch cmd args = ToConnect args0 -> cmd = "connect" /\ args = args0.
Proof.
  unfold dispatch. repeat (next_test; try discriminate).
  intros [= <-].
  repeat match goal with H : str_eqb _ _ = true |- _ => apply str_eqb_true in H end.
  auto.
Qed.

Lemma dispatch_something (cmd args : str) : dispatch cmd args <> ToNothing.
Proof.
  unfold dispatch. intros H. revert H. repeat (next_test; try discriminate).
Qed.

(** X25. The command of a line is the text before its first space, taken
    as it is. A line that starts with a space has the empty command and
    is not known. [tcli setup] and [ld global] are run for exactly these
    lines. [connect] is given all that follows its first space, white
    space included. Only the empty line is skipped. *)
Theorem route_first_word (line : str) :
  (forall rest, route (" "%char :: rest) = ToUnknown [])
  /\ (route line = ToSetup <-> line = "tcli setup")
  /\ (route line = ToListGlobal <-> line = "ld global")
  /\ (forall args,
        route line = ToConnect args <->
        (line = "connect" /\ args = []) \/ line = "connect " ++ args)
  /\ (route line = ToNothing <-> line = []).
Proof.
  split; [reflexivity|].
  pose proof (route_cases line) as Hc.
  split; [|split; [|split]].
  - split; [|intros ->; reflexivity]. intros H.
    destruct Hc as [[-> Hr] | [(_ & _ & Hr) | (cmd & args & -> & _ & Hr)]];
      rewrite Hr in H; try discriminate H;
      apply dispatch_setup in H as [H1 H2]; [discriminate H2|].
    subst. reflexivity.
  - split; [|intros ->; reflexivity]. intros H.
    destruct Hc as [[-> Hr] | [(_ & _ & Hr) | (cmd & args & -> & _ & Hr)]];
      rewrite Hr in H; try discriminate H;
      apply dispatch_list_global in H as [H1 H2]; [discriminate H2|].
    subst. reflexivity.
  - intros args0. split.
    + intros H.
      destruct Hc as [[-> Hr] | [(_ & _ & Hr) | (cmd & args & -> & _ & Hr)]];
        rewrite Hr in H; try discriminate H;
        apply dispatch_connect in H as [H1 H2]; subst.
      * left. auto.
      * right. reflexivity.
    + intros [[-> ->] | ->]; [reflexivity|].
      unfold route. cbn [is_empty app list_ascii_of_string].
      change ("c"%char :: "o"%char :: "n"%char :: "n"%char :: "e"%char :: "c"%char
                :: "t"%char :: " "%char :: args0)
        with (list_ascii_of_string "connect" ++ " " ++ args0).
      rewrite split_command_at; [reflexivity|].
      cbv. intuition discriminate.
  - split; [|intros ->; reflexivity]. intros H.
    destruct Hc as [[-> Hr] | [(_ & _ & Hr) | (cmd & args & -> & _ & Hr)]];
      [reflexivity | |]; rewrite Hr in H; apply dispatch_something in H; contradiction.
Qed.

(** * The theorems at sample inputs *)

Ltac no_char := cbv [In list_ascii_of_string newline]; intuition discriminate.
Ltac is_word := repeat constructor; discriminate.
Ltac is_white := repeat constructor.

Lemma loadConfig_saveConfig_roundtrip_witness :
  config (loadConfig (disk_sys (config_text two_entries)) "TCLI"
            (MkShell ∅ fresh_world []))
  = two_entries.
Proof.
  destruct (loadConfig_saveConfig_roundtrip (disk_sys (config_text two_entries)) "TCLI"
              (MkShell two_entries fresh_world []) (MkShell ∅ fresh_world []))
    as (_ & _ & _ & _ & H).
  - intros k v Hk. apply elem_of_list_to_map_2, list_elem_of_In in Hk.
    destruct Hk as [[= <- <-] | [[= <- <-] | []]]; repeat split; no_char.
  - reflexivity.
  - reflexivity.
  - apply H. reflexivity.
Defined.

Lemma loadConfig_lines_witness :
  config (loadConfig (disk_sys (unlines two_lines ++ "x=1")) "TCLI" start_shell)
    !! ("user" : str)
  = Some ("b" : str).
Proof.
  apply (loadConfig_lines (disk_sys (unlines two_lines ++ "x=1")) "TCLI"
           two_lines "x=1" "user" start_shell).
  - repeat constructor; no_char.
  - reflexivity.
Defined.

Lemma splitInput_of_unwords_witness :
  splitInput " connect global  " = [ "connect" : str; "global" : str ].
Proof.
  apply (splitInput_of_unwords [ "connect" : str; "global" : str ]
           ltac:(is_word) " " "  "); is_white.
Defined.

Lemma connect_then_enum_witness :
  exists sh' u,
    cmdConnect bare_sys "global http example.com" start_shell = Finished sh'
    /\ config sh' !! ("gl_path" : str) = Some u
    /\ (startsWith u "http" = true \/ startsWith u "HTTP" = true).
Proof.
  destruct (connect_then_enum silent_env bare_sys "http example.com" 1 start_shell)
    as (sh' & Hsh' & H).
  apply Finished_inj in Hsh'. subst sh'.
  destruct H as (u & H1 & H2 & _).
  - intros Heq. apply (f_equal (fun c => c !! ("gl_path" : str))) in Heq.
    vm_compute in Heq. discriminate Heq.
  - eexists _, u. split; [reflexivity|]. split; [exact H1 | exact H2].
Defined.

Lemma commands_need_target_witness :
  cmdEnum silent_env 0 start_shell = Finished (cerr not_connected start_shell).
Proof.
  destruct (commands_need_target silent_env 0 start_shell) as (H & _).
  - reflexivity.
  - exact H.
Defined.

Lemma cmdEnum_depth_setting_witness :
  exists w,
    cmdEnum silent_env 5 connected_shell
    = Finished (MkShell (config connected_shell) w (io connected_shell)).
Proof.
  destruct (cmdEnum_depth_setting silent_env 0 "http://h" "3" connected_shell)
    as (_ & _ & H).
  - reflexivity.
  - discriminate.
  - reflexivity.
  - destruct (H 3%Z) as (w & Hw & _); [reflexivity | lia |].
    exists w. exact Hw.
Defined.

Lemma cmdBreak_clears_target_witness :
  (exists sh',
      cmdBreak short_names_sys "global" long_shell = Thrown sh'
      /\ config sh' !! ("gl_path" : str) = Some long_url)
  /\ (exists sh',
        cmdBreak bare_sys "global" connected_shell = Finished sh'
        /\ config sh' !! ("gl_path" : str) = Some ("n/a" : str)).
Proof.
  split.
  - destruct (cmdBreak_clears_target short_names_sys "global" long_shell)
      as ((_ & Hthrown & Hkept & _) & _); [right; reflexivity|].
    eexists. split.
    + apply Hthrown. split; [|split; [|reflexivity]].
      * intros H. vm_compute in H. discriminate H.
      * vm_compute. reflexivity.
    + vm_compute. reflexivity.
  - destruct (cmdBreak_clears_target bare_sys "global" connected_shell)
      as ((Hdone & _ & _ & Hcan & _) & _); [right; reflexivity|].
    destruct Hcan as [_ Hcan]. destruct Hcan as [sh' Hsh'].
    + right. vm_compute. discriminate.
    + exists sh'. split; [exact Hsh'|]. apply (Hdone sh' Hsh').
Defined.

Lemma break_then_enum_witness :
  exists sh',
    cmdBreak bare_sys "GLOBAL" connected_shell = Finished sh'
    /\ cmdEnum silent_env 5 sh' = Finished (cerr not_connected sh').
Proof.
  destruct (break_then_enum silent_env bare_sys "GLOBAL" 5 connected_shell)
    as [(sh' & H1 & H2 & _) | (sh' & H1 & _)].
  - reflexivity.
  - exists sh'. split; [exact H1 | exact H2].
  - discriminate H1.
Defined.

Lemma cmdSet_quoted_value_witness :
  config (cmdSet bare_sys ("user " ++ dquote :: "a b" ++ dquote :: " true") start_shell)
  = <[("user" : str) := ("a b" : str)]> default_config.
Proof.
  destruct (cmdSet_quoted_value bare_sys [] "user" " " "a b" " " "true" [] "local" dquote
              start_shell) as (H & _).
  - is_white.
  - is_word.
  - is_white.
  - discriminate.
  - left. reflexivity.
  - cbv [In list_ascii_of_string dquote]. intuition discriminate.
  - discriminate.
  - is_white.
  - is_word.
  - left. reflexivity.
  - reflexivity.
  - exact H.
Defined.

Lemma editor_returns_typed_text_witness :
  line_of (readLineWithArrows (fun s => s) [] (map code "ld" ++ [13%Z]) start_shell)
  = Some ("ld" : str).
Proof.
  destruct (editor_returns_typed_text (fun s => s) [] "ld" 13%Z start_shell) as (H & _).
  - repeat constructor.
  - right. reflexivity.
  - exact H.
Defined.

Lemma editor_history_recall_witness :
  line_of (readLine (fun s => s) two_lines (presses 1 up_key ++ [13%Z])
             (MkEditor [] 0 2%Z [] false false) start_shell)
  = Some ("user=b" : str).
Proof.
  destruct (editor_history_recall (fun s => s) two_lines 1 0 [] [] 0 false []
              start_shell) as (H & _).
  - simpl. lia.
  - exact H.
Defined.

Lemma editor_keys_cancel_witness :
  line_of (readLine (fun s => s) [] (code "a" :: 127%Z :: [13%Z])
             (MkEditor "x" 1 0%Z [] false true) start_shell)
  = line_of (readLine (fun s => s) [] [13%Z] (MkEditor "x" 1 0%Z [] false true)
               start_shell).
Proof.
  destruct (editor_keys_cancel (fun s => s) [] "a" [13%Z]
              (MkEditor "x" 1 0%Z [] false true) start_shell) as (H & _).
  - simpl. lia.
  - apply H. reflexivity.
Defined.
